(** * IB2d, Python port: the supporting functions of [Supp.py]

    A shallow embedding of [src/Python/Supp.py] and the properties of its
    functions.

    Numbers.  numpy's float64 values are modelled as the real numbers [R]
    (no NaN, no infinities); Python's and numpy's integers are [Z].  The
    arithmetic on values is exact: the error of a float64 operation, of the
    size of one rounding, is not modelled.  The exception is the one
    computation of [Supp.py] whose floats become array indices,
    [give_1D_NonZero_Delta_Indices]: there the quotient, the sums and the
    difference are rounded to float64 ([float64]: to nearest, ties to even),
    as numpy does.  [%] on floats is [x - floor(x/y)*y]; on the integers and
    half-integers of the index computation, with a grid size below [2^52],
    the float64 remainder is this number.

    Arrays.  A numpy array is a Python object: the caller and the function
    share it.  The model keeps every array that a program binds to a name,
    passes to a function or returns in a store ([heap]) and hands locations
    around, so that an update in place is seen by everyone who holds the
    location.  The anonymous intermediate results of a numpy expression
    cannot be aliased and are computed as values.  Arrays have one or two
    dimensions, as everywhere in [Supp.py].

    Effects.  A function of [Supp.py] is a computation in [M]: it reads and
    updates the [world] (the store, the module's global names, what was
    printed) and either returns a value or raises a Python exception; the
    world is kept when an exception is raised. *)

From Stdlib Require Import Reals Lra Lia ZArith String.
From stdpp Require Import base option list gmap strings.

Set Default Proof Using "Type".

(* ================================================================== *)
(** ** Exceptions, outcomes and the world *)

(** The Python exceptions the modelled statements can raise.  [InvalidRef]
    is not a Python exception: it is the model's answer to a location that
    is outside the store, which no Python program can hold.  [Unmodelled]
    marks a statement that leaves the model: an intermediate array of three
    or more dimensions, or a row where the program expects a scalar. *)
Inductive exn : Type :=
| IndexError
| ValueError
| AxisError
| TypeError
| NameError (name : string)
| InvalidRef
| Unmodelled.

Inductive outcome (A : Type) : Type :=
| Ret (a : A)
| Raise (e : exn).
Arguments Ret {A} a.
Arguments Raise {A} e.

(** A one- or two-dimensional array.  [Arr2 c rows] has shape
    [(length rows, c)]: the number of columns is kept apart, so that an
    array with no rows still has its second dimension. *)
Inductive arr (A : Type) : Type :=
| Arr1 (v : list A)
| Arr2 (ncols : nat) (rows : list (list A)).
Arguments Arr1 {A} v.
Arguments Arr2 {A} ncols rows.

(** A numpy array with its dtype: float64 or an integer type. *)
Inductive ndarray : Type :=
| FloatArr (a : arr R)
| IntArr (a : arr Z).

Definition loc := nat.

Record world : Type := World {
  heap : list ndarray;          (* the arrays, by location *)
  globals : gmap string loc;    (* module-level names bound to arrays *)
  stdout : list string          (* what [print] wrote, oldest first *)
}.

Definition M (A : Type) : Type := world -> outcome A * world.

Definition ret {A} (a : A) : M A := fun w => (Ret a, w).

Definition bind {A B} (m : M A) (k : A -> M B) : M B :=
  fun w => match m w with
           | (Ret a, w') => k a w'
           | (Raise e, w') => (Raise e, w')
           end.

Definition raise {A} (e : exn) : M A := fun w => (Raise e, w).

Notation "x <- m ;; k" := (bind m (fun x => k))
  (at level 100, m at next level, right associativity).
Notation "m ;; k" := (bind m (fun _ => k))
  (at level 100, right associativity).

(** An optional value, or the given exception. *)
Definition orraise {A} (e : exn) (o : option A) : M A :=
  match o with Some a => ret a | None => raise e end.

(** *** The store *)

(** A new array object. *)
Definition alloc (a : ndarray) : M loc :=
  fun w => (Ret (length (heap w)),
            World (heap w ++ [a]) (globals w) (stdout w)).

Definition load (l : loc) : M ndarray :=
  fun w => match heap w !! l with
           | Some a => (Ret a, w)
           | None => (Raise InvalidRef, w)
           end.

(** Overwrites the contents of the array object at [l]. *)
Definition store (l : loc) (a : ndarray) : M unit :=
  fun w => match heap w !! l with
           | Some _ => (Ret tt, World (<[l:=a]> (heap w)) (globals w) (stdout w))
           | None => (Raise InvalidRef, w)
           end.

(** A name that the function body does not bind is looked up among the
    module's globals; an unbound name raises [NameError]. *)
Definition global (name : string) : M loc :=
  fun w => match globals w !! name with
           | Some l => (Ret l, w)
           | None => (Raise (NameError name), w)
           end.

Definition print (s : string) : M unit :=
  fun w => (Ret tt, World (heap w) (globals w) (stdout w ++ [s])).

(** [for i in range(n): body i] *)
Fixpoint for_from (start n : nat) (body : nat -> M unit) : M unit :=
  match n with
  | O => ret tt
  | S n' => body start ;; for_from (S start) n' body
  end.

Definition for_range (n : nat) (body : nat -> M unit) : M unit :=
  for_from 0 n body.

(* ================================================================== *)
(** ** Arrays as values *)

Section arrays.
Context {A B C : Type}.

Definition amap (f : A -> B) (a : arr A) : arr B :=
  match a with
  | Arr1 v => Arr1 (f <$> v)
  | Arr2 c rows => Arr2 c (fmap (M:=list) f <$> rows)
  end.

(** [a.shape] *)
Definition shape (a : arr A) : list nat :=
  match a with
  | Arr1 v => [length v]
  | Arr2 c rows => [length rows; c]
  end.

(** Every row has the declared number of columns. *)
Definition wf_arr (a : arr A) : Prop :=
  match a with
  | Arr1 _ => True
  | Arr2 c rows => Forall (fun r => length r = c) rows
  end.

(** Broadcasting of one axis: equal lengths, or one of them is 1. *)
Definition bdim (n m : nat) : option nat :=
  if decide (n = m) then Some n
  else if decide (n = 1) then Some m
  else if decide (m = 1) then Some n
  else None.

(** An axis of length 1 is repeated to length [n]. *)
Definition stretch {X} (n : nat) (l : list X) : list X :=
  match l with
  | [x] => replicate n x
  | _ => l
  end.

Definition zip_bc (f : A -> B -> C) (n : nat) (v : list A) (w : list B)
  : list C :=
  zip_with f (stretch n v) (stretch n w).

(** A one-dimensional array seen as a single row. *)
Definition as_rows {X} (a : arr X) : nat * list (list X) :=
  match a with
  | Arr1 v => (length v, [v])
  | Arr2 c rows => (c, rows)
  end.

(** An element-wise binary operation with numpy's broadcasting; [None]
    when the shapes are not compatible. *)
Definition azip (f : A -> B -> C) (a : arr A) (b : arr B) : option (arr C) :=
  match a, b with
  | Arr1 v, Arr1 w =>
      n ← bdim (length v) (length w);
      Some (Arr1 (zip_bc f n v w))
  | _, _ =>
      let '(c, m) := as_rows a in
      let '(c', m') := as_rows b in
      r ← bdim (length m) (length m');
      k ← bdim c c';
      Some (Arr2 k (zip_with (zip_bc f k) (stretch r m) (stretch r m')))
  end.
End arrays.

(** *** Numbers *)

#[global] Instance Rlt_decision (a b : R) : Decision (a < b)%R := Rlt_dec a b.
#[global] Instance Rle_decision (a b : R) : Decision (a <= b)%R := Rle_dec a b.
#[global] Instance Rge_decision (a b : R) : Decision (a >= b)%R := Rge_dec a b.
#[global] Instance Req_decision : EqDecision R := Req_dec_T.
#[global] Instance R_inhabited : Inhabited R := populate 0%R.

(** Rounding to float64, for the computation of the indices
    ([give_1D_NonZero_Delta_Indices]).  Binary64 keeps 53 significant binary
    digits, down to the least exponent [-1074] of the subnormal numbers;
    overflow to an infinity is not modelled. *)

(** The position of the leading binary digit of [x <> 0]: the [e] with
    [2^(e-1) <= |x| < 2^e]. *)
Definition mag (x : R) : Z := (Zfloor (ln (Rabs x) / ln 2) + 1)%Z.

(** The exponent of the last binary digit that a float64 keeps for [x]: 53
    significant digits, and none below [2^-1074]. *)
Definition last_place (x : R) : Z := Z.max (mag x - 53) (-1074).

(** The nearest integer; of two that are equally near, the even one. *)
Definition Znearest_even (t : R) : Z :=
  let f := Zfloor t in
  if decide (t - IZR f < 1 / 2)%R then f
  else if decide (1 / 2 < t - IZR f)%R then (f + 1)%Z
  else if Z.even f then f else (f + 1)%Z.

(** The float64 nearest to the real number [x]. *)
Definition float64 (x : R) : R :=
  if decide (x = 0)%R then 0%R
  else (IZR (Znearest_even (x * powerRZ 2 (- last_place x)))
        * powerRZ 2 (last_place x))%R.

(** [a % b] on floats: the result has the sign of [b]. *)
Definition py_mod (a b : R) : R := (a - IZR (Zfloor (a / b)) * b)%R.

(** The cast of a float to an integer ([astype('int')], or a float stored
    into an integer array): towards zero. *)
Definition Rtrunc (r : R) : Z :=
  if decide (0 <= r)%R then Zfloor r else Zceil r.

(** An index into an axis of length [n]: negative indices count from the
    end; [None] when out of bounds. *)
Definition pyidx (n : nat) (i : Z) : option nat :=
  if decide (0 ≤ i < Z.of_nat n)%Z then Some (Z.to_nat i)
  else if decide (- Z.of_nat n ≤ i < 0)%Z then Some (Z.to_nat (Z.of_nat n + i))
  else None.

(** The slice [start:stop] of an axis of length [n]: its first index and
    its length.  Bounds are clamped, negative bounds count from the end. *)
Definition slice_bounds (n : nat) (start stop : Z) : nat * nat :=
  let clamp i :=
    if decide (i < 0)%Z then Z.max (i + Z.of_nat n) 0 else Z.min i (Z.of_nat n) in
  (Z.to_nat (clamp start), Z.to_nat (clamp stop - clamp start)).

(** *** Indexing and reshaping *)

Section indexing.
Context {A : Type}.

Definition amapM {B} (f : A -> option B) (a : arr A) : option (arr B) :=
  match a with
  | Arr1 v => Arr1 <$> mapM f v
  | Arr2 c rows => Arr2 c <$> mapM (mapM f) rows
  end.

(** [a.shape[0]] *)
Definition nrows (a : arr A) : nat :=
  match a with
  | Arr1 v => length v
  | Arr2 _ rows => length rows
  end.

(** [a.T] *)
Definition transpose `{!Inhabited A} (a : arr A) : arr A :=
  match a with
  | Arr1 v => Arr1 v
  | Arr2 c rows =>
      Arr2 (length rows) ((fun j => (fun r : list A => r !!! j) <$> rows) <$> seq 0 c)
  end.

(** [np.tile(a, (kr, kc))] *)
Definition tile (kr kc : nat) (a : arr A) : arr A :=
  let '(c, m) := as_rows a in
  Arr2 (kc * c)
       (mjoin (replicate kr ((fun r : list A => mjoin (replicate kc r)) <$> m))).

(** [np.repeat(a, k, axis=1)]: no axis 1 in a one-dimensional array. *)
Definition repeat_axis1 (k : nat) (a : arr A) : option (arr A) :=
  match a with
  | Arr1 _ => None
  | Arr2 c rows =>
      Some (Arr2 (c * k) ((fun r : list A => mjoin (replicate k <$> r)) <$> rows))
  end.

(** [a[:, j]] *)
Definition get_col (a : arr A) (j : Z) : option (list A) :=
  match a with
  | Arr1 _ => None
  | Arr2 c rows => j' ← pyidx c j; mapM (fun r : list A => r !! j') rows
  end.

(** [a[i, :]] *)
Definition get_row (a : arr A) (i : Z) : option (list A) :=
  match a with
  | Arr1 _ => None
  | Arr2 c rows => i' ← pyidx (length rows) i; rows !! i'
  end.

(** [a[:, (j1, j2, ...)]] *)
Definition get_cols (a : arr A) (js : list Z) : option (arr A) :=
  match a with
  | Arr1 _ => None
  | Arr2 c rows =>
      js' ← mapM (pyidx c) js;
      rows' ← mapM (fun r : list A => mapM (fun j => r !! j) js') rows;
      Some (Arr2 (length js') rows')
  end.

(** [a[:, start:stop]] *)
Definition col_slice (a : arr A) (start stop : Z) : option (arr A) :=
  match a with
  | Arr1 _ => None
  | Arr2 c rows =>
      let '(s, n) := slice_bounds c start stop in
      Some (Arr2 n ((fun r : list A => take n (drop s r)) <$> rows))
  end.

(** [a[start:stop, :]] *)
Definition row_slice (a : arr A) (start stop : Z) : option (arr A) :=
  match a with
  | Arr1 _ => None
  | Arr2 c rows =>
      let '(s, n) := slice_bounds (length rows) start stop in
      Some (Arr2 c (take n (drop s rows)))
  end.

(** [a[i, j]] for indices that come from [range]. *)
Definition get_item2 (a : arr A) (i j : nat) : option A :=
  match a with
  | Arr1 _ => None
  | Arr2 c rows => r ← rows !! i; r !! j
  end.

(** Column [j] of every row replaced by the matching entry of [w]. *)
Definition upd_col (j : nat) (w : list A) (rows : list (list A))
  : list (list A) :=
  zip_with (fun r x => <[j:=x]> r) rows w.

(** The [length new] entries from position [s] on replaced by [new]. *)
Definition splice {X} (s : nat) (new : list X) (l : list X) : list X :=
  take s l ++ new ++ drop (s + length new) l.

Definition upd_cols (s : nat) (new : list (list A)) (rows : list (list A))
  : list (list A) :=
  zip_with (fun r nv => splice s nv r) rows new.
End indexing.

(** The value assigned to a one-dimensional target of length [n]: leading
    axes of length 1 are dropped, a single entry is repeated. *)
Definition fit_vec (n : nat) (rhs : arr R) : option (list R) :=
  v ← match rhs with
      | Arr1 v => Some v
      | Arr2 _ [r] => Some r
      | Arr2 _ _ => None
      end;
  let v' := stretch n v in
  if decide (length v' = n) then Some v' else None.

(** The value assigned to a two-dimensional target of shape [(r, c)]. *)
Definition fit_mat (r c : nat) (rhs : arr R) : option (list (list R)) :=
  b ← azip (fun (_ : unit) (x : R) => x) (Arr2 c (replicate r (replicate c tt))) rhs;
  match b with
  | Arr2 c' rows => if decide (length rows = r ∧ c' = c) then Some rows else None
  | Arr1 _ => None
  end.

(** Integer arrays take part in float arithmetic by value. *)
Definition as_float (a : ndarray) : arr R :=
  match a with
  | FloatArr x => x
  | IntArr x => amap IZR x
  end.

(** The same selection on an array of either dtype. *)
Definition nd_select (f : forall A, arr A -> option (arr A)) (a : ndarray)
  : option ndarray :=
  match a with
  | FloatArr x => FloatArr <$> f R x
  | IntArr x => IntArr <$> f Z x
  end.

(* ================================================================== *)
(** ** numpy statements *)

(** The value of the array at [l], read for arithmetic. *)
Definition read (l : loc) : M (arr R) :=
  a <- load l ;; ret (as_float a).

(** An element-wise operation of two arrays; [ValueError] when the operands
    cannot be broadcast together. *)
Definition np_binop (f : R -> R -> R) (a b : arr R) : M (arr R) :=
  orraise ValueError (azip f a b).

(** [np.tile(a, reps)]: a negative repetition count is refused. *)
Definition np_tile (a : arr R) (reps : Z * Z) : M (arr R) :=
  if decide (0 ≤ reps.1 ∧ 0 ≤ reps.2)%Z
  then ret (tile (Z.to_nat reps.1) (Z.to_nat reps.2) a)
  else raise ValueError.

(** [np.repeat(a, k, axis=1)] *)
Definition np_repeat_axis1 (a : arr R) (k : Z) : M (arr R) :=
  match repeat_axis1 (Z.to_nat k) a with
  | None => raise AxisError
  | Some r => if decide (0 ≤ k)%Z then ret r else raise ValueError
  end.

(** [a.sum(1)] *)
Definition np_sum1 (a : arr R) : M (arr R) :=
  match a with
  | Arr1 _ => raise AxisError
  | Arr2 _ rows => ret (Arr1 (foldr Rplus 0%R <$> rows))
  end.

(** [np.zeros((n, m))] *)
Definition np_zeros (n m : nat) : ndarray :=
  FloatArr (Arr2 m (replicate n (replicate m 0%R))).

(** [row, col = x.shape] *)
Definition shape2 (l : loc) : M (nat * nat) :=
  a <- read l ;;
  match a with
  | Arr1 _ => raise ValueError
  | Arr2 c rows => ret (length rows, c)
  end.

(** [a[:, j]] and [a[i, :]] read for arithmetic. *)
Definition column (l : loc) (j : Z) : M (arr R) :=
  a <- read l ;; v <- orraise IndexError (get_col a j) ;; ret (Arr1 v).

Definition row_of (l : loc) (i : Z) : M (arr R) :=
  a <- read l ;; v <- orraise IndexError (get_row a i) ;; ret (Arr1 v).

Definition columns (l : loc) (start stop : Z) : M (arr R) :=
  a <- read l ;; orraise IndexError (col_slice a start stop).

Definition rows_of (l : loc) (start stop : Z) : M (arr R) :=
  a <- read l ;; orraise IndexError (row_slice a start stop).

(** [a[k]] of a one-dimensional array, as a scalar. *)
Definition item1 (l : loc) (k : Z) : M R :=
  a <- read l ;;
  match a with
  | Arr1 v => orraise IndexError (k' ← pyidx (length v) k; v !! k')
  | Arr2 _ _ => raise Unmodelled
  end.

(** [a[i, j]] as a scalar. *)
Definition item2 (l : loc) (i j : nat) : M R :=
  a <- read l ;; orraise IndexError (get_item2 a i j).

(** An update in place of the array object at [l].  The new entries are
    floats; an integer array receives them cast. *)
Definition modify (l : loc)
    (f : forall A, (R -> A) -> arr A -> M (arr A)) : M unit :=
  a <- load l ;;
  match a with
  | FloatArr x => x' <- f R id x ;; store l (FloatArr x')
  | IntArr x => x' <- f Z Rtrunc x ;; store l (IntArr x')
  end.

(** [a[i, j] = x] *)
Definition set_item2 (l : loc) (i j : nat) (x : R) : M unit :=
  modify l (fun A cast a =>
    match a with
    | Arr1 _ => raise IndexError
    | Arr2 c rows =>
        r <- orraise IndexError (rows !! i) ;;
        if decide (j < length r)
        then ret (Arr2 c (<[i := <[j := cast x]> r]> rows))
        else raise IndexError
    end).

(** [a[:, j] = rhs] *)
Definition set_col (l : loc) (j : Z) (rhs : arr R) : M unit :=
  modify l (fun A cast a =>
    match a with
    | Arr1 _ => raise IndexError
    | Arr2 c rows =>
        j' <- orraise IndexError (pyidx c j) ;;
        w <- orraise ValueError (fit_vec (length rows) rhs) ;;
        ret (Arr2 c (upd_col j' (cast <$> w) rows))
    end).

(** [a[i, :] = rhs] *)
Definition set_row (l : loc) (i : Z) (rhs : arr R) : M unit :=
  modify l (fun A cast a =>
    match a with
    | Arr1 _ => raise IndexError
    | Arr2 c rows =>
        i' <- orraise IndexError (pyidx (length rows) i) ;;
        w <- orraise ValueError (fit_vec c rhs) ;;
        ret (Arr2 c (<[i' := cast <$> w]> rows))
    end).

(** [a[:, start:stop] = rhs] *)
Definition set_columns (l : loc) (start stop : Z) (rhs : arr R) : M unit :=
  modify l (fun A cast a =>
    match a with
    | Arr1 _ => raise IndexError
    | Arr2 c rows =>
        let '(s, n) := slice_bounds c start stop in
        new <- orraise ValueError (fit_mat (length rows) n rhs) ;;
        ret (Arr2 c (upd_cols s (fmap (M:=list) cast <$> new) rows))
    end).

(** [a[start:stop, :] = rhs] *)
Definition set_rows (l : loc) (start stop : Z) (rhs : arr R) : M unit :=
  modify l (fun A cast a =>
    match a with
    | Arr1 _ => raise IndexError
    | Arr2 c rows =>
        let '(s, n) := slice_bounds (length rows) start stop in
        new <- orraise ValueError (fit_mat n c rhs) ;;
        ret (Arr2 c (splice s (fmap (M:=list) cast <$> new) rows))
    end).

(** [a += b] with a float [b]: the sum is written into the array object
    [a], whose shape the broadcast must not change; an integer array does not
    take a float sum.  [Supp.py] has one such statement, on the indices of
    [give_1D_NonZero_Delta_Indices]: the sums are rounded to float64. *)
Definition iadd (l : loc) (b : arr R) : M unit :=
  a <- load l ;;
  match a with
  | FloatArr x =>
      r <- np_binop (fun s t => float64 (s + t)) x b ;;
      if decide (shape r = shape x) then store l (FloatArr r)
      else raise ValueError
  | IntArr _ => raise TypeError
  end.

(** [x[idx]] with an index array: the entries of a one-dimensional [x], or
    the rows of a two-dimensional one, picked by [idx]. *)
Definition fancy1 (x : arr R) (idx : ndarray) : M (arr R) :=
  match idx with
  | FloatArr _ => raise IndexError
  | IntArr i =>
      match x with
      | Arr1 v =>
          orraise IndexError (amapM (fun k => k' ← pyidx (length v) k; v !! k') i)
      | Arr2 c rows =>
          match i with
          | Arr1 ks =>
              rows' <- orraise IndexError
                         (mapM (fun k => k' ← pyidx (length rows) k; rows !! k') ks) ;;
              ret (Arr2 c rows')
          | Arr2 _ _ => raise Unmodelled
          end
      end
  end.

(** [u[yi, xi]] with two index arrays, broadcast together. *)
Definition fancy2 (u : arr R) (yi xi : ndarray) : M (arr R) :=
  match yi, xi with
  | IntArr ys, IntArr xs =>
      match u with
      | Arr1 _ => raise IndexError
      | Arr2 c rows =>
          p <- orraise IndexError (azip (fun i j => (i, j)) ys xs) ;;
          orraise IndexError
            (amapM (fun '(i, j) =>
                      i' ← pyidx (length rows) i; j' ← pyidx c j;
                      r ← rows !! i'; r !! j') p)
      end
  | _, _ => raise IndexError
  end.

(** [f[ids, j]] with an index array and a column. *)
Definition fancy_col (f : arr R) (ids : ndarray) (j : Z) : M (arr R) :=
  match ids with
  | FloatArr _ => raise IndexError
  | IntArr i =>
      match f with
      | Arr1 _ => raise IndexError
      | Arr2 c rows =>
          orraise IndexError
            (amapM (fun k => k' ← pyidx (length rows) k; j' ← pyidx c j;
                             r ← rows !! k'; r !! j') i)
      end
  end.

(** [math.sqrt] *)
Definition math_sqrt (t : R) : M R :=
  if decide (t < 0)%R then raise ValueError else ret (sqrt t).

(* ================================================================== *)
(** ** The functions of [Supp.py] *)

(** The dictionary [grid_Info], with the keys the function reads. *)
Record grid : Type := Grid {
  grid_Nx : Z; grid_Ny : Z;
  grid_Lx : R; grid_Ly : R;
  grid_dx : R; grid_dy : R;
  grid_supp : Z;
  grid_Nb : Z;
  grid_ds : R
}.

(** *** [give_Eulerian_Lagrangian_Distance] (lines 209-225) *)

Definition give_Eulerian_Lagrangian_Distance (x y : loc) (L : R) : M loc :=
  (* distance = abs( x - y ) *)
  x_ <- read x ;;
  y_ <- read y ;;
  d <- np_binop Rminus x_ y_ ;;
  distance <- alloc (FloatArr (amap Rabs d)) ;;
  (* distance = np.minimum(distance,L-distance) *)
  d1 <- read distance ;;
  d2 <- read distance ;;
  m <- np_binop Rmin d1 (amap (fun t => L - t)%R d2) ;;
  distance <- alloc (FloatArr m) ;;
  ret distance.

(** *** [give_Delta_Kernel] (lines 237-267)

    The [@jit] decorator compiles the function and leaves what it computes
    as it is. *)

(** The body of the two loops, at the entry [[ii, jj]]. *)
Definition give_Delta_Kernel_entry (RMAT delta : loc) (dx : R) (ii jj : nat)
  : M unit :=
  r <- item2 RMAT ii jj ;;
  if bool_decide (r < 1)%R then
    s <- math_sqrt (1 + 4 * r - 4 * r * r)%R ;;
    set_item2 delta ii jj ((3 - 2 * r + s) / (8 * dx))%R
  else if bool_decide (r < 2)%R && bool_decide (r >= 1)%R then
    s <- math_sqrt (-7 + 12 * r - 4 * r * r)%R ;;
    set_item2 delta ii jj ((5 - 2 * r - s) / (8 * dx))%R
  else ret tt.

Definition give_Delta_Kernel (x : loc) (dx : R) : M loc :=
  (* RMAT = np.abs(x)/dx *)
  x_ <- read x ;;
  RMAT <- alloc (FloatArr (amap (fun t => Rabs t / dx)%R x_)) ;;
  (* delta = RMAT: a second name of the same array *)
  let delta := RMAT in
  (* row,col = x.shape *)
  sh <- shape2 x ;;
  let '(row, col) := sh in
  for_range row (fun ii =>
    for_range col (fun jj =>
      give_Delta_Kernel_entry RMAT delta dx ii jj)) ;;
  ret delta.

(** *** [give_1D_NonZero_Delta_Indices] (lines 278-305) *)

(** The entry of [ind_Aux] for the coordinate [p]:
    [np.floor(p/dx + 1)], the floor of a float64. *)
Definition lower_left (dx p : R) : Z :=
  Zfloor (float64 (float64 (p / dx) + 1)).

(** The offsets [-supp/2+1+np.arange(supp)] are integers or half-integers
    of the size of [supp], the length of an array: they are exact.  The
    grid size [N] is an integer. *)
Definition give_1D_NonZero_Delta_Indices
    (lagPts_j : loc) (N : Z) (dx : R) (supp : Z) : M loc :=
  (* ind_Aux = np.floor(lagPts_j/dx + 1) *)
  p <- read lagPts_j ;;
  ind_Aux <- alloc (FloatArr (amap (fun t => IZR (lower_left dx t)) p)) ;;
  (* indices = np.tile(ind_Aux,(supp,1)).T *)
  a <- read ind_Aux ;;
  t <- np_tile a (supp, 1%Z) ;;
  indices <- alloc (FloatArr (transpose t)) ;;
  (* indices += -supp/2+1+np.arange(supp) *)
  iadd indices (Arr1 ((fun j => - IZR supp / 2 + 1 + IZR j)%R <$> seqZ 0 supp)) ;;
  (* indices = (indices-1) % N *)
  i <- read indices ;;
  indices <- alloc (FloatArr
               (amap (fun t => py_mod (float64 (t - 1)) (IZR N))%R i)) ;;
  ret indices.

(** *** [give_NonZero_Delta_Indices_XY] (lines 162-197) *)

Definition give_NonZero_Delta_Indices_XY
    (xLag yLag : loc) (Nx Ny : Z) (dx dy : R) (supp : Z) : M (loc * loc) :=
  xIndsAux <- give_1D_NonZero_Delta_Indices xLag Nx dx supp ;;
  (* xInds = np.tile(xIndsAux,(1,supp)) *)
  a <- read xIndsAux ;;
  t <- np_tile a (1%Z, supp) ;;
  xInds <- alloc (FloatArr t) ;;
  yIndsAux <- give_1D_NonZero_Delta_Indices yLag Ny dy supp ;;
  (* yInds = np.repeat(yIndsAux,supp,axis=1) *)
  b <- read yIndsAux ;;
  t <- np_repeat_axis1 b supp ;;
  yInds <- alloc (FloatArr t) ;;
  (* return (xInds.astype('int'),yInds.astype('int')) *)
  xi <- read xInds ;;
  xInds_int <- alloc (IntArr (amap Rtrunc xi)) ;;
  yi <- read yInds ;;
  yInds_int <- alloc (IntArr (amap Rtrunc yi)) ;;
  ret (xInds_int, yInds_int).

(** *** [give_Me_Perturbed_Distance] (lines 129-150) *)

Definition give_Me_Perturbed_Distance
    (u v : loc) (dx dy : R) (delta_X delta_Y xInds yInds : loc)
  : M (loc * loc) :=
  (* mat_X = u[yInds,xInds]*delta_X*delta_Y *)
  u_ <- read u ;; yi <- load yInds ;; xi <- load xInds ;;
  g <- fancy2 u_ yi xi ;;
  dX <- read delta_X ;;
  t <- np_binop Rmult g dX ;;
  dY <- read delta_Y ;;
  t <- np_binop Rmult t dY ;;
  mat_X <- alloc (FloatArr t) ;;
  (* mat_Y = v[yInds,xInds]*delta_X*delta_Y *)
  v_ <- read v ;; yi <- load yInds ;; xi <- load xInds ;;
  g <- fancy2 v_ yi xi ;;
  dX <- read delta_X ;;
  t <- np_binop Rmult g dX ;;
  dY <- read delta_Y ;;
  t <- np_binop Rmult t dY ;;
  mat_Y <- alloc (FloatArr t) ;;
  (* move_X = mat_X.sum(1) * (dx*dy) *)
  m <- read mat_X ;;
  s <- np_sum1 m ;;
  move_X <- alloc (FloatArr (amap (fun t => t * (dx * dy))%R s)) ;;
  (* move_Y = mat_Y.sum(1) * (dx*dy) *)
  m <- read mat_Y ;;
  s <- np_sum1 m ;;
  move_Y <- alloc (FloatArr (amap (fun t => t * (dx * dy))%R s)) ;;
  ret (move_X, move_Y).

(** *** [please_Move_Lagrangian_Point_Positions] (lines 56-121) *)

Definition please_Move_Lagrangian_Point_Positions
    (u v xL_P yL_P xL_H yL_H x y : loc) (dt : R) (grid_Info : grid)
    (porous_Yes : bool) : M (loc * loc) :=
  let Nx := grid_Nx grid_Info in
  let Ny := grid_Ny grid_Info in
  let Lx := grid_Lx grid_Info in
  let Ly := grid_Ly grid_Info in
  let dx := grid_dx grid_Info in
  let dy := grid_dy grid_Info in
  let supp := grid_supp grid_Info in
  inds <- give_NonZero_Delta_Indices_XY xL_H yL_H Nx Ny dx dy supp ;;
  let '(xInds, yInds) := inds in
  (* xLH_aux = xL_H % Lx ; yLH_aux = yL_H % Ly *)
  h <- read xL_H ;;
  xLH_aux <- alloc (FloatArr (amap (fun t => py_mod t Lx) h)) ;;
  h <- read yL_H ;;
  yLH_aux <- alloc (FloatArr (amap (fun t => py_mod t Ly) h)) ;;
  (* xL_H_ReSize = np.tile(xLH_aux,(supp**2,1)).T *)
  a <- read xLH_aux ;;
  t <- np_tile a ((supp ^ 2)%Z, 1%Z) ;;
  xL_H_ReSize <- alloc (FloatArr (transpose t)) ;;
  a <- read yLH_aux ;;
  t <- np_tile a ((supp ^ 2)%Z, 1%Z) ;;
  yL_H_ReSize <- alloc (FloatArr (transpose t)) ;;
  (* distX = give_Eulerian_Lagrangian_Distance(x[xInds], xL_H_ReSize, Lx) *)
  x_ <- read x ;; xi <- load xInds ;;
  g <- fancy1 x_ xi ;;
  x_at <- alloc (FloatArr g) ;;
  distX <- give_Eulerian_Lagrangian_Distance x_at xL_H_ReSize Lx ;;
  y_ <- read y ;; yi <- load yInds ;;
  g <- fancy1 y_ yi ;;
  y_at <- alloc (FloatArr g) ;;
  distY <- give_Eulerian_Lagrangian_Distance y_at yL_H_ReSize Ly ;;
  (* delta_X = give_Delta_Kernel(distX, dx) *)
  delta_X <- give_Delta_Kernel distX dx ;;
  delta_Y <- give_Delta_Kernel distY dy ;;
  mv <- give_Me_Perturbed_Distance u v dx dy delta_X delta_Y xInds yInds ;;
  let '(move_X, move_Y) := mv in
  (* xL_Next = xL_P + (dt) * move_X *)
  p <- read xL_P ;; m <- read move_X ;;
  s <- np_binop Rplus p (amap (Rmult dt) m) ;;
  xL_Next <- alloc (FloatArr s) ;;
  p <- read yL_P ;; m <- read move_Y ;;
  s <- np_binop Rplus p (amap (Rmult dt) m) ;;
  yL_Next <- alloc (FloatArr s) ;;
  if negb porous_Yes then
    (* xL_Next = xL_Next % Lx ; yL_Next = yL_Next % Ly *)
    n <- read xL_Next ;;
    xL_Next <- alloc (FloatArr (amap (fun t => py_mod t Lx) n)) ;;
    n <- read yL_Next ;;
    yL_Next <- alloc (FloatArr (amap (fun t => py_mod t Ly) n)) ;;
    ret (xL_Next, yL_Next)
  else
    ret (xL_Next, yL_Next).

(** *** [please_Move_Massive_Boundary] (lines 313-338) *)

Definition please_Move_Massive_Boundary
    (dt_step : R) (mass_info mVelocity : loc) : M (loc * loc) :=
  (* massLagsOld = np.array(mass_info[:,(1, 2)]) *)
  mi <- load mass_info ;;
  old <- orraise IndexError (nd_select (fun A a => get_cols a [1; 2]%Z) mi) ;;
  massLagsOld <- alloc old ;;
  (* mass_info[:,1] = mass_info[:,1] + dt_step*mVelocity[:,0] *)
  p <- column mass_info 1 ;;
  q <- column mVelocity 0 ;;
  s <- np_binop Rplus p (amap (Rmult dt_step) q) ;;
  set_col mass_info 1 s ;;
  (* mass_info[:,2] = mass_info[:,2] + dt_step*mVelocity[:,1] *)
  p <- column mass_info 2 ;;
  q <- column mVelocity 1 ;;
  s <- np_binop Rplus p (amap (Rmult dt_step) q) ;;
  set_col mass_info 2 s ;;
  ret (mass_info, massLagsOld).

(** *** [please_Update_Massive_Boundary_Velocity] (lines 348-392)

    The body never binds [mVelocity_h]: the name is a global of the
    module. *)

Definition please_Update_Massive_Boundary_Velocity
    (dt_step : R) (mass_info mVelocity F_Mass_Bnd gravity_Info : loc) : M loc :=
  (* ids = mass_info[:,0] *)
  mi <- load mass_info ;;
  ids <- orraise IndexError
           (nd_select (fun A a => Arr1 <$> get_col a 0) mi) ;;
  g0 <- item1 gravity_Info 0 ;;
  (if decide (g0 = 1%R) then
     let g := 9.80665%R in
     (* mVelocity_h[:,0] = mVelocity[:,0] - dt_step *
          ( F_Mass_Bnd[ids,0]/mass_info[:,4] - g*gravity_Info[1] ) *)
     v0 <- column mVelocity 0 ;;
     f_ <- read F_Mass_Bnd ;;
     f0 <- fancy_col f_ ids 0 ;;
     m4 <- column mass_info 4 ;;
     a <- np_binop Rdiv f0 m4 ;;
     g1 <- item1 gravity_Info 1 ;;
     s <- np_binop Rminus v0 (amap (fun t => dt_step * (t - g * g1))%R a) ;;
     mVelocity_h <- global "mVelocity_h" ;;
     set_col mVelocity_h 0 s ;;
     (* mVelocity_h[:,1] = mVelocity[:,1] - dt_step *
          ( F_Mass_Bnd[ids,1]/mass_info[:,4] - g*gravity_Info[2] ) *)
     v1 <- column mVelocity 1 ;;
     f_ <- read F_Mass_Bnd ;;
     f1 <- fancy_col f_ ids 1 ;;
     m4 <- column mass_info 4 ;;
     a <- np_binop Rdiv f1 m4 ;;
     g2 <- item1 gravity_Info 2 ;;
     s <- np_binop Rminus v1 (amap (fun t => dt_step * (t - g * g2))%R a) ;;
     mVelocity_h <- global "mVelocity_h" ;;
     set_col mVelocity_h 1 s
   else
     (* mVelocity_h[:,0] = mVelocity[:,0] - dt_step*F_Mass_Bnd[ids,0]/mass_info[:,4] *)
     v0 <- column mVelocity 0 ;;
     f_ <- read F_Mass_Bnd ;;
     f0 <- fancy_col f_ ids 0 ;;
     m4 <- column mass_info 4 ;;
     a <- np_binop Rdiv (amap (Rmult dt_step) f0) m4 ;;
     s <- np_binop Rminus v0 a ;;
     mVelocity_h <- global "mVelocity_h" ;;
     set_col mVelocity_h 0 s ;;
     (* mVelocity_h[:,1] = mVelocity[:,1] - dt_step*F_Mass_Bnd[ids,1]/mass_info[:,4] *)
     v1 <- column mVelocity 1 ;;
     f_ <- read F_Mass_Bnd ;;
     f1 <- fancy_col f_ ids 1 ;;
     m4 <- column mass_info 4 ;;
     a <- np_binop Rdiv (amap (Rmult dt_step) f1) m4 ;;
     s <- np_binop Rminus v1 a ;;
     mVelocity_h <- global "mVelocity_h" ;;
     set_col mVelocity_h 1 s) ;;
  (* return mVelocity_h *)
  global "mVelocity_h".

(** *** [D] (lines 404-441) *)

Definition nl : string := String (Ascii.ascii_of_nat 10) EmptyString.

Definition D (u : loc) (dz : R) (string : string) : M loc :=
  (* length = u.shape[0] *)
  u_ <- read u ;;
  let length := Z.of_nat (nrows u_) in
  (* u_z = np.zeros((length,length)) *)
  u_z <- alloc (np_zeros (nrows u_) (nrows u_)) ;;
  (if bool_decide (string = "x") then
     (* u_z[:,0] = ( u[:,1] - u[:,length-1] ) / (2*dz) *)
     a <- column u 1 ;; b <- column u (length - 1) ;;
     d <- np_binop Rminus a b ;;
     set_col u_z 0 (amap (fun t => t / (2 * dz))%R d) ;;
     (* u_z[:,-1]= ( u[:,0] - u[:,length-2] ) / (2*dz) *)
     a <- column u 0 ;; b <- column u (length - 2) ;;
     d <- np_binop Rminus a b ;;
     set_col u_z (-1) (amap (fun t => t / (2 * dz))%R d) ;;
     (* u_z[:,1:length-1] = ( u[:,2:length] - u[:,:length-2] ) / (2*dz) *)
     a <- columns u 2 length ;; b <- columns u 0 (length - 2) ;;
     d <- np_binop Rminus a b ;;
     set_columns u_z 1 (length - 1) (amap (fun t => t / (2 * dz))%R d)
   else if bool_decide (string = "y") then
     (* u_z[0,:] = ( u[1,:] - u[length-1,:] ) / (2*dz) *)
     a <- row_of u 1 ;; b <- row_of u (length - 1) ;;
     d <- np_binop Rminus a b ;;
     set_row u_z 0 (amap (fun t => t / (2 * dz))%R d) ;;
     (* u_z[length-1,:] = ( u[0,:] - u[length-2,:] ) / (2*dz) *)
     a <- row_of u 0 ;; b <- row_of u (length - 2) ;;
     d <- np_binop Rminus a b ;;
     set_row u_z (length - 1) (amap (fun t => t / (2 * dz))%R d) ;;
     (* u_z[1:length-1,:] = ( u[2:length,:] - u[:length-2,:] ) / (2*dz) *)
     a <- rows_of u 2 length ;; b <- rows_of u 0 (length - 2) ;;
     d <- np_binop Rminus a b ;;
     set_rows u_z 1 (length - 1) (amap (fun t => t / (2 * dz))%R d)
   else
     print (nl +:+ nl +:+ nl +:+
            " ERROR IN FUNCTION D FOR COMPUTING 1ST DERIVATIVE" +:+ nl) ;;
     print ("Need to specify which desired derivative, x or y."
            +:+ nl +:+ nl +:+ nl)) ;;
  ret u_z.

(** *** [DD] (lines 452-491) *)

Definition DD (u : loc) (dz : R) (string : string) : M loc :=
  (* length = u.shape[0] *)
  u_ <- read u ;;
  let length := Z.of_nat (nrows u_) in
  (* u_zz = np.zeros((length,length)) *)
  u_zz <- alloc (np_zeros (nrows u_) (nrows u_)) ;;
  (if bool_decide (string = "x") then
     (* u_zz[:,0] = ( u[:,1] - 2*u[:,0] + u[:,length-1] ) / (dz**2) *)
     a <- column u 1 ;; b <- column u 0 ;;
     d <- np_binop Rminus a (amap (Rmult 2) b) ;;
     c <- column u (length - 1) ;;
     d <- np_binop Rplus d c ;;
     set_col u_zz 0 (amap (fun t => t / dz ^ 2)%R d) ;;
     (* u_zz[:,-1] = ( u[:,0] - 2*u[:,length-1] + u[:,length-2] ) / (dz**2) *)
     a <- column u 0 ;; b <- column u (length - 1) ;;
     d <- np_binop Rminus a (amap (Rmult 2) b) ;;
     c <- column u (length - 2) ;;
     d <- np_binop Rplus d c ;;
     set_col u_zz (-1) (amap (fun t => t / dz ^ 2)%R d) ;;
     (* u_zz[:,1:length-1] =
          (u[:,2:length]-2*u[:,1:length-1]+u[:,:length-2]) / (dz**2) *)
     a <- columns u 2 length ;; b <- columns u 1 (length - 1) ;;
     d <- np_binop Rminus a (amap (Rmult 2) b) ;;
     c <- columns u 0 (length - 2) ;;
     d <- np_binop Rplus d c ;;
     set_columns u_zz 1 (length - 1) (amap (fun t => t / dz ^ 2)%R d)
   else if bool_decide (string = "y") then
     (* u_zz[0,:] = ( u[1,:] - 2*u[0,:] + u[length-1,:] ) / (dz**2) *)
     a <- row_of u 1 ;; b <- row_of u 0 ;;
     d <- np_binop Rminus a (amap (Rmult 2) b) ;;
     c <- row_of u (length - 1) ;;
     d <- np_binop Rplus d c ;;
     set_row u_zz 0 (amap (fun t => t / dz ^ 2)%R d) ;;
     (* u_zz[-1,:]= ( u[0,:] - 2*u[length-1,:] + u[length-2,:] ) / (dz**2) *)
     a <- row_of u 0 ;; b <- row_of u (length - 1) ;;
     d <- np_binop Rminus a (amap (Rmult 2) b) ;;
     c <- row_of u (length - 2) ;;
     d <- np_binop Rplus d c ;;
     set_row u_zz (-1) (amap (fun t => t / dz ^ 2)%R d) ;;
     (* u_zz[1:length-1,:] =
          (u[2:length,:]-2*u[1:length-1,:]+u[:length-2,:]) / (dz**2) *)
     a <- rows_of u 2 length ;; b <- rows_of u 1 (length - 1) ;;
     d <- np_binop Rminus a (amap (Rmult 2) b) ;;
     c <- rows_of u 0 (length - 2) ;;
     d <- np_binop Rplus d c ;;
     set_rows u_zz 1 (length - 1) (amap (fun t => t / dz ^ 2)%R d)
   else
     print (nl +:+ nl +:+ nl +:+
            " ERROR IN FUNCTION DD FOR COMPUTING 2ND DERIVATIVE" +:+ nl) ;;
     print ("Need to specify which desired derivative, x or y."
            +:+ nl +:+ nl +:+ nl)) ;;
  ret u_zz.

(** *** [please_Update_Adv_Diff_Concentration] (lines 501-528) *)

Definition please_Update_Adv_Diff_Concentration
    (C : loc) (dt dx dy : R) (uX uY : loc) (k : R) : M loc :=
  Cx <- D C dx "x" ;;
  Cy <- D C dy "y" ;;
  Cxx <- DD C dx "x" ;;
  Cyy <- DD C dy "y" ;;
  (* C = C + dt * ( k*(Cxx+Cyy) - uX*Cx - uY*Cy ) *)
  c <- read C ;;
  cxx <- read Cxx ;; cyy <- read Cyy ;;
  lap <- np_binop Rplus cxx cyy ;;
  ux <- read uX ;; cx <- read Cx ;;
  ax <- np_binop Rmult ux cx ;;
  t <- np_binop Rminus (amap (Rmult k) lap) ax ;;
  uy <- read uY ;; cy <- read Cy ;;
  ay <- np_binop Rmult uy cy ;;
  t <- np_binop Rminus t ay ;;
  r <- np_binop Rplus c (amap (Rmult dt) t) ;;
  C' <- alloc (FloatArr r) ;;
  ret C'.

(* ================================================================== *)
(** ** What a call may change

    [frame W w0 m Q]: started in any world that still holds the arrays of the
    world [w0] at the call, apart from those at the locations in [W], the
    computation [m] ends in such a world again, whether it returns or
    raises; the arrays it writes are at locations in [W] or were allocated
    after the call.  When it returns [a], [Q a] holds. *)

Section frame.
Variable W : loc -> Prop.
Variable w0 : world.

Definition keeps (w : world) : Prop :=
  globals w = globals w0 ∧
  length (heap w0) ≤ length (heap w) ∧
  ∀ l a, ¬ W l → heap w0 !! l = Some a → heap w !! l = Some a.

(** Allocated after the call. *)
Definition fresh (l : loc) : Prop := length (heap w0) ≤ l.

Definition frame {A} (m : M A) (Q : A -> Prop) : Prop :=
  ∀ w, keeps w → keeps (m w).2 ∧ ∀ a, (m w).1 = Ret a → Q a.

(** A computation that leaves the world as it is. *)
Definition world_free {A} (m : M A) : Prop := ∀ w, (m w).2 = w.

Lemma keeps_start : keeps w0.
Proof. repeat split; auto. Qed.

Lemma frame_weaken {A} (m : M A) (P Q : A -> Prop) :
  frame m P → (∀ a, P a → Q a) → frame m Q.
Proof. intros Hm HPQ w Hw. destruct (Hm w Hw) as [? HP]. split; auto. Qed.

Lemma frame_world_free {A} (m : M A) : world_free m → frame m (fun _ => True).
Proof. intros Hm w Hw. rewrite Hm. split; auto. Qed.

Lemma frame_ret {A} (a : A) (Q : A -> Prop) : Q a → frame (ret a) Q.
Proof. intros HQ w Hw. simpl. split; [done|]. by intros ? [= <-]. Qed.

Lemma frame_raise {A} (e : exn) (Q : A -> Prop) : frame (raise e) Q.
Proof. intros w Hw. simpl. split; [done|]. by intros ? [=]. Qed.

Lemma frame_bind {A B} (m : M A) (k : A -> M B) (P : A -> Prop) (Q : B -> Prop) :
  frame m P → (∀ a, P a → frame (k a) Q) → frame (bind m k) Q.
Proof.
  intros Hm Hk w Hw. unfold bind.
  destruct (Hm w Hw) as [Hw' HP]. destruct (m w) as [[a|e] w']; simpl in *.
  - apply (Hk a); auto.
  - split; [done|]. by intros ? [=].
Qed.

Lemma frame_alloc (a : ndarray) : frame (alloc a) fresh.
Proof.
  intros w (Hg & Hlen & Hold). unfold keeps. simpl. split.
  - split_and!; [done|rewrite length_app; lia|].
    intros l x HW Hl. apply lookup_app_l_Some. eauto.
  - intros ? [= <-]. done.
Qed.

Lemma frame_store (l : loc) (a : ndarray) :
  W l ∨ fresh l → frame (store l a) (fun _ => True).
Proof.
  intros Hl w (Hg & Hlen & Hold). unfold store, keeps.
  destruct (heap w !! l) eqn:E; simpl; (split; [|done]).
  - split_and!; [done|by rewrite length_insert|].
    intros l' x HW Hl'. rewrite list_lookup_insert_ne; [eauto|].
    intros ->. destruct Hl as [?|Hf]; [done|].
    apply lookup_lt_Some in Hl'. unfold fresh in Hf. lia.
  - done.
Qed.

Lemma frame_global (name : string) :
  frame (global name) (fun l => globals w0 !! name = Some l).
Proof.
  intros w Hw. unfold global. destruct Hw as (Hg & ?).
  destruct (globals w !! name) eqn:E; simpl; (split; [done|]).
  - intros ? [= <-]. by rewrite <-Hg.
  - by intros ? [=].
Qed.

Lemma frame_print (s : string) : frame (print s) (fun _ => True).
Proof. intros w Hw. unfold keeps. simpl. split; [|done]. exact Hw. Qed.

Lemma frame_for_from (body : nat -> M unit) (n start : nat) :
  (∀ i, frame (body i) (fun _ => True)) →
  frame (for_from start n body) (fun _ => True).
Proof.
  intros Hb. revert start. induction n as [|n IH]; intros start; simpl.
  - by apply frame_ret.
  - eapply frame_bind; [apply Hb|]. intros _ _. apply IH.
Qed.

Lemma frame_modify (l : loc) (f : ∀ A, (R -> A) -> arr A -> M (arr A)) :
  W l ∨ fresh l →
  (∀ A cast a, frame (f A cast a) (fun _ => True)) →
  frame (modify l f) (fun _ => True).
Proof.
  intros Hl Hf. unfold modify.
  eapply frame_bind; [apply frame_world_free|].
  { intros w. unfold load. by destruct (heap w !! l). }
  intros [x|x] _; (eapply frame_bind; [apply Hf|]);
    intros ? _; by apply frame_store.
Qed.
End frame.

(** *** Statements that only read *)

Lemma world_free_ret {A} (a : A) : world_free (ret a).
Proof. done. Qed.

Lemma world_free_raise {A} (e : exn) : world_free (raise (A:=A) e).
Proof. done. Qed.

Lemma world_free_orraise {A} (e : exn) (o : option A) : world_free (orraise e o).
Proof. by destruct o. Qed.

Lemma world_free_load (l : loc) : world_free (load l).
Proof. intros w. unfold load. by destruct (heap w !! l). Qed.

Lemma world_free_bind {A B} (m : M A) (k : A -> M B) :
  world_free m → (∀ a, world_free (k a)) → world_free (bind m k).
Proof.
  intros Hm Hk w. unfold bind. specialize (Hm w).
  destruct (m w) as [[a|e] w']; simpl in *; subst; [apply Hk|done].
Qed.

Ltac world_free_tac :=
  repeat first
    [ apply world_free_ret | apply world_free_raise
    | apply world_free_orraise | apply world_free_load
    | apply world_free_bind; [|intros ?]
    | case_match ].

Lemma world_free_read (l : loc) : world_free (read l).
Proof. unfold read. world_free_tac. Qed.

Lemma world_free_np_binop f a b : world_free (np_binop f a b).
Proof. unfold np_binop. world_free_tac. Qed.

Lemma world_free_np_tile a reps : world_free (np_tile a reps).
Proof. unfold np_tile. world_free_tac. Qed.

Lemma world_free_np_repeat_axis1 a k : world_free (np_repeat_axis1 a k).
Proof. unfold np_repeat_axis1. world_free_tac. Qed.

Lemma world_free_np_sum1 a : world_free (np_sum1 a).
Proof. unfold np_sum1. world_free_tac. Qed.

Lemma world_free_math_sqrt t : world_free (math_sqrt t).
Proof. unfold math_sqrt. world_free_tac. Qed.

Lemma world_free_shape2 l : world_free (shape2 l).
Proof. unfold shape2, read. world_free_tac. Qed.

Lemma world_free_column l j : world_free (column l j).
Proof. unfold column, read. world_free_tac. Qed.

Lemma world_free_row_of l i : world_free (row_of l i).
Proof. unfold row_of, read. world_free_tac. Qed.

Lemma world_free_columns l s e : world_free (columns l s e).
Proof. unfold columns, read. world_free_tac. Qed.

Lemma world_free_rows_of l s e : world_free (rows_of l s e).
Proof. unfold rows_of, read. world_free_tac. Qed.

Lemma world_free_item1 l k : world_free (item1 l k).
Proof. unfold item1, read. world_free_tac. Qed.

Lemma world_free_item2 l i j : world_free (item2 l i j).
Proof. unfold item2, read. world_free_tac. Qed.

Lemma world_free_fancy1 x idx : world_free (fancy1 x idx).
Proof. unfold fancy1. world_free_tac. Qed.

Lemma world_free_fancy2 u yi xi : world_free (fancy2 u yi xi).
Proof. unfold fancy2. world_free_tac. Qed.

Lemma world_free_fancy_col f ids j : world_free (fancy_col f ids j).
Proof. unfold fancy_col. world_free_tac. Qed.

Create HintDb world_free.
#[global] Hint Resolve world_free_ret world_free_raise world_free_orraise
  world_free_load world_free_read world_free_np_binop world_free_np_tile
  world_free_np_repeat_axis1 world_free_np_sum1 world_free_math_sqrt
  world_free_shape2 world_free_column world_free_row_of world_free_columns
  world_free_rows_of world_free_item1 world_free_item2 world_free_fancy1
  world_free_fancy2 world_free_fancy_col : world_free.

(** *** Statements that write *)

Create HintDb frame.

Section frame_statements.
Variable W : loc -> Prop.
Variable w0 : world.
Local Abbreviation frame := (frame W w0).
Local Abbreviation fresh := (fresh w0).

Lemma frame_set_item2 l i j x :
  W l ∨ fresh l → frame (set_item2 l i j x) (fun _ => True).
Proof.
  intros Hl. apply frame_modify; [done|]. intros A cast a.
  apply frame_world_free. world_free_tac.
Qed.

Lemma frame_set_col l j rhs :
  W l ∨ fresh l → frame (set_col l j rhs) (fun _ => True).
Proof.
  intros Hl. apply frame_modify; [done|]. intros A cast a.
  apply frame_world_free. world_free_tac.
Qed.

Lemma frame_set_row l i rhs :
  W l ∨ fresh l → frame (set_row l i rhs) (fun _ => True).
Proof.
  intros Hl. apply frame_modify; [done|]. intros A cast a.
  apply frame_world_free. world_free_tac.
Qed.

Lemma frame_set_columns l s e rhs :
  W l ∨ fresh l → frame (set_columns l s e rhs) (fun _ => True).
Proof.
  intros Hl. apply frame_modify; [done|]. intros A cast a.
  apply frame_world_free. world_free_tac.
Qed.

Lemma frame_set_rows l s e rhs :
  W l ∨ fresh l → frame (set_rows l s e rhs) (fun _ => True).
Proof.
  intros Hl. apply frame_modify; [done|]. intros A cast a.
  apply frame_world_free. world_free_tac.
Qed.

Lemma frame_iadd l b :
  W l ∨ fresh l → frame (iadd l b) (fun _ => True).
Proof.
  intros Hl. unfold iadd.
  eapply frame_bind; [apply frame_world_free, world_free_load|].
  intros [x|x] _; [|apply frame_raise].
  eapply frame_bind; [apply frame_world_free, world_free_np_binop|].
  intros r _. case_decide; [by apply frame_store|apply frame_raise].
Qed.
End frame_statements.

#[global] Hint Resolve frame_alloc frame_global frame_print frame_set_item2
  frame_set_col frame_set_row frame_set_columns frame_set_rows frame_iadd
  frame_raise : frame.
#[global] Hint Extern 1 (frame _ _ _ _) =>
  apply frame_world_free; solve [eauto with world_free] : frame.
#[global] Hint Extern 1 (_ ∨ fresh _ _) => right; assumption : frame.
#[global] Hint Extern 1 (_ ∨ fresh _ _) => left; assumption : frame.

(** Runs through a function body, statement by statement. *)
Ltac frame_go :=
  repeat lazymatch goal with
    | |- frame _ _ (bind _ _) _ =>
        eapply frame_bind; [solve [eauto with frame]|intros ? ?]
    | |- frame _ _ (ret _) _ => apply frame_ret
    | |- frame _ _ (raise _) _ => apply frame_raise
    | |- frame _ _ (match ?x with _ => _ end) _ =>
        destruct x; simpl in *; destruct_and?
    end.

(** *** The functions of [Supp.py] *)

Section frame_functions.
Variable W : loc -> Prop.
Variable w0 : world.
Local Abbreviation frame := (frame W w0).
Local Abbreviation fresh := (fresh w0).

Lemma frame_give_Eulerian_Lagrangian_Distance x y L :
  frame (give_Eulerian_Lagrangian_Distance x y L) fresh.
Proof. unfold give_Eulerian_Lagrangian_Distance. frame_go. done. Qed.

Lemma frame_give_Delta_Kernel x dx :
  frame (give_Delta_Kernel x dx) fresh.
Proof.
  unfold give_Delta_Kernel. frame_go.
  eapply frame_bind; [|intros _ _; by apply frame_ret].
  apply frame_for_from. intros ii. apply frame_for_from. intros jj.
  unfold give_Delta_Kernel_entry. frame_go; first [done|eauto with frame].
Qed.

Lemma frame_give_1D_NonZero_Delta_Indices lagPts_j N dx supp :
  frame (give_1D_NonZero_Delta_Indices lagPts_j N dx supp) fresh.
Proof. unfold give_1D_NonZero_Delta_Indices. frame_go. done. Qed.

Local Hint Resolve frame_give_Eulerian_Lagrangian_Distance
  frame_give_Delta_Kernel frame_give_1D_NonZero_Delta_Indices : frame.

Lemma frame_give_NonZero_Delta_Indices_XY xLag yLag Nx Ny dx dy supp :
  frame (give_NonZero_Delta_Indices_XY xLag yLag Nx Ny dx dy supp)
        (fun p => fresh p.1 ∧ fresh p.2).
Proof. unfold give_NonZero_Delta_Indices_XY. frame_go. done. Qed.

Lemma frame_give_Me_Perturbed_Distance u v dx dy delta_X delta_Y xInds yInds :
  frame (give_Me_Perturbed_Distance u v dx dy delta_X delta_Y xInds yInds)
        (fun p => fresh p.1 ∧ fresh p.2).
Proof. unfold give_Me_Perturbed_Distance. frame_go. done. Qed.

Local Hint Resolve frame_give_NonZero_Delta_Indices_XY
  frame_give_Me_Perturbed_Distance : frame.

Lemma frame_please_Move_Lagrangian_Point_Positions
    u v xL_P yL_P xL_H yL_H x y dt grid_Info porous_Yes :
  frame (please_Move_Lagrangian_Point_Positions
           u v xL_P yL_P xL_H yL_H x y dt grid_Info porous_Yes)
        (fun p => fresh p.1 ∧ fresh p.2).
Proof. unfold please_Move_Lagrangian_Point_Positions. frame_go; done. Qed.

Lemma frame_please_Move_Massive_Boundary dt_step mass_info mVelocity :
  W mass_info →
  frame (please_Move_Massive_Boundary dt_step mass_info mVelocity)
        (fun p => p.1 = mass_info ∧ fresh p.2).
Proof. intros HW. unfold please_Move_Massive_Boundary. frame_go. done. Qed.

Lemma frame_please_Update_Massive_Boundary_Velocity
    dt_step mass_info mVelocity F_Mass_Bnd gravity_Info :
  (∀ l, globals w0 !! "mVelocity_h" = Some l → W l) →
  frame (please_Update_Massive_Boundary_Velocity
           dt_step mass_info mVelocity F_Mass_Bnd gravity_Info)
        (fun l => globals w0 !! "mVelocity_h" = Some l).
Proof.
  intros HW. unfold please_Update_Massive_Boundary_Velocity.
  assert (Hw : ∀ l, globals w0 !! "mVelocity_h" = Some l → W l ∨ fresh l)
    by (intros; left; auto).
  frame_go.
  eapply frame_bind; [|intros _ _; apply frame_global].
  case_decide; frame_go; apply frame_set_col; auto.
Qed.

Lemma frame_D u dz string : frame (D u dz string) fresh.
Proof.
  unfold D. frame_go.
  eapply frame_bind; [|intros _ _; by apply frame_ret].
  repeat case_match; frame_go; eauto with frame.
Qed.

Lemma frame_DD u dz string : frame (DD u dz string) fresh.
Proof.
  unfold DD. frame_go.
  eapply frame_bind; [|intros _ _; by apply frame_ret].
  repeat case_match; frame_go; eauto with frame.
Qed.

Local Hint Resolve frame_D frame_DD : frame.

Lemma frame_please_Update_Adv_Diff_Concentration C dt dx dy uX uY k :
  frame (please_Update_Adv_Diff_Concentration C dt dx dy uX uY k) fresh.
Proof. unfold please_Update_Adv_Diff_Concentration. frame_go. done. Qed.
End frame_functions.

(* ================================================================== *)
(** ** What a call returns

    [wp m w Q]: started in the world [w], the computation [m] returns, with
    a value and a world that satisfy [Q]. *)

Definition wp {A} (m : M A) (w : world) (Q : A -> world -> Prop) : Prop :=
  match m w with
  | (Ret a, w') => Q a w'
  | (Raise _, _) => False
  end.

(** A world that differs from [w] by the arrays in [ext], allocated last. *)
Definition extend (w : world) (ext : list ndarray) : world :=
  World (heap w ++ ext) (globals w) (stdout w).

(** The call returned a new array object with the contents [v], and left
    every other part of the world [w] as it was. *)
Definition returns_new (w : world) (v : ndarray) (l : loc) (w' : world) : Prop :=
  heap w `prefix_of` heap w' ∧ length (heap w) ≤ l ∧ heap w' !! l = Some v ∧
  globals w' = globals w ∧ stdout w' = stdout w.

(** Element by element on two arrays of one shape. *)
Definition amap2 {A B C} (f : A -> B -> C) (a : arr A) (b : arr B) : arr C :=
  match a, b with
  | Arr1 v, Arr1 w => Arr1 (zip_with f v w)
  | Arr2 c m, Arr2 _ m' => Arr2 c (zip_with (zip_with f) m m')
  | Arr1 _, Arr2 _ _ => Arr1 []
  | Arr2 c _, Arr1 _ => Arr2 c []
  end.

(** Every entry satisfies [P]. *)
Definition aForall {A} (P : A -> Prop) (a : arr A) : Prop :=
  match a with
  | Arr1 v => Forall P v
  | Arr2 _ rows => Forall (Forall P) rows
  end.

Lemma wp_elim {A} (m : M A) w Q :
  wp m w Q → ∃ a w', m w = (Ret a, w') ∧ Q a w'.
Proof. unfold wp. destruct (m w) as [[a|e] w']; [eauto|done]. Qed.

Lemma wp_intro {A} (m : M A) w Q a w' :
  m w = (Ret a, w') → Q a w' → wp m w Q.
Proof. unfold wp. by intros ->. Qed.

Lemma wp_eq {A} (m : M A) w a w' :
  wp m w (fun b w'' => b = a ∧ w'' = w') → m w = (Ret a, w').
Proof. intros H. by apply wp_elim in H as (? & ? & -> & -> & ->). Qed.

Lemma wp_mono {A} (m : M A) w (P Q : A -> world -> Prop) :
  wp m w P → (∀ a w', P a w' → Q a w') → wp m w Q.
Proof. unfold wp. destruct (m w) as [[a|e] w']; auto. Qed.

Lemma wp_ret {A} (a : A) w (Q : A -> world -> Prop) : Q a w → wp (ret a) w Q.
Proof. done. Qed.

Lemma wp_bind {A B} (m : M A) (k : A -> M B) w Q :
  wp m w (fun a w' => wp (k a) w' Q) → wp (bind m k) w Q.
Proof. unfold wp, bind. by destruct (m w) as [[a|e] w']. Qed.

Lemma wp_orraise {A} e (o : option A) a w Q :
  o = Some a → Q a w → wp (orraise e o) w Q.
Proof. by intros ->. Qed.

Lemma wp_load l a w Q : heap w !! l = Some a → Q a w → wp (load l) w Q.
Proof. unfold wp, load. by intros ->. Qed.

Lemma wp_read l a w Q :
  heap w !! l = Some a → Q (as_float a) w → wp (read l) w Q.
Proof. intros Hl HQ. apply wp_bind. eapply wp_load; [done|]. by apply wp_ret. Qed.

Lemma wp_alloc a w Q :
  Q (length (heap w)) (extend w [a]) → wp (alloc a) w Q.
Proof. done. Qed.

Lemma wp_store l a x w Q :
  heap w !! l = Some x →
  Q tt (World (<[l:=a]> (heap w)) (globals w) (stdout w)) →
  wp (store l a) w Q.
Proof. unfold wp, store. by intros ->. Qed.

Lemma wp_np_binop f a b c w Q :
  azip f a b = Some c → Q c w → wp (np_binop f a b) w Q.
Proof. intros. by eapply wp_orraise. Qed.

(** *** The store after allocations *)

Lemma extend_extend w ext ext' :
  extend (extend w ext) ext' = extend w (ext ++ ext').
Proof. unfold extend. simpl. by rewrite <-app_assoc. Qed.

Lemma heap_extend w ext : heap (extend w ext) = heap w ++ ext.
Proof. done. Qed.

Lemma length_heap_extend w ext :
  length (heap (extend w ext)) = length (heap w) + length ext.
Proof. simpl. by rewrite length_app. Qed.

Lemma lookup_extend_old w ext l a :
  heap w !! l = Some a → heap (extend w ext) !! l = Some a.
Proof. apply lookup_app_l_Some. Qed.

Lemma lookup_extend_new w ext k :
  heap (extend w ext) !! (length (heap w) + k) = ext !! k.
Proof. simpl. rewrite lookup_app_r by lia. f_equal. lia. Qed.

Lemma returns_new_extend w ext k v :
  ext !! k = Some v → returns_new w v (length (heap w) + k) (extend w ext).
Proof.
  intros Hk. split_and!; [by apply prefix_app_r|lia| |done|done].
  by rewrite lookup_extend_new.
Qed.

Lemma returns_new_trans w w1 v l w2 :
  heap w `prefix_of` heap w1 → globals w1 = globals w → stdout w1 = stdout w →
  returns_new w1 v l w2 → returns_new w v l w2.
Proof.
  intros Hp Hg Hs (Hp' & Hl & Hv & Hg' & Hs'). split_and!.
  - by etrans.
  - apply prefix_length in Hp. lia.
  - done.
  - congruence.
  - congruence.
Qed.

(** *** Arrays of one shape *)

Lemma bdim_same n : bdim n n = Some n.
Proof. unfold bdim. by rewrite decide_True. Qed.

Lemma stretch_same {X} (l : list X) : stretch (length l) l = l.
Proof. by destruct l as [|x [|y l]]. Qed.

Lemma zip_bc_same {A B C} (f : A -> B -> C) n v w :
  length v = n → length w = n → zip_bc f n v w = zip_with f v w.
Proof. intros <- Hw. unfold zip_bc. by rewrite <-Hw at 2; rewrite !stretch_same. Qed.

Lemma zip_with_zip_bc {A B C} (f : A -> B -> C) k m m' :
  Forall (fun r => length r = k) m → Forall (fun r => length r = k) m' →
  zip_with (zip_bc f k) m m' = zip_with (zip_with f) m m'.
Proof.
  intros Hm. revert m'. induction Hm as [|r m Hr Hm IH]; intros [|r' m'] Hm';
    simpl; try done.
  inversion_clear Hm'. f_equal; [by apply zip_bc_same|by apply IH].
Qed.

Lemma azip_same_shape {A B C} (f : A -> B -> C) a b :
  wf_arr a → wf_arr b → shape a = shape b →
  azip f a b = Some (amap2 f a b).
Proof.
  destruct a as [v|c m], b as [w|c' m']; simpl; intros Ha Hb Hs; try done.
  - injection Hs as Hs. rewrite Hs, bdim_same. simpl.
    by rewrite zip_bc_same.
  - injection Hs as Hs ->. rewrite Hs, !bdim_same. simpl.
    rewrite <-Hs at 1. rewrite !stretch_same.
    by rewrite zip_with_zip_bc.
Qed.

Lemma shape_amap {A B} (f : A -> B) a : shape (amap f a) = shape a.
Proof. destruct a; simpl; by rewrite length_fmap. Qed.

Lemma wf_amap {A B} (f : A -> B) a : wf_arr a → wf_arr (amap f a).
Proof.
  destruct a as [v|c m]; simpl; [done|]. intros Hm.
  apply Forall_fmap. eapply Forall_impl; [done|]. intros r Hr. simpl.
  by rewrite length_fmap.
Qed.

Lemma shape_amap2_l {A B C} (f : A -> B -> C) a b :
  shape a = shape b → shape (amap2 f a b) = shape a.
Proof.
  destruct a as [v|c m], b as [w|c' m']; simpl; intros [= Hs]; try done.
  - rewrite length_zip_with. f_equal. lia.
  - rewrite length_zip_with. f_equal. lia.
Qed.

Lemma wf_amap2 {A B C} (f : A -> B -> C) a b :
  wf_arr a → wf_arr b → shape a = shape b → wf_arr (amap2 f a b).
Proof.
  destruct a as [v|c m], b as [w|c' m']; simpl; try done.
  intros Hm Hm' [= Hs <-]. clear Hs. revert m' Hm'.
  induction Hm as [|r m Hr Hm IH]; intros [|r' m'] Hm'; simpl; try done.
  inversion_clear Hm'. constructor; [|by apply IH].
  rewrite length_zip_with. lia.
Qed.

Lemma fmap_zip_with_both {A B C D} (g : C -> D) (f : A -> B -> C) v w :
  g <$> zip_with f v w = zip_with (fun x y => g (f x y)) v w.
Proof. revert w. induction v as [|x v IH]; intros [|y w]; simpl; by f_equal. Qed.

Lemma zip_with_fmap_diag {A B C} (f : A -> B -> C) (h : A -> B) l :
  zip_with f l (h <$> l) = (fun x => f x (h x)) <$> l.
Proof. induction l; simpl; by f_equal. Qed.

Lemma zip_with_ext_Forall2 {A B C} (f g : A -> B -> C) v w :
  Forall2 (fun x y => f x y = g x y) v w → zip_with f v w = zip_with g v w.
Proof. induction 1; simpl; by f_equal. Qed.

Lemma amap_amap2 {A B C D} (g : C -> D) (f : A -> B -> C) a b :
  amap g (amap2 f a b) = amap2 (fun x y => g (f x y)) a b.
Proof.
  destruct a as [v|c m], b as [w|c' m']; simpl; try done.
  - by rewrite fmap_zip_with_both.
  - f_equal. rewrite fmap_zip_with_both. clear.
    revert m'. induction m as [|r m IH]; intros [|r' m']; simpl; try done.
    f_equal; [apply fmap_zip_with_both|apply IH].
Qed.

Lemma amap2_amap_diag {A B C} (f : A -> B -> C) (h : A -> B) a :
  amap2 f a (amap h a) = amap (fun x => f x (h x)) a.
Proof.
  destruct a as [v|c m]; simpl; f_equal.
  - apply zip_with_fmap_diag.
  - induction m as [|r m IH]; simpl; [done|].
    f_equal; [apply zip_with_fmap_diag|apply IH].
Qed.

Lemma amap2_flip {A B C} (f : A -> B -> C) a b :
  shape a = shape b → amap2 f a b = amap2 (fun y x => f x y) b a.
Proof.
  destruct a as [v|c m], b as [w|c' m']; simpl; intros [= Hs]; try done.
  - f_equal. clear. revert w. induction v; intros [|??]; simpl; by f_equal.
  - subst. f_equal. clear. revert m'.
    induction m as [|r m IH]; intros [|r' m']; simpl; try done.
    f_equal; [|apply IH].
    clear. revert r'. induction r; intros [|??]; simpl; by f_equal.
Qed.

Lemma amap2_ext {A B C} (f g : A -> B -> C) a b :
  (∀ x y, f x y = g x y) → amap2 f a b = amap2 g a b.
Proof.
  intros Hfg.
  assert (Hrow : ∀ v w, zip_with f v w = zip_with g v w).
  { induction v; intros [|??]; simpl; by f_equal. }
  destruct a as [v|c m], b as [w|c' m']; simpl; try done; f_equal; [done|].
  revert m'. induction m; intros [|??]; simpl; by f_equal.
Qed.

Lemma aForall_amap2 {A B C} (f : A -> B -> C) (P : A -> Prop) (Q : B -> Prop)
    (T : C -> Prop) a b :
  (∀ x y, P x → Q y → T (f x y)) →
  aForall P a → aForall Q b → aForall T (amap2 f a b).
Proof.
  intros Hf.
  assert (Hrow : ∀ v w, Forall P v → Forall Q w → Forall T (zip_with f v w)).
  { intros v w Hv. revert w. induction Hv; intros [|??] Hw; simpl; try done.
    inversion_clear Hw. constructor; auto. }
  destruct a as [v|c m], b as [w|c' m']; simpl; try done; [by apply Hrow|].
  intros Hm. revert m'. induction Hm; intros [|??] Hm'; simpl; try done.
  inversion_clear Hm'. constructor; auto.
Qed.

Lemma aForall_amap2_diag {A C} (f : A -> A -> C) (T : C -> Prop) a :
  (∀ x, T (f x x)) → aForall T (amap2 f a a).
Proof.
  intros Hf.
  assert (Hrow : ∀ v, Forall T (zip_with f v v)).
  { induction v; simpl; by constructor. }
  destruct a as [v|c m]; simpl; [done|].
  induction m; simpl; by constructor.
Qed.

(** *** [give_Eulerian_Lagrangian_Distance] *)

(** The shortest distance between [s] and [t] on a circle of length [L]. *)
Definition periodic_distance (L s t : R) : R :=
  Rmin (Rabs (s - t)) (L - Rabs (s - t)).

Lemma give_Eulerian_Lagrangian_Distance_spec x y L a b w :
  heap w !! x = Some (FloatArr a) → heap w !! y = Some (FloatArr b) →
  wf_arr a → wf_arr b → shape a = shape b →
  wp (give_Eulerian_Lagrangian_Distance x y L) w
     (returns_new w (FloatArr (amap2 (periodic_distance L) a b))).
Proof.
  intros Hx Hy Ha Hb Hs. unfold give_Eulerian_Lagrangian_Distance.
  apply wp_bind. eapply wp_read; [done|].
  apply wp_bind. eapply wp_read; [done|]. simpl.
  apply wp_bind. eapply wp_np_binop; [by apply azip_same_shape|].
  apply wp_bind, wp_alloc.
  set (d := amap Rabs (amap2 Rminus a b)).
  assert (Hd : heap (extend w [FloatArr d]) !! length (heap w) = Some (FloatArr d)).
  { rewrite <-(Nat.add_0_r (length _)). by rewrite lookup_extend_new. }
  apply wp_bind. eapply wp_read; [done|].
  apply wp_bind. eapply wp_read; [done|]. simpl.
  apply wp_bind. eapply wp_np_binop.
  { apply azip_same_shape.
    - by apply wf_amap, wf_amap2.
    - by apply wf_amap, wf_amap, wf_amap2.
    - by rewrite !shape_amap. }
  apply wp_bind, wp_alloc. apply wp_ret.
  rewrite extend_extend. simpl.
  replace (length (heap w ++ [FloatArr d])) with (length (heap w) + 1)
    by (rewrite length_app; simpl; lia).
  apply returns_new_extend. simpl. do 2 f_equal.
  rewrite amap2_amap_diag. unfold d. by rewrite !amap_amap2.
Qed.

Lemma periodic_distance_sym L s t :
  periodic_distance L s t = periodic_distance L t s.
Proof. unfold periodic_distance. by rewrite (Rabs_minus_sym s t). Qed.

Lemma periodic_distance_range L s t :
  (0 <= s < L)%R → (0 <= t < L)%R →
  (0 <= periodic_distance L s t <= L / 2)%R.
Proof.
  intros Hs Ht. unfold periodic_distance, Rmin, Rabs.
  destruct (Rcase_abs (s - t)); destruct (Rle_dec _ _); lra.
Qed.

Lemma periodic_distance_self L s : (0 < L)%R → periodic_distance L s s = 0%R.
Proof.
  intros HL. unfold periodic_distance.
  replace (s - s)%R with 0%R by lra. rewrite Rabs_R0.
  rewrite Rmin_left; lra.
Qed.

(** C8.  For every [L > 0] and arrays [a], [b] of one shape with entries in
    [[0, L)], [give_Eulerian_Lagrangian_Distance(a, b, L)] returns a new
    array that holds, element by element, [min(|a-b|, L-|a-b|)]; the call
    with [a] and [b] exchanged returns the same values; every entry lies in
    [[0, L/2]]; and every entry is [0] when [a = b]. *)
Theorem give_Eulerian_Lagrangian_Distance_periodic
    (L : R) (x y : loc) (a b : arr R) (w : world) :
  (0 < L)%R →
  heap w !! x = Some (FloatArr a) → heap w !! y = Some (FloatArr b) →
  wf_arr a → wf_arr b → shape a = shape b →
  aForall (fun t => 0 <= t < L)%R a → aForall (fun t => 0 <= t < L)%R b →
  ∃ d : arr R,
    d = amap2 (fun s t => Rmin (Rabs (s - t)) (L - Rabs (s - t)))%R a b ∧
    (∃ l w', give_Eulerian_Lagrangian_Distance x y L w = (Ret l, w') ∧
             returns_new w (FloatArr d) l w') ∧
    (∃ l w', give_Eulerian_Lagrangian_Distance y x L w = (Ret l, w') ∧
             returns_new w (FloatArr d) l w') ∧
    aForall (fun t => 0 <= t <= L / 2)%R d ∧
    (a = b → aForall (fun t => t = 0%R) d).
Proof.
  intros HL Hx Hy Ha Hb Hs HaL HbL.
  exists (amap2 (periodic_distance L) a b). split_and!.
  - done.
  - apply wp_elim. by apply give_Eulerian_Lagrangian_Distance_spec.
  - apply wp_elim.
    replace (amap2 (periodic_distance L) a b)
      with (amap2 (periodic_distance L) b a).
    + by apply give_Eulerian_Lagrangian_Distance_spec.
    + rewrite (amap2_flip _ a b) by done. apply amap2_ext.
      intros s t. apply periodic_distance_sym.
  - eapply aForall_amap2; [|exact HaL|exact HbL].
    intros s t ??. by apply periodic_distance_range.
  - intros <-. apply aForall_amap2_diag.
    intros s. by apply periodic_distance_self.
Qed.

Lemma give_Eulerian_Lagrangian_Distance_periodic_witness :
  let a := Arr1 [0%R] in
  let b := Arr1 [(1 / 2)%R] in
  let w := World [FloatArr a; FloatArr b] ∅ [] in
  ∃ d : arr R,
    d = amap2 (fun s t => Rmin (Rabs (s - t)) (1 - Rabs (s - t)))%R a b ∧
    (∃ l w', give_Eulerian_Lagrangian_Distance 0 1 1 w = (Ret l, w') ∧
             returns_new w (FloatArr d) l w') ∧
    (∃ l w', give_Eulerian_Lagrangian_Distance 1 0 1 w = (Ret l, w') ∧
             returns_new w (FloatArr d) l w') ∧
    aForall (fun t => 0 <= t <= 1 / 2)%R d ∧
    (a = b → aForall (fun t => t = 0%R) d).
Proof.
  intros a b w.
  apply (give_Eulerian_Lagrangian_Distance_periodic 1 0 1 a b w).
  - lra.
  - reflexivity.
  - reflexivity.
  - exact I.
  - exact I.
  - reflexivity.
  - repeat constructor; lra.
  - repeat constructor; lra.
Defined.

(* ================================================================== *)
(** ** The arrays a call leaves alone *)

Lemma fresh_lookup_None (w : world) (l : loc) :
  fresh w l → heap w !! l = None.
Proof. intros Hl. by apply lookup_ge_None. Qed.

(** C10.  For every input, [please_Move_Lagrangian_Point_Positions] leaves
    every array that exists at the call as it is, whether it returns or
    raises: [u], [v], [xL_P], [yL_P], [xL_H], [yL_H], [x] and [y] among
    them.  The arrays [xL_Next] and [yL_Next] that it returns are not among
    the arrays that exist at the call: they are allocated by the call. *)
Theorem please_Move_Lagrangian_Point_Positions_inputs_unchanged
    (u v xL_P yL_P xL_H yL_H x y : loc) (dt : R) (grid_Info : grid)
    (porous_Yes : bool) (w : world) :
  let r := please_Move_Lagrangian_Point_Positions
             u v xL_P yL_P xL_H yL_H x y dt grid_Info porous_Yes w in
  (∀ l a, heap w !! l = Some a → heap r.2 !! l = Some a) ∧
  (∀ xL_Next yL_Next, r.1 = Ret (xL_Next, yL_Next) →
     heap w !! xL_Next = None ∧ heap w !! yL_Next = None).
Proof.
  intros r.
  destruct (frame_please_Move_Lagrangian_Point_Positions (fun _ => False) w
              u v xL_P yL_P xL_H yL_H x y dt grid_Info porous_Yes w
              (keeps_start _ w)) as [(_ & _ & Hold) Hret].
  split.
  - intros l a. apply Hold. tauto.
  - intros xn yn Hr. destruct (Hret _ Hr) as [Hx Hy].
    split; by apply fresh_lookup_None.
Qed.

(* ================================================================== *)
(** ** numpy statements on float arrays *)

(** The world after the array at [l] was overwritten by [a]. *)
Definition update (w : world) (l : loc) (a : ndarray) : world :=
  World (<[l:=a]> (heap w)) (globals w) (stdout w).

Lemma wp_column l j a v w Q :
  heap w !! l = Some a → get_col (as_float a) j = Some v →
  Q (Arr1 v) w → wp (column l j) w Q.
Proof.
  intros Hl Hv HQ. unfold column.
  apply wp_bind. eapply wp_read; [done|].
  apply wp_bind. eapply wp_orraise; [done|]. by apply wp_ret.
Qed.

Lemma wp_row_of l i a v w Q :
  heap w !! l = Some a → get_row (as_float a) i = Some v →
  Q (Arr1 v) w → wp (row_of l i) w Q.
Proof.
  intros Hl Hv HQ. unfold row_of.
  apply wp_bind. eapply wp_read; [done|].
  apply wp_bind. eapply wp_orraise; [done|]. by apply wp_ret.
Qed.

Lemma wp_columns l s e a v w Q :
  heap w !! l = Some a → col_slice (as_float a) s e = Some v →
  Q v w → wp (columns l s e) w Q.
Proof.
  intros Hl Hv HQ. unfold columns.
  apply wp_bind. eapply wp_read; [done|]. by eapply wp_orraise.
Qed.

Lemma wp_rows_of l s e a v w Q :
  heap w !! l = Some a → row_slice (as_float a) s e = Some v →
  Q v w → wp (rows_of l s e) w Q.
Proof.
  intros Hl Hv HQ. unfold rows_of.
  apply wp_bind. eapply wp_read; [done|]. by eapply wp_orraise.
Qed.

Lemma wp_item1 l k a v k' t w Q :
  heap w !! l = Some a → as_float a = Arr1 v →
  pyidx (length v) k = Some k' → v !! k' = Some t →
  Q t w → wp (item1 l k) w Q.
Proof.
  intros Hl Ha Hk Ht HQ. unfold item1.
  apply wp_bind. eapply wp_read; [done|]. rewrite Ha.
  eapply wp_orraise; [|done]. rewrite Hk. simpl. done.
Qed.

Lemma wp_item2 l i j a t w Q :
  heap w !! l = Some a → get_item2 (as_float a) i j = Some t →
  Q t w → wp (item2 l i j) w Q.
Proof.
  intros Hl Ht HQ. unfold item2.
  apply wp_bind. eapply wp_read; [done|]. by eapply wp_orraise.
Qed.

Lemma wp_set_item2 l i j x c rows r w Q :
  heap w !! l = Some (FloatArr (Arr2 c rows)) →
  rows !! i = Some r → j < length r →
  Q tt (update w l (FloatArr (Arr2 c (<[i := <[j := x]> r]> rows)))) →
  wp (set_item2 l i j x) w Q.
Proof.
  intros Hl Hr Hj HQ. unfold set_item2, modify.
  apply wp_bind. eapply wp_load; [done|].
  apply wp_bind. apply wp_bind. eapply wp_orraise; [done|].
  rewrite decide_True by done. apply wp_ret.
  by eapply wp_store.
Qed.

Lemma wp_set_col l j rhs c rows j' v w Q :
  heap w !! l = Some (FloatArr (Arr2 c rows)) →
  pyidx c j = Some j' → fit_vec (length rows) rhs = Some v →
  Q tt (update w l (FloatArr (Arr2 c (upd_col j' v rows)))) →
  wp (set_col l j rhs) w Q.
Proof.
  intros Hl Hj Hv HQ. unfold set_col, modify.
  apply wp_bind. eapply wp_load; [done|].
  apply wp_bind. apply wp_bind. eapply wp_orraise; [done|].
  apply wp_bind. eapply wp_orraise; [done|]. apply wp_ret.
  rewrite list_fmap_id. by eapply wp_store.
Qed.

Lemma wp_set_row l i rhs c rows i' v w Q :
  heap w !! l = Some (FloatArr (Arr2 c rows)) →
  pyidx (length rows) i = Some i' → fit_vec c rhs = Some v →
  Q tt (update w l (FloatArr (Arr2 c (<[i' := v]> rows)))) →
  wp (set_row l i rhs) w Q.
Proof.
  intros Hl Hi Hv HQ. unfold set_row, modify.
  apply wp_bind. eapply wp_load; [done|].
  apply wp_bind. apply wp_bind. eapply wp_orraise; [done|].
  apply wp_bind. eapply wp_orraise; [done|]. apply wp_ret.
  rewrite list_fmap_id. by eapply wp_store.
Qed.

Lemma list_fmap_fmap_id (m : list (list R)) :
  fmap (M:=list) (fmap (M:=list) id) m = m.
Proof.
  induction m as [|r m IH]; [done|]. rewrite fmap_cons. f_equal; [|done].
  apply list_fmap_id.
Qed.

Lemma wp_set_columns l s e rhs c rows s' n new w Q :
  heap w !! l = Some (FloatArr (Arr2 c rows)) →
  slice_bounds c s e = (s', n) → fit_mat (length rows) n rhs = Some new →
  Q tt (update w l (FloatArr (Arr2 c (upd_cols s' new rows)))) →
  wp (set_columns l s e rhs) w Q.
Proof.
  intros Hl Hs Hv HQ. unfold set_columns, modify.
  apply wp_bind. eapply wp_load; [done|]. cbv beta iota. rewrite Hs.
  apply wp_bind. apply wp_bind. eapply wp_orraise; [done|]. apply wp_ret.
  rewrite list_fmap_fmap_id. by eapply wp_store.
Qed.

Lemma wp_set_rows l s e rhs c rows s' n new w Q :
  heap w !! l = Some (FloatArr (Arr2 c rows)) →
  slice_bounds (length rows) s e = (s', n) → fit_mat n c rhs = Some new →
  Q tt (update w l (FloatArr (Arr2 c (splice s' new rows)))) →
  wp (set_rows l s e rhs) w Q.
Proof.
  intros Hl Hs Hv HQ. unfold set_rows, modify.
  apply wp_bind. eapply wp_load; [done|]. cbv beta iota. rewrite Hs.
  apply wp_bind. apply wp_bind. eapply wp_orraise; [done|]. apply wp_ret.
  rewrite list_fmap_fmap_id. by eapply wp_store.
Qed.

Lemma pyidx_nonneg n (i : Z) :
  (0 ≤ i < Z.of_nat n)%Z → pyidx n i = Some (Z.to_nat i).
Proof. intros Hi. unfold pyidx. by rewrite decide_True. Qed.

Lemma pyidx_neg n (i : Z) :
  (- Z.of_nat n ≤ i < 0)%Z → pyidx n i = Some (Z.to_nat (Z.of_nat n + i)).
Proof.
  intros Hi. unfold pyidx. rewrite decide_False by lia. by rewrite decide_True.
Qed.

Lemma mapM_fmap_Some {X Y Z} (f : Y -> option Z) (g : X -> Y) (h : X -> Z) l :
  (∀ x, f (g x) = Some (h x)) → mapM f (g <$> l) = Some (h <$> l).
Proof.
  intros Hf. apply mapM_Some, Forall2_fmap.
  induction l; constructor; auto.
Qed.

Lemma fit_vec_same n v : length v = n → fit_vec n (Arr1 v) = Some v.
Proof.
  intros <-. unfold fit_vec. simpl. rewrite stretch_same.
  by rewrite decide_True.
Qed.

Lemma update_update w l a b : update (update w l a) l b = update w l b.
Proof. unfold update. simpl. by rewrite list_insert_insert_eq. Qed.

Lemma lookup_update_eq w l a :
  l < length (heap w) → heap (update w l a) !! l = Some a.
Proof. intros Hl. simpl. by apply list_lookup_insert_eq. Qed.

Lemma lookup_update_ne w l l' a :
  l ≠ l' → heap (update w l a) !! l' = heap w !! l'.
Proof. intros Hl. simpl. by apply list_lookup_insert_ne. Qed.

(* ================================================================== *)
(** ** The massive boundary *)

(** A row of [mass_info], by the columns its docstring lists. *)
Record mass_point : Type := MassPoint {
  lagIndex : R;     (* col 1: lag index for mass pt *)
  x_Lag : R;        (* col 2: massive x-Lag Value *)
  y_Lag : R;        (* col 3: massive y-Lag Value *)
  stiffness : R;    (* col 4: 'mass-spring' stiffness parameter *)
  mass : R          (* col 5: MASS parameter value *)
}.

Definition mass_row (p : mass_point) : list R :=
  [lagIndex p; x_Lag p; y_Lag p; stiffness p; mass p].

(** The arrays [mass_info] and [mVelocity] of well-formed tables. *)
Definition mass_table (ps : list mass_point) : ndarray :=
  FloatArr (Arr2 5 (mass_row <$> ps)).

Definition velocity_table (vs : list (R * R)) : ndarray :=
  FloatArr (Arr2 2 ((fun v => [v.1; v.2]) <$> vs)).

(** The [(x, y)] columns of a table. *)
Definition positions (ps : list mass_point) : ndarray :=
  FloatArr (Arr2 2 ((fun p => [x_Lag p; y_Lag p]) <$> ps)).

(** A point moved by [dt] times its velocity, with no wrap. *)
Definition moved (dt : R) (p : mass_point) (v : R * R) : mass_point :=
  MassPoint (lagIndex p) (x_Lag p + dt * v.1) (y_Lag p + dt * v.2)
            (stiffness p) (mass p).

Lemma upd_col_x dt ps (vs : list (R * R)) :
  length ps = length vs →
  upd_col 1 (zip_with Rplus (x_Lag <$> ps) (Rmult dt <$> (fst <$> vs)))
          (mass_row <$> ps)
  = mass_row <$>
      zip_with (fun p v => MassPoint (lagIndex p) (x_Lag p + dt * v.1)
                                     (y_Lag p) (stiffness p) (mass p)) ps vs.
Proof.
  revert vs. induction ps as [|p ps IH]; intros [|v vs] [=]; [done|].
  unfold upd_col in *. simpl. f_equal. by apply IH.
Qed.

Lemma upd_col_y dt ps (vs : list (R * R)) :
  length ps = length vs →
  upd_col 2 (zip_with Rplus (y_Lag <$> ps) (Rmult dt <$> (snd <$> vs)))
          (mass_row <$> ps)
  = mass_row <$>
      zip_with (fun p v => MassPoint (lagIndex p) (x_Lag p)
                                     (y_Lag p + dt * v.2) (stiffness p) (mass p))
               ps vs.
Proof.
  revert vs. induction ps as [|p ps IH]; intros [|v vs] [=]; [done|].
  unfold upd_col in *. simpl. f_equal. by apply IH.
Qed.

Lemma zip_with_moved dt ps (vs : list (R * R)) :
  zip_with (fun p v => MassPoint (lagIndex p) (x_Lag p)
                                 (y_Lag p + dt * v.2) (stiffness p) (mass p))
    (zip_with (fun p v => MassPoint (lagIndex p) (x_Lag p + dt * v.1)
                                    (y_Lag p) (stiffness p) (mass p)) ps vs)
    vs
  = zip_with (moved dt) ps vs.
Proof.
  revert vs. induction ps as [|p ps IH]; intros [|v vs]; simpl; [done..|].
  f_equal. apply IH.
Qed.

Lemma get_cols_positions ps :
  get_cols (Arr2 5 (mass_row <$> ps)) [1; 2]%Z
  = Some (Arr2 2 ((fun p => [x_Lag p; y_Lag p]) <$> ps)).
Proof.
  unfold get_cols.
  change (mapM (pyidx 5) [1; 2]%Z) with (Some [1; 2]).
  cbn [mbind option_bind].
  rewrite (mapM_fmap_Some _ _ (fun p => [x_Lag p; y_Lag p])) by done.
  done.
Qed.

(** [please_Move_Massive_Boundary] on well-formed tables: it returns the
    location it was given and a new array with the old positions, and the
    table at that location is overwritten. *)
Lemma please_Move_Massive_Boundary_spec dt mass_info mVelocity ps vs w :
  heap w !! mass_info = Some (mass_table ps) →
  heap w !! mVelocity = Some (velocity_table vs) →
  length ps = length vs →
  please_Move_Massive_Boundary dt mass_info mVelocity w
  = (Ret (mass_info, length (heap w)),
     update (extend w [positions ps]) mass_info
            (mass_table (zip_with (moved dt) ps vs))).
Proof.
  intros Hmi Hmv Hlen.
  assert (Hne : mass_info ≠ mVelocity).
  { intros ->. rewrite Hmi in Hmv. discriminate. }
  assert (Hlt : mass_info < length (heap w)) by by eapply lookup_lt_Some.
  set (ps1 := zip_with (fun p v => MassPoint (lagIndex p) (x_Lag p + dt * v.1)
                                   (y_Lag p) (stiffness p) (mass p)) ps vs).
  assert (Hlen1 : length ps1 = length vs).
  { unfold ps1. rewrite length_zip_with. lia. }
  apply wp_eq. unfold please_Move_Massive_Boundary.
  apply wp_bind. eapply wp_load; [done|].
  apply wp_bind. eapply wp_orraise.
  { unfold mass_table, nd_select. by rewrite get_cols_positions. }
  apply wp_bind, wp_alloc.
  (* the x column *)
  apply wp_bind. eapply wp_column; [by apply lookup_extend_old| |].
  { unfold mass_table, get_col. simpl.
    by rewrite (mapM_fmap_Some _ _ x_Lag). }
  apply wp_bind. eapply wp_column; [by apply lookup_extend_old| |].
  { unfold velocity_table, get_col. simpl.
    by rewrite (mapM_fmap_Some _ _ fst). }
  apply wp_bind. eapply wp_np_binop.
  { apply azip_same_shape; [done..|]. simpl. by rewrite !length_fmap, Hlen. }
  simpl amap2.
  eapply wp_bind, wp_set_col; [by apply lookup_extend_old|done| |].
  { apply fit_vec_same. rewrite length_zip_with, !length_fmap. lia. }
  rewrite upd_col_x by done. fold ps1.
  (* the y column *)
  apply wp_bind. eapply wp_column; [by apply lookup_update_eq; simpl; rewrite length_app; lia| |].
  { unfold get_col. simpl. by rewrite (mapM_fmap_Some _ _ y_Lag). }
  apply wp_bind. eapply wp_column.
  { rewrite lookup_update_ne by done. by apply lookup_extend_old. }
  { unfold velocity_table, get_col. simpl.
    by rewrite (mapM_fmap_Some _ _ snd). }
  apply wp_bind. eapply wp_np_binop.
  { apply azip_same_shape; [done..|]. simpl. by rewrite !length_fmap, Hlen1. }
  simpl amap2.
  eapply wp_bind, wp_set_col;
    [by apply lookup_update_eq; simpl; rewrite length_app; lia|done| |].
  { apply fit_vec_same. rewrite length_zip_with, !length_fmap. lia. }
  apply wp_ret. split; [done|].
  rewrite update_update. unfold mass_table. do 3 f_equal.
  replace (y_Lag <$> ps1) with (y_Lag <$> ps1) by done.
  rewrite upd_col_y by done. unfold ps1. by rewrite zip_with_moved.
Qed.

(** C5.  For every massive-boundary table and velocity table of matching
    length, [please_Move_Massive_Boundary] returns the table together with
    a new array [massLagsOld] that holds the [(x, y)] columns as they were
    before the call, and the positions of the returned table are
    [old + dt*velocity], component by component, with no periodic wrap;
    the other columns are as before. *)
Theorem please_Move_Massive_Boundary_positions
    (dt : R) (mass_info mVelocity : loc) (ps : list mass_point)
    (vs : list (R * R)) (w : world) :
  heap w !! mass_info = Some (mass_table ps) →
  heap w !! mVelocity = Some (velocity_table vs) →
  length ps = length vs →
  ∃ mass_info' massLagsOld w',
    please_Move_Massive_Boundary dt mass_info mVelocity w
      = (Ret (mass_info', massLagsOld), w') ∧
    heap w' !! massLagsOld = Some (positions ps) ∧
    heap w' !! mass_info'
      = Some (mass_table
                (zip_with (fun p v =>
                             MassPoint (lagIndex p)
                                       (x_Lag p + dt * v.1) (y_Lag p + dt * v.2)
                                       (stiffness p) (mass p)) ps vs)).
Proof.
  intros Hmi Hmv Hlen.
  assert (Hlt : mass_info < length (heap w)) by by eapply lookup_lt_Some.
  eexists _, _, _. split_and!.
  - by apply please_Move_Massive_Boundary_spec.
  - rewrite lookup_update_ne by lia.
    rewrite <-(Nat.add_0_r (length _)). by rewrite lookup_extend_new.
  - apply lookup_update_eq. simpl. rewrite length_app. lia.
Qed.

Lemma please_Move_Massive_Boundary_positions_witness :
  let ps := [MassPoint 0 1 2 3 4] in
  let vs := [(1, 1)%R] in
  let w := World [mass_table ps; velocity_table vs] ∅ [] in
  ∃ mass_info' massLagsOld w',
    please_Move_Massive_Boundary 1 0 1 w
      = (Ret (mass_info', massLagsOld), w') ∧
    heap w' !! massLagsOld = Some (positions ps) ∧
    heap w' !! mass_info'
      = Some (mass_table
                (zip_with (fun p v =>
                             MassPoint (lagIndex p)
                                       (x_Lag p + 1 * v.1) (y_Lag p + 1 * v.2)
                                       (stiffness p) (mass p)) ps vs)).
Proof.
  intros ps vs w.
  apply (please_Move_Massive_Boundary_positions 1 0 1 ps vs w).
  - reflexivity.
  - reflexivity.
  - reflexivity.
Defined.

(** C3, as stated, fails: [please_Move_Massive_Boundary] changes the array
    [mass_info] that it is given.  One point at [(0, 0)] with velocity
    [(1, 1)] and [dt = 1]: after the call the array holds the position
    [(1, 1)]. *)
Lemma please_Move_Massive_Boundary_changes_mass_info :
  let w := World [mass_table [MassPoint 0 0 0 1 2];
                  velocity_table [(1, 1)%R]] ∅ [] in
  heap (please_Move_Massive_Boundary 1 0 1 w).2 !! 0 ≠ heap w !! 0.
Proof.
  intros w.
  rewrite (please_Move_Massive_Boundary_spec 1 0 1
             [MassPoint 0 0 0 1 2] [(1, 1)%R] w) by done.
  simpl. intros [= H _]. lra.
Qed.

(** C3, amended.  [please_Move_Massive_Boundary] returns the array
    [mass_info] that it was given, not a copy; apart from that array, every
    array that exists at the call is unchanged, [mVelocity] among them when
    it is another array, and [massLagsOld] is allocated by the call.
    [please_Update_Massive_Boundary_Velocity] leaves every array that exists
    at the call unchanged, [mass_info], [mVelocity], [F_Mass_Bnd] and
    [gravity_Info] among them, unless it is the array bound to the module's
    global name [mVelocity_h].  Both hold whether the call returns or
    raises. *)
Theorem massive_boundary_inputs
    (dt_step : R) (mass_info mVelocity F_Mass_Bnd gravity_Info : loc)
    (w : world) :
  let r1 := please_Move_Massive_Boundary dt_step mass_info mVelocity w in
  let r2 := please_Update_Massive_Boundary_Velocity
              dt_step mass_info mVelocity F_Mass_Bnd gravity_Info w in
  (∀ l a, l ≠ mass_info → heap w !! l = Some a → heap r1.2 !! l = Some a) ∧
  (∀ mass_info' massLagsOld, r1.1 = Ret (mass_info', massLagsOld) →
     mass_info' = mass_info ∧ heap w !! massLagsOld = None) ∧
  (∀ l a, globals w !! "mVelocity_h" ≠ Some l →
     heap w !! l = Some a → heap r2.2 !! l = Some a).
Proof.
  intros r1 r2. split_and!.
  - destruct (frame_please_Move_Massive_Boundary (fun l => l = mass_info) w
                dt_step mass_info mVelocity eq_refl w (keeps_start _ w))
      as [(_ & _ & Hold) _].
    intros l a Hl. by apply Hold.
  - destruct (frame_please_Move_Massive_Boundary (fun l => l = mass_info) w
                dt_step mass_info mVelocity eq_refl w (keeps_start _ w))
      as [_ Hret].
    intros mi old Hr. destruct (Hret _ Hr) as [Hmi Hold]. simpl in *.
    split; [done|by apply fresh_lookup_None].
  - destruct (frame_please_Update_Massive_Boundary_Velocity
                (fun l => globals w !! "mVelocity_h" = Some l) w
                dt_step mass_info mVelocity F_Mass_Bnd gravity_Info
                (fun l H => H) w (keeps_start _ w)) as [(_ & _ & Hold) _].
    intros l a Hl. by apply Hold.
Qed.

(** [please_Update_Massive_Boundary_Velocity] returns only what the global
    name [mVelocity_h] is bound to: where the module binds no such name, as
    [Supp.py] does not, no call returns. *)
Lemma please_Update_Massive_Boundary_Velocity_needs_global
    dt_step mass_info mVelocity F_Mass_Bnd gravity_Info w l :
  (please_Update_Massive_Boundary_Velocity
     dt_step mass_info mVelocity F_Mass_Bnd gravity_Info w).1 = Ret l →
  globals w !! "mVelocity_h" = Some l.
Proof.
  destruct (frame_please_Update_Massive_Boundary_Velocity
              (fun l => globals w !! "mVelocity_h" = Some l) w
              dt_step mass_info mVelocity F_Mass_Bnd gravity_Info
              (fun l H => H) w (keeps_start _ w)) as [_ Hret].
  apply Hret.
Qed.

(* ================================================================== *)
(** ** Runs that raise *)

Lemma bind_ret_eq {A B} (m : M A) (k : A -> M B) w a w' :
  m w = (Ret a, w') → bind m k w = k a w'.
Proof. unfold bind. by intros ->. Qed.

Lemma bind_raise_eq {A B} (m : M A) (k : A -> M B) w e w' :
  m w = (Raise e, w') → bind m k w = (Raise e, w').
Proof. unfold bind. by intros ->. Qed.

(** One statement that returns, by the rule [tac] for it. *)
Ltac run_ret tac :=
  erewrite bind_ret_eq; [|apply wp_eq; tac; split; reflexivity].

(** C2, at its end-to-end scenario: one point of mass [2.0], zero force, no
    gravity, velocity [(0, 0)], [dt = 0.1], and a module that binds no name
    [mVelocity_h], as [Supp.py] does not.  The call raises: [IndexError] for
    the float column [mass_info[:,0]] used as an index array and, were the
    table of an integer type, [NameError] for [mVelocity_h].  The claim has
    it return the velocity [(0, 0)]. *)
Theorem please_Update_Massive_Boundary_Velocity_raises :
  let velocity := velocity_table [(0, 0)%R] in
  let force := FloatArr (Arr2 2 [[0; 0]%R]) in
  let gravity := FloatArr (Arr1 [0; 0; 0]%R) in
  let w := World [mass_table [MassPoint 0 0 0 1 2]; velocity; force; gravity]
                 ∅ [] in
  let w_int := World [IntArr (Arr2 5 [[0; 0; 0; 1; 2]%Z]);
                      velocity; force; gravity] ∅ [] in
  please_Update_Massive_Boundary_Velocity 0.1 0 1 2 3 w
    = (Raise IndexError, w) ∧
  please_Update_Massive_Boundary_Velocity 0.1 0 1 2 3 w_int
    = (Raise (NameError "mVelocity_h"), w_int).
Proof.
  intros velocity force gravity w w_int.
  unfold please_Update_Massive_Boundary_Velocity. split.
  - run_ret ltac:(eapply wp_load; [reflexivity|]).
    run_ret ltac:(eapply wp_orraise; [reflexivity|]).
    run_ret ltac:(eapply wp_item1; [reflexivity..|]).
    rewrite decide_False by lra.
    erewrite bind_raise_eq; [reflexivity|].
    run_ret ltac:(eapply wp_column; [reflexivity..|]).
    run_ret ltac:(eapply wp_read; [reflexivity|]).
    erewrite bind_raise_eq; reflexivity.
  - run_ret ltac:(eapply wp_load; [reflexivity|]).
    run_ret ltac:(eapply wp_orraise; [reflexivity|]).
    run_ret ltac:(eapply wp_item1; [reflexivity..|]).
    rewrite decide_False by lra.
    erewrite bind_raise_eq; [reflexivity|].
    run_ret ltac:(eapply wp_column; [reflexivity..|]).
    run_ret ltac:(eapply wp_read; [reflexivity|]).
    run_ret ltac:(eapply wp_orraise; [reflexivity|]).
    run_ret ltac:(eapply wp_column; [reflexivity..|]).
    run_ret ltac:(eapply wp_np_binop; [reflexivity|]).
    run_ret ltac:(eapply wp_np_binop; [reflexivity|]).
    erewrite bind_raise_eq; reflexivity.
Qed.

(* ================================================================== *)
(** ** The delta kernel *)

(** What the loop of [give_Delta_Kernel] leaves in [delta[ii,jj]] when it
    found [r] there: the entry is not written for [r >= 2]. *)
Definition delta_entry (dx r : R) : R :=
  if bool_decide (r < 1)%R then
    ((3 - 2 * r + sqrt (1 + 4 * r - 4 * r * r)) / (8 * dx))%R
  else if bool_decide (r < 2)%R && bool_decide (r >= 1)%R then
    ((5 - 2 * r - sqrt (-7 + 12 * r - 4 * r * r)) / (8 * dx))%R
  else r.

(** [f] applied to the [n] entries of [l] from position [s] on. *)
Fixpoint map_seg {X} (f : X -> X) (s n : nat) (l : list X) : list X :=
  match l with
  | [] => []
  | x :: l' =>
      match s with
      | S s' => x :: map_seg f s' n l'
      | O => match n with
             | O => l
             | S n' => f x :: map_seg f 0 n' l'
             end
      end
  end.

Lemma map_seg_0 {X} (f : X -> X) s l : map_seg f s 0 l = l.
Proof.
  revert s. induction l as [|x l IH]; intros [|s]; simpl; try done.
  by rewrite IH.
Qed.

Lemma map_seg_step {X} (f : X -> X) s n l x :
  l !! s = Some x →
  map_seg f s (S n) l = map_seg f (S s) n (<[s := f x]> l).
Proof.
  revert s. induction l as [|y l IH]; intros [|s] Hx; simpl in *; try done.
  - by injection Hx as ->.
  - f_equal. by apply IH.
Qed.

Lemma map_seg_all {X} (f : X -> X) n l :
  length l ≤ n → map_seg f 0 n l = f <$> l.
Proof.
  revert n. induction l as [|x l IH]; intros [|n] Hn; simpl in *;
    try done; try lia.
  f_equal. apply IH. lia.
Qed.

Lemma update_id w l a : heap w !! l = Some a → update w l a = w.
Proof.
  intros Hl. destruct w as [h g s]. unfold update. simpl in *.
  by rewrite list_insert_id.
Qed.

Lemma update_extend_last w a b :
  update (extend w [a]) (length (heap w)) b = extend w [b].
Proof.
  unfold update, extend. simpl. f_equal.
  rewrite insert_app_r_alt by lia. by rewrite Nat.sub_diag.
Qed.

Lemma wp_math_sqrt t w Q :
  (0 <= t)%R → Q (sqrt t) w → wp (math_sqrt t) w Q.
Proof. intros Ht HQ. unfold math_sqrt. rewrite decide_False by lra. done. Qed.

Lemma give_Delta_Kernel_entry_run w l c rows row t dx ii jj :
  heap w !! l = Some (FloatArr (Arr2 c rows)) →
  rows !! ii = Some row → row !! jj = Some t → (0 <= t)%R →
  give_Delta_Kernel_entry l l dx ii jj w
  = (Ret tt,
     update w l (FloatArr (Arr2 c (<[ii := <[jj := delta_entry dx t]> row]> rows)))).
Proof.
  intros Hl Hrow Ht Hpos. apply wp_eq. unfold give_Delta_Kernel_entry.
  assert (Hjj : jj < length row) by by eapply lookup_lt_Some.
  apply wp_bind. eapply wp_item2; [done| |].
  { simpl. rewrite Hrow. simpl. exact Ht. }
  unfold delta_entry.
  destruct (bool_decide (t < 1)%R) eqn:E1.
  - apply bool_decide_eq_true in E1.
    apply wp_bind, wp_math_sqrt; [nra|].
    eapply wp_set_item2; done.
  - destruct (bool_decide (t < 2)%R && bool_decide (t >= 1)%R) eqn:E2.
    + apply andb_true_iff in E2 as [E2 E3].
      apply bool_decide_eq_true in E2, E3.
      apply wp_bind, wp_math_sqrt; [nra|].
      eapply wp_set_item2; done.
    + apply wp_ret. split; [done|].
      rewrite (list_insert_id row), (list_insert_id rows) by done.
      by rewrite update_id.
Qed.

Lemma give_Delta_Kernel_row_run dx l c ii n :
  ∀ jj0 w rows row,
    heap w !! l = Some (FloatArr (Arr2 c rows)) →
    rows !! ii = Some row → jj0 + n ≤ length row →
    (∀ j t, jj0 ≤ j → row !! j = Some t → (0 <= t)%R) →
    for_from jj0 n (give_Delta_Kernel_entry l l dx ii) w
    = (Ret tt,
       update w l (FloatArr (Arr2 c (<[ii := map_seg (delta_entry dx) jj0 n row]> rows)))).
Proof.
  induction n as [|n IH]; intros jj0 w rows row Hl Hrow Hn Hpos; simpl.
  - rewrite map_seg_0, list_insert_id by done. by rewrite update_id.
  - destruct (lookup_lt_is_Some_2 row jj0) as [t Ht]; [lia|].
    assert (Hii : ii < length rows) by by eapply lookup_lt_Some.
    erewrite bind_ret_eq;
      [|eapply give_Delta_Kernel_entry_run; eauto].
    erewrite IH.
    + rewrite update_update, list_insert_insert_eq.
      by rewrite <-map_seg_step.
    + apply lookup_update_eq. by eapply lookup_lt_Some.
    + by apply list_lookup_insert_eq.
    + rewrite length_insert. lia.
    + intros j u Hj Hu. rewrite list_lookup_insert_ne in Hu by lia.
      eapply Hpos; [|done]. lia.
Qed.

Lemma give_Delta_Kernel_rows_run dx l c col n :
  ∀ ii0 w rows,
    heap w !! l = Some (FloatArr (Arr2 c rows)) →
    ii0 + n ≤ length rows →
    (∀ i row, ii0 ≤ i → rows !! i = Some row →
              length row = col ∧ Forall (fun t => 0 <= t)%R row) →
    for_from ii0 n
      (fun ii => for_range col (give_Delta_Kernel_entry l l dx ii)) w
    = (Ret tt,
       update w l (FloatArr (Arr2 c (map_seg (fmap (delta_entry dx)) ii0 n rows)))).
Proof.
  induction n as [|n IH]; intros ii0 w rows Hl Hn Hrows; simpl.
  - rewrite map_seg_0. by rewrite update_id.
  - destruct (lookup_lt_is_Some_2 rows ii0) as [row Hrow]; [lia|].
    destruct (Hrows ii0 row) as [Hlen Hpos]; [lia|done|].
    erewrite bind_ret_eq.
    2:{ unfold for_range. eapply give_Delta_Kernel_row_run; eauto; [lia|].
        intros j t _ Ht. eapply Forall_lookup_1 in Hpos; eauto. }
    rewrite map_seg_all by lia.
    erewrite IH.
    + rewrite update_update. by rewrite <-map_seg_step.
    + apply lookup_update_eq. by eapply lookup_lt_Some.
    + rewrite length_insert. lia.
    + intros i r Hi Hr. rewrite list_lookup_insert_ne in Hr by lia.
      eapply Hrows; [|done]. lia.
Qed.

(** [give_Delta_Kernel] on a two-dimensional float array and a positive
    spacing: the new array holds [delta_entry dx (|x|/dx)], element by
    element. *)
Lemma give_Delta_Kernel_spec x dx c rows w :
  heap w !! x = Some (FloatArr (Arr2 c rows)) →
  wf_arr (Arr2 c rows) → (0 < dx)%R →
  wp (give_Delta_Kernel x dx) w
     (returns_new w
        (FloatArr (amap (fun t => delta_entry dx (Rabs t / dx)) (Arr2 c rows)))).
Proof.
  intros Hx Hwf Hdx. unfold give_Delta_Kernel.
  apply wp_bind. eapply wp_read; [done|].
  apply wp_bind, wp_alloc.
  apply wp_bind. unfold shape2.
  apply wp_bind. eapply wp_read; [by apply lookup_extend_old|].
  simpl as_float. cbv beta iota. apply wp_ret.
  apply wp_bind. unfold for_range.
  set (RMAT := fmap (M:=list) (fun t => Rabs t / dx)%R <$> rows).
  eapply wp_intro.
  { eapply (give_Delta_Kernel_rows_run dx _ c c (length rows) 0 _ RMAT).
    - simpl. rewrite <-(Nat.add_0_r (length (heap w))) at 1.
      rewrite lookup_app_r by lia.
      replace (length (heap w) + 0 - length (heap w)) with 0 by lia. done.
    - unfold RMAT. rewrite length_fmap. lia.
    - intros i row _ Hrow. unfold RMAT in Hrow.
      apply list_lookup_fmap_Some in Hrow as (r & -> & Hr).
      simpl in Hwf. eapply Forall_lookup_1 in Hwf; [|done].
      split; [by rewrite length_fmap|].
      apply Forall_fmap, Forall_true. intros t. simpl.
      apply Rmult_le_pos; [apply Rabs_pos|]. left. by apply Rinv_0_lt_compat. }
  apply wp_ret. rewrite update_extend_last.
  rewrite map_seg_all by (unfold RMAT; rewrite length_fmap; lia).
  rewrite <-(Nat.add_0_r (length (heap w))).
  apply returns_new_extend. simpl. do 3 f_equal.
  unfold RMAT. rewrite <-list_fmap_compose. apply list_fmap_ext.
  intros _ r _. simpl. by rewrite <-list_fmap_compose.
Qed.

Lemma delta_entry_inner dx r :
  (r < 1)%R →
  delta_entry dx r = ((3 - 2 * r + sqrt (1 + 4 * r - 4 * r * r)) / (8 * dx))%R.
Proof. intros Hr. unfold delta_entry. by rewrite bool_decide_eq_true_2. Qed.

Lemma delta_entry_outer dx r :
  (1 <= r < 2)%R →
  delta_entry dx r = ((5 - 2 * r - sqrt (-7 + 12 * r - 4 * r * r)) / (8 * dx))%R.
Proof.
  intros Hr. unfold delta_entry.
  rewrite bool_decide_eq_false_2 by lra.
  rewrite !bool_decide_eq_true_2 by lra. done.
Qed.

(** Outside the support the entry keeps [r = |x|/dx], which is not [0]. *)
Lemma delta_entry_outside dx r : (2 <= r)%R → delta_entry dx r = r.
Proof.
  intros Hr. unfold delta_entry.
  by rewrite !bool_decide_eq_false_2 by lra.
Qed.

(** C1, at [x = [[2.0]]] and [dx = 1.0], where [r = |x|/dx = 2]: the call
    returns an array that holds [2], the value of [r] itself; the claim,
    and the docstring's "delta function with support [x-2dx,x+2dx]", have
    [0] there. *)
Theorem give_Delta_Kernel_outside_support :
  let w := World [FloatArr (Arr2 1 [[2%R]])] ∅ [] in
  ∃ delta w',
    give_Delta_Kernel 0 1 w = (Ret delta, w') ∧
    heap w' !! delta = Some (FloatArr (Arr2 1 [[2%R]])).
Proof.
  intros w.
  destruct (wp_elim _ _ _
              (give_Delta_Kernel_spec 0 1 1 [[2%R]] w eq_refl
                 ltac:(by repeat constructor) ltac:(lra)))
    as (delta & w' & Hrun & _ & _ & Hdelta & _).
  exists delta, w'. split; [done|].
  rewrite Hdelta. simpl. do 5 f_equal.
  rewrite delta_entry_outside; rewrite Rabs_right; lra.
Qed.

(* ================================================================== *)
(** ** The derivative operators *)

Definition D_messages : list string :=
  [nl +:+ nl +:+ nl +:+ " ERROR IN FUNCTION D FOR COMPUTING 1ST DERIVATIVE" +:+ nl;
   "Need to specify which desired derivative, x or y." +:+ nl +:+ nl +:+ nl].

Definition DD_messages : list string :=
  [nl +:+ nl +:+ nl +:+ " ERROR IN FUNCTION DD FOR COMPUTING 2ND DERIVATIVE" +:+ nl;
   "Need to specify which desired derivative, x or y." +:+ nl +:+ nl +:+ nl].

Lemma wp_print s w (Q : unit -> world -> Prop) :
  Q tt (World (heap w) (globals w) (stdout w ++ [s])) → wp (print s) w Q.
Proof. done. Qed.

(** C4, as stated, fails: with the axis tag ["z"], [D] and [DD] return
    normally. *)
Lemma D_DD_other_axis_returns :
  let w := World [FloatArr (Arr2 2 [[1; 2]; [3; 4]]%R)] ∅ [] in
  (D 0 1 "z" w).1 = Ret 1 ∧ (DD 0 1 "z" w).1 = Ret 1.
Proof.
  intros w. split.
  - unfold D.
    run_ret ltac:(eapply wp_read; [reflexivity|]).
    run_ret ltac:(eapply wp_alloc).
    reflexivity.
  - unfold DD.
    run_ret ltac:(eapply wp_read; [reflexivity|]).
    run_ret ltac:(eapply wp_alloc).
    reflexivity.
Qed.

(** C4, amended.  For every array [u], spacing [dz] and axis tag other
    than ["x"] and ["y"], [D] and [DD] print their two-line error message
    and return normally: the result is a new [length x length] array of
    zeros, where [length = u.shape[0]], and no array is changed. *)
Theorem D_DD_other_axis
    (u : loc) (a : ndarray) (dz : R) (axis : string) (w : world) :
  heap w !! u = Some a → axis ≠ "x" → axis ≠ "y" →
  let n := nrows (as_float a) in
  D u dz axis w
    = (Ret (length (heap w)),
       World (heap w ++ [np_zeros n n]) (globals w) (stdout w ++ D_messages)) ∧
  DD u dz axis w
    = (Ret (length (heap w)),
       World (heap w ++ [np_zeros n n]) (globals w) (stdout w ++ DD_messages)).
Proof.
  intros Hu Hx Hy n. split.
  - apply wp_eq. unfold D.
    apply wp_bind. eapply wp_read; [done|].
    apply wp_bind, wp_alloc. apply wp_bind.
    rewrite !bool_decide_eq_false_2 by done.
    apply wp_bind, wp_print, wp_print, wp_ret. simpl.
    split; [done|]. unfold D_messages. by rewrite <-app_assoc.
  - apply wp_eq. unfold DD.
    apply wp_bind. eapply wp_read; [done|].
    apply wp_bind, wp_alloc. apply wp_bind.
    rewrite !bool_decide_eq_false_2 by done.
    apply wp_bind, wp_print, wp_print, wp_ret. simpl.
    split; [done|]. unfold DD_messages. by rewrite <-app_assoc.
Qed.

Lemma D_DD_other_axis_witness :
  let a := FloatArr (Arr2 2 [[1; 2]; [3; 4]]%R) in
  let w := World [a] ∅ [] in
  D 0 1 "z" w
    = (Ret 1, World [a; np_zeros 2 2] ∅ D_messages) ∧
  DD 0 1 "z" w
    = (Ret 1, World [a; np_zeros 2 2] ∅ DD_messages).
Proof.
  intros a w.
  apply (D_DD_other_axis 0 a 1 "z" w).
  - reflexivity.
  - discriminate.
  - discriminate.
Defined.

(* ================================================================== *)
(** ** The support indices *)

Lemma mjoin_replicate_singleton {X} k (v : X) :
  mjoin (replicate k [v]) = replicate k v.
Proof. induction k as [|k IH]; simpl; [done|]. by rewrite IH. Qed.

Lemma fmap_lookup_total_seq `{!Inhabited X} (v : list X) :
  (fun j => v !!! j) <$> seq 0 (length v) = v.
Proof.
  apply list_eq. intros i. rewrite list_lookup_fmap.
  destruct (decide (i < length v)) as [Hi|Hi].
  - rewrite lookup_seq_lt by done. simpl.
    symmetry. by apply list_lookup_lookup_total_lt.
  - rewrite lookup_seq_ge by lia. simpl.
    symmetry. apply lookup_ge_None. lia.
Qed.

(** [np.tile(v, (k, 1)).T] of a one-dimensional [v]: entry [i] of [v]
    fills row [i]. *)
Lemma transpose_tile `{!Inhabited X} k (v : list X) :
  transpose (tile k 1 (Arr1 v)) = Arr2 k (replicate k <$> v).
Proof.
  unfold tile. simpl. rewrite app_nil_r, mjoin_replicate_singleton.
  rewrite length_replicate. f_equal.
  rewrite Nat.add_0_r.
  rewrite <-(fmap_lookup_total_seq v) at 2.
  rewrite <-list_fmap_compose. apply list_fmap_ext. intros _ j _. simpl.
  by rewrite fmap_replicate.
Qed.

Lemma wp_np_tile a (kr kc : Z) w Q :
  (0 ≤ kr)%Z → (0 ≤ kc)%Z →
  Q (tile (Z.to_nat kr) (Z.to_nat kc) a) w → wp (np_tile a (kr, kc)) w Q.
Proof.
  intros Hr Hc HQ. unfold np_tile. simpl. by rewrite decide_True.
Qed.

Lemma bdim_1_r n : bdim n 1 = Some n.
Proof.
  unfold bdim. repeat case_decide; congruence.
Qed.

Lemma stretch_singleton {X} n (v : X) : stretch n [v] = replicate n v.
Proof. done. Qed.

(** A row added to every row of a matrix. *)
Lemma azip_row_broadcast {A B C} (f : A -> B -> C) k rows offs :
  Forall (fun r => length r = k) rows → length offs = k →
  azip f (Arr2 k rows) (Arr1 offs)
  = Some (Arr2 k ((fun r => zip_with f r offs) <$> rows)).
Proof.
  intros Hrows Hoffs. simpl. rewrite bdim_1_r, Hoffs, bdim_same. simpl.
  rewrite stretch_same. do 2 f_equal.
  clear -Hrows Hoffs. induction Hrows as [|r rows Hr _ IH]; simpl; [done|].
  f_equal; [by apply zip_bc_same|done].
Qed.

Lemma wp_iadd l b x r w Q :
  heap w !! l = Some (FloatArr x) →
  azip (fun s t => float64 (s + t))%R x b = Some r → shape r = shape x →
  Q tt (update w l (FloatArr r)) → wp (iadd l b) w Q.
Proof.
  intros Hl Hr Hs HQ. unfold iadd.
  apply wp_bind. eapply wp_load; [done|].
  apply wp_bind. eapply wp_np_binop; [done|].
  rewrite decide_True by done. by eapply wp_store.
Qed.

(** *** Rounding to float64 *)

Lemma ln_2_pos : (0 < ln 2)%R.
Proof. pose proof ln_lt_2. lra. Qed.

Lemma ln_powerRZ_2 (e : Z) : ln (powerRZ 2 e) = (IZR e * ln 2)%R.
Proof. rewrite powerRZ_Rpower by lra. apply ln_Rpower. Qed.

Lemma mag_le (x : R) (e : Z) :
  x ≠ 0%R → (Rabs x < powerRZ 2 e)%R → (mag x ≤ e)%Z.
Proof.
  intros Hx Hlt. unfold mag.
  assert (Hpos : (0 < Rabs x)%R) by by apply Rabs_pos_lt.
  pose proof ln_2_pos as H2.
  assert (Hln : (ln (Rabs x) / ln 2 < IZR e)%R).
  { apply Rmult_lt_reg_r with (ln 2); [done|].
    unfold Rdiv. rewrite Rmult_assoc, Rinv_l by lra.
    rewrite Rmult_1_r, <-ln_powerRZ_2. by apply ln_increasing. }
  pose proof (Zfloor_bound (ln (Rabs x) / ln 2)) as [Hlo _].
  assert (IZR (Zfloor (ln (Rabs x) / ln 2)) < IZR e)%R by lra.
  apply lt_IZR in H. lia.
Qed.

Lemma mag_ge (x : R) (e : Z) :
  (powerRZ 2 (e - 1) <= Rabs x)%R → (e ≤ mag x)%Z.
Proof.
  intros Hle. unfold mag.
  pose proof ln_2_pos as H2.
  assert (Hp : (0 < powerRZ 2 (e - 1))%R) by (apply powerRZ_lt; lra).
  assert (Hln : (IZR (e - 1) <= ln (Rabs x) / ln 2)%R).
  { apply Rmult_le_reg_r with (ln 2); [done|].
    unfold Rdiv. rewrite Rmult_assoc, Rinv_l by lra.
    rewrite Rmult_1_r, <-ln_powerRZ_2.
    destruct Hle as [Hlt| <-]; [left; by apply ln_increasing|right; done]. }
  apply Zfloor_lub in Hln. lia.
Qed.

Lemma mag_unique (x : R) (e : Z) :
  (powerRZ 2 (e - 1) <= Rabs x < powerRZ 2 e)%R → mag x = e.
Proof.
  intros [Hlo Hhi].
  assert (Hx : x ≠ 0%R).
  { intros ->. rewrite Rabs_R0 in Hlo.
    pose proof (powerRZ_lt 2 (e - 1) ltac:(lra)). lra. }
  pose proof (mag_le x e Hx Hhi). pose proof (mag_ge x e Hlo). lia.
Qed.

Lemma Znearest_even_IZR (m : Z) : Znearest_even (IZR m) = m.
Proof.
  unfold Znearest_even. rewrite ZfloorZ.
  rewrite decide_True by lra. done.
Qed.

(** A tie goes to the even neighbour. *)
Lemma Znearest_even_tie (m : Z) :
  Znearest_even (IZR m + 1 / 2) = if Z.even m then m else (m + 1)%Z.
Proof.
  unfold Znearest_even.
  rewrite (Zfloor_eq m) by lra.
  rewrite decide_False by lra. rewrite decide_False by lra. done.
Qed.

Lemma powerRZ_2_nonneg (e : Z) : (0 ≤ e)%Z → powerRZ 2 e = IZR (2 ^ e).
Proof.
  intros He. rewrite <-(Z2Nat.id e) by done.
  rewrite <-pow_powerRZ, pow_IZR. done.
Qed.

(** A number with at most 53 significant binary digits, the last of them
    at [2^-1074] or above, is a float64: rounding leaves it as it is. *)
Lemma float64_exact (m e : Z) :
  (Z.abs m < 2 ^ 53)%Z → (-1074 ≤ e)%Z →
  float64 (IZR m * powerRZ 2 e) = (IZR m * powerRZ 2 e)%R.
Proof.
  intros Hm He. unfold float64.
  assert (Hpe : (0 < powerRZ 2 e)%R) by (apply powerRZ_lt; lra).
  case_decide as Hx; [done|].
  set (x := (IZR m * powerRZ 2 e)%R) in *.
  assert (Hlp : (last_place x ≤ e)%Z).
  { unfold last_place. apply Z.max_lub; [|done].
    cut (mag x ≤ e + 53)%Z; [lia|]. apply mag_le; [done|].
    unfold x. rewrite Rabs_mult, (Rabs_pos_eq (powerRZ 2 e)) by lra.
    rewrite powerRZ_add by lra. rewrite Rmult_comm.
    apply Rmult_lt_compat_l; [done|].
    rewrite powerRZ_2_nonneg by lia. rewrite <-abs_IZR. by apply IZR_lt. }
  set (l := last_place x) in *.
  assert (Hscale : (x * powerRZ 2 (- l) = IZR (m * 2 ^ (e - l)))%R).
  { unfold x. rewrite Rmult_assoc, <-powerRZ_add by lra.
    rewrite mult_IZR. f_equal. replace (e + - l)%Z with (e - l)%Z by lia.
    apply powerRZ_2_nonneg. lia. }
  rewrite Hscale, Znearest_even_IZR, mult_IZR.
  rewrite <-powerRZ_2_nonneg by lia.
  rewrite Rmult_assoc, <-powerRZ_add by lra.
  unfold x. do 2 f_equal. lia.
Qed.

Lemma float64_IZR (m : Z) : (Z.abs m < 2 ^ 53)%Z → float64 (IZR m) = IZR m.
Proof.
  intros Hm. pose proof (float64_exact m 0 Hm ltac:(lia)) as H.
  simpl in H. by rewrite Rmult_1_r in H.
Qed.

(** [2 - 2^-53] lies half-way between the float64 numbers [2 - 2^-52] and
    [2]: it is rounded to [2]. *)
Lemma float64_below_2 : float64 (2 - / IZR (2 ^ 53)) = 2%R.
Proof.
  unfold float64.
  assert (H53 : (IZR (2 ^ 53) = 9007199254740992)%R) by done.
  assert (Hinv : (0 < / IZR (2 ^ 53) < 1)%R).
  { rewrite H53. split; [apply Rinv_0_lt_compat; lra|].
    rewrite <-Rinv_1. apply Rinv_lt_contravar; lra. }
  rewrite decide_False by lra.
  assert (Hmag : mag (2 - / IZR (2 ^ 53)) = 1%Z).
  { apply mag_unique. rewrite Rabs_pos_eq by lra.
    change (powerRZ 2 (1 - 1)) with 1%R. change (powerRZ 2 1) with (2 * 1)%R.
    lra. }
  unfold last_place. rewrite Hmag.
  change (Z.max (1 - 53) (-1074)) with (-52)%Z.
  change (- -52)%Z with 52%Z.
  rewrite (powerRZ_2_nonneg 52) by lia.
  replace ((2 - / IZR (2 ^ 53)) * IZR (2 ^ 52))%R
    with (IZR (2 ^ 53 - 1) + 1 / 2)%R.
  2:{ rewrite minus_IZR.
      change (2 ^ 53)%Z with (2 * 2 ^ 52)%Z. rewrite mult_IZR.
      assert (IZR (2 ^ 52) ≠ 0)%R by (apply not_0_IZR; lia).
      field. done. }
  rewrite Znearest_even_tie.
  change (Z.even (2 ^ 53 - 1)) with false. cbv iota.
  replace (2 ^ 53 - 1 + 1)%Z with (2 * 2 ^ 52)%Z by lia.
  assert (Hneg : powerRZ 2 (-52) = (/ IZR (2 ^ 52))%R).
  { rewrite <-(powerRZ_2_nonneg 52) by lia. exact (powerRZ_neg' 2 52). }
  rewrite mult_IZR, Hneg.
  assert (IZR (2 ^ 52) ≠ 0)%R by (apply not_0_IZR; lia).
  field. done.
Qed.

(** The float64 just below [1] is a float64, and adding [1] to it gives
    [2]. *)
Lemma float64_below_1 :
  float64 (1 - / 2 ^ 53) = (1 - / 2 ^ 53)%R ∧
  float64 (1 - / 2 ^ 53 + 1) = 2%R.
Proof.
  assert (H53 : (2 ^ 53 = IZR (2 ^ 53))%R) by (by rewrite pow_IZR).
  assert (Hnz : (IZR (2 ^ 53) ≠ 0)%R) by (apply not_0_IZR; lia).
  assert (Hneg : powerRZ 2 (-53) = (/ IZR (2 ^ 53))%R).
  { rewrite <-(powerRZ_2_nonneg 53) by lia. exact (powerRZ_neg' 2 53). }
  rewrite H53. split.
  - replace (1 - / IZR (2 ^ 53))%R
      with (IZR (2 ^ 53 - 1) * powerRZ 2 (-53))%R.
    { apply float64_exact; lia. }
    rewrite Hneg, minus_IZR. by field.
  - replace (1 - / IZR (2 ^ 53) + 1)%R with (2 - / IZR (2 ^ 53))%R by ring.
    apply float64_below_2.
Qed.

(** *** The rows of indices *)

(** Row [p] of the array that [give_1D_NonZero_Delta_Indices] returns. *)
Definition index_row (N : Z) (dx : R) (supp : Z) (p : R) : list R :=
  (fun j => py_mod (float64 (float64 (IZR (lower_left dx p)
                                       + (- IZR supp / 2 + 1 + IZR j)) - 1))
                   (IZR N))%R <$> seqZ 0 supp.

Lemma length_index_row N dx supp p :
  length (index_row N dx supp p) = Z.to_nat supp.
Proof. unfold index_row. by rewrite length_fmap, length_seqZ. Qed.

Lemma give_1D_NonZero_Delta_Indices_spec lagPts_j N dx supp ps w :
  heap w !! lagPts_j = Some (FloatArr (Arr1 ps)) → (0 ≤ supp)%Z →
  wp (give_1D_NonZero_Delta_Indices lagPts_j N dx supp) w
     (returns_new w
        (FloatArr (Arr2 (Z.to_nat supp) (index_row N dx supp <$> ps)))).
Proof.
  intros Hp Hsupp. unfold give_1D_NonZero_Delta_Indices.
  apply wp_bind. eapply wp_read; [done|].
  apply wp_bind, wp_alloc.
  apply wp_bind. eapply wp_read.
  { rewrite <-(Nat.add_0_r (length (heap w))). by rewrite lookup_extend_new. }
  simpl as_float.
  apply wp_bind, wp_np_tile; [done..|].
  apply wp_bind, wp_alloc.
  change (Z.to_nat 1) with 1. rewrite transpose_tile.
  rewrite extend_extend. cbn [app].
  rewrite !length_heap_extend. cbn [length].
  set (k := Z.to_nat supp).
  set (offs := (fun j => - IZR supp / 2 + 1 + IZR j)%R <$> seqZ 0 supp).
  assert (Hoffs : length offs = k).
  { unfold offs. by rewrite length_fmap, length_seqZ. }
  eapply wp_bind, wp_iadd.
  { by rewrite lookup_extend_new. }
  { apply azip_row_broadcast; [|done].
    apply Forall_fmap, Forall_true. intros t. simpl. apply length_replicate. }
  { simpl. by rewrite !length_fmap. }
  apply wp_bind. eapply wp_read.
  { apply lookup_update_eq. rewrite length_heap_extend. simpl. lia. }
  simpl as_float.
  apply wp_bind, wp_alloc. apply wp_ret.
  unfold update, extend. simpl.
  rewrite insert_app_r_alt by lia.
  replace (length (heap w) + 1 - length (heap w)) with 1 by lia. simpl.
  rewrite <-app_assoc. simpl. rewrite length_app. simpl.
  split_and!; [by apply prefix_app_r|lia| |done|done].
  cbn [heap].
  rewrite lookup_app_r by lia.
  replace (length (heap w) + 2 - length (heap w)) with 2 by lia. simpl.
  do 3 f_equal. rewrite <-!list_fmap_compose. apply list_fmap_ext.
  intros _ p _. simpl. unfold index_row, offs.
  rewrite zip_with_replicate_l by (rewrite length_fmap, length_seqZ; done).
  rewrite <-!list_fmap_compose. done.
Qed.

(** On integers, [%] is the remainder of the floored division. *)
Lemma py_mod_IZR (z N : Z) :
  (0 < N)%Z → py_mod (IZR z) (IZR N) = IZR (z `mod` N).
Proof.
  intros HN. unfold py_mod.
  assert (HNR : (0 < IZR N)%R) by by apply IZR_lt.
  assert (Hq : Zfloor (IZR z / IZR N) = (z `div` N)%Z).
  { apply Zfloor_eq.
    pose proof (Z.mod_pos_bound z N HN) as [Hlo Hhi].
    pose proof (Z.div_mod z N ltac:(lia)) as Hz.
    apply IZR_le in Hlo. apply IZR_lt in Hhi.
    assert (Hz' : IZR z = (IZR N * IZR (z `div` N) + IZR (z `mod` N))%R).
    { rewrite <-mult_IZR, <-plus_IZR. by f_equal. }
    rewrite Hz'. split.
    - apply Rmult_le_reg_r with (IZR N); [done|].
      unfold Rdiv. rewrite Rmult_assoc, Rinv_l by lra. lra.
    - apply Rmult_lt_reg_r with (IZR N); [done|].
      unfold Rdiv. rewrite Rmult_assoc, Rinv_l by lra. lra. }
  rewrite Hq. rewrite <-mult_IZR, <-minus_IZR. f_equal.
  rewrite Z.mod_eq by lia. lia.
Qed.

(** As long as the sums stay below [2^53], the roundings after the floor
    change nothing: with an even [supp], the entries are the integers
    [(b + k - 1) mod N] for [k = -supp/2 + 1, ..., supp/2], where [b] is the
    floor of the float64 value of [p/dx + 1]. *)
Lemma index_row_even N dx supp p :
  (0 < N)%Z → (0 ≤ supp)%Z → Z.Even supp →
  (Z.abs (lower_left dx p) + supp `div` 2 < 2 ^ 53)%Z →
  index_row N dx supp p
  = (fun k => IZR ((lower_left dx p + k - 1) `mod` N))
      <$> seqZ (- (supp `div` 2) + 1) supp.
Proof.
  intros HN Hsupp [h ->] Hb. unfold index_row.
  assert (Hh : ((2 * h) `div` 2)%Z = h)
    by (rewrite (Z.mul_comm 2 h); apply Z.div_mul; lia).
  rewrite Hh in *.
  rewrite <-(Z.add_0_r (- h + 1)), <-fmap_add_seqZ, <-list_fmap_compose.
  apply list_fmap_ext. intros i j Hj. simpl.
  apply lookup_seqZ in Hj as [-> Hi].
  set (b := lower_left dx p) in *.
  replace (IZR b + (- IZR (2 * h) / 2 + 1 + IZR (0 + Z.of_nat i)))%R
    with (IZR (b + (- h + 1 + (0 + Z.of_nat i)))).
  2:{ rewrite !plus_IZR, opp_IZR, mult_IZR. lra. }
  rewrite float64_IZR by lia.
  rewrite <-(minus_IZR _ 1), float64_IZR by lia.
  rewrite py_mod_IZR by done. do 2 f_equal; lia.
Qed.

Lemma mod_inj_on_window (N b x y s n : Z) :
  (0 < N)%Z → (n ≤ N)%Z →
  (s ≤ x < s + n)%Z → (s ≤ y < s + n)%Z →
  ((b + x - 1) `mod` N = (b + y - 1) `mod` N)%Z → x = y.
Proof.
  intros HN Hn Hx Hy Heq.
  pose proof (Z.div_mod (b + x - 1) N ltac:(lia)) as Hdx.
  pose proof (Z.div_mod (b + y - 1) N ltac:(lia)) as Hdy.
  rewrite Heq in Hdx.
  set (d := ((b + x - 1) `div` N - (b + y - 1) `div` N)%Z).
  assert (Hd : (x - y = N * d)%Z) by (unfold d; lia).
  assert (d = 0)%Z as Hd0; [|lia].
  destruct (Z.lt_trichotomy d 0) as [Hneg|[?|Hpos]]; [|done|].
  - assert (N * d ≤ - N)%Z by nia. lia.
  - assert (N ≤ N * d)%Z by nia. lia.
Qed.

(** The entry of [ind_Aux] at the coordinate [0], for [dx = 1]. *)
Lemma lower_left_0 : lower_left 1 0 = 1%Z.
Proof.
  unfold lower_left. rewrite Rdiv_1_r.
  unfold float64 at 2. rewrite decide_True by done. rewrite Rplus_0_l.
  rewrite (float64_IZR 1) by done. apply ZfloorZ.
Qed.

(** The float64 numbers around [2^53]: [2^53 + 1] lies half-way between
    [2^53] and [2^53 + 2], and is rounded to [2^53]. *)
Lemma float64_above_2_53 : float64 (IZR (2 ^ 53) + 1) = IZR (2 ^ 53).
Proof.
  unfold float64.
  assert (H53 : (IZR (2 ^ 53) = 9007199254740992)%R) by done.
  rewrite decide_False by lra.
  assert (Hmag : mag (IZR (2 ^ 53) + 1) = 54%Z).
  { apply mag_unique. rewrite Rabs_pos_eq by lra.
    rewrite !powerRZ_2_nonneg by lia.
    change (54 - 1)%Z with 53%Z.
    assert (H54 : (IZR (2 ^ 54) = 18014398509481984)%R) by done.
    lra. }
  unfold last_place. rewrite Hmag.
  change (Z.max (54 - 53) (-1074)) with 1%Z.
  assert (Hneg : powerRZ 2 (- (1)) = (/ 2)%R) by (simpl; f_equal; lra).
  rewrite Hneg. change (powerRZ 2 1) with (2 * 1)%R.
  replace ((IZR (2 ^ 53) + 1) * / 2)%R with (IZR (2 ^ 52) + 1 / 2)%R.
  2:{ change (2 ^ 53)%Z with (2 * 2 ^ 52)%Z. rewrite mult_IZR. field. }
  rewrite Znearest_even_tie.
  change (Z.even (2 ^ 52)) with true. cbv iota.
  change (2 ^ 53)%Z with (2 * 2 ^ 52)%Z. rewrite mult_IZR. ring.
Qed.

(** C6, as stated, fails for a coordinate so large that the float64 sums
    of the index computation lose their last digit.  For [p = 2^53],
    [dx = 1], [N = 4] and [supp = 2]: [p/dx + 1] is rounded to [2^53], the
    two sums [2^53 + 0] and [2^53 + 1] are both [2^53], and the call
    returns the row [3, 3].  The claim has the two values
    [(2^53 + k - 1) mod 4] for [k = 0, 1], which are [3] and [0], and has
    them distinct, since [N >= supp]. *)
Lemma give_1D_NonZero_Delta_Indices_large_coordinate :
  let p := IZR (2 ^ 53) in
  let w := World [FloatArr (Arr1 [p])] ∅ [] in
  ∃ indices w',
    give_1D_NonZero_Delta_Indices 0 4 1 2 w = (Ret indices, w') ∧
    heap w' !! indices = Some (FloatArr (Arr2 2 [[3; 3]%R])) ∧
    lower_left 1 p = (2 ^ 53)%Z ∧
    (fun k => IZR ((lower_left 1 p + k - 1) `mod` 4))
      <$> seqZ (- (2 `div` 2) + 1) 2 = [3; 0]%R.
Proof.
  intros p w.
  destruct (wp_elim _ _ _
              (give_1D_NonZero_Delta_Indices_spec 0 4 1 2 [p] w
                 eq_refl ltac:(lia)))
    as (indices & w' & Hrun & _ & _ & Hl & _).
  assert (H53 : float64 (IZR (2 ^ 53)) = IZR (2 ^ 53)).
  { pose proof (float64_exact 1 53 ltac:(lia) ltac:(lia)) as H.
    by rewrite (powerRZ_2_nonneg 53), Rmult_1_l in H by lia. }
  assert (Hb : lower_left 1 p = (2 ^ 53)%Z).
  { unfold lower_left, p. rewrite Rdiv_1_r.
    rewrite H53, float64_above_2_53. apply ZfloorZ. }
  exists indices, w'. split_and!; [done| |done|].
  - rewrite Hl. do 3 f_equal. cbn [fmap list_fmap].
    unfold index_row. rewrite Hb.
    change (seqZ 0 2) with [0; 1]%Z. cbn [fmap list_fmap].
    replace (IZR (2 ^ 53) + (- (2) / 2 + 1 + 0))%R with (IZR (2 ^ 53)) by lra.
    replace (IZR (2 ^ 53) + (- (2) / 2 + 1 + 1))%R
      with (IZR (2 ^ 53) + 1)%R by lra.
    rewrite float64_above_2_53, H53.
    rewrite <-(minus_IZR _ 1), float64_IZR by lia.
    by rewrite py_mod_IZR by lia.
  - rewrite Hb. done.
Qed.

(** C6, amended.  For coordinates [p >= 0], grid size [1 <= N <= 2^53],
    spacing [dx > 0] and even [supp >= 2], let [b] be the entry of [ind_Aux]
    for [p]: the floor of the float64 value of [p/dx + 1] (the quotient
    rounded, then the sum rounded).  Whenever [|b| + supp/2 < 2^53],
    [give_1D_NonZero_Delta_Indices] returns, for each [p], exactly the
    [supp] values [(b + k - 1) mod N] for [k = -supp/2 + 1, ..., supp/2],
    in this order; each of them is an integer in [{0, ..., N-1}]; and when
    [N >= supp] the values of one point are pairwise distinct. *)
Theorem give_1D_NonZero_Delta_Indices_values
    (lagPts_j : loc) (N : Z) (dx : R) (supp : Z) (ps : list R) (w : world) :
  heap w !! lagPts_j = Some (FloatArr (Arr1 ps)) →
  Forall (fun p => 0 <= p)%R ps →
  (1 ≤ N ≤ 2 ^ 53)%Z → (0 < dx)%R → (2 ≤ supp)%Z → Z.Even supp →
  Forall (fun p => Z.abs (lower_left dx p) + supp `div` 2 < 2 ^ 53)%Z ps →
  ∃ indices w' rows,
    give_1D_NonZero_Delta_Indices lagPts_j N dx supp w = (Ret indices, w') ∧
    heap w' !! indices = Some (FloatArr (Arr2 (Z.to_nat supp) rows)) ∧
    rows = (fun p => (fun k => IZR ((lower_left dx p + k - 1) `mod` N))
                       <$> seqZ (- (supp `div` 2) + 1) supp) <$> ps ∧
    Forall (fun row => length row = Z.to_nat supp ∧
                       Forall (fun t => ∃ i, t = IZR i ∧ (0 ≤ i < N)%Z) row)
           rows ∧
    ((supp ≤ N)%Z → Forall (fun row => NoDup row) rows).
Proof.
  intros Hp Hpos HN Hdx Hsupp Heven Hb.
  destruct (wp_elim _ _ _
              (give_1D_NonZero_Delta_Indices_spec lagPts_j N dx supp ps w
                 Hp ltac:(lia)))
    as (indices & w' & Hrun & _ & _ & Hl & _).
  assert (Hrows : index_row N dx supp <$> ps
                  = (fun p => (fun k => IZR ((lower_left dx p + k - 1) `mod` N))
                                <$> seqZ (- (supp `div` 2) + 1) supp) <$> ps).
  { apply list_fmap_ext. intros i p Hi. apply index_row_even; [lia..|done|].
    by eapply (Forall_lookup_1 _ _ _ _ Hb). }
  exists indices, w', (index_row N dx supp <$> ps).
  split_and!; [done|done|done| |].
  - rewrite Hrows. apply Forall_fmap, Forall_true. intros p. simpl.
    split; [by rewrite length_fmap, length_seqZ|].
    apply Forall_fmap, Forall_true. intros k. simpl.
    eexists. split; [done|]. apply Z.mod_pos_bound. lia.
  - intros HsN. rewrite Hrows. apply Forall_fmap, Forall_true. intros p. simpl.
    apply NoDup_fmap_2_strong; [|apply NoDup_seqZ].
    intros x y Hx Hy Heq. apply elem_of_seqZ in Hx, Hy.
    apply eq_IZR in Heq.
    eapply (mod_inj_on_window N _ x y _ supp); eauto; lia.
Qed.

Lemma give_1D_NonZero_Delta_Indices_values_witness :
  let ps := [0%R] in
  let w := World [FloatArr (Arr1 ps)] ∅ [] in
  ∃ indices w' rows,
    give_1D_NonZero_Delta_Indices 0 4 1 2 w = (Ret indices, w') ∧
    heap w' !! indices = Some (FloatArr (Arr2 (Z.to_nat 2) rows)) ∧
    rows = (fun p => (fun k => IZR ((lower_left 1 p + k - 1) `mod` 4))
                       <$> seqZ (- (2 `div` 2) + 1) 2) <$> ps ∧
    Forall (fun row => length row = Z.to_nat 2 ∧
                       Forall (fun t => ∃ i, t = IZR i ∧ (0 ≤ i < 4)%Z) row)
           rows ∧
    ((2 ≤ 4)%Z → Forall (fun row => NoDup row) rows).
Proof.
  intros ps w.
  apply (give_1D_NonZero_Delta_Indices_values 0 4 1 2 ps w).
  - reflexivity.
  - constructor; [lra|constructor].
  - lia.
  - lra.
  - lia.
  - exists 1%Z. reflexivity.
  - constructor; [|constructor]. rewrite lower_left_0. reflexivity.
Defined.

(** The rounding before the floor.  [p = 1 - 2^-53] is the float64 just
    below [1].  With [dx = 1] the sum [p/dx + 1] is rounded to [2.0], and
    for [N = 4], [supp = 2] the call returns the indices [1, 2]; the floor
    of the exact sum is [1], which would give [0, 1]. *)
Lemma give_1D_NonZero_Delta_Indices_rounded_sum :
  let p := (1 - / 2 ^ 53)%R in
  let w := World [FloatArr (Arr1 [p])] ∅ [] in
  ∃ indices w',
    give_1D_NonZero_Delta_Indices 0 4 1 2 w = (Ret indices, w') ∧
    heap w' !! indices = Some (FloatArr (Arr2 2 [[1; 2]%R])) ∧
    Zfloor (p / 1 + 1) = 1%Z.
Proof.
  intros p w.
  destruct (wp_elim _ _ _
              (give_1D_NonZero_Delta_Indices_spec 0 4 1 2 [p] w
                 eq_refl ltac:(lia)))
    as (indices & w' & Hrun & _ & _ & Hl & _).
  destruct float64_below_1 as [Hp Hp1].
  assert (Hb : lower_left 1 p = 2%Z).
  { unfold lower_left, p. rewrite Rdiv_1_r, Hp, Hp1. apply ZfloorZ. }
  exists indices, w'. split_and!; [done| |].
  - rewrite Hl. do 3 f_equal. cbn [fmap list_fmap].
    rewrite index_row_even; [|lia|lia|by exists 1%Z|by rewrite Hb].
    rewrite Hb. done.
  - assert (H53 : (2 ^ 53 = IZR (2 ^ 53))%R) by (by rewrite pow_IZR).
    assert (Hinv : (0 < / IZR (2 ^ 53) < 1)%R).
    { assert (H : (IZR (2 ^ 53) = 9007199254740992)%R) by done.
      rewrite H. split; [apply Rinv_0_lt_compat; lra|].
      rewrite <-Rinv_1. apply Rinv_lt_contravar; lra. }
    apply Zfloor_eq. unfold p. rewrite Rdiv_1_r, H53. lra.
Qed.

(* ================================================================== *)
(** ** Shapes along the interpolation *)

(** A matrix of [r] rows and [c] columns whose entries satisfy [P]. *)
Definition is_mat {A} (r c : nat) (P : A -> Prop) (a : arr A) : Prop :=
  ∃ rows, a = Arr2 c rows ∧ length rows = r ∧
          Forall (fun row => length row = c ∧ Forall P row) rows.

(** The world [w'] holds the arrays of [w], and the rest is as in [w]. *)
Definition grows (w w' : world) : Prop :=
  heap w `prefix_of` heap w' ∧ globals w' = globals w ∧ stdout w' = stdout w.

Lemma grows_refl w : grows w w.
Proof. by split_and!. Qed.

Lemma grows_trans w1 w2 w3 : grows w1 w2 → grows w2 w3 → grows w1 w3.
Proof.
  intros (? & ? & ?) (? & ? & ?). split_and!; [by etrans|congruence..].
Qed.

Lemma grows_extend w ext : grows w (extend w ext).
Proof. split_and!; [by apply prefix_app_r|done..]. Qed.

Lemma grows_lookup w w' l a :
  grows w w' → heap w !! l = Some a → heap w' !! l = Some a.
Proof. intros [Hp _] Hl. by eapply prefix_lookup_Some. Qed.

Lemma returns_new_grows w v l w' : returns_new w v l w' → grows w w'.
Proof. intros (? & ? & ? & ? & ?). by split_and!. Qed.

Lemma lookup_extend_new0 w a ext :
  heap (extend w (a :: ext)) !! length (heap w) = Some a.
Proof.
  rewrite <-(Nat.add_0_r (length (heap w))). by rewrite lookup_extend_new.
Qed.

Lemma is_mat_wf {A} r c (P : A -> Prop) a : is_mat r c P a → wf_arr a.
Proof.
  intros (rows & -> & _ & Hrows). simpl.
  eapply Forall_impl; [done|]. by intros ? [? _].
Qed.

Lemma is_mat_shape {A} r c (P : A -> Prop) a : is_mat r c P a → shape a = [r; c].
Proof. intros (rows & -> & <- & _). done. Qed.

Lemma is_mat_weaken {A} r c (P Q : A -> Prop) a :
  is_mat r c P a → (∀ x, P x → Q x) → is_mat r c Q a.
Proof.
  intros (rows & -> & Hr & Hrows) HPQ. exists rows. split_and!; [done..|].
  eapply Forall_impl; [done|]. intros row [? Hrow]. split; [done|].
  by eapply Forall_impl.
Qed.

Lemma is_mat_amap {A B} r c (P : A -> Prop) (Q : B -> Prop) (f : A -> B) a :
  is_mat r c P a → (∀ x, P x → Q (f x)) → is_mat r c Q (amap f a).
Proof.
  intros (rows & -> & Hr & Hrows) Hf. eexists. split_and!; [done| |].
  - by rewrite length_fmap.
  - apply Forall_fmap. eapply Forall_impl; [done|]. intros row [? Hrow].
    simpl. split; [by rewrite length_fmap|].
    apply Forall_fmap. by eapply Forall_impl.
Qed.

Lemma is_mat_amap2 {A B C} r c (P : A -> Prop) (Q : B -> Prop) (T : C -> Prop)
    (f : A -> B -> C) a b :
  is_mat r c P a → is_mat r c Q b → (∀ x y, P x → Q y → T (f x y)) →
  is_mat r c T (amap2 f a b).
Proof.
  intros (m & -> & Hr & Hm) (m' & -> & Hr' & Hm') Hf. simpl.
  eexists. split_and!; [done| |].
  - rewrite length_zip_with. lia.
  - clear Hr Hr'. revert m' Hm'.
    induction Hm as [|row m [Hlen Hrow] _ IH]; intros [|row' m'] Hm';
      simpl; try done.
    inversion_clear Hm' as [|?? [Hlen' Hrow'] Hm'']. constructor; [|by apply IH].
    split; [rewrite length_zip_with; lia|].
    clear -Hrow Hrow' Hf. revert row' Hrow'.
    induction Hrow; intros [|??] Hrow'; simpl; try done.
    inversion_clear Hrow'. constructor; auto.
Qed.

Lemma is_mat_azip {A B C} r c (P : A -> Prop) (Q : B -> Prop) (T : C -> Prop)
    (f : A -> B -> C) a b :
  is_mat r c P a → is_mat r c Q b → (∀ x y, P x → Q y → T (f x y)) →
  ∃ d, azip f a b = Some d ∧ is_mat r c T d.
Proof.
  intros Ha Hb Hf. exists (amap2 f a b). split.
  - apply azip_same_shape; [by eapply is_mat_wf..|].
    by rewrite (is_mat_shape _ _ _ _ Ha), (is_mat_shape _ _ _ _ Hb).
  - by eapply is_mat_amap2.
Qed.

Lemma is_mat_amapM {A B} r c (P : A -> Prop) (Q : B -> Prop)
    (f : A -> option B) a :
  is_mat r c P a → (∀ x, P x → ∃ y, f x = Some y ∧ Q y) →
  ∃ d, amapM f a = Some d ∧ is_mat r c Q d.
Proof.
  intros (rows & -> & Hr & Hrows) Hf.
  assert (Hrow : ∀ row, Forall P row →
            ∃ row', mapM f row = Some row' ∧
                    length row' = length row ∧ Forall Q row').
  { induction 1 as [|x row Hx _ (row' & Hrow' & Hlen & HQ)].
    - exists []. by split_and!.
    - destruct (Hf x Hx) as (y & Hy & HQy). exists (y :: row').
      simpl. rewrite Hy. simpl. rewrite Hrow'. simpl.
      split_and!; [done|by rewrite Hlen|by constructor]. }
  assert (Hall : ∃ rows', mapM (mapM f) rows = Some rows' ∧
            length rows' = length rows ∧
            Forall (fun row => length row = c ∧ Forall Q row) rows').
  { clear Hr. induction Hrows as [|row rows [Hlen HP] _ (rows' & Hrows' & Hl & HQ)].
    - exists []. by split_and!.
    - destruct (Hrow row HP) as (row' & Hrow' & Hlen' & HQ').
      exists (row' :: rows'). simpl. rewrite Hrow'. simpl. rewrite Hrows'.
      simpl. split_and!; [done|by rewrite Hl|].
      constructor; [|done]. split; [congruence|done]. }
  destruct Hall as (rows' & Hrows' & Hl & HQ).
  exists (Arr2 c rows'). simpl. rewrite Hrows'. simpl.
  split; [done|]. exists rows'. split_and!; [done|congruence|done].
Qed.

Lemma py_mod_range a b : (0 < b)%R → (0 <= py_mod a b < b)%R.
Proof.
  intros Hb. unfold py_mod.
  pose proof (Zfloor_bound (a / b)) as [Hlo Hhi].
  assert (Ha : a = (a / b * b)%R) by (field; lra).
  split.
  - apply Rmult_le_compat_r with (r := b) in Hlo; [|lra]. lra.
  - apply Rmult_lt_compat_r with (r := b) in Hhi; [|lra]. lra.
Qed.

Lemma py_mod_small a b : (0 <= a < b)%R → py_mod a b = a.
Proof.
  intros Ha. unfold py_mod.
  rewrite (Zfloor_eq 0); [lra|]. simpl. split.
  - apply Rmult_le_reg_r with b; [lra|].
    unfold Rdiv. rewrite Rmult_assoc, Rinv_l by lra. lra.
  - apply Rmult_lt_reg_r with b; [lra|].
    unfold Rdiv. rewrite Rmult_assoc, Rinv_l by lra. lra.
Qed.

Lemma Rtrunc_range t (N : Z) :
  (0 <= t < IZR N)%R → (0 ≤ Rtrunc t < N)%Z.
Proof.
  intros [Hlo Hhi]. unfold Rtrunc. rewrite decide_True by done.
  pose proof (Zfloor_bound t) as [Hf _]. split.
  - by apply (Zfloor_lub 0).
  - apply lt_IZR. lra.
Qed.

Lemma length_mjoin_replicate {X} k (row : list X) :
  length (mjoin (replicate k row)) = k * length row.
Proof.
  induction k as [|k IH]; simpl; [done|]. rewrite length_app, IH. lia.
Qed.

Lemma Forall_mjoin_replicate {X} (P : X -> Prop) k row :
  Forall P row → Forall P (mjoin (replicate k row)).
Proof.
  intros Hrow. induction k as [|k IH]; simpl; [done|]. by apply Forall_app.
Qed.

Lemma length_mjoin_fmap_replicate {X} k (row : list X) :
  length (mjoin (replicate k <$> row)) = length row * k.
Proof.
  induction row as [|x row IH]; csimpl; [done|].
  rewrite length_app, length_replicate, IH. lia.
Qed.

Lemma Forall_mjoin_fmap_replicate {X} (P : X -> Prop) k row :
  Forall P row → Forall P (mjoin (replicate k <$> row)).
Proof.
  induction 1 as [|x row Hx _ IH]; csimpl; [done|].
  apply Forall_app. split; [|done]. by apply Forall_replicate.
Qed.

(** [np.tile(a, (1, k))] repeats every row [k] times. *)
Lemma is_mat_tile_cols {X} r c (P : X -> Prop) k a :
  is_mat r c P a → is_mat r (k * c) P (tile 1 k a).
Proof.
  intros (rows & -> & Hr & Hrows). unfold tile. simpl. rewrite app_nil_r.
  eexists. split_and!; [done|by rewrite length_fmap|].
  apply Forall_fmap. eapply Forall_impl; [done|]. intros row [Hlen Hrow]. simpl.
  split; [by rewrite length_mjoin_replicate, Hlen|].
  by apply Forall_mjoin_replicate.
Qed.

(** [np.repeat(a, k, axis=1)] repeats every entry [k] times. *)
Lemma is_mat_repeat_axis1 {X} r c (P : X -> Prop) k a :
  is_mat r c P a → ∃ d, repeat_axis1 k a = Some d ∧ is_mat r (c * k) P d.
Proof.
  intros (rows & -> & Hr & Hrows). eexists. split; [done|].
  eexists. split_and!; [done|by rewrite length_fmap|].
  apply Forall_fmap. eapply Forall_impl; [done|]. intros row [Hlen Hrow]. simpl.
  split; [by rewrite length_mjoin_fmap_replicate, Hlen|].
  by apply Forall_mjoin_fmap_replicate.
Qed.

Lemma wp_np_repeat_axis1 a k r w Q :
  repeat_axis1 (Z.to_nat k) a = Some r → (0 ≤ k)%Z →
  Q r w → wp (np_repeat_axis1 a k) w Q.
Proof.
  intros Hr Hk HQ. unfold np_repeat_axis1. rewrite Hr.
  by rewrite decide_True.
Qed.

Lemma is_mat_index_rows N dx supp ps :
  (0 < N)%Z →
  is_mat (length ps) (Z.to_nat supp) (fun t => 0 <= t < IZR N)%R
         (Arr2 (Z.to_nat supp) (index_row N dx supp <$> ps)).
Proof.
  intros HN. eexists. split_and!; [done|by rewrite length_fmap|].
  apply Forall_fmap, Forall_true. intros p. simpl.
  split; [apply length_index_row|].
  unfold index_row. apply Forall_fmap, Forall_true. intros j. simpl.
  apply py_mod_range. by apply IZR_lt.
Qed.

(** [give_NonZero_Delta_Indices_XY] on one-dimensional coordinates: two new
    integer arrays with one row of [supp * supp] indices for each point,
    within the grid. *)
Lemma give_NonZero_Delta_Indices_XY_spec xLag yLag Nx Ny dx dy supp xs ys w :
  heap w !! xLag = Some (FloatArr (Arr1 xs)) →
  heap w !! yLag = Some (FloatArr (Arr1 ys)) →
  (0 < Nx)%Z → (0 < Ny)%Z → (0 ≤ supp)%Z →
  wp (give_NonZero_Delta_Indices_XY xLag yLag Nx Ny dx dy supp) w
     (fun p w' =>
        grows w w' ∧
        ∃ xi yi,
          heap w' !! p.1 = Some (IntArr xi) ∧
          heap w' !! p.2 = Some (IntArr yi) ∧
          is_mat (length xs) (Z.to_nat supp * Z.to_nat supp)
                 (fun i => 0 ≤ i < Nx)%Z xi ∧
          is_mat (length ys) (Z.to_nat supp * Z.to_nat supp)
                 (fun i => 0 ≤ i < Ny)%Z yi).
Proof.
  intros Hx Hy HNx HNy Hsupp. unfold give_NonZero_Delta_Indices_XY.
  set (k := Z.to_nat supp).
  apply wp_bind. eapply wp_mono;
    [by apply (give_1D_NonZero_Delta_Indices_spec xLag Nx dx supp xs)|].
  intros l1 w1 Hw1. pose proof (returns_new_grows _ _ _ _ Hw1) as Hg1.
  destruct Hw1 as (_ & _ & Hl1 & _).
  apply wp_bind. eapply wp_read; [done|]. simpl as_float.
  apply wp_bind, wp_np_tile; [done..|]. change (Z.to_nat 1) with 1. fold k.
  apply wp_bind, wp_alloc.
  set (X := tile 1 k (Arr2 k (index_row Nx dx supp <$> xs))).
  assert (HX : is_mat (length xs) (k * k) (fun t => 0 <= t < IZR Nx)%R X).
  { apply is_mat_tile_cols. by apply is_mat_index_rows. }
  apply wp_bind. eapply wp_mono.
  { apply (give_1D_NonZero_Delta_Indices_spec yLag Ny dy supp ys); [|done].
    apply lookup_extend_old. by eapply grows_lookup. }
  intros l2 w2 Hw2. pose proof (returns_new_grows _ _ _ _ Hw2) as Hg2.
  destruct Hw2 as (_ & _ & Hl2 & _).
  apply wp_bind. eapply wp_read; [done|]. simpl as_float.
  destruct (is_mat_repeat_axis1 _ _ _ k _ (is_mat_index_rows Ny dy supp ys HNy))
    as (Y & HYeq & HY). fold k in HYeq, HY.
  apply wp_bind. eapply wp_np_repeat_axis1; [done..|].
  apply wp_bind, wp_alloc.
  apply wp_bind. eapply wp_read.
  { apply lookup_extend_old. eapply grows_lookup; [done|].
    apply lookup_extend_new0. }
  simpl as_float.
  apply wp_bind, wp_alloc.
  apply wp_bind. eapply wp_read.
  { apply lookup_extend_old, lookup_extend_new0. }
  simpl as_float.
  apply wp_bind, wp_alloc. apply wp_ret.
  rewrite !extend_extend. cbn [app]. rewrite !length_heap_extend. cbn [length].
  split.
  - eapply grows_trans; [done|]. eapply grows_trans; [apply grows_extend|].
    eapply grows_trans; [done|]. apply grows_extend.
  - exists (amap Rtrunc X), (amap Rtrunc Y). cbn [fst snd].
    split_and!.
    + by rewrite lookup_extend_new.
    + by rewrite lookup_extend_new.
    + eapply is_mat_amap; [done|]. intros t. apply Rtrunc_range.
    + eapply is_mat_amap; [done|]. intros t. apply Rtrunc_range.
Qed.

Lemma wp_fancy1 (v : list R) i r c w Q :
  is_mat r c (fun k => 0 ≤ k < Z.of_nat (length v))%Z i →
  (∀ d, is_mat r c (fun _ => True) d → Q d w) →
  wp (fancy1 (Arr1 v) (IntArr i)) w Q.
Proof.
  intros Hi HQ. unfold fancy1.
  edestruct (is_mat_amapM r c _ (fun _ : R => True)
               (fun k => k' ← pyidx (length v) k; v !! k') i Hi)
    as (d & Hd & Hmat).
  { intros k Hk. rewrite pyidx_nonneg by done. simpl.
    destruct (lookup_lt_is_Some_2 v (Z.to_nat k)) as [t Ht]; [lia|].
    by exists t. }
  eapply wp_orraise; [done|]. by apply HQ.
Qed.

Lemma wp_fancy2_zero u yi xi ny nx r c w Q :
  is_mat ny nx (fun t => t = 0%R) u →
  is_mat r c (fun k => 0 ≤ k < Z.of_nat ny)%Z yi →
  is_mat r c (fun k => 0 ≤ k < Z.of_nat nx)%Z xi →
  (∀ d, is_mat r c (fun t => t = 0%R) d → Q d w) →
  wp (fancy2 u (IntArr yi) (IntArr xi)) w Q.
Proof.
  intros (rows & -> & Hny & Hrows) Hyi Hxi HQ. unfold fancy2.
  destruct (is_mat_azip r c _ _
              (fun p : Z * Z => (0 ≤ p.1 < Z.of_nat ny ∧ 0 ≤ p.2 < Z.of_nat nx)%Z)
              (fun i j => (i, j)) yi xi Hyi Hxi) as (p & Hp & Hpmat); [done|].
  apply wp_bind. eapply wp_orraise; [done|].
  edestruct (is_mat_amapM r c _ (fun t : R => t = 0%R)
               (fun '(i, j) =>
                  i' ← pyidx (length rows) i; j' ← pyidx nx j;
                  row ← rows !! i'; row !! j') p Hpmat) as (d & Hd & Hmat).
  { intros [i j] [Hi Hj]. simpl in Hi, Hj.
    rewrite Hny, !pyidx_nonneg by done. simpl.
    destruct (lookup_lt_is_Some_2 rows (Z.to_nat i)) as [row Hrow]; [lia|].
    rewrite Hrow. simpl.
    eapply Forall_lookup_1 in Hrows as [Hlen Hzero]; [|done].
    destruct (lookup_lt_is_Some_2 row (Z.to_nat j)) as [t Ht]; [lia|].
    exists t. split; [done|]. by eapply Forall_lookup_1 in Hzero. }
  eapply wp_orraise; [done|]. by apply HQ.
Qed.

Lemma wp_np_sum1_zero r c a w Q :
  is_mat r c (fun t => t = 0%R) a →
  (∀ z, length z = r → Forall (fun t => t = 0%R) z → Q (Arr1 z) w) →
  wp (np_sum1 a) w Q.
Proof.
  intros (rows & -> & Hr & Hrows) HQ. unfold np_sum1. apply wp_ret, HQ.
  - by rewrite length_fmap.
  - apply Forall_fmap. eapply Forall_impl; [done|]. intros row [_ Hrow]. simpl.
    induction Hrow as [|t row -> _ IH]; simpl; [done|]. rewrite IH. lra.
Qed.

(** The integral of the velocity against the kernel, on a velocity field
    that is zero everywhere. *)
Lemma give_Me_Perturbed_Distance_zero
    u v dx dy delta_X delta_Y xInds yInds w ua va dX dY xi yi ny nx nb c :
  heap w !! u = Some (FloatArr ua) → heap w !! v = Some (FloatArr va) →
  is_mat ny nx (fun t => t = 0%R) ua → is_mat ny nx (fun t => t = 0%R) va →
  heap w !! delta_X = Some (FloatArr dX) → heap w !! delta_Y = Some (FloatArr dY) →
  is_mat nb c (fun _ => True) dX → is_mat nb c (fun _ => True) dY →
  heap w !! xInds = Some (IntArr xi) → heap w !! yInds = Some (IntArr yi) →
  is_mat nb c (fun k => 0 ≤ k < Z.of_nat nx)%Z xi →
  is_mat nb c (fun k => 0 ≤ k < Z.of_nat ny)%Z yi →
  wp (give_Me_Perturbed_Distance u v dx dy delta_X delta_Y xInds yInds) w
     (fun p w' =>
        grows w w' ∧
        ∃ zx zy,
          heap w' !! p.1 = Some (FloatArr (Arr1 zx)) ∧
          heap w' !! p.2 = Some (FloatArr (Arr1 zy)) ∧
          length zx = nb ∧ Forall (fun t => t = 0%R) zx ∧
          length zy = nb ∧ Forall (fun t => t = 0%R) zy).
Proof.
  intros Hu Hv Hua Hva HdX HdY HmX HmY Hxi Hyi Hmxi Hmyi.
  assert (Hmul : ∀ s t : R, s = 0%R → True → (s * t)%R = 0%R)
    by (intros s t -> _; lra).
  unfold give_Me_Perturbed_Distance.
  (* mat_X *)
  apply wp_bind. eapply wp_read; [done|].
  apply wp_bind. eapply wp_load; [done|].
  apply wp_bind. eapply wp_load; [done|]. simpl as_float.
  eapply wp_bind, wp_fancy2_zero; [done..|]. intros g Hg.
  apply wp_bind. eapply wp_read; [done|]. simpl as_float.
  destruct (is_mat_azip nb c _ _ (fun t => t = 0%R) Rmult g dX Hg HmX Hmul)
    as (t1 & Ht1 & Hm1).
  apply wp_bind. eapply wp_np_binop; [done|].
  apply wp_bind. eapply wp_read; [done|]. simpl as_float.
  destruct (is_mat_azip nb c _ _ (fun t => t = 0%R) Rmult t1 dY Hm1 HmY Hmul)
    as (t2 & Ht2 & Hm2).
  apply wp_bind. eapply wp_np_binop; [done|].
  apply wp_bind, wp_alloc.
  (* mat_Y *)
  apply wp_bind. eapply wp_read; [by apply lookup_extend_old|].
  apply wp_bind. eapply wp_load; [by apply lookup_extend_old|].
  apply wp_bind. eapply wp_load; [by apply lookup_extend_old|]. simpl as_float.
  eapply wp_bind, wp_fancy2_zero; [done..|]. intros g' Hg'.
  apply wp_bind. eapply wp_read; [by apply lookup_extend_old|]. simpl as_float.
  destruct (is_mat_azip nb c _ _ (fun t => t = 0%R) Rmult g' dX Hg' HmX Hmul)
    as (t3 & Ht3 & Hm3).
  apply wp_bind. eapply wp_np_binop; [done|].
  apply wp_bind. eapply wp_read; [by apply lookup_extend_old|]. simpl as_float.
  destruct (is_mat_azip nb c _ _ (fun t => t = 0%R) Rmult t3 dY Hm3 HmY Hmul)
    as (t4 & Ht4 & Hm4).
  apply wp_bind. eapply wp_np_binop; [done|].
  apply wp_bind, wp_alloc. rewrite extend_extend. cbn [app].
  rewrite !length_heap_extend. cbn [length].
  (* move_X *)
  apply wp_bind. eapply wp_read; [apply lookup_extend_new0|]. simpl as_float.
  eapply wp_bind, wp_np_sum1_zero; [done|]. intros zx Hzx Hzx0.
  apply wp_bind, wp_alloc. rewrite extend_extend. cbn [app].
  (* move_Y *)
  apply wp_bind. eapply wp_read; [by rewrite lookup_extend_new|]. simpl as_float.
  eapply wp_bind, wp_np_sum1_zero; [done|]. intros zy Hzy Hzy0.
  apply wp_bind, wp_alloc. rewrite extend_extend. cbn [app].
  apply wp_ret. rewrite !length_heap_extend. cbn [length fst snd].
  split; [apply grows_extend|].
  eexists _, _. split_and!.
  - by rewrite lookup_extend_new.
  - by rewrite lookup_extend_new.
  - by rewrite length_fmap.
  - apply Forall_fmap. eapply Forall_impl; [done|]. intros t ->. simpl. lra.
  - by rewrite length_fmap.
  - apply Forall_fmap. eapply Forall_impl; [done|]. intros t ->. simpl. lra.
Qed.

Lemma to_nat_square (s : Z) :
  (0 ≤ s)%Z → Z.to_nat (s ^ 2) = Z.to_nat s * Z.to_nat s.
Proof. intros Hs. rewrite Z.pow_2_r. by apply Z2Nat.inj_mul. Qed.

Lemma zip_with_plus_zero dt (xp z : list R) :
  length z = length xp → Forall (fun t => t = 0%R) z →
  zip_with Rplus xp (Rmult dt <$> z) = xp.
Proof.
  intros Hlen Hz. revert xp Hlen.
  induction Hz as [|t z -> _ IH]; intros [|p xp] [=]; simpl; [done|].
  f_equal; [lra|by apply IH].
Qed.

Lemma fmap_py_mod_small L (xp : list R) :
  Forall (fun t => 0 <= t < L)%R xp → (fun t => py_mod t L) <$> xp = xp.
Proof.
  induction 1 as [|t xp Ht _ IH]; csimpl; [done|].
  by rewrite py_mod_small, IH.
Qed.

(** Carries what is known of the arrays of [w] over to a world that has
    grown from it. *)
Ltac carry Hg :=
  lazymatch type of Hg with
  | grows ?w ?w' =>
      repeat match goal with
        | H : heap w !! ?l = Some ?a |- _ =>
            lazymatch goal with
            | _ : heap w' !! l = Some a |- _ => fail
            | _ => pose proof (grows_lookup _ _ _ _ Hg H)
            end
        end
  end.

Ltac wp_lookup :=
  first [ eassumption
        | apply lookup_extend_new0
        | by rewrite lookup_extend_new
        | apply lookup_extend_old; eassumption ].

Ltac wp_norm :=
  rewrite ?extend_extend; cbn [app];
  rewrite ?length_heap_extend; cbn [length].

(** C7.  For every grid ([Nx, Ny >= 1], [Lx, Ly, dx, dy > 0], [supp >= 0])
    with coordinate arrays [x], [y] of [Nx] and [Ny] entries, and every set
    of Lagrangian points whose previous positions lie in
    [[0, Lx) x [0, Ly)]: if the velocity fields [u] and [v], of shape
    [(Ny, Nx)], are zero everywhere, then
    [please_Move_Lagrangian_Point_Positions] returns new arrays [xL_Next]
    and [yL_Next] that hold exactly [xL_P] and [yL_P], for porous and for
    non-porous settings. *)
Theorem please_Move_Lagrangian_Point_Positions_zero_velocity
    (u v xL_P yL_P xL_H yL_H x y : loc) (dt : R) (grid_Info : grid)
    (porous_Yes : bool) (w : world)
    (ua va : arr R) (xp yp xh yh xs ys : list R) :
  (1 ≤ grid_Nx grid_Info)%Z → (1 ≤ grid_Ny grid_Info)%Z →
  (0 < grid_Lx grid_Info)%R → (0 < grid_Ly grid_Info)%R →
  (0 < grid_dx grid_Info)%R → (0 < grid_dy grid_Info)%R →
  (0 ≤ grid_supp grid_Info)%Z →
  heap w !! u = Some (FloatArr ua) → heap w !! v = Some (FloatArr va) →
  is_mat (Z.to_nat (grid_Ny grid_Info)) (Z.to_nat (grid_Nx grid_Info))
         (fun t => t = 0%R) ua →
  is_mat (Z.to_nat (grid_Ny grid_Info)) (Z.to_nat (grid_Nx grid_Info))
         (fun t => t = 0%R) va →
  heap w !! xL_P = Some (FloatArr (Arr1 xp)) →
  heap w !! yL_P = Some (FloatArr (Arr1 yp)) →
  heap w !! xL_H = Some (FloatArr (Arr1 xh)) →
  heap w !! yL_H = Some (FloatArr (Arr1 yh)) →
  length xh = length xp → length yh = length xp → length yp = length xp →
  heap w !! x = Some (FloatArr (Arr1 xs)) →
  heap w !! y = Some (FloatArr (Arr1 ys)) →
  length xs = Z.to_nat (grid_Nx grid_Info) →
  length ys = Z.to_nat (grid_Ny grid_Info) →
  Forall (fun t => 0 <= t < grid_Lx grid_Info)%R xp →
  Forall (fun t => 0 <= t < grid_Ly grid_Info)%R yp →
  ∃ xL_Next yL_Next w',
    please_Move_Lagrangian_Point_Positions
      u v xL_P yL_P xL_H yL_H x y dt grid_Info porous_Yes w
    = (Ret (xL_Next, yL_Next), w') ∧
    heap w' !! xL_Next = Some (FloatArr (Arr1 xp)) ∧
    heap w' !! yL_Next = Some (FloatArr (Arr1 yp)).
Proof.
  destruct grid_Info as [Nx Ny Lx Ly dx dy supp Nb ds]. cbn [grid_Nx grid_Ny
    grid_Lx grid_Ly grid_dx grid_dy grid_supp].
  intros HNx HNy HLx HLy Hdx Hdy Hsupp Hu Hv Hua Hva HxP HyP HxH HyH
    Hlxh Hlyh Hlyp Hx Hy Hlxs Hlys Hxp Hyp.
  set (nb := length xp) in *.
  set (k := Z.to_nat supp).
  cut (wp (please_Move_Lagrangian_Point_Positions
             u v xL_P yL_P xL_H yL_H x y dt
             (Grid Nx Ny Lx Ly dx dy supp Nb ds) porous_Yes) w
          (fun p w' => heap w' !! p.1 = Some (FloatArr (Arr1 xp)) ∧
                       heap w' !! p.2 = Some (FloatArr (Arr1 yp)))).
  { intros H. apply wp_elim in H as ([xn yn] & w' & Hrun & H1 & H2).
    by exists xn, yn, w'. }
  unfold please_Move_Lagrangian_Point_Positions.
  cbn [grid_Nx grid_Ny grid_Lx grid_Ly grid_dx grid_dy grid_supp].
  (* the support indices *)
  apply wp_bind. eapply wp_mono.
  { apply (give_NonZero_Delta_Indices_XY_spec xL_H yL_H Nx Ny dx dy supp xh yh);
      [done|done|lia|lia|done]. }
  intros [xInds yInds] w1 (Hg1 & xi & yi & HxI & HyI & Hmxi & Hmyi).
  cbn [fst snd] in HxI, HyI. fold k in Hmxi, Hmyi.
  rewrite Hlxh in Hmxi. rewrite Hlyh in Hmyi. fold nb in Hmxi, Hmyi.
  carry Hg1.
  (* the current positions, reduced and resized *)
  apply wp_bind. eapply wp_read; [wp_lookup|]. simpl as_float.
  apply wp_bind, wp_alloc.
  apply wp_bind. eapply wp_read; [wp_lookup|]. simpl as_float.
  apply wp_bind, wp_alloc. wp_norm.
  apply wp_bind. eapply wp_read; [wp_lookup|]. simpl as_float.
  apply wp_bind, wp_np_tile; [lia|done|].
  apply wp_bind, wp_alloc. wp_norm.
  change (Z.to_nat 1) with 1. rewrite transpose_tile, to_nat_square by done.
  fold k.
  apply wp_bind. eapply wp_read; [wp_lookup|]. simpl as_float.
  apply wp_bind, wp_np_tile; [lia|done|].
  apply wp_bind, wp_alloc. wp_norm.
  change (Z.to_nat 1) with 1. rewrite transpose_tile, to_nat_square by done.
  fold k.
  set (XR := Arr2 (k * k) (replicate (k * k) <$> ((fun t => py_mod t Lx) <$> xh))).
  set (YR := Arr2 (k * k) (replicate (k * k) <$> ((fun t => py_mod t Ly) <$> yh))).
  assert (HXR : is_mat nb (k * k) (fun _ : R => True) XR).
  { eexists. split_and!; [done|by rewrite !length_fmap|].
    apply Forall_fmap, Forall_true. intros t. simpl.
    split; [apply length_replicate|by apply Forall_true]. }
  assert (HYR : is_mat nb (k * k) (fun _ : R => True) YR).
  { eexists. split_and!; [done|by rewrite !length_fmap|].
    apply Forall_fmap, Forall_true. intros t. simpl.
    split; [apply length_replicate|by apply Forall_true]. }
  (* distX = give_Eulerian_Lagrangian_Distance(x[xInds], xL_H_ReSize, Lx) *)
  apply wp_bind. eapply wp_read; [wp_lookup|]. simpl as_float.
  apply wp_bind. eapply wp_load; [wp_lookup|].
  eapply wp_bind, wp_fancy1.
  { eapply is_mat_weaken; [exact Hmxi|]. intros i Hi. cbv beta in Hi. rewrite Hlxs. lia. }
  intros gx Hgx.
  apply wp_bind, wp_alloc. wp_norm.
  apply wp_bind. eapply wp_mono.
  { eapply (give_Eulerian_Lagrangian_Distance_spec _ _ Lx gx XR);
      [wp_lookup|wp_lookup|by eapply is_mat_wf..|].
    by rewrite (is_mat_shape _ _ _ _ Hgx), (is_mat_shape _ _ _ _ HXR). }
  intros distX w2 Hw2.
  assert (Hg2 : grows w1 w2).
  { eapply grows_trans; [apply grows_extend|]. by eapply returns_new_grows. }
  assert (HYR2 : heap w2 !! (length (heap w1) + 3) = Some (FloatArr YR)).
  { eapply grows_lookup; [by eapply returns_new_grows|]. wp_lookup. }
  destruct Hw2 as (_ & _ & HdistX & _).
  pose proof (is_mat_amap2 _ _ _ _ (fun _ : R => True)
                (periodic_distance Lx) _ _ Hgx HXR (fun _ _ _ _ => I)) as HmdX.
  carry Hg2.
  (* distY *)
  apply wp_bind. eapply wp_read; [wp_lookup|]. simpl as_float.
  apply wp_bind. eapply wp_load; [wp_lookup|].
  eapply wp_bind, wp_fancy1.
  { eapply is_mat_weaken; [exact Hmyi|]. intros i Hi. cbv beta in Hi. rewrite Hlys. lia. }
  intros gy Hgy.
  apply wp_bind, wp_alloc. wp_norm.
  apply wp_bind. eapply wp_mono.
  { eapply (give_Eulerian_Lagrangian_Distance_spec _ _ Ly gy YR);
      [wp_lookup|wp_lookup|by eapply is_mat_wf..|].
    by rewrite (is_mat_shape _ _ _ _ Hgy), (is_mat_shape _ _ _ _ HYR). }
  intros distY w3 Hw3.
  assert (Hg3 : grows w2 w3).
  { eapply grows_trans; [apply grows_extend|]. by eapply returns_new_grows. }
  destruct Hw3 as (_ & _ & HdistY & _).
  pose proof (is_mat_amap2 _ _ _ _ (fun _ : R => True)
                (periodic_distance Ly) _ _ Hgy HYR (fun _ _ _ _ => I)) as HmdY.
  carry Hg3.
  (* delta_X, delta_Y *)
  destruct HmdX as (rx & HrxE & Hrxl & Hrx). rewrite HrxE in *.
  apply wp_bind. eapply wp_mono.
  { eapply (give_Delta_Kernel_spec distX dx (k * k) rx); [wp_lookup| |done].
    simpl. eapply Forall_impl; [done|]. by intros ? [? _]. }
  intros delta_X w4 Hw4. pose proof (returns_new_grows _ _ _ _ Hw4) as Hg4.
  destruct Hw4 as (_ & _ & HdX & _).
  assert (HmX : is_mat nb (k * k) (fun _ : R => True)
                  (amap (fun t => delta_entry dx (Rabs t / dx)) (Arr2 (k * k) rx))).
  { eapply is_mat_amap; [by exists rx|done]. }
  carry Hg4.
  destruct HmdY as (ry & HryE & Hryl & Hry). rewrite HryE in *.
  apply wp_bind. eapply wp_mono.
  { eapply (give_Delta_Kernel_spec distY dy (k * k) ry); [wp_lookup| |done].
    simpl. eapply Forall_impl; [done|]. by intros ? [? _]. }
  intros delta_Y w5 Hw5. pose proof (returns_new_grows _ _ _ _ Hw5) as Hg5.
  destruct Hw5 as (_ & _ & HdY & _).
  assert (HmY : is_mat nb (k * k) (fun _ : R => True)
                  (amap (fun t => delta_entry dy (Rabs t / dy)) (Arr2 (k * k) ry))).
  { eapply is_mat_amap; [by exists ry|done]. }
  carry Hg5.
  (* move_X, move_Y *)
  apply wp_bind. eapply wp_mono.
  { eapply (give_Me_Perturbed_Distance_zero u v dx dy delta_X delta_Y
              xInds yInds w5 ua va _ _ xi yi (Z.to_nat Ny) (Z.to_nat Nx)
              nb (k * k)); try eassumption.
    - eapply is_mat_weaken; [exact Hmxi|]. intros i Hi. cbv beta in Hi. lia.
    - eapply is_mat_weaken; [exact Hmyi|]. intros i Hi. cbv beta in Hi. lia. }
  intros [move_X move_Y] w6 (Hg6 & zx & zy & HmvX & HmvY & Hlzx & Hzx & Hlzy & Hzy).
  cbn [fst snd] in HmvX, HmvY.
  carry Hg6.
  (* xL_Next, yL_Next *)
  apply wp_bind. eapply wp_read; [wp_lookup|]. simpl as_float.
  apply wp_bind. eapply wp_read; [wp_lookup|]. simpl as_float.
  apply wp_bind. eapply wp_np_binop.
  { apply azip_same_shape; [done..|]. simpl. by rewrite length_fmap, Hlzx. }
  simpl amap2. rewrite zip_with_plus_zero by done.
  apply wp_bind, wp_alloc.
  apply wp_bind. eapply wp_read; [wp_lookup|]. simpl as_float.
  apply wp_bind. eapply wp_read; [wp_lookup|]. simpl as_float.
  apply wp_bind. eapply wp_np_binop.
  { apply azip_same_shape; [done..|]. simpl. rewrite length_fmap, Hlzy. congruence. }
  simpl amap2. rewrite zip_with_plus_zero by congruence.
  apply wp_bind, wp_alloc. wp_norm.
  destruct porous_Yes; cbn [negb].
  - apply wp_ret. cbn [fst snd]. split; wp_lookup.
  - apply wp_bind. eapply wp_read; [wp_lookup|]. simpl as_float.
    apply wp_bind, wp_alloc. wp_norm.
    apply wp_bind. eapply wp_read; [wp_lookup|]. simpl as_float.
    apply wp_bind, wp_alloc. wp_norm.
    apply wp_ret. cbn [fst snd]. simpl amap.
    rewrite !fmap_py_mod_small by done. split; wp_lookup.
Qed.

Lemma please_Move_Lagrangian_Point_Positions_zero_velocity_witness :
  let zero := Arr2 2 [[0; 0]; [0; 0]]%R in
  let pt := [(1 / 4)%R] in
  let axis := [0; 1 / 2]%R in
  let w := World [FloatArr zero; FloatArr zero;
                  FloatArr (Arr1 pt); FloatArr (Arr1 pt);
                  FloatArr (Arr1 pt); FloatArr (Arr1 pt);
                  FloatArr (Arr1 axis); FloatArr (Arr1 axis)] ∅ [] in
  let grid_Info := Grid 2 2 1 1 (1 / 2) (1 / 2) 2 1 (1 / 4) in
  ∃ xL_Next yL_Next w',
    please_Move_Lagrangian_Point_Positions 0 1 2 3 4 5 6 7 1 grid_Info false w
    = (Ret (xL_Next, yL_Next), w') ∧
    heap w' !! xL_Next = Some (FloatArr (Arr1 pt)) ∧
    heap w' !! yL_Next = Some (FloatArr (Arr1 pt)).
Proof.
  intros zero pt axis w grid_Info.
  assert (Hzero : is_mat 2 2 (fun t => t = 0%R) zero).
  { exists [[0; 0]; [0; 0]]%R. split_and!; [reflexivity..|].
    repeat constructor. }
  apply (please_Move_Lagrangian_Point_Positions_zero_velocity
           0 1 2 3 4 5 6 7 1 grid_Info false w zero zero pt pt pt pt axis axis).
  - simpl. lia.
  - simpl. lia.
  - simpl. lra.
  - simpl. lra.
  - simpl. lra.
  - simpl. lra.
  - simpl. lia.
  - reflexivity.
  - reflexivity.
  - exact Hzero.
  - exact Hzero.
  - reflexivity.
  - reflexivity.
  - reflexivity.
  - reflexivity.
  - reflexivity.
  - reflexivity.
  - reflexivity.
  - reflexivity.
  - reflexivity.
  - reflexivity.
  - reflexivity.
  - constructor; [simpl; lra|constructor].
  - constructor; [simpl; lra|constructor].
Defined.

(* ================================================================== *)
(** ** The periodic differences *)

(** The centred difference of a periodic sequence: entry [j] combines its
    right and left neighbours, the ends wrapping around. *)
Definition periodic_diff {X} `{!Inhabited X} (g : X -> X -> X) (l : list X)
  : list X :=
  (fun j => g (l !!! ((j + 1) `mod` length l))
              (l !!! ((j + length l - 1) `mod` length l)))
    <$> seq 0 (length l).

(** The same with the entry itself in the middle. *)
Definition periodic_diff2 {X} `{!Inhabited X} (g : X -> X -> X -> X)
    (l : list X) : list X :=
  (fun j => g (l !!! ((j + 1) `mod` length l)) (l !!! j)
              (l !!! ((j + length l - 1) `mod` length l)))
    <$> seq 0 (length l).

Lemma splice_ends {X} (F : nat -> X) n (z mid : list X) :
  2 ≤ n → length z = n → length mid = n - 2 →
  (∀ j, j < n - 2 → mid !! j = Some (F (S j))) →
  splice 1 mid (<[n - 1 := F (n - 1)]> (<[0 := F 0]> z)) = F <$> seq 0 n.
Proof.
  intros Hn Hz Hmid Hlook. apply list_eq. intros i.
  unfold splice. rewrite list_lookup_fmap.
  destruct (decide (i < n)) as [Hi|Hi].
  2:{ rewrite lookup_seq_ge by lia. simpl. apply lookup_ge_None.
      rewrite !length_app, length_take, length_drop, !length_insert. lia. }
  rewrite lookup_seq_lt by done. simpl.
  destruct (decide (i = 0)) as [->|Hi0].
  { rewrite lookup_app_l by (rewrite length_take, !length_insert; lia).
    rewrite lookup_take_lt by lia.
    rewrite list_lookup_insert_ne by lia.
    by rewrite list_lookup_insert_eq by lia. }
  rewrite lookup_app_r by (rewrite length_take, !length_insert; lia).
  rewrite length_take, !length_insert.
  replace (i - 1 `min` length z) with (i - 1) by lia.
  destruct (decide (i = n - 1)) as [->|Hi1].
  - rewrite lookup_app_r by lia. rewrite lookup_drop.
    replace (S (length mid) + (n - 1 - 1 - length mid)) with (n - 1) by lia.
    by rewrite list_lookup_insert_eq by (rewrite length_insert; lia).
  - rewrite lookup_app_l by lia. rewrite Hlook by lia. do 2 f_equal. lia.
Qed.

Lemma zip_with_fmap_same {X Y Z W} (f : Y -> Z -> W) (g : X -> Y) (h : X -> Z) l :
  zip_with f (g <$> l) (h <$> l) = (fun x => f (g x) (h x)) <$> l.
Proof. induction l; csimpl; by f_equal. Qed.

Lemma get_col_total {X} `{!Inhabited X} n (rows : list (list X)) j j' :
  Forall (fun r => length r = n) rows → pyidx n j = Some j' → j' < n →
  get_col (Arr2 n rows) j = Some ((fun r : list X => r !!! j') <$> rows).
Proof.
  intros Hrows Hj Hlt. unfold get_col. rewrite Hj. simpl.
  apply mapM_Some, Forall2_fmap_r, Forall_Forall2_diag.
  eapply Forall_impl; [done|]. intros r Hr. cbv beta in Hr |- *.
  apply list_lookup_lookup_total_lt. lia.
Qed.

Lemma get_row_total {X} `{!Inhabited X} n (rows : list (list X)) i i' :
  pyidx (length rows) i = Some i' → i' < length rows →
  get_row (Arr2 n rows) i = Some (rows !!! i').
Proof.
  intros Hi Hlt. unfold get_row. rewrite Hi. simpl.
  by apply list_lookup_lookup_total_lt.
Qed.

Lemma slice_bounds_inside n (s e : Z) :
  (0 ≤ s ≤ e)%Z → (e ≤ Z.of_nat n)%Z →
  slice_bounds n s e = (Z.to_nat s, Z.to_nat (e - s)).
Proof.
  intros Hs He. unfold slice_bounds.
  rewrite !decide_False by lia. f_equal; f_equal; lia.
Qed.

Lemma zip_with_snd_replicate {X} c (row : list X) :
  length row = c → zip_with (fun (_ : unit) (x : X) => x) (replicate c tt) row = row.
Proof.
  intros <-. rewrite zip_with_replicate_l by done. apply list_fmap_id.
Qed.

Lemma fit_mat_same r c m :
  length m = r → Forall (fun row => length row = c) m →
  fit_mat r c (Arr2 c m) = Some m.
Proof.
  intros Hr Hm. unfold fit_mat.
  rewrite azip_same_shape.
  - simpl. rewrite length_zip_with, length_replicate.
    rewrite decide_True by (split; [lia|done]). f_equal.
    subst r. induction Hm as [|row m Hrow _ IH]; simpl; [done|].
    f_equal; [by apply zip_with_snd_replicate|done].
  - simpl. apply Forall_replicate, length_replicate.
  - done.
  - simpl. by rewrite length_replicate, Hr.
Qed.

Lemma mod_wrap j n : j < n → (j + n) `mod` n = j.
Proof.
  intros Hj. replace (j + n) with (j + 1 * n) by lia.
  rewrite Nat.Div0.mod_add. by apply Nat.mod_small.
Qed.

Lemma periodic_diff_assemble {X} `{!Inhabited X} (g : X -> X -> X) n (l z : list X) :
  2 ≤ n → length l = n → length z = n →
  splice 1 (zip_with g (take (n - 2) (drop 2 l)) (take (n - 2) (drop 0 l)))
         (<[n - 1 := g (l !!! 0) (l !!! (n - 2))]>
            (<[0 := g (l !!! 1) (l !!! (n - 1))]> z))
  = periodic_diff g l.
Proof.
  intros Hn Hl Hz. unfold periodic_diff. rewrite Hl.
  set (F := fun j => g (l !!! ((j + 1) `mod` n)) (l !!! ((j + n - 1) `mod` n))).
  replace (g (l !!! 0) (l !!! (n - 2))) with (F (n - 1)).
  2:{ unfold F. replace (n - 1 + 1) with n by lia.
      rewrite Nat.Div0.mod_same.
      replace (n - 1 + n - 1) with (n - 2 + n) by lia.
      by rewrite mod_wrap by lia. }
  replace (g (l !!! 1) (l !!! (n - 1))) with (F 0).
  2:{ unfold F. simpl. by rewrite !Nat.mod_small by lia. }
  apply splice_ends; [done..| |].
  - rewrite length_zip_with, !length_take, !length_drop. lia.
  - intros j Hj. rewrite lookup_zip_with.
    rewrite !lookup_take_lt, !lookup_drop by lia.
    rewrite (list_lookup_lookup_total_lt l (2 + j)) by lia.
    rewrite (list_lookup_lookup_total_lt l (0 + j)) by lia.
    simpl. unfold F. do 3 f_equal.
    + rewrite Nat.mod_small by lia. lia.
    + replace (S j + n - 1) with (j + n) by lia. by rewrite mod_wrap by lia.
Qed.

(** Three lists combined entry by entry. *)
Definition zip_with3 {X} (g : X -> X -> X -> X) (a b c : list X) : list X :=
  zip_with (fun p z => g p.1 p.2 z) (zip a b) c.

Lemma periodic_diff2_assemble {X} `{!Inhabited X} (g : X -> X -> X -> X) n
    (l z : list X) :
  2 ≤ n → length l = n → length z = n →
  splice 1 (zip_with3 g (take (n - 2) (drop 2 l)) (take (n - 2) (drop 1 l))
                        (take (n - 2) (drop 0 l)))
         (<[n - 1 := g (l !!! 0) (l !!! (n - 1)) (l !!! (n - 2))]>
            (<[0 := g (l !!! 1) (l !!! 0) (l !!! (n - 1))]> z))
  = periodic_diff2 g l.
Proof.
  intros Hn Hl Hz. unfold periodic_diff2. rewrite Hl.
  set (F := fun j => g (l !!! ((j + 1) `mod` n)) (l !!! j)
                       (l !!! ((j + n - 1) `mod` n))).
  replace (g (l !!! 0) (l !!! (n - 1)) (l !!! (n - 2))) with (F (n - 1)).
  2:{ unfold F. replace (n - 1 + 1) with n by lia.
      rewrite Nat.Div0.mod_same.
      replace (n - 1 + n - 1) with (n - 2 + n) by lia.
      by rewrite mod_wrap by lia. }
  replace (g (l !!! 1) (l !!! 0) (l !!! (n - 1))) with (F 0).
  2:{ unfold F. simpl. by rewrite !Nat.mod_small by lia. }
  apply splice_ends; [done..| |].
  - unfold zip_with3.
    rewrite length_zip_with, length_zip, !length_take, !length_drop. lia.
  - intros j Hj. unfold zip_with3. rewrite lookup_zip_with.
    rewrite lookup_zip_with.
    rewrite !lookup_take_lt, !lookup_drop by lia.
    rewrite (list_lookup_lookup_total_lt l (2 + j)) by lia.
    rewrite (list_lookup_lookup_total_lt l (1 + j)) by lia.
    rewrite (list_lookup_lookup_total_lt l (0 + j)) by lia.
    simpl. unfold F. do 3 f_equal.
    + rewrite Nat.mod_small by lia. lia.
    + replace (S j + n - 1) with (j + n) by lia. by rewrite mod_wrap by lia.
Qed.

Definition diff1 (dz a b : R) : R := ((a - b) / (2 * dz))%R.
Definition diff2 (dz a b c : R) : R := ((a - 2 * b + c) / dz ^ 2)%R.

(** The first derivative of a periodic field along an axis: entry [[i, j]]
    is [(f[j+1] - f[j-1]) / (2 dz)] along the row for ["x"], and the same
    along the column for ["y"], the indices wrapping around. *)
Definition D_rows (dz : R) (axis : string) (rows : list (list R))
  : list (list R) :=
  if bool_decide (axis = "x") then periodic_diff (diff1 dz) <$> rows
  else periodic_diff (zip_with (diff1 dz)) rows.

(** The second derivative: [(f[j+1] - 2 f[j] + f[j-1]) / dz^2]. *)
Definition DD_rows (dz : R) (axis : string) (rows : list (list R))
  : list (list R) :=
  if bool_decide (axis = "x") then periodic_diff2 (diff2 dz) <$> rows
  else periodic_diff2 (zip_with3 (diff2 dz)) rows.

Lemma second_difference_row dz (a b c : list R) :
  (fun t => t / dz ^ 2)%R
    <$> zip_with Rplus (zip_with Rminus a (Rmult 2 <$> b)) c
  = zip_with3 (diff2 dz) a b c.
Proof.
  unfold zip_with3. revert b c.
  induction a as [|x a IH]; intros [|y b] [|z c]; csimpl; try done.
  f_equal. apply IH.
Qed.

Lemma replicate_as_fmap {X Y} (z : Y) (l : list X) :
  replicate (length l) z = (fun _ => z) <$> l.
Proof. induction l; csimpl; by f_equal. Qed.

Lemma pyidx_last n : 0 < n → pyidx n (-1) = Some (n - 1).
Proof. intros Hn. rewrite pyidx_neg by lia. f_equal. lia. Qed.

Lemma col_slice_total {X} n (rows : list (list X)) (s e : Z) k j :
  (0 ≤ s ≤ e)%Z → (e ≤ Z.of_nat n)%Z → Z.to_nat s = j → Z.to_nat (e - s) = k →
  col_slice (Arr2 n rows) s e
  = Some (Arr2 k ((fun r : list X => take k (drop j r)) <$> rows)).
Proof.
  intros Hs He <- <-. unfold col_slice. by rewrite slice_bounds_inside.
Qed.

Lemma row_slice_total {X} n (rows : list (list X)) (s e : Z) k j :
  (0 ≤ s ≤ e)%Z → (e ≤ Z.of_nat (length rows))%Z →
  Z.to_nat s = j → Z.to_nat (e - s) = k →
  row_slice (Arr2 n rows) s e = Some (Arr2 n (take k (drop j rows))).
Proof.
  intros Hs He <- <-. unfold row_slice. by rewrite slice_bounds_inside.
Qed.

(** Arrays built from the rows of one array, row by row. *)
Ltac by_rows :=
  unfold upd_col, upd_cols;
  repeat first [rewrite zip_with_fmap_same | rewrite <-list_fmap_compose].

(** Lengths of lists built by the array operations. *)
Ltac len :=
  cbv beta in *; unfold upd_col, upd_cols, splice;
  repeat first
    [ rewrite length_fmap | rewrite length_zip_with | rewrite length_replicate
    | rewrite length_take | rewrite length_drop | rewrite length_app
    | rewrite length_insert ];
  try lia.

Lemma D_spec_x u dz n rows w :
  heap w !! u = Some (FloatArr (Arr2 n rows)) →
  length rows = n → Forall (fun r => length r = n) rows → 2 ≤ n →
  D u dz "x" w
  = (Ret (length (heap w)), extend w [FloatArr (Arr2 n (D_rows dz "x" rows))]).
Proof.
  intros Hu Hlen Hwf Hn. apply wp_eq. unfold D.
  apply wp_bind. eapply wp_read; [done|]. simpl as_float. cbn [nrows].
  rewrite Hlen. apply wp_bind, wp_alloc.
  apply wp_bind. rewrite bool_decide_eq_true_2 by done.
  (* the first column *)
  apply wp_bind. eapply wp_column; [wp_lookup| |].
  { apply (get_col_total n rows _ 1); [done|by apply pyidx_nonneg; lia|lia]. }
  apply wp_bind. eapply wp_column; [wp_lookup| |].
  { apply (get_col_total n rows _ (n - 1)); [done| |lia].
    rewrite pyidx_nonneg by lia. f_equal. lia. }
  apply wp_bind. eapply wp_np_binop.
  { apply azip_same_shape; [done..|]. simpl. by rewrite !length_fmap. }
  eapply wp_bind, wp_set_col; [wp_lookup|by apply pyidx_nonneg; lia| |].
  { apply fit_vec_same. len. }
  rewrite update_extend_last.
  (* the last column *)
  apply wp_bind. eapply wp_column; [wp_lookup| |].
  { apply (get_col_total n rows _ 0); [done|by apply pyidx_nonneg; lia|lia]. }
  apply wp_bind. eapply wp_column; [wp_lookup| |].
  { apply (get_col_total n rows _ (n - 2)); [done| |lia].
    rewrite pyidx_nonneg by lia. f_equal. lia. }
  apply wp_bind. eapply wp_np_binop.
  { apply azip_same_shape; [done..|]. simpl. by rewrite !length_fmap. }
  eapply wp_bind, wp_set_col; [wp_lookup| | |].
  { apply pyidx_last. lia. }
  { apply fit_vec_same. len. }
  rewrite update_extend_last.
  (* the columns between *)
  apply wp_bind. eapply wp_columns; [wp_lookup| |].
  { apply (col_slice_total n rows _ _ (n - 2) 2); lia. }
  apply wp_bind. eapply wp_columns; [wp_lookup| |].
  { apply (col_slice_total n rows _ _ (n - 2) 0); lia. }
  apply wp_bind. eapply wp_np_binop.
  { apply azip_same_shape; [| |simpl; by rewrite !length_fmap];
      simpl; apply Forall_fmap; (eapply Forall_impl; [exact Hwf|]);
      intros r Hr; simpl; len. }
  simpl amap2. simpl amap.
  eapply wp_set_columns; [wp_lookup| | |].
  { rewrite slice_bounds_inside by lia. reflexivity. }
  { replace (Z.to_nat (Z.of_nat n - 1 - 1)) with (n - 2) by lia.
    apply fit_mat_same; [len|].
    apply Forall_fmap. rewrite zip_with_fmap_same.
    apply Forall_fmap. eapply Forall_impl; [exact Hwf|].
    intros r Hr. simpl. len. }
  rewrite update_extend_last. apply wp_ret. split; [done|].
  do 4 f_equal.
  change (Z.to_nat 0) with 0. change (Z.to_nat 1) with 1.
  replace (replicate n (replicate n 0%R))
    with ((fun _ : list R => replicate n 0%R) <$> rows)
    by (by rewrite <-replicate_as_fmap, Hlen).
  unfold D_rows. rewrite bool_decide_eq_true_2 by done.
  by_rows. apply Forall_fmap_ext_1.
  eapply Forall_impl; [exact Hwf|]. intros r Hr. simpl.
  rewrite fmap_zip_with_both.
  apply (periodic_diff_assemble (diff1 dz) n r); [done..|len].
Qed.

Lemma length_lookup_total n (rows : list (list R)) i :
  Forall (fun r => length r = n) rows → i < length rows →
  length (rows !!! i) = n.
Proof.
  intros Hwf Hi.
  by eapply (Forall_lookup_1 _ _ i) in Hwf;
    [|by apply list_lookup_lookup_total_lt].
Qed.

Lemma first_difference_rows dz (a b : list (list R)) :
  fmap (M:=list) (fun t => t / (2 * dz))%R <$> zip_with (zip_with Rminus) a b
  = zip_with (zip_with (diff1 dz)) a b.
Proof.
  revert b. induction a as [|x a IH]; intros [|y b]; csimpl; try done.
  f_equal; [apply fmap_zip_with_both|apply IH].
Qed.

Lemma second_difference_rows dz (a b c : list (list R)) :
  fmap (M:=list) (fun t => t / dz ^ 2)%R
    <$> zip_with (zip_with Rplus)
          (zip_with (zip_with Rminus) a (fmap (M:=list) (Rmult 2) <$> b)) c
  = zip_with3 (zip_with3 (diff2 dz)) a b c.
Proof.
  unfold zip_with3 at 1. revert b c.
  induction a as [|x a IH]; intros [|y b] [|z c]; csimpl; try done.
  f_equal; [apply second_difference_row|apply IH].
Qed.

Lemma Forall_length_zip_with2 {X Y Z} (f : X -> Y -> Z) n a b :
  Forall (fun r => length r = n) a → Forall (fun r => length r = n) b →
  Forall (fun r => length r = n) (zip_with (zip_with f) a b).
Proof.
  intros Ha. revert b. induction Ha as [|x a Hx _ IH]; intros [|y b] Hb;
    simpl; try done.
  inversion_clear Hb. constructor; [len|by apply IH].
Qed.

Lemma Forall_length_fmap2 {X Y} (f : X -> Y) n (a : list (list X)) :
  Forall (fun r => length r = n) a →
  Forall (fun r => length r = n) (fmap (M:=list) f <$> a).
Proof.
  intros Ha. apply Forall_fmap. eapply Forall_impl; [done|].
  intros r Hr. simpl. len.
Qed.

Lemma D_spec_y u dz n rows w :
  heap w !! u = Some (FloatArr (Arr2 n rows)) →
  length rows = n → Forall (fun r => length r = n) rows → 2 ≤ n →
  D u dz "y" w
  = (Ret (length (heap w)), extend w [FloatArr (Arr2 n (D_rows dz "y" rows))]).
Proof.
  intros Hu Hlen Hwf Hn. apply wp_eq. unfold D.
  assert (Hrow : ∀ i, i < n → length (rows !!! i) = n).
  { intros i Hi. apply length_lookup_total; [done|lia]. }
  apply wp_bind. eapply wp_read; [done|]. simpl as_float. cbn [nrows].
  rewrite Hlen. apply wp_bind, wp_alloc.
  apply wp_bind. rewrite bool_decide_eq_false_2 by done.
  rewrite bool_decide_eq_true_2 by done.
  (* the first row *)
  apply wp_bind. eapply wp_row_of; [wp_lookup| |].
  { apply (get_row_total n rows _ 1); [by apply pyidx_nonneg; lia|lia]. }
  apply wp_bind. eapply wp_row_of; [wp_lookup| |].
  { apply (get_row_total n rows _ (n - 1)); [|lia].
    rewrite pyidx_nonneg by lia. f_equal. lia. }
  apply wp_bind. eapply wp_np_binop.
  { apply azip_same_shape; [done..|]. simpl. by rewrite !Hrow by lia. }
  eapply wp_bind, wp_set_row; [wp_lookup|by apply pyidx_nonneg; len| |].
  { apply fit_vec_same. len. rewrite !Hrow by lia. lia. }
  rewrite update_extend_last.
  (* the last row *)
  apply wp_bind. eapply wp_row_of; [wp_lookup| |].
  { apply (get_row_total n rows _ 0); [by apply pyidx_nonneg; lia|lia]. }
  apply wp_bind. eapply wp_row_of; [wp_lookup| |].
  { apply (get_row_total n rows _ (n - 2)); [|lia].
    rewrite pyidx_nonneg by lia. f_equal. lia. }
  apply wp_bind. eapply wp_np_binop.
  { apply azip_same_shape; [done..|]. simpl. by rewrite !Hrow by lia. }
  eapply wp_bind, wp_set_row; [wp_lookup|by apply pyidx_nonneg; len| |].
  { apply fit_vec_same. len. rewrite !Hrow by lia. lia. }
  rewrite update_extend_last.
  (* the rows between *)
  apply wp_bind. eapply wp_rows_of; [wp_lookup| |].
  { apply (row_slice_total n rows _ _ (n - 2) 2); lia. }
  apply wp_bind. eapply wp_rows_of; [wp_lookup| |].
  { apply (row_slice_total n rows _ _ (n - 2) 0); lia. }
  apply wp_bind. eapply wp_np_binop.
  { apply azip_same_shape;
      [simpl; by apply Forall_take, Forall_drop..|simpl; len; f_equal; lia]. }
  simpl amap2. simpl amap.
  eapply wp_set_rows; [wp_lookup| | |].
  { rewrite slice_bounds_inside by len. reflexivity. }
  { replace (Z.to_nat (Z.of_nat n - 1 - 1)) with (n - 2) by lia.
    apply fit_mat_same; [len|].
    apply Forall_length_fmap2, Forall_length_zip_with2;
      by apply Forall_take, Forall_drop. }
  rewrite update_extend_last. apply wp_ret. split; [done|].
  do 4 f_equal.
  replace (Z.to_nat (Z.of_nat n - 1)) with (n - 1) by lia.
  change (Z.to_nat 0) with 0. change (Z.to_nat 1) with 1.
  rewrite first_difference_rows, !fmap_zip_with_both.
  unfold D_rows. rewrite bool_decide_eq_false_2 by done.
  apply (periodic_diff_assemble (zip_with (diff1 dz)) n rows); [done..|len].
Qed.


(** Equal shapes. *)
Ltac shp := simpl; len; try (f_equal; lia); try done.

Lemma DD_spec_x u dz n rows w :
  heap w !! u = Some (FloatArr (Arr2 n rows)) →
  length rows = n → Forall (fun r => length r = n) rows → 2 ≤ n →
  DD u dz "x" w
  = (Ret (length (heap w)), extend w [FloatArr (Arr2 n (DD_rows dz "x" rows))]).
Proof.
  intros Hu Hlen Hwf Hn. apply wp_eq. unfold DD.
  apply wp_bind. eapply wp_read; [done|]. simpl as_float. cbn [nrows].
  rewrite Hlen. apply wp_bind, wp_alloc.
  apply wp_bind. rewrite bool_decide_eq_true_2 by done.
  (* the first column *)
  apply wp_bind. eapply wp_column; [wp_lookup| |].
  { apply (get_col_total n rows _ 1); [done|by apply pyidx_nonneg; lia|lia]. }
  apply wp_bind. eapply wp_column; [wp_lookup| |].
  { apply (get_col_total n rows _ 0); [done|by apply pyidx_nonneg; lia|lia]. }
  apply wp_bind. eapply wp_np_binop.
  { apply azip_same_shape; [done..|]. shp. }
  apply wp_bind. eapply wp_column; [wp_lookup| |].
  { apply (get_col_total n rows _ (n - 1)); [done| |lia].
    rewrite pyidx_nonneg by lia. f_equal. lia. }
  apply wp_bind. eapply wp_np_binop.
  { apply azip_same_shape; [done..|]. shp. }
  eapply wp_bind, wp_set_col; [wp_lookup|by apply pyidx_nonneg; lia| |].
  { apply fit_vec_same. len. }
  rewrite update_extend_last.
  (* the last column *)
  apply wp_bind. eapply wp_column; [wp_lookup| |].
  { apply (get_col_total n rows _ 0); [done|by apply pyidx_nonneg; lia|lia]. }
  apply wp_bind. eapply wp_column; [wp_lookup| |].
  { apply (get_col_total n rows _ (n - 1)); [done| |lia].
    rewrite pyidx_nonneg by lia. f_equal. lia. }
  apply wp_bind. eapply wp_np_binop.
  { apply azip_same_shape; [done..|]. shp. }
  apply wp_bind. eapply wp_column; [wp_lookup| |].
  { apply (get_col_total n rows _ (n - 2)); [done| |lia].
    rewrite pyidx_nonneg by lia. f_equal. lia. }
  apply wp_bind. eapply wp_np_binop.
  { apply azip_same_shape; [done..|]. shp. }
  eapply wp_bind, wp_set_col; [wp_lookup| | |].
  { apply pyidx_last. lia. }
  { apply fit_vec_same. len. }
  rewrite update_extend_last.
  (* the columns between *)
  apply wp_bind. eapply wp_columns; [wp_lookup| |].
  { apply (col_slice_total n rows _ _ (n - 2) 2); lia. }
  apply wp_bind. eapply wp_columns; [wp_lookup| |].
  { apply (col_slice_total n rows _ _ (n - 2) 1); lia. }
  assert (Hsl : ∀ j, j ≤ 2 →
            Forall (fun r : list R => length r = n - 2)
                   ((fun r : list R => take (n - 2) (drop j r)) <$> rows)).
  { intros j Hj. apply Forall_fmap. eapply Forall_impl; [exact Hwf|].
    intros r Hr. simpl. len. }
  apply wp_bind. eapply wp_np_binop.
  { apply azip_same_shape; [simpl; apply Hsl; lia|apply wf_amap; simpl; apply Hsl; lia|].
    shp. }
  apply wp_bind. eapply wp_columns; [wp_lookup| |].
  { apply (col_slice_total n rows _ _ (n - 2) 0); lia. }
  apply wp_bind. eapply wp_np_binop.
  { apply azip_same_shape; [|simpl; apply Hsl; lia|shp].
    simpl. apply Forall_length_zip_with2; [apply Hsl; lia|].
    apply Forall_length_fmap2. apply Hsl; lia. }
  simpl amap2. simpl amap.
  eapply wp_set_columns; [wp_lookup| | |].
  { rewrite slice_bounds_inside by lia. reflexivity. }
  { replace (Z.to_nat (Z.of_nat n - 1 - 1)) with (n - 2) by lia.
    apply fit_mat_same; [len|].
    apply Forall_length_fmap2, Forall_length_zip_with2; [|apply Hsl; lia].
    apply Forall_length_zip_with2; [apply Hsl; lia|].
    apply Forall_length_fmap2. apply Hsl; lia. }
  rewrite update_extend_last. apply wp_ret. split; [done|].
  do 4 f_equal.
  change (Z.to_nat 0) with 0. change (Z.to_nat 1) with 1.
  replace (replicate n (replicate n 0%R))
    with ((fun _ : list R => replicate n 0%R) <$> rows)
    by (by rewrite <-replicate_as_fmap, Hlen).
  unfold DD_rows. rewrite bool_decide_eq_true_2 by done.
  by_rows. apply Forall_fmap_ext_1.
  eapply Forall_impl; [exact Hwf|]. intros r Hr. unfold compose. cbv beta.
  change (fun t : R => (t / (dz * (dz * 1)))%R) with (fun t : R => (t / dz ^ 2)%R).
  rewrite second_difference_row.
  apply (periodic_diff2_assemble (diff2 dz) n r); [done..|len].
Qed.

Lemma DD_spec_y u dz n rows w :
  heap w !! u = Some (FloatArr (Arr2 n rows)) →
  length rows = n → Forall (fun r => length r = n) rows → 2 ≤ n →
  DD u dz "y" w
  = (Ret (length (heap w)), extend w [FloatArr (Arr2 n (DD_rows dz "y" rows))]).
Proof.
  intros Hu Hlen Hwf Hn. apply wp_eq. unfold DD.
  assert (Hrow : ∀ i, i < n → length (rows !!! i) = n).
  { intros i Hi. apply length_lookup_total; [done|lia]. }
  apply wp_bind. eapply wp_read; [done|]. simpl as_float. cbn [nrows].
  rewrite Hlen. apply wp_bind, wp_alloc.
  apply wp_bind. rewrite bool_decide_eq_false_2 by done.
  rewrite bool_decide_eq_true_2 by done.
  (* the first row *)
  apply wp_bind. eapply wp_row_of; [wp_lookup| |].
  { apply (get_row_total n rows _ 1); [by apply pyidx_nonneg; lia|lia]. }
  apply wp_bind. eapply wp_row_of; [wp_lookup| |].
  { apply (get_row_total n rows _ 0); [by apply pyidx_nonneg; lia|lia]. }
  apply wp_bind. eapply wp_np_binop.
  { apply azip_same_shape; [done..|]. simpl. rewrite ?length_zip_with, ?length_fmap, !Hrow by lia. shp. }
  apply wp_bind. eapply wp_row_of; [wp_lookup| |].
  { apply (get_row_total n rows _ (n - 1)); [|lia].
    rewrite pyidx_nonneg by lia. f_equal. lia. }
  apply wp_bind. eapply wp_np_binop.
  { apply azip_same_shape; [done..|]. simpl.
    rewrite ?length_zip_with, ?length_fmap, !Hrow by lia. shp. }
  eapply wp_bind, wp_set_row; [wp_lookup|by apply pyidx_nonneg; len| |].
  { apply fit_vec_same. len. rewrite !Hrow by lia. lia. }
  rewrite update_extend_last.
  (* the last row *)
  apply wp_bind. eapply wp_row_of; [wp_lookup| |].
  { apply (get_row_total n rows _ 0); [by apply pyidx_nonneg; lia|lia]. }
  apply wp_bind. eapply wp_row_of; [wp_lookup| |].
  { apply (get_row_total n rows _ (n - 1)); [|lia].
    rewrite pyidx_nonneg by lia. f_equal. lia. }
  apply wp_bind. eapply wp_np_binop.
  { apply azip_same_shape; [done..|]. simpl. rewrite ?length_zip_with, ?length_fmap, !Hrow by lia. shp. }
  apply wp_bind. eapply wp_row_of; [wp_lookup| |].
  { apply (get_row_total n rows _ (n - 2)); [|lia].
    rewrite pyidx_nonneg by lia. f_equal. lia. }
  apply wp_bind. eapply wp_np_binop.
  { apply azip_same_shape; [done..|]. simpl.
    rewrite ?length_zip_with, ?length_fmap, !Hrow by lia. shp. }
  eapply wp_bind, wp_set_row; [wp_lookup| | |].
  { rewrite length_insert, length_replicate. apply pyidx_last. lia. }
  { apply fit_vec_same. len. rewrite !Hrow by lia. lia. }
  rewrite update_extend_last.
  (* the rows between *)
  assert (Hsl : ∀ j, Forall (fun r : list R => length r = n)
                            (take (n - 2) (drop j rows))).
  { intros j. by apply Forall_take, Forall_drop. }
  apply wp_bind. eapply wp_rows_of; [wp_lookup| |].
  { apply (row_slice_total n rows _ _ (n - 2) 2); lia. }
  apply wp_bind. eapply wp_rows_of; [wp_lookup| |].
  { apply (row_slice_total n rows _ _ (n - 2) 1); lia. }
  apply wp_bind. eapply wp_np_binop.
  { apply azip_same_shape; [simpl; apply Hsl|apply wf_amap; simpl; apply Hsl|].
    shp. }
  apply wp_bind. eapply wp_rows_of; [wp_lookup| |].
  { apply (row_slice_total n rows _ _ (n - 2) 0); lia. }
  apply wp_bind. eapply wp_np_binop.
  { apply azip_same_shape; [|simpl; apply Hsl|shp].
    simpl. apply Forall_length_zip_with2; [by apply Hsl|].
    apply Forall_length_fmap2. by apply Hsl. }
  simpl amap2. simpl amap.
  eapply wp_set_rows; [wp_lookup| | |].
  { rewrite slice_bounds_inside by len. reflexivity. }
  { replace (Z.to_nat (Z.of_nat n - 1 - 1)) with (n - 2) by lia.
    apply fit_mat_same; [len|].
    apply Forall_length_fmap2, Forall_length_zip_with2; [|by apply Hsl].
    apply Forall_length_zip_with2; [by apply Hsl|].
    apply Forall_length_fmap2. by apply Hsl. }
  rewrite update_extend_last. apply wp_ret. split; [done|].
  do 4 f_equal.
  change (Z.to_nat 0) with 0. change (Z.to_nat 1) with 1.
  change (fun t : R => (t / (dz * (dz * 1)))%R) with (fun t : R => (t / dz ^ 2)%R).
  rewrite second_difference_rows, !second_difference_row.
  unfold DD_rows. rewrite bool_decide_eq_false_2 by done.
  apply (periodic_diff2_assemble (zip_with3 (diff2 dz)) n rows); [done..|len].
Qed.

(* ================================================================== *)
(** ** The transport step *)

Lemma length_periodic_diff {X} `{!Inhabited X} (g : X -> X -> X) l :
  length (periodic_diff g l) = length l.
Proof. unfold periodic_diff. by rewrite length_fmap, length_seq. Qed.

Lemma length_periodic_diff2 {X} `{!Inhabited X} (g : X -> X -> X -> X) l :
  length (periodic_diff2 g l) = length l.
Proof. unfold periodic_diff2. by rewrite length_fmap, length_seq. Qed.

Lemma is_mat_D_rows dz axis n rows :
  length rows = n → Forall (fun r => length r = n) rows → 0 < n →
  is_mat n n (fun _ => True) (Arr2 n (D_rows dz axis rows)).
Proof.
  intros Hlen Hwf Hn. exists (D_rows dz axis rows). unfold D_rows.
  case_bool_decide.
  - split_and!; [done|len|].
    apply Forall_fmap. eapply Forall_impl; [exact Hwf|]. intros r Hr. simpl.
    split; [by rewrite length_periodic_diff|by apply Forall_true].
  - split_and!; [done|by rewrite length_periodic_diff|].
    unfold periodic_diff. apply Forall_fmap, Forall_true. intros j. simpl.
    split; [|by apply Forall_true].
    rewrite length_zip_with, !(length_lookup_total n)
      by (done || (rewrite Hlen; apply Nat.mod_upper_bound; lia)).
    lia.
Qed.

Lemma is_mat_DD_rows dz axis n rows :
  length rows = n → Forall (fun r => length r = n) rows → 0 < n →
  is_mat n n (fun _ => True) (Arr2 n (DD_rows dz axis rows)).
Proof.
  intros Hlen Hwf Hn. exists (DD_rows dz axis rows). unfold DD_rows.
  case_bool_decide.
  - split_and!; [done|len|].
    apply Forall_fmap. eapply Forall_impl; [exact Hwf|]. intros r Hr. simpl.
    split; [by rewrite length_periodic_diff2|by apply Forall_true].
  - split_and!; [done|by rewrite length_periodic_diff2|].
    unfold periodic_diff2. apply Forall_fmap, Forall_forall.
    intros j Hj%elem_of_seq. simpl.
    split; [|by apply Forall_true].
    unfold zip_with3. rewrite length_zip_with, length_zip_with.
    rewrite !(length_lookup_total n)
      by (done || lia || (rewrite Hlen; apply Nat.mod_upper_bound; lia)).
    lia.
Qed.

(** One explicit step of the advection-diffusion equation, on arrays of one
    shape: [C + dt * ( k*(Cxx+Cyy) - uX*Cx - uY*Cy )]. *)
Definition adv_diff_step (dt k : R) (c cx cy cxx cyy ux uy : arr R) : arr R :=
  amap2 Rplus c
    (amap (Rmult dt)
       (amap2 Rminus
          (amap2 Rminus (amap (Rmult k) (amap2 Rplus cxx cyy))
                        (amap2 Rmult ux cx))
          (amap2 Rmult uy cy))).

Lemma please_Update_Adv_Diff_Concentration_spec C dt dx dy uX uY k n c ux uy w :
  heap w !! C = Some (FloatArr (Arr2 n c)) →
  heap w !! uX = Some (FloatArr ux) → heap w !! uY = Some (FloatArr uy) →
  length c = n → Forall (fun r => length r = n) c → 2 ≤ n →
  is_mat n n (fun _ => True) ux → is_mat n n (fun _ => True) uy →
  please_Update_Adv_Diff_Concentration C dt dx dy uX uY k w
  = (Ret (length (heap w) + 4),
     extend w [FloatArr (Arr2 n (D_rows dx "x" c));
               FloatArr (Arr2 n (D_rows dy "y" c));
               FloatArr (Arr2 n (DD_rows dx "x" c));
               FloatArr (Arr2 n (DD_rows dy "y" c));
               FloatArr (adv_diff_step dt k (Arr2 n c)
                           (Arr2 n (D_rows dx "x" c)) (Arr2 n (D_rows dy "y" c))
                           (Arr2 n (DD_rows dx "x" c)) (Arr2 n (DD_rows dy "y" c))
                           ux uy)]).
Proof.
  intros HC HuX HuY Hlen Hwf Hn Hux Huy. apply wp_eq.
  unfold please_Update_Adv_Diff_Concentration.
  assert (Hc : is_mat n n (fun _ : R => True) (Arr2 n c)).
  { exists c. split_and!; [done..|]. eapply Forall_impl; [exact Hwf|].
    intros r Hr. split; [done|by apply Forall_true]. }
  pose proof (is_mat_D_rows dx "x" n c Hlen Hwf ltac:(lia)) as Hcx.
  pose proof (is_mat_D_rows dy "y" n c Hlen Hwf ltac:(lia)) as Hcy.
  pose proof (is_mat_DD_rows dx "x" n c Hlen Hwf ltac:(lia)) as Hcxx.
  pose proof (is_mat_DD_rows dy "y" n c Hlen Hwf ltac:(lia)) as Hcyy.
  set (cx := Arr2 n (D_rows dx "x" c)) in *.
  set (cy := Arr2 n (D_rows dy "y" c)) in *.
  set (cxx := Arr2 n (DD_rows dx "x" c)) in *.
  set (cyy := Arr2 n (DD_rows dy "y" c)) in *.
  apply wp_bind. eapply wp_intro; [by apply D_spec_x|].
  apply wp_bind. eapply wp_intro; [apply D_spec_y; [wp_lookup|done..]|]. wp_norm.
  apply wp_bind. eapply wp_intro; [apply DD_spec_x; [wp_lookup|done..]|]. wp_norm.
  apply wp_bind. eapply wp_intro; [apply DD_spec_y; [wp_lookup|done..]|]. wp_norm.
  fold cx cy cxx cyy.
  assert (Hz : ∀ (P Q : R -> Prop) f a b,
            is_mat n n P a → is_mat n n Q b →
            azip f a b = Some (amap2 f a b) ∧
            is_mat n n (fun _ : R => True) (amap2 f a b)).
  { intros P Q f a b Ha Hb. split.
    - apply azip_same_shape; [by eapply is_mat_wf..|].
      by rewrite (is_mat_shape _ _ _ _ Ha), (is_mat_shape _ _ _ _ Hb).
    - by eapply is_mat_amap2. }
  assert (Hm : ∀ (f : R -> R) a,
            is_mat n n (fun _ : R => True) a →
            is_mat n n (fun _ : R => True) (amap f a)).
  { intros f a Ha. by eapply is_mat_amap. }
  apply wp_bind. eapply wp_read; [wp_lookup|]. simpl as_float.
  apply wp_bind. eapply wp_read; [wp_lookup|]. simpl as_float.
  apply wp_bind. eapply wp_read; [wp_lookup|]. simpl as_float.
  destruct (Hz _ _ Rplus cxx cyy Hcxx Hcyy) as [E1 M1].
  apply wp_bind. eapply wp_np_binop; [exact E1|].
  apply wp_bind. eapply wp_read; [wp_lookup|]. simpl as_float.
  apply wp_bind. eapply wp_read; [wp_lookup|]. simpl as_float.
  destruct (Hz _ _ Rmult ux cx Hux Hcx) as [E2 M2].
  apply wp_bind. eapply wp_np_binop; [exact E2|].
  destruct (Hz _ _ Rminus _ _ (Hm (Rmult k) _ M1) M2) as [E3 M3].
  apply wp_bind. eapply wp_np_binop; [exact E3|].
  apply wp_bind. eapply wp_read; [wp_lookup|]. simpl as_float.
  apply wp_bind. eapply wp_read; [wp_lookup|]. simpl as_float.
  destruct (Hz _ _ Rmult uy cy Huy Hcy) as [E4 M4].
  apply wp_bind. eapply wp_np_binop; [exact E4|].
  destruct (Hz _ _ Rminus _ _ M3 M4) as [E5 M5].
  apply wp_bind. eapply wp_np_binop; [exact E5|].
  destruct (Hz _ _ Rplus _ _ Hc (Hm (Rmult dt) _ M5)) as [E6 M6].
  apply wp_bind. eapply wp_np_binop; [exact E6|].
  apply wp_bind, wp_alloc. wp_norm. apply wp_ret.
  split; [done|]. reflexivity.
Qed.

(** C9, as stated, fails on the smallest square field: for a [1 x 1]
    concentration the first statement of [D], which reads the column
    [u[:,1]], raises [IndexError], and so does the transport step. *)
Lemma please_Update_Adv_Diff_Concentration_1x1_raises :
  let w := World [FloatArr (Arr2 1 [[1]]%R); FloatArr (Arr2 1 [[0]]%R);
                  FloatArr (Arr2 1 [[0]]%R)] ∅ [] in
  (please_Update_Adv_Diff_Concentration 0 1 1 1 1 2 1 w).1 = Raise IndexError.
Proof.
  intros w. unfold please_Update_Adv_Diff_Concentration.
  erewrite bind_raise_eq; [reflexivity|]. unfold D.
  run_ret ltac:(eapply wp_read; [reflexivity|]).
  run_ret ltac:(eapply wp_alloc).
  reflexivity.
Qed.

(** C9, amended.  For a square concentration field [C] of side [n >= 2],
    velocity fields [uX] and [uY] of the same shape, positive [dt], [dx] and
    [dy], and any [k]: the calls [D(C,dx,'x')], [D(C,dy,'y')],
    [DD(C,dx,'x')] and [DD(C,dy,'y')] return new arrays [Cx], [Cy], [Cxx]
    and [Cyy], and [please_Update_Adv_Diff_Concentration] returns a new
    array that holds [C + dt*(k*(Cxx + Cyy) - uX*Cx - uY*Cy)], entry by
    entry.  Every array that exists at the call, the input [C] among them,
    is left as it was. *)
Theorem please_Update_Adv_Diff_Concentration_step
    (C : loc) (dt dx dy : R) (uX uY : loc) (k : R)
    (n : nat) (c : list (list R)) (ux uy : arr R) (w : world) :
  heap w !! C = Some (FloatArr (Arr2 n c)) →
  heap w !! uX = Some (FloatArr ux) → heap w !! uY = Some (FloatArr uy) →
  length c = n → Forall (fun r => length r = n) c → 2 ≤ n →
  is_mat n n (fun _ => True) ux → is_mat n n (fun _ => True) uy →
  (0 < dt)%R → (0 < dx)%R → (0 < dy)%R →
  ∃ Cx Cy Cxx Cyy : arr R,
    wp (D C dx "x") w (returns_new w (FloatArr Cx)) ∧
    wp (D C dy "y") w (returns_new w (FloatArr Cy)) ∧
    wp (DD C dx "x") w (returns_new w (FloatArr Cxx)) ∧
    wp (DD C dy "y") w (returns_new w (FloatArr Cyy)) ∧
    wp (please_Update_Adv_Diff_Concentration C dt dx dy uX uY k) w
       (fun C' w' =>
          returns_new w
            (FloatArr (adv_diff_step dt k (Arr2 n c) Cx Cy Cxx Cyy ux uy))
            C' w' ∧
          C' ≠ C ∧ heap w' !! C = Some (FloatArr (Arr2 n c))).
Proof.
  intros HC HuX HuY Hlen Hwf Hn Hux Huy _ _ _.
  exists (Arr2 n (D_rows dx "x" c)), (Arr2 n (D_rows dy "y" c)),
         (Arr2 n (DD_rows dx "x" c)), (Arr2 n (DD_rows dy "y" c)).
  assert (HCw : C < length (heap w)) by by eapply lookup_lt_Some.
  assert (Hnew : ∀ v, returns_new w v (length (heap w)) (extend w [v])).
  { intros v. pose proof (returns_new_extend w [v] 0 v eq_refl) as H.
    by rewrite Nat.add_0_r in H. }
  split_and!.
  - eapply wp_intro; [by apply D_spec_x|]. apply Hnew.
  - eapply wp_intro; [by apply D_spec_y|]. apply Hnew.
  - eapply wp_intro; [by apply DD_spec_x|]. apply Hnew.
  - eapply wp_intro; [by apply DD_spec_y|]. apply Hnew.
  - eapply wp_intro;
      [by eapply please_Update_Adv_Diff_Concentration_spec|].
    split_and!.
    + by apply returns_new_extend.
    + lia.
    + by apply lookup_extend_old.
Qed.

Lemma please_Update_Adv_Diff_Concentration_step_witness :
  let c := [[1; 2]; [3; 4]]%R in
  let u := Arr2 2 [[0; 0]; [0; 0]]%R in
  let w := World [FloatArr (Arr2 2 c); FloatArr u; FloatArr u] ∅ [] in
  ∃ Cx Cy Cxx Cyy : arr R,
    wp (D 0 1 "x") w (returns_new w (FloatArr Cx)) ∧
    wp (D 0 1 "y") w (returns_new w (FloatArr Cy)) ∧
    wp (DD 0 1 "x") w (returns_new w (FloatArr Cxx)) ∧
    wp (DD 0 1 "y") w (returns_new w (FloatArr Cyy)) ∧
    wp (please_Update_Adv_Diff_Concentration 0 1 1 1 1 2 1) w
       (fun C' w' =>
          returns_new w
            (FloatArr (adv_diff_step 1 1 (Arr2 2 c) Cx Cy Cxx Cyy u u))
            C' w' ∧
          C' ≠ 0 ∧ heap w' !! 0 = Some (FloatArr (Arr2 2 c))).
Proof.
  intros c u w.
  apply (please_Update_Adv_Diff_Concentration_step 0 1 1 1 1 2 1 2 c u u w).
  - reflexivity.
  - reflexivity.
  - reflexivity.
  - reflexivity.
  - repeat constructor.
  - lia.
  - exists [[0; 0]; [0; 0]]%R. split; [reflexivity|]. split; [reflexivity|].
    repeat constructor.
  - exists [[0; 0]; [0; 0]]%R. split; [reflexivity|]. split; [reflexivity|].
    repeat constructor.
  - lra.
  - lra.
  - lra.
Defined.

(* ================================================================== *)
(** * Further properties of the functions *)

(** ** What the helper functions leave alone *)

(** A computation that writes only to arrays it allocated itself leaves
    every array of the world it started in as it was. *)
Lemma frame_nothing_written {A} (m : M A) (Q : A -> Prop) (w : world) :
  frame (fun _ => False) w m Q →
  (∀ l a, heap w !! l = Some a → heap (m w).2 !! l = Some a) ∧
  (∀ a, (m w).1 = Ret a → Q a).
Proof.
  intros Hm. destruct (Hm w (keeps_start _ w)) as [(_ & _ & Hold) Hret].
  split; [|done]. intros l a. apply Hold. tauto.
Qed.

(** X1.  [give_Delta_Kernel] builds its result in the array [RMAT], which it
    allocates itself and updates in place under the second name [delta].
    For every argument, and whether the call returns or raises, every array
    that exists at the call is left as it was, the argument [x] among them;
    the array that is returned did not exist at the call. *)
Theorem give_Delta_Kernel_writes_only_its_own_array
    (x : loc) (dx : R) (w : world) :
  let r := give_Delta_Kernel x dx w in
  (∀ l a, heap w !! l = Some a → heap r.2 !! l = Some a) ∧
  (∀ delta, r.1 = Ret delta → heap w !! delta = None).
Proof.
  intros r.
  destruct (frame_nothing_written _ _ w
              (frame_give_Delta_Kernel (fun _ => False) w x dx)) as [Hold Hret].
  split; [done|]. intros delta Hr. by apply fresh_lookup_None, Hret.
Qed.

(** X2.  The helpers of the interpolation write no argument.
    [give_Eulerian_Lagrangian_Distance], [give_1D_NonZero_Delta_Indices],
    [give_NonZero_Delta_Indices_XY] and [give_Me_Perturbed_Distance] write
    only to arrays that they allocate themselves: for every argument, and
    whether the call returns or raises, every array that exists at the call
    is left as it was, and the arrays that are returned did not exist at
    the call. *)
Theorem interpolation_helpers_write_no_input
    (x y lagPts_j xLag yLag u v delta_X delta_Y xInds yInds : loc)
    (L dx dy : R) (N Nx Ny supp : Z) (w : world) :
  let r1 := give_Eulerian_Lagrangian_Distance x y L w in
  let r2 := give_1D_NonZero_Delta_Indices lagPts_j N dx supp w in
  let r3 := give_NonZero_Delta_Indices_XY xLag yLag Nx Ny dx dy supp w in
  let r4 := give_Me_Perturbed_Distance u v dx dy delta_X delta_Y xInds yInds w in
  (∀ l a, heap w !! l = Some a →
     heap r1.2 !! l = Some a ∧ heap r2.2 !! l = Some a ∧
     heap r3.2 !! l = Some a ∧ heap r4.2 !! l = Some a) ∧
  (∀ l, r1.1 = Ret l ∨ r2.1 = Ret l → heap w !! l = None) ∧
  (∀ l l', r3.1 = Ret (l, l') ∨ r4.1 = Ret (l, l') →
     heap w !! l = None ∧ heap w !! l' = None).
Proof.
  intros r1 r2 r3 r4.
  destruct (frame_nothing_written _ _ w
              (frame_give_Eulerian_Lagrangian_Distance (fun _ => False) w x y L))
    as [Hold1 Hret1].
  destruct (frame_nothing_written _ _ w
              (frame_give_1D_NonZero_Delta_Indices
                 (fun _ => False) w lagPts_j N dx supp)) as [Hold2 Hret2].
  destruct (frame_nothing_written _ _ w
              (frame_give_NonZero_Delta_Indices_XY
                 (fun _ => False) w xLag yLag Nx Ny dx dy supp))
    as [Hold3 Hret3].
  destruct (frame_nothing_written _ _ w
              (frame_give_Me_Perturbed_Distance
                 (fun _ => False) w u v dx dy delta_X delta_Y xInds yInds))
    as [Hold4 Hret4].
  split_and!.
  - intros l a Hl. split_and!; auto.
  - intros l [H|H]; apply fresh_lookup_None; auto.
  - intros l l' [H|H].
    + destruct (Hret3 _ H). split; by apply fresh_lookup_None.
    + destruct (Hret4 _ H). split; by apply fresh_lookup_None.
Qed.

(* ================================================================== *)
(** ** More on the delta kernel *)

(** The entry of an array of rows, for indices within the array. *)
Definition entry (rows : list (list R)) (i j : nat) : R := (rows !!! i) !!! j.

Lemma entry_fmap (f : R -> R) rows i j row t :
  rows !! i = Some row → row !! j = Some t →
  entry (fmap (M:=list) f <$> rows) i j = f t.
Proof.
  intros Hi Hj. unfold entry.
  erewrite (list_lookup_total_correct (fmap f <$> rows) i);
    [|by rewrite list_lookup_fmap, Hi].
  apply list_lookup_total_correct. by rewrite list_lookup_fmap, Hj.
Qed.

(** X3.  For every two-dimensional float array [x] and every [dx > 0],
    [give_Delta_Kernel] returns a new array of the shape of [x]; with
    [r = |x[i,j]|/dx], its entry [[i,j]] is
    [(3 - 2r + sqrt(1 + 4r - 4r^2)) / (8 dx)] for [r < 1] and
    [(5 - 2r - sqrt(-7 + 12r - 4r^2)) / (8 dx)] for [1 <= r < 2]; for
    [r >= 2] the entry is [r].  The call returns for every such array:
    [math.sqrt] is never given a negative number. *)
Theorem give_Delta_Kernel_values
    (x : loc) (dx : R) (c : nat) (rows : list (list R)) (w : world) :
  heap w !! x = Some (FloatArr (Arr2 c rows)) →
  Forall (fun row => length row = c) rows → (0 < dx)%R →
  ∃ delta w' rows',
    give_Delta_Kernel x dx w = (Ret delta, w') ∧
    returns_new w (FloatArr (Arr2 c rows')) delta w' ∧
    length rows' = length rows ∧
    Forall (fun row => length row = c) rows' ∧
    ∀ i j row t, rows !! i = Some row → row !! j = Some t →
      let r := (Rabs t / dx)%R in
      ((r < 1)%R →
         entry rows' i j
         = ((3 - 2 * r + sqrt (1 + 4 * r - 4 * r * r)) / (8 * dx))%R) ∧
      ((1 <= r < 2)%R →
         entry rows' i j
         = ((5 - 2 * r - sqrt (-7 + 12 * r - 4 * r * r)) / (8 * dx))%R) ∧
      ((2 <= r)%R → entry rows' i j = r).
Proof.
  intros Hx Hwf Hdx.
  destruct (wp_elim _ _ _ (give_Delta_Kernel_spec x dx c rows w Hx Hwf Hdx))
    as (delta & w' & Hrun & Hnew).
  eexists delta, w', _. split_and!; [done|exact Hnew|..].
  - by rewrite length_fmap.
  - apply Forall_fmap. eapply Forall_impl; [exact Hwf|].
    intros row Hrow. simpl. by rewrite length_fmap.
  - intros i j row t Hi Hj r.
    rewrite (entry_fmap _ rows i j row t) by done. fold r.
    split_and!.
    + apply delta_entry_inner.
    + apply delta_entry_outer.
    + apply delta_entry_outside.
Qed.

Lemma give_Delta_Kernel_values_witness :
  let rows := [[0; 3 / 2]%R] in
  let w := World [FloatArr (Arr2 2 rows)] ∅ [] in
  ∃ delta w' rows',
    give_Delta_Kernel 0 1 w = (Ret delta, w') ∧
    returns_new w (FloatArr (Arr2 2 rows')) delta w' ∧
    length rows' = length rows ∧
    Forall (fun row => length row = 2) rows' ∧
    ∀ i j row t, rows !! i = Some row → row !! j = Some t →
      let r := (Rabs t / 1)%R in
      ((r < 1)%R →
         entry rows' i j
         = ((3 - 2 * r + sqrt (1 + 4 * r - 4 * r * r)) / (8 * 1))%R) ∧
      ((1 <= r < 2)%R →
         entry rows' i j
         = ((5 - 2 * r - sqrt (-7 + 12 * r - 4 * r * r)) / (8 * 1))%R) ∧
      ((2 <= r)%R → entry rows' i j = r).
Proof.
  intros rows w.
  apply (give_Delta_Kernel_values 0 1 2 rows w).
  - reflexivity.
  - repeat constructor.
  - lra.
Defined.

(** The four weights of a point at the offset [f] (in cells) from the grid
    node to its left: they sum to [1/dx], and their first moment about the
    point vanishes. *)
Lemma delta_entry_moments dx f :
  (0 < dx)%R → (0 < f < 1)%R →
  let a := delta_entry dx (1 + f) in
  let b := delta_entry dx f in
  let c := delta_entry dx (1 - f) in
  let d := delta_entry dx (2 - f) in
  (a + b + c + d = 1 / dx)%R ∧
  (- (1 + f) * a - f * b + (1 - f) * c + (2 - f) * d = 0)%R.
Proof.
  intros Hdx Hf a b c d. unfold a, b, c, d.
  rewrite (delta_entry_outer dx (1 + f)), (delta_entry_inner dx f),
    (delta_entry_inner dx (1 - f)), (delta_entry_outer dx (2 - f)) by lra.
  replace (-7 + 12 * (1 + f) - 4 * (1 + f) * (1 + f))%R
    with (1 + 4 * f - 4 * f * f)%R by ring.
  replace (1 + 4 * (1 - f) - 4 * (1 - f) * (1 - f))%R
    with (1 + 4 * f - 4 * f * f)%R by ring.
  replace (-7 + 12 * (2 - f) - 4 * (2 - f) * (2 - f))%R
    with (1 + 4 * f - 4 * f * f)%R by ring.
  generalize (sqrt (1 + 4 * f - 4 * f * f)). intros s.
  split; field; lra.
Qed.

(** X4.  The kernel at the four grid nodes around a point.  For [dx > 0]
    and points at the distances [0 < d < dx] to the right of a grid node,
    the displacements to the nodes [m-1], [m], [m+1], [m+2] are
    [-(dx + d)], [-d], [dx - d], [2 dx - d].  On an array with one such row
    for every point, [give_Delta_Kernel] returns weights that sum to
    [1/dx] along every row (the discrete delta function integrates to 1),
    and the sum of weight times displacement along every row is [0]. *)
Theorem give_Delta_Kernel_moments
    (x : loc) (dx : R) (ds : list R) (w : world) :
  (0 < dx)%R → Forall (fun d => 0 < d < dx)%R ds →
  let offsets d := [- (dx + d); - d; dx - d; 2 * dx - d]%R in
  heap w !! x = Some (FloatArr (Arr2 4 (offsets <$> ds))) →
  ∃ delta w' rows',
    give_Delta_Kernel x dx w = (Ret delta, w') ∧
    returns_new w (FloatArr (Arr2 4 rows')) delta w' ∧
    Forall2 (fun d row =>
               (foldr Rplus 0 row = 1 / dx)%R ∧
               (foldr Rplus 0 (zip_with Rmult (offsets d) row) = 0)%R)
            ds rows'.
Proof.
  intros Hdx Hds offsets Hx.
  assert (Hwf : Forall (fun row => length row = 4) (offsets <$> ds)).
  { apply Forall_fmap, Forall_true. done. }
  destruct (wp_elim _ _ _
              (give_Delta_Kernel_spec x dx 4 (offsets <$> ds) w Hx Hwf Hdx))
    as (delta & w' & Hrun & Hnew).
  eexists delta, w', _. split_and!; [done|exact Hnew|].
  rewrite <-list_fmap_compose. apply Forall2_fmap_r, Forall_Forall2_diag.
  eapply Forall_impl; [exact Hds|]. intros d Hd. cbv beta in Hd.
  set (f := (d / dx)%R).
  assert (Hf : (0 < f < 1)%R).
  { unfold f. split.
    - apply Rdiv_lt_0_compat; lra.
    - apply Rmult_lt_reg_r with dx; [done|].
      unfold Rdiv. rewrite Rmult_assoc, Rinv_l by lra. lra. }
  assert (Hd' : d = (f * dx)%R) by (unfold f; field; lra).
  assert (E1 : (Rabs (- (dx + d)) / dx = 1 + f)%R).
  { rewrite Rabs_Ropp, Rabs_right by lra. unfold f. field. lra. }
  assert (E2 : (Rabs (- d) / dx = f)%R).
  { rewrite Rabs_Ropp, Rabs_right by lra. done. }
  assert (E3 : (Rabs (dx - d) / dx = 1 - f)%R).
  { rewrite Rabs_right by lra. unfold f. field. lra. }
  assert (E4 : (Rabs (2 * dx - d) / dx = 2 - f)%R).
  { rewrite Rabs_right by lra. unfold f. field. lra. }
  unfold compose, offsets. cbn [fmap list_fmap zip_with foldr].
  rewrite E1, E2, E3, E4.
  destruct (delta_entry_moments dx f Hdx Hf) as [H0 H1].
  cbv zeta in H0, H1. split; [lra|].
  rewrite Hd' at 1 2 3 4.
  transitivity (dx * (- (1 + f) * delta_entry dx (1 + f) - f * delta_entry dx f
                      + (1 - f) * delta_entry dx (1 - f)
                      + (2 - f) * delta_entry dx (2 - f)))%R; [ring|].
  rewrite H1. ring.
Qed.

Lemma give_Delta_Kernel_moments_witness :
  let offsets d := [- (1 + d); - d; 1 - d; 2 * 1 - d]%R in
  let ds := [(1 / 2)%R] in
  let w := World [FloatArr (Arr2 4 (offsets <$> ds))] ∅ [] in
  ∃ delta w' rows',
    give_Delta_Kernel 0 1 w = (Ret delta, w') ∧
    returns_new w (FloatArr (Arr2 4 rows')) delta w' ∧
    Forall2 (fun d row =>
               (foldr Rplus 0 row = 1 / 1)%R ∧
               (foldr Rplus 0 (zip_with Rmult (offsets d) row) = 0)%R)
            ds rows'.
Proof.
  intros offsets ds w.
  apply (give_Delta_Kernel_moments 0 1 ds w).
  - lra.
  - constructor; [lra|constructor].
  - reflexivity.
Defined.

(** X5.  The kernel is even: on an array and on its negation, entry by
    entry, [give_Delta_Kernel] returns the same values. *)
Theorem give_Delta_Kernel_even
    (x x' : loc) (dx : R) (c : nat) (rows : list (list R)) (w : world) :
  heap w !! x = Some (FloatArr (Arr2 c rows)) →
  heap w !! x' = Some (FloatArr (amap Ropp (Arr2 c rows))) →
  Forall (fun row => length row = c) rows → (0 < dx)%R →
  ∃ d : ndarray,
    wp (give_Delta_Kernel x dx) w (returns_new w d) ∧
    wp (give_Delta_Kernel x' dx) w (returns_new w d).
Proof.
  intros Hx Hx' Hwf Hdx.
  eexists. split.
  - by apply give_Delta_Kernel_spec.
  - eapply wp_mono.
    + eapply give_Delta_Kernel_spec; [exact Hx'| |done].
      simpl. apply Forall_fmap. eapply Forall_impl; [exact Hwf|].
      intros row Hrow. simpl. by rewrite length_fmap.
    + intros l w' Hnew.
      replace (amap (fun t => delta_entry dx (Rabs t / dx)) (Arr2 c rows))
        with (amap (fun t => delta_entry dx (Rabs t / dx))
                (Arr2 c (fmap (M:=list) Ropp <$> rows))); [done|].
      simpl. f_equal. rewrite <-list_fmap_compose. apply list_fmap_ext.
      intros _ row _. simpl. rewrite <-list_fmap_compose.
      apply list_fmap_ext. intros _ t _. simpl. by rewrite Rabs_Ropp.
Qed.

Lemma give_Delta_Kernel_even_witness :
  let rows := [[1 / 2; -3]%R] in
  let w := World [FloatArr (Arr2 2 rows);
                  FloatArr (amap Ropp (Arr2 2 rows))] ∅ [] in
  ∃ d : ndarray,
    wp (give_Delta_Kernel 0 1) w (returns_new w d) ∧
    wp (give_Delta_Kernel 1 1) w (returns_new w d).
Proof.
  intros rows w.
  apply (give_Delta_Kernel_even 0 1 1 2 rows w).
  - reflexivity.
  - reflexivity.
  - repeat constructor.
  - lra.
Defined.

(* ================================================================== *)
(** ** More on the derivative operators *)

Lemma periodic_diff_lookup {X} `{!Inhabited X} (g : X -> X -> X) l j :
  j < length l →
  periodic_diff g l !!! j
  = g (l !!! ((j + 1) `mod` length l)) (l !!! ((j + length l - 1) `mod` length l)).
Proof.
  intros Hj. apply list_lookup_total_correct. unfold periodic_diff.
  rewrite list_lookup_fmap, lookup_seq_lt by done. done.
Qed.

Lemma periodic_diff2_lookup {X} `{!Inhabited X} (g : X -> X -> X -> X) l j :
  j < length l →
  periodic_diff2 g l !!! j
  = g (l !!! ((j + 1) `mod` length l)) (l !!! j)
      (l !!! ((j + length l - 1) `mod` length l)).
Proof.
  intros Hj. apply list_lookup_total_correct. unfold periodic_diff2.
  rewrite list_lookup_fmap, lookup_seq_lt by done. done.
Qed.

Lemma lookup_total_zip_with_R (f : R -> R -> R) (a b : list R) j :
  j < length a → j < length b →
  zip_with f a b !!! j = f (a !!! j) (b !!! j).
Proof.
  intros Ha Hb. apply list_lookup_total_correct.
  rewrite lookup_zip_with.
  rewrite (list_lookup_lookup_total_lt a j), (list_lookup_lookup_total_lt b j)
    by done.
  done.
Qed.

Lemma lookup_total_zip_with3 (f : R -> R -> R -> R) (a b c : list R) j :
  j < length a → j < length b → j < length c →
  zip_with3 f a b c !!! j = f (a !!! j) (b !!! j) (c !!! j).
Proof.
  intros Ha Hb Hc. apply list_lookup_total_correct. unfold zip_with3.
  rewrite !lookup_zip_with.
  rewrite (list_lookup_lookup_total_lt a j), (list_lookup_lookup_total_lt b j),
    (list_lookup_lookup_total_lt c j) by done.
  done.
Qed.

Section square.
Variable n : nat.
Variable rows : list (list R).
Hypothesis Hlen : length rows = n.
Hypothesis Hwf : Forall (fun r => length r = n) rows.

Lemma length_row i : i < n → length (rows !!! i) = n.
Proof using Hlen Hwf. intros Hi. apply length_lookup_total; [done|lia]. Qed.

Lemma D_rows_x_entry dz i j :
  i < n → j < n →
  entry (D_rows dz "x" rows) i j
  = ((entry rows i ((j + 1) `mod` n) - entry rows i ((j + n - 1) `mod` n))
     / (2 * dz))%R.
Proof using Hlen Hwf.
  intros Hi Hj. unfold entry, D_rows. rewrite bool_decide_eq_true_2 by done.
  rewrite (list_lookup_total_fmap (periodic_diff (diff1 dz)) rows i) by lia.
  rewrite periodic_diff_lookup by (rewrite length_row; lia).
  by rewrite length_row.
Qed.

Lemma D_rows_y_entry dz i j :
  i < n → j < n →
  entry (D_rows dz "y" rows) i j
  = ((entry rows ((i + 1) `mod` n) j - entry rows ((i + n - 1) `mod` n) j)
     / (2 * dz))%R.
Proof using Hlen Hwf.
  intros Hi Hj. unfold entry, D_rows. rewrite bool_decide_eq_false_2 by done.
  rewrite periodic_diff_lookup by lia. rewrite Hlen.
  assert (H1 : (i + 1) `mod` n < n) by (apply Nat.mod_upper_bound; lia).
  assert (H2 : (i + n - 1) `mod` n < n) by (apply Nat.mod_upper_bound; lia).
  rewrite lookup_total_zip_with_R by (rewrite length_row; lia). done.
Qed.

Lemma DD_rows_x_entry dz i j :
  i < n → j < n →
  entry (DD_rows dz "x" rows) i j
  = ((entry rows i ((j + 1) `mod` n) - 2 * entry rows i j
      + entry rows i ((j + n - 1) `mod` n)) / dz ^ 2)%R.
Proof using Hlen Hwf.
  intros Hi Hj. unfold entry, DD_rows. rewrite bool_decide_eq_true_2 by done.
  rewrite (list_lookup_total_fmap (periodic_diff2 (diff2 dz)) rows i) by lia.
  rewrite periodic_diff2_lookup by (rewrite length_row; lia).
  by rewrite length_row.
Qed.

Lemma DD_rows_y_entry dz i j :
  i < n → j < n →
  entry (DD_rows dz "y" rows) i j
  = ((entry rows ((i + 1) `mod` n) j - 2 * entry rows i j
      + entry rows ((i + n - 1) `mod` n) j) / dz ^ 2)%R.
Proof using Hlen Hwf.
  intros Hi Hj. unfold entry, DD_rows. rewrite bool_decide_eq_false_2 by done.
  rewrite periodic_diff2_lookup by lia. rewrite Hlen.
  assert (H1 : (i + 1) `mod` n < n) by (apply Nat.mod_upper_bound; lia).
  assert (H2 : (i + n - 1) `mod` n < n) by (apply Nat.mod_upper_bound; lia).
  rewrite lookup_total_zip_with3 by (rewrite length_row; lia). done.
Qed.
End square.

Lemma is_mat_rows {A} r c (P : A -> Prop) rows :
  is_mat r c P (Arr2 c rows) →
  length rows = r ∧ Forall (fun row => length row = c) rows.
Proof.
  intros (rows' & [= <-] & Hr & Hrows). split; [done|].
  eapply Forall_impl; [done|]. by intros ? [? _].
Qed.

(** X6.  [D] on a square field of side [n >= 2]: for the axis ['x'] the
    new array holds [(u[i,j+1] - u[i,j-1]) / (2 dz)] and for the axis ['y']
    it holds [(u[i+1,j] - u[i-1,j]) / (2 dz)], with the indices taken
    modulo [n]: the centred difference of a periodic field, at the ends as
    in the interior ([dz <> 0]).  The field itself is left as it was. *)
Theorem D_centred_periodic_difference
    (u : loc) (dz : R) (n : nat) (rows : list (list R)) (w : world) :
  heap w !! u = Some (FloatArr (Arr2 n rows)) →
  length rows = n → Forall (fun r => length r = n) rows → 2 ≤ n →
  dz ≠ 0%R →
  ∃ ux uy : list (list R),
    wp (D u dz "x") w (returns_new w (FloatArr (Arr2 n ux))) ∧
    wp (D u dz "y") w (returns_new w (FloatArr (Arr2 n uy))) ∧
    length ux = n ∧ Forall (fun r => length r = n) ux ∧
    length uy = n ∧ Forall (fun r => length r = n) uy ∧
    ∀ i j, i < n → j < n →
      entry ux i j
      = ((entry rows i ((j + 1) `mod` n) - entry rows i ((j + n - 1) `mod` n))
         / (2 * dz))%R ∧
      entry uy i j
      = ((entry rows ((i + 1) `mod` n) j - entry rows ((i + n - 1) `mod` n) j)
         / (2 * dz))%R.
Proof.
  intros Hu Hlen Hwf Hn _.
  destruct (is_mat_rows _ _ _ _ (is_mat_D_rows dz "x" n rows Hlen Hwf ltac:(lia)))
    as [Hlx Hwx].
  destruct (is_mat_rows _ _ _ _ (is_mat_D_rows dz "y" n rows Hlen Hwf ltac:(lia)))
    as [Hly Hwy].
  exists (D_rows dz "x" rows), (D_rows dz "y" rows).
  split_and!; try done.
  - eapply wp_intro; [by apply D_spec_x|].
    rewrite <-(Nat.add_0_r (length (heap w))). by apply returns_new_extend.
  - eapply wp_intro; [by apply D_spec_y|].
    rewrite <-(Nat.add_0_r (length (heap w))). by apply returns_new_extend.
  - intros i j Hi Hj. split.
    + by apply D_rows_x_entry.
    + by apply D_rows_y_entry.
Qed.

Lemma D_centred_periodic_difference_witness :
  let rows := [[1; 2]; [3; 4]]%R in
  let w := World [FloatArr (Arr2 2 rows)] ∅ [] in
  ∃ ux uy : list (list R),
    wp (D 0 1 "x") w (returns_new w (FloatArr (Arr2 2 ux))) ∧
    wp (D 0 1 "y") w (returns_new w (FloatArr (Arr2 2 uy))) ∧
    length ux = 2 ∧ Forall (fun r => length r = 2) ux ∧
    length uy = 2 ∧ Forall (fun r => length r = 2) uy ∧
    ∀ i j, i < 2 → j < 2 →
      entry ux i j
      = ((entry rows i ((j + 1) `mod` 2) - entry rows i ((j + 2 - 1) `mod` 2))
         / (2 * 1))%R ∧
      entry uy i j
      = ((entry rows ((i + 1) `mod` 2) j - entry rows ((i + 2 - 1) `mod` 2) j)
         / (2 * 1))%R.
Proof.
  intros rows w.
  apply (D_centred_periodic_difference 0 1 2 rows w).
  - reflexivity.
  - reflexivity.
  - repeat constructor.
  - lia.
  - lra.
Defined.

(** X7.  [DD] on a square field of side [n >= 2]: for the axis ['x'] the
    new array holds [(u[i,j+1] - 2 u[i,j] + u[i,j-1]) / dz^2] and for the
    axis ['y'] it holds [(u[i+1,j] - 2 u[i,j] + u[i-1,j]) / dz^2], with the
    indices taken modulo [n] ([dz <> 0]).  The field itself is left as it
    was. *)
Theorem DD_centred_periodic_difference
    (u : loc) (dz : R) (n : nat) (rows : list (list R)) (w : world) :
  heap w !! u = Some (FloatArr (Arr2 n rows)) →
  length rows = n → Forall (fun r => length r = n) rows → 2 ≤ n →
  dz ≠ 0%R →
  ∃ uxx uyy : list (list R),
    wp (DD u dz "x") w (returns_new w (FloatArr (Arr2 n uxx))) ∧
    wp (DD u dz "y") w (returns_new w (FloatArr (Arr2 n uyy))) ∧
    length uxx = n ∧ Forall (fun r => length r = n) uxx ∧
    length uyy = n ∧ Forall (fun r => length r = n) uyy ∧
    ∀ i j, i < n → j < n →
      entry uxx i j
      = ((entry rows i ((j + 1) `mod` n) - 2 * entry rows i j
          + entry rows i ((j + n - 1) `mod` n)) / dz ^ 2)%R ∧
      entry uyy i j
      = ((entry rows ((i + 1) `mod` n) j - 2 * entry rows i j
          + entry rows ((i + n - 1) `mod` n) j) / dz ^ 2)%R.
Proof.
  intros Hu Hlen Hwf Hn _.
  destruct (is_mat_rows _ _ _ _ (is_mat_DD_rows dz "x" n rows Hlen Hwf ltac:(lia)))
    as [Hlx Hwx].
  destruct (is_mat_rows _ _ _ _ (is_mat_DD_rows dz "y" n rows Hlen Hwf ltac:(lia)))
    as [Hly Hwy].
  exists (DD_rows dz "x" rows), (DD_rows dz "y" rows).
  split_and!; try done.
  - eapply wp_intro; [by apply DD_spec_x|].
    rewrite <-(Nat.add_0_r (length (heap w))). by apply returns_new_extend.
  - eapply wp_intro; [by apply DD_spec_y|].
    rewrite <-(Nat.add_0_r (length (heap w))). by apply returns_new_extend.
  - intros i j Hi Hj. split.
    + by apply DD_rows_x_entry.
    + by apply DD_rows_y_entry.
Qed.

Lemma DD_centred_periodic_difference_witness :
  let rows := [[1; 2]; [3; 4]]%R in
  let w := World [FloatArr (Arr2 2 rows)] ∅ [] in
  ∃ uxx uyy : list (list R),
    wp (DD 0 1 "x") w (returns_new w (FloatArr (Arr2 2 uxx))) ∧
    wp (DD 0 1 "y") w (returns_new w (FloatArr (Arr2 2 uyy))) ∧
    length uxx = 2 ∧ Forall (fun r => length r = 2) uxx ∧
    length uyy = 2 ∧ Forall (fun r => length r = 2) uyy ∧
    ∀ i j, i < 2 → j < 2 →
      entry uxx i j
      = ((entry rows i ((j + 1) `mod` 2) - 2 * entry rows i j
          + entry rows i ((j + 2 - 1) `mod` 2)) / 1 ^ 2)%R ∧
      entry uyy i j
      = ((entry rows ((i + 1) `mod` 2) j - 2 * entry rows i j
          + entry rows ((i + 2 - 1) `mod` 2) j) / 1 ^ 2)%R.
Proof.
  intros rows w.
  apply (DD_centred_periodic_difference 0 1 2 rows w).
  - reflexivity.
  - reflexivity.
  - repeat constructor.
  - lia.
  - lra.
Defined.

(** Two arrays of rows of one shape with the same entries are equal. *)
Lemma rows_ext n m (a b : list (list R)) :
  length a = n → length b = n →
  Forall (fun r => length r = m) a → Forall (fun r => length r = m) b →
  (∀ i j, i < n → j < m → entry a i j = entry b i j) → a = b.
Proof.
  intros Ha Hb Hwa Hwb Hent. apply list_eq_same_length with n; [done..|].
  intros i ra rb Hi Hra Hrb.
  pose proof (Forall_lookup_1 _ _ _ _ Hwa Hra) as Hla.
  pose proof (Forall_lookup_1 _ _ _ _ Hwb Hrb) as Hlb.
  cbv beta in Hla, Hlb.
  apply list_eq_same_length with m; [done..|].
  intros j x y Hj Hx Hy. specialize (Hent i j Hi Hj). unfold entry in Hent.
  rewrite (list_lookup_total_correct a i ra), (list_lookup_total_correct b i rb)
    in Hent by done.
  by rewrite (list_lookup_total_correct ra j x), (list_lookup_total_correct rb j y)
    in Hent by done.
Qed.

Lemma entry_replicate n m (c : R) i j :
  i < n → j < m → entry (replicate n (replicate m c)) i j = c.
Proof.
  intros Hi Hj. unfold entry. by rewrite !lookup_total_replicate_2.
Qed.

Lemma Forall_length_replicate n m (c : R) :
  Forall (fun r => length r = m) (replicate n (replicate m c)).
Proof. apply Forall_replicate, length_replicate. Qed.

Lemma D_rows_constant dz axis n c :
  0 < n → axis = "x" ∨ axis = "y" →
  D_rows dz axis (replicate n (replicate n c)) = replicate n (replicate n 0%R).
Proof.
  intros Hn Haxis.
  pose proof (length_replicate n (replicate n c)) as Hlen.
  pose proof (Forall_length_replicate n n c) as Hwf.
  destruct (is_mat_rows _ _ _ _ (is_mat_D_rows dz axis n _ Hlen Hwf Hn))
    as [Hl Hw].
  apply (rows_ext n n); [done|apply length_replicate|done
                        |apply Forall_length_replicate|].
  intros i j Hi Hj.
  assert (H1 : (i + 1) `mod` n < n) by (apply Nat.mod_upper_bound; lia).
  assert (H2 : (i + n - 1) `mod` n < n) by (apply Nat.mod_upper_bound; lia).
  assert (H3 : (j + 1) `mod` n < n) by (apply Nat.mod_upper_bound; lia).
  assert (H4 : (j + n - 1) `mod` n < n) by (apply Nat.mod_upper_bound; lia).
  destruct Haxis as [-> | ->].
  - rewrite (D_rows_x_entry n) by done. rewrite !entry_replicate by done.
    unfold Rdiv. ring.
  - rewrite (D_rows_y_entry n) by done. rewrite !entry_replicate by done.
    unfold Rdiv. ring.
Qed.

Lemma DD_rows_constant dz axis n c :
  0 < n → axis = "x" ∨ axis = "y" →
  DD_rows dz axis (replicate n (replicate n c)) = replicate n (replicate n 0%R).
Proof.
  intros Hn Haxis.
  pose proof (length_replicate n (replicate n c)) as Hlen.
  pose proof (Forall_length_replicate n n c) as Hwf.
  destruct (is_mat_rows _ _ _ _ (is_mat_DD_rows dz axis n _ Hlen Hwf Hn))
    as [Hl Hw].
  apply (rows_ext n n); [done|apply length_replicate|done
                        |apply Forall_length_replicate|].
  intros i j Hi Hj.
  assert (H1 : (i + 1) `mod` n < n) by (apply Nat.mod_upper_bound; lia).
  assert (H2 : (i + n - 1) `mod` n < n) by (apply Nat.mod_upper_bound; lia).
  assert (H3 : (j + 1) `mod` n < n) by (apply Nat.mod_upper_bound; lia).
  assert (H4 : (j + n - 1) `mod` n < n) by (apply Nat.mod_upper_bound; lia).
  destruct Haxis as [-> | ->].
  - rewrite (DD_rows_x_entry n) by done. rewrite !entry_replicate by done.
    unfold Rdiv. ring.
  - rewrite (DD_rows_y_entry n) by done. rewrite !entry_replicate by done.
    unfold Rdiv. ring.
Qed.

Lemma D_spec u dz axis n rows w :
  heap w !! u = Some (FloatArr (Arr2 n rows)) →
  length rows = n → Forall (fun r => length r = n) rows → 2 ≤ n →
  axis = "x" ∨ axis = "y" →
  wp (D u dz axis) w (returns_new w (FloatArr (Arr2 n (D_rows dz axis rows)))).
Proof.
  intros Hu Hlen Hwf Hn [-> | ->].
  - eapply wp_intro; [by apply D_spec_x|].
    rewrite <-(Nat.add_0_r (length (heap w))). by apply returns_new_extend.
  - eapply wp_intro; [by apply D_spec_y|].
    rewrite <-(Nat.add_0_r (length (heap w))). by apply returns_new_extend.
Qed.

Lemma DD_spec u dz axis n rows w :
  heap w !! u = Some (FloatArr (Arr2 n rows)) →
  length rows = n → Forall (fun r => length r = n) rows → 2 ≤ n →
  axis = "x" ∨ axis = "y" →
  wp (DD u dz axis) w (returns_new w (FloatArr (Arr2 n (DD_rows dz axis rows)))).
Proof.
  intros Hu Hlen Hwf Hn [-> | ->].
  - eapply wp_intro; [by apply DD_spec_x|].
    rewrite <-(Nat.add_0_r (length (heap w))). by apply returns_new_extend.
  - eapply wp_intro; [by apply DD_spec_y|].
    rewrite <-(Nat.add_0_r (length (heap w))). by apply returns_new_extend.
Qed.

(** X8.  The derivatives of a constant field vanish: on a square field of
    side [n >= 2] that holds the same value everywhere, [D] and [DD] return
    a new array of zeros, for both axes and every spacing [dz <> 0]. *)
Theorem D_DD_constant_field
    (u : loc) (dz c : R) (axis : string) (n : nat) (w : world) :
  heap w !! u = Some (FloatArr (Arr2 n (replicate n (replicate n c)))) →
  2 ≤ n → dz ≠ 0%R → axis = "x" ∨ axis = "y" →
  wp (D u dz axis) w (returns_new w (np_zeros n n)) ∧
  wp (DD u dz axis) w (returns_new w (np_zeros n n)).
Proof.
  intros Hu Hn _ Haxis. unfold np_zeros.
  rewrite <-(D_rows_constant dz axis n c) at 1 by (done || lia).
  rewrite <-(DD_rows_constant dz axis n c) by (done || lia).
  split.
  - apply D_spec; [done|apply length_replicate|apply Forall_length_replicate
                  |done..].
  - apply DD_spec; [done|apply length_replicate|apply Forall_length_replicate
                   |done..].
Qed.

Lemma D_DD_constant_field_witness :
  let w := World [FloatArr (Arr2 2 (replicate 2 (replicate 2 7%R)))] ∅ [] in
  wp (D 0 (1 / 2) "y" ) w (returns_new w (np_zeros 2 2)) ∧
  wp (DD 0 (1 / 2) "y") w (returns_new w (np_zeros 2 2)).
Proof.
  intros w.
  apply (D_DD_constant_field 0 (1 / 2) 7 "y" 2 w).
  - reflexivity.
  - lia.
  - lra.
  - by right.
Defined.

Lemma column_raises l j c rows w :
  heap w !! l = Some (FloatArr (Arr2 c rows)) → pyidx c j = None →
  column l j w = (Raise IndexError, w).
Proof.
  intros Hl Hj. unfold column, read, bind, load. rewrite Hl. simpl.
  by rewrite Hj.
Qed.

Lemma row_of_raises l i c rows w :
  heap w !! l = Some (FloatArr (Arr2 c rows)) → pyidx (length rows) i = None →
  row_of l i w = (Raise IndexError, w).
Proof.
  intros Hl Hi. unfold row_of, read, bind, load. rewrite Hl. simpl.
  by rewrite Hi.
Qed.

Lemma pyidx_1_None n : n ≤ 1 → pyidx n 1 = None.
Proof. intros Hn. unfold pyidx. by rewrite !decide_False by lia. Qed.

(** X9.  The stencil needs two columns, or two rows.  On a field with at
    most one column, a [1 x 1] field among them, [D] and [DD] with the axis
    ['x'] raise [IndexError] at their first statement, the read of
    [u[:,1]]; with at most one row they raise [IndexError] for the axis
    ['y'], at the read of [u[1,:]].  By then the array of zeros has been
    allocated; nothing else has happened. *)
Theorem D_DD_raise_on_thin_field
    (u : loc) (dz : R) (c : nat) (rows : list (list R)) (w : world) :
  heap w !! u = Some (FloatArr (Arr2 c rows)) →
  let w' := extend w [np_zeros (length rows) (length rows)] in
  (c ≤ 1 →
     D u dz "x" w = (Raise IndexError, w') ∧
     DD u dz "x" w = (Raise IndexError, w')) ∧
  (length rows ≤ 1 →
     D u dz "y" w = (Raise IndexError, w') ∧
     DD u dz "y" w = (Raise IndexError, w')).
Proof.
  intros Hu w'.
  assert (Hu' : heap w' !! u = Some (FloatArr (Arr2 c rows)))
    by by apply lookup_extend_old.
  split; intros Hthin; split.
  - unfold D.
    run_ret ltac:(eapply wp_read; [exact Hu|]).
    run_ret ltac:(eapply wp_alloc).
    rewrite bool_decide_eq_true_2 by done.
    erewrite bind_raise_eq; [reflexivity|].
    erewrite bind_raise_eq; [reflexivity|].
    eapply column_raises; [exact Hu'|by apply pyidx_1_None].
  - unfold DD.
    run_ret ltac:(eapply wp_read; [exact Hu|]).
    run_ret ltac:(eapply wp_alloc).
    rewrite bool_decide_eq_true_2 by done.
    erewrite bind_raise_eq; [reflexivity|].
    erewrite bind_raise_eq; [reflexivity|].
    eapply column_raises; [exact Hu'|by apply pyidx_1_None].
  - unfold D.
    run_ret ltac:(eapply wp_read; [exact Hu|]).
    run_ret ltac:(eapply wp_alloc).
    rewrite bool_decide_eq_false_2 by done.
    rewrite bool_decide_eq_true_2 by done.
    erewrite bind_raise_eq; [reflexivity|].
    erewrite bind_raise_eq; [reflexivity|].
    eapply row_of_raises; [exact Hu'|by apply pyidx_1_None].
  - unfold DD.
    run_ret ltac:(eapply wp_read; [exact Hu|]).
    run_ret ltac:(eapply wp_alloc).
    rewrite bool_decide_eq_false_2 by done.
    rewrite bool_decide_eq_true_2 by done.
    erewrite bind_raise_eq; [reflexivity|].
    erewrite bind_raise_eq; [reflexivity|].
    eapply row_of_raises; [exact Hu'|by apply pyidx_1_None].
Qed.

Lemma D_DD_raise_on_thin_field_witness :
  let w := World [FloatArr (Arr2 1 [[5%R]])] ∅ [] in
  let w' := extend w [np_zeros 1 1] in
  (1 ≤ 1 →
     D 0 1 "x" w = (Raise IndexError, w') ∧
     DD 0 1 "x" w = (Raise IndexError, w')) ∧
  (1 ≤ 1 →
     D 0 1 "y" w = (Raise IndexError, w') ∧
     DD 0 1 "y" w = (Raise IndexError, w')).
Proof.
  intros w.
  apply (D_DD_raise_on_thin_field 0 1 1 [[5%R]] w).
  reflexivity.
Defined.

(** X10.  [D], [DD] and [please_Update_Adv_Diff_Concentration] write only to
    arrays that they allocate themselves: for every argument, and whether
    the call returns or raises, every array that exists at the call is left
    as it was, and the array that is returned did not exist at the call. *)
Theorem derivatives_and_transport_write_no_input
    (u C uX uY : loc) (dz dt dx dy k : R) (axis : string) (w : world) :
  let r1 := D u dz axis w in
  let r2 := DD u dz axis w in
  let r3 := please_Update_Adv_Diff_Concentration C dt dx dy uX uY k w in
  (∀ l a, heap w !! l = Some a →
     heap r1.2 !! l = Some a ∧ heap r2.2 !! l = Some a ∧
     heap r3.2 !! l = Some a) ∧
  (∀ l, r1.1 = Ret l ∨ r2.1 = Ret l ∨ r3.1 = Ret l → heap w !! l = None).
Proof.
  intros r1 r2 r3.
  destruct (frame_nothing_written _ _ w (frame_D (fun _ => False) w u dz axis))
    as [Hold1 Hret1].
  destruct (frame_nothing_written _ _ w (frame_DD (fun _ => False) w u dz axis))
    as [Hold2 Hret2].
  destruct (frame_nothing_written _ _ w
              (frame_please_Update_Adv_Diff_Concentration
                 (fun _ => False) w C dt dx dy uX uY k)) as [Hold3 Hret3].
  split.
  - intros l a Hl. split_and!; auto.
  - intros l [H|[H|H]]; apply fresh_lookup_None; auto.
Qed.

(* ================================================================== *)
(** ** More on the transport step *)

Lemma zip_with_mult_zero_r n (a : list R) :
  length a = n → zip_with Rmult a (replicate n 0%R) = replicate n 0%R.
Proof.
  intros <-. induction a as [|x a IH]; simpl; [done|].
  f_equal; [lra|done].
Qed.

Lemma zip_with2_mult_zero_r n m (a : list (list R)) :
  length a = n → Forall (fun r => length r = m) a →
  zip_with (zip_with Rmult) a (replicate n (replicate m 0%R))
  = replicate n (replicate m 0%R).
Proof.
  intros <- Hwf. induction Hwf as [|r a Hr _ IH]; simpl; [done|].
  f_equal; [by apply zip_with_mult_zero_r|done].
Qed.

(** X11.  A constant concentration is a steady state.  On a square field
    of side [n >= 2] that holds the same value everywhere, with velocity
    fields of the same shape and spacings [dx, dy <> 0], the transport step
    returns a new array that holds that value everywhere, for every [dt]
    and [k] and whatever the velocities. *)
Theorem please_Update_Adv_Diff_Concentration_constant_field
    (C : loc) (dt dx dy : R) (uX uY : loc) (k c : R) (n : nat)
    (ux uy : arr R) (w : world) :
  let field := FloatArr (Arr2 n (replicate n (replicate n c))) in
  heap w !! C = Some field →
  heap w !! uX = Some (FloatArr ux) → heap w !! uY = Some (FloatArr uy) →
  is_mat n n (fun _ => True) ux → is_mat n n (fun _ => True) uy →
  2 ≤ n → dx ≠ 0%R → dy ≠ 0%R →
  wp (please_Update_Adv_Diff_Concentration C dt dx dy uX uY k) w
     (returns_new w field).
Proof.
  intros field HC HuX HuY Hux Huy Hn _ _.
  eapply wp_intro.
  { eapply please_Update_Adv_Diff_Concentration_spec; try done.
    - apply length_replicate.
    - apply Forall_length_replicate. }
  replace field with
    (FloatArr (adv_diff_step dt k (Arr2 n (replicate n (replicate n c)))
       (Arr2 n (D_rows dx "x" (replicate n (replicate n c))))
       (Arr2 n (D_rows dy "y" (replicate n (replicate n c))))
       (Arr2 n (DD_rows dx "x" (replicate n (replicate n c))))
       (Arr2 n (DD_rows dy "y" (replicate n (replicate n c)))) ux uy)).
  { by apply returns_new_extend. }
  unfold field. f_equal.
  rewrite !D_rows_constant, !DD_rows_constant by (lia || auto).
  destruct Hux as (uxr & -> & Hlx & Hwx). destruct Huy as (uyr & -> & Hly & Hwy).
  assert (Hwx' : Forall (fun r => length r = n) uxr).
  { eapply Forall_impl; [done|]. by intros ? [? _]. }
  assert (Hwy' : Forall (fun r => length r = n) uyr).
  { eapply Forall_impl; [done|]. by intros ? [? _]. }
  unfold adv_diff_step. cbn [amap amap2].
  rewrite !zip_with2_mult_zero_r by done.
  repeat first [ rewrite zip_with_replicate | rewrite fmap_replicate ].
  do 3 f_equal. lra.
Qed.

Lemma please_Update_Adv_Diff_Concentration_constant_field_witness :
  let field := FloatArr (Arr2 2 (replicate 2 (replicate 2 3%R))) in
  let u := Arr2 2 [[1; 2]; [3; 4]]%R in
  let w := World [field; FloatArr u; FloatArr u] ∅ [] in
  wp (please_Update_Adv_Diff_Concentration 0 1 1 1 1 2 1) w
     (returns_new w field).
Proof.
  intros field u w.
  apply (please_Update_Adv_Diff_Concentration_constant_field
           0 1 1 1 1 2 1 3 2 u u w).
  - reflexivity.
  - reflexivity.
  - reflexivity.
  - exists [[1; 2]; [3; 4]]%R. split; [reflexivity|]. split; [reflexivity|].
    repeat constructor.
  - exists [[1; 2]; [3; 4]]%R. split; [reflexivity|]. split; [reflexivity|].
    repeat constructor.
  - lia.
  - lra.
  - lra.
Defined.

(** *** Sums over a periodic field *)

(** [a.sum()] of a list, and of an array of rows. *)
Definition Rsum (l : list R) : R := foldr Rplus 0%R l.
Definition total (rows : list (list R)) : R := Rsum (Rsum <$> rows).

Lemma Rsum_app a b : Rsum (a ++ b) = (Rsum a + Rsum b)%R.
Proof. induction a as [|x a IH]; simpl; [lra|]. rewrite IH. lra. Qed.

(** A periodic shift of the indices. *)
Lemma shift_as_rotation `{!Inhabited X} (l : list X) k :
  k < length l →
  (fun j => l !!! ((j + k) `mod` length l)) <$> seq 0 (length l)
  = drop k l ++ take k l.
Proof.
  intros Hk. set (n := length l). apply list_eq. intros i.
  rewrite list_lookup_fmap.
  destruct (decide (i < n)) as [Hi|Hi].
  2:{ rewrite lookup_seq_ge by lia. simpl. symmetry. apply lookup_ge_None.
      rewrite length_app, length_drop, length_take. lia. }
  rewrite lookup_seq_lt by done. simpl.
  destruct (decide (i + k < n)) as [Hs|Hs].
  - rewrite Nat.mod_small by done.
    rewrite lookup_app_l by (rewrite length_drop; lia).
    rewrite lookup_drop. symmetry.
    replace (k + i) with (i + k) by lia.
    apply list_lookup_lookup_total_lt. lia.
  - replace (i + k) with (i + k - n + 1 * n) by lia.
    rewrite Nat.Div0.mod_add, Nat.mod_small by lia.
    rewrite lookup_app_r by (rewrite length_drop; lia).
    rewrite length_drop, lookup_take_lt by lia. symmetry.
    replace (i - (length l - k)) with (i + k - n) by lia.
    apply list_lookup_lookup_total_lt. lia.
Qed.

Lemma Rsum_shift (l : list R) k :
  k < length l →
  Rsum ((fun j => l !!! ((j + k) `mod` length l)) <$> seq 0 (length l))
  = Rsum l.
Proof.
  intros Hk. rewrite shift_as_rotation by done.
  rewrite Rsum_app, Rplus_comm, <-Rsum_app.
  by rewrite take_drop.
Qed.

Lemma Rsum_zip_with_diff1 dz (a b : list R) :
  length a = length b →
  Rsum (zip_with (diff1 dz) a b) = diff1 dz (Rsum a) (Rsum b).
Proof.
  revert b. induction a as [|x a IH]; intros [|y b] [=]; simpl.
  - unfold diff1, Rdiv. ring.
  - rewrite IH by done. unfold diff1, Rdiv. ring.
Qed.

Lemma Rsum_zip_with3_diff2 dz (a b c : list R) :
  length a = length b → length b = length c →
  Rsum (zip_with3 (diff2 dz) a b c)
  = diff2 dz (Rsum a) (Rsum b) (Rsum c).
Proof.
  unfold zip_with3. revert b c.
  induction a as [|x a IH]; intros [|y b] [|z c] [=] [=]; simpl.
  - unfold diff2, Rdiv. ring.
  - rewrite IH by done. unfold diff2, Rdiv. ring.
Qed.

(** The differences of a periodic sequence sum to zero. *)
Lemma Rsum_periodic_diff dz (l : list R) :
  Rsum (periodic_diff (diff1 dz) l) = 0%R.
Proof.
  destruct (decide (length l ≤ 1)) as [Hn|Hn].
  { destruct l as [|x [|??]]; simpl in *; try lia.
    - done.
    - unfold diff1, Rdiv. ring. }
  unfold periodic_diff.
  rewrite <-(zip_with_fmap_same (diff1 dz)
               (fun j => l !!! ((j + 1) `mod` length l))
               (fun j => l !!! ((j + length l - 1) `mod` length l))).
  rewrite Rsum_zip_with_diff1 by (by rewrite !length_fmap).
  rewrite (Rsum_shift l 1) by lia.
  replace ((fun j => l !!! ((j + length l - 1) `mod` length l)) <$> seq 0 (length l))
    with ((fun j => l !!! ((j + (length l - 1)) `mod` length l)) <$> seq 0 (length l)).
  2:{ apply list_fmap_ext. intros _ j _. simpl. do 2 f_equal. lia. }
  rewrite (Rsum_shift l (length l - 1)) by lia.
  unfold diff1, Rdiv. ring.
Qed.

Lemma Rsum_periodic_diff2 dz (l : list R) :
  Rsum (periodic_diff2 (diff2 dz) l) = 0%R.
Proof.
  destruct (decide (length l ≤ 1)) as [Hn|Hn].
  { destruct l as [|x [|??]]; simpl in *; try lia.
    - done.
    - unfold diff2, Rdiv. ring. }
  unfold periodic_diff2.
  transitivity
    (Rsum (zip_with3 (diff2 dz)
       ((fun j => l !!! ((j + 1) `mod` length l)) <$> seq 0 (length l))
       ((fun j => l !!! ((j + 0) `mod` length l)) <$> seq 0 (length l))
       ((fun j => l !!! ((j + (length l - 1)) `mod` length l))
          <$> seq 0 (length l)))).
  { f_equal. unfold zip_with3.
    rewrite !zip_with_fmap_same. apply list_fmap_ext.
    intros i j Hj. simpl. apply lookup_seq in Hj as [-> Hi]. simpl.
    rewrite Nat.add_0_r, (Nat.mod_small i) by done.
    do 3 f_equal. lia. }
  rewrite Rsum_zip_with3_diff2 by (by rewrite !length_fmap).
  rewrite !Rsum_shift by lia.
  unfold diff2, Rdiv. ring.
Qed.

Lemma total_fmap_rows (f : list R -> list R) rows :
  (∀ r, Rsum (f r) = 0%R) → total (f <$> rows) = 0%R.
Proof.
  intros Hf. induction rows as [|r rows IH]; [done|].
  change (total (f <$> r :: rows))
    with (Rsum (f r) + total (f <$> rows))%R.
  rewrite Hf, IH. lra.
Qed.

(** The sums of the rows of a difference taken across the rows are the
    difference of the sums of the rows. *)
Lemma sum_rows_periodic_diff dz n (rows : list (list R)) :
  length rows = n → Forall (fun r => length r = n) rows →
  Rsum <$> periodic_diff (zip_with (diff1 dz)) rows
  = periodic_diff (diff1 dz) (Rsum <$> rows).
Proof.
  intros Hlen Hwf. unfold periodic_diff.
  rewrite <-list_fmap_compose, length_fmap. apply list_fmap_ext.
  intros k i Hi. apply lookup_seq in Hi as [-> Hi]. simpl.
  assert (H1 : (k + 1) `mod` length rows < length rows)
    by (apply Nat.mod_upper_bound; lia).
  assert (H2 : (k + length rows - 1) `mod` length rows < length rows)
    by (apply Nat.mod_upper_bound; lia).
  rewrite Rsum_zip_with_diff1
    by (rewrite !(length_lookup_total n) by (done || lia); done).
  by rewrite !(list_lookup_total_fmap Rsum rows) by lia.
Qed.

Lemma sum_rows_periodic_diff2 dz n (rows : list (list R)) :
  length rows = n → Forall (fun r => length r = n) rows →
  Rsum <$> periodic_diff2 (zip_with3 (diff2 dz)) rows
  = periodic_diff2 (diff2 dz) (Rsum <$> rows).
Proof.
  intros Hlen Hwf. unfold periodic_diff2.
  rewrite <-list_fmap_compose, length_fmap. apply list_fmap_ext.
  intros k i Hi. apply lookup_seq in Hi as [-> Hi]. simpl.
  assert (H1 : (k + 1) `mod` length rows < length rows)
    by (apply Nat.mod_upper_bound; lia).
  assert (H2 : (k + length rows - 1) `mod` length rows < length rows)
    by (apply Nat.mod_upper_bound; lia).
  rewrite Rsum_zip_with3_diff2
    by (rewrite !(length_lookup_total n) by (done || lia); done).
  by rewrite !(list_lookup_total_fmap Rsum rows) by lia.
Qed.

Lemma total_D_rows dz axis n rows :
  length rows = n → Forall (fun r => length r = n) rows →
  total (D_rows dz axis rows) = 0%R.
Proof.
  intros Hlen Hwf. unfold D_rows. case_bool_decide.
  - apply total_fmap_rows, Rsum_periodic_diff.
  - unfold total. rewrite (sum_rows_periodic_diff dz n) by done.
    apply Rsum_periodic_diff.
Qed.

Lemma total_DD_rows dz axis n rows :
  length rows = n → Forall (fun r => length r = n) rows →
  total (DD_rows dz axis rows) = 0%R.
Proof.
  intros Hlen Hwf. unfold DD_rows. case_bool_decide.
  - apply total_fmap_rows, Rsum_periodic_diff2.
  - unfold total. rewrite (sum_rows_periodic_diff2 dz n) by done.
    apply Rsum_periodic_diff2.
Qed.

(** X12.  The derivatives of a periodic field integrate to zero: on a
    square field of side [n >= 2], the entries of the arrays that [D] and
    [DD] return sum to [0], for both axes and every spacing [dz <> 0]. *)
Theorem D_DD_sum_to_zero
    (u : loc) (dz : R) (axis : string) (n : nat) (rows : list (list R))
    (w : world) :
  heap w !! u = Some (FloatArr (Arr2 n rows)) →
  length rows = n → Forall (fun r => length r = n) rows → 2 ≤ n →
  dz ≠ 0%R → axis = "x" ∨ axis = "y" →
  ∃ d dd : list (list R),
    wp (D u dz axis) w (returns_new w (FloatArr (Arr2 n d))) ∧
    wp (DD u dz axis) w (returns_new w (FloatArr (Arr2 n dd))) ∧
    total d = 0%R ∧ total dd = 0%R.
Proof.
  intros Hu Hlen Hwf Hn _ Haxis.
  exists (D_rows dz axis rows), (DD_rows dz axis rows). split_and!.
  - by apply D_spec.
  - by apply DD_spec.
  - by apply (total_D_rows dz axis n).
  - by apply (total_DD_rows dz axis n).
Qed.

Lemma D_DD_sum_to_zero_witness :
  let rows := [[1; 2]; [3; 5]]%R in
  let w := World [FloatArr (Arr2 2 rows)] ∅ [] in
  ∃ d dd : list (list R),
    wp (D 0 1 "x") w (returns_new w (FloatArr (Arr2 2 d))) ∧
    wp (DD 0 1 "x") w (returns_new w (FloatArr (Arr2 2 dd))) ∧
    total d = 0%R ∧ total dd = 0%R.
Proof.
  intros rows w.
  apply (D_DD_sum_to_zero 0 1 "x" 2 rows w).
  - reflexivity.
  - reflexivity.
  - repeat constructor.
  - lia.
  - lra.
  - by left.
Defined.

Lemma Rsum_zip_with_plus (a b : list R) :
  length a = length b →
  Rsum (zip_with Rplus a b) = (Rsum a + Rsum b)%R.
Proof.
  revert b. induction a as [|x a IH]; intros [|y b] [=]; simpl; [lra|].
  rewrite IH by done. lra.
Qed.

Lemma Rsum_zip_with_minus (a b : list R) :
  length a = length b →
  Rsum (zip_with Rminus a b) = (Rsum a - Rsum b)%R.
Proof.
  revert b. induction a as [|x a IH]; intros [|y b] [=]; simpl; [lra|].
  rewrite IH by done. lra.
Qed.

Lemma Rsum_fmap_mult c (a : list R) :
  Rsum (Rmult c <$> a) = (c * Rsum a)%R.
Proof. induction a as [|x a IH]; csimpl; [lra|]. rewrite IH. lra. Qed.

Lemma total_zip_with_plus n m (a b : list (list R)) :
  length a = n → length b = n →
  Forall (fun r => length r = m) a → Forall (fun r => length r = m) b →
  total (zip_with (zip_with Rplus) a b) = (total a + total b)%R.
Proof.
  intros <- Hb Ha. revert b Hb. unfold total.
  induction Ha as [|r a Hr _ IH]; intros [|s b] [=] Hwb; csimpl; [lra|].
  inversion_clear Hwb as [|?? Hs Hwb'].
  rewrite Rsum_zip_with_plus by congruence.
  unfold Rsum in *. rewrite IH by done. lra.
Qed.

Lemma total_fmap_mult c (a : list (list R)) :
  total (fmap (M:=list) (Rmult c) <$> a) = (c * total a)%R.
Proof.
  unfold total. induction a as [|r a IH]; csimpl; [lra|].
  rewrite Rsum_fmap_mult. unfold Rsum in *. rewrite IH. lra.
Qed.

Lemma Rsum_replicate_zero m : Rsum (replicate m 0%R) = 0%R.
Proof. induction m as [|m IH]; simpl; [done|]. rewrite IH. lra. Qed.

Lemma total_replicate_zero n m : total (replicate n (replicate m 0%R)) = 0%R.
Proof.
  induction n as [|n IH]; [done|].
  change (total (replicate (S n) (replicate m 0%R)))
    with (Rsum (replicate m 0%R) + total (replicate n (replicate m 0%R)))%R.
  rewrite IH, Rsum_replicate_zero. lra.
Qed.

(** X13.  Diffusion conserves the total concentration.  With velocity
    fields that are zero everywhere, the transport step on a square field
    of side [n >= 2] returns a new field whose entries have the same sum as
    the entries of [C], for every [dt], [k] and spacings [dx, dy <> 0]. *)
Theorem please_Update_Adv_Diff_Concentration_conserves_total
    (C : loc) (dt dx dy : R) (uX uY : loc) (k : R) (n : nat)
    (c : list (list R)) (w : world) :
  heap w !! C = Some (FloatArr (Arr2 n c)) →
  heap w !! uX = Some (np_zeros n n) → heap w !! uY = Some (np_zeros n n) →
  length c = n → Forall (fun r => length r = n) c → 2 ≤ n →
  dx ≠ 0%R → dy ≠ 0%R →
  ∃ c' : list (list R),
    wp (please_Update_Adv_Diff_Concentration C dt dx dy uX uY k) w
       (returns_new w (FloatArr (Arr2 n c'))) ∧
    total c' = total c.
Proof.
  intros HC HuX HuY Hlen Hwf Hn _ _.
  assert (Hz : is_mat n n (fun _ : R => True)
                 (Arr2 n (replicate n (replicate n 0%R)))).
  { eexists. split_and!; [done|apply length_replicate|].
    apply Forall_replicate. split; [apply length_replicate|by apply Forall_true]. }
  destruct (is_mat_rows _ _ _ _ (is_mat_D_rows dx "x" n c Hlen Hwf ltac:(lia)))
    as [Hl1 Hw1].
  destruct (is_mat_rows _ _ _ _ (is_mat_D_rows dy "y" n c Hlen Hwf ltac:(lia)))
    as [Hl2 Hw2].
  destruct (is_mat_rows _ _ _ _ (is_mat_DD_rows dx "x" n c Hlen Hwf ltac:(lia)))
    as [Hl3 Hw3].
  destruct (is_mat_rows _ _ _ _ (is_mat_DD_rows dy "y" n c Hlen Hwf ltac:(lia)))
    as [Hl4 Hw4].
  pose proof (please_Update_Adv_Diff_Concentration_spec
                C dt dx dy uX uY k n c _ _ w HC HuX HuY Hlen Hwf Hn Hz Hz)
    as Hrun.
  unfold adv_diff_step in Hrun. cbn [amap amap2] in Hrun.
  eexists. split.
  - eapply wp_intro; [exact Hrun|]. by apply returns_new_extend.
  - assert (Hmul : ∀ d, length d = n → Forall (fun r => length r = n) d →
              zip_with (zip_with Rmult) (replicate n (replicate n 0%R)) d
              = replicate n (replicate n 0%R)).
    { intros d Hd Hwd. apply (rows_ext n n).
      - rewrite length_zip_with, length_replicate. lia.
      - apply length_replicate.
      - apply Forall_length_zip_with2; [apply Forall_length_replicate|done].
      - apply Forall_length_replicate.
      - intros i j Hi Hj. rewrite entry_replicate by done. unfold entry.
        erewrite (list_lookup_total_correct (zip_with _ _ _) i).
        2:{ rewrite lookup_zip_with, lookup_replicate_2 by done. simpl.
            rewrite (list_lookup_lookup_total_lt d i) by lia. done. }
        rewrite lookup_total_zip_with_R.
        + rewrite lookup_total_replicate_2 by done. lra.
        + by rewrite length_replicate.
        + rewrite (length_lookup_total n) by (done || lia). done. }
    rewrite !Hmul by done.
    assert (Hlap : length (zip_with (zip_with Rplus) (DD_rows dx "x" c)
                                    (DD_rows dy "y" c)) = n)
      by (rewrite length_zip_with; lia).
    assert (Hwlap : Forall (fun r => length r = n)
                      (zip_with (zip_with Rplus) (DD_rows dx "x" c)
                                (DD_rows dy "y" c)))
      by by apply Forall_length_zip_with2.
    set (lap := zip_with (zip_with Rplus) (DD_rows dx "x" c) (DD_rows dy "y" c))
      in *.
    assert (Hminus0 : ∀ d, length d = n → Forall (fun r => length r = n) d →
              zip_with (zip_with Rminus) d (replicate n (replicate n 0%R)) = d).
    { intros d Hd Hwd. apply (rows_ext n n); [|done| |done|].
      - rewrite length_zip_with, length_replicate. lia.
      - apply Forall_length_zip_with2; [done|apply Forall_length_replicate].
      - intros i j Hi Hj. unfold entry.
        erewrite (list_lookup_total_correct (zip_with _ _ _) i).
        2:{ rewrite lookup_zip_with, lookup_replicate_2 by done.
            rewrite (list_lookup_lookup_total_lt d i) by lia. done. }
        rewrite lookup_total_zip_with_R.
        + rewrite lookup_total_replicate_2 by done. lra.
        + rewrite (length_lookup_total n) by (done || lia). done.
        + by rewrite length_replicate. }
    set (kl := fmap (M:=list) (Rmult k) <$> lap).
    assert (Hkl : length kl = n) by (unfold kl; by rewrite length_fmap).
    assert (Hwkl : Forall (fun r => length r = n) kl)
      by (by apply Forall_length_fmap2).
    rewrite (Hminus0 kl) by done. rewrite (Hminus0 kl) by done.
    rewrite (total_zip_with_plus n n);
      [|done|by rewrite length_fmap|done|by apply Forall_length_fmap2].
    unfold kl.
    rewrite !total_fmap_mult.
    unfold lap. rewrite (total_zip_with_plus n n) by done.
    rewrite (total_DD_rows dx "x" n), (total_DD_rows dy "y" n) by done.
    lra.
Qed.

Lemma please_Update_Adv_Diff_Concentration_conserves_total_witness :
  let c := [[1; 2]; [3; 5]]%R in
  let w := World [FloatArr (Arr2 2 c); np_zeros 2 2; np_zeros 2 2] ∅ [] in
  ∃ c' : list (list R),
    wp (please_Update_Adv_Diff_Concentration 0 1 1 1 1 2 1) w
       (returns_new w (FloatArr (Arr2 2 c'))) ∧
    total c' = total c.
Proof.
  intros c w.
  apply (please_Update_Adv_Diff_Concentration_conserves_total
           0 1 1 1 1 2 1 2 c w).
  - reflexivity.
  - reflexivity.
  - reflexivity.
  - reflexivity.
  - repeat constructor.
  - lia.
  - lra.
  - lra.
Defined.

(* ================================================================== *)
(** ** More on the massive boundary *)

Lemma moved_moved dt1 dt2 ps (vs : list (R * R)) :
  zip_with (moved dt2) (zip_with (moved dt1) ps vs) vs
  = zip_with (moved (dt1 + dt2)) ps vs.
Proof.
  revert vs. induction ps as [|p ps IH]; intros [|v vs]; simpl; [done..|].
  f_equal; [|apply IH]. unfold moved. simpl. f_equal; lra.
Qed.

Lemma moved_zero ps (vs : list (R * R)) :
  length ps = length vs → zip_with (moved 0) ps vs = ps.
Proof.
  revert vs. induction ps as [|p ps IH]; intros [|v vs] [=]; simpl; [done|].
  f_equal; [|by apply IH]. destruct p. unfold moved. simpl. f_equal; lra.
Qed.

(** X14.  Moves compose.  On tables of matching length, a move by [dt1]
    followed by a move by [dt2] with the same velocities leaves in
    [mass_info] what one move by [dt1 + dt2] leaves there; the array of old
    positions of the second move holds the positions after the first, and
    that of the first move is not touched by the second.  A move by [dt]
    followed by a move by [-dt] restores the table. *)
Theorem please_Move_Massive_Boundary_composes
    (dt1 dt2 : R) (mass_info mVelocity : loc) (ps : list mass_point)
    (vs : list (R * R)) (w : world) :
  heap w !! mass_info = Some (mass_table ps) →
  heap w !! mVelocity = Some (velocity_table vs) →
  length ps = length vs →
  ∃ old1 w1 old2 w2 old w',
    please_Move_Massive_Boundary dt1 mass_info mVelocity w
      = (Ret (mass_info, old1), w1) ∧
    please_Move_Massive_Boundary dt2 mass_info mVelocity w1
      = (Ret (mass_info, old2), w2) ∧
    please_Move_Massive_Boundary (dt1 + dt2) mass_info mVelocity w
      = (Ret (mass_info, old), w') ∧
    heap w2 !! mass_info = heap w' !! mass_info ∧
    heap w2 !! old1 = Some (positions ps) ∧
    heap w2 !! old2 = Some (positions (zip_with (moved dt1) ps vs)) ∧
    (dt2 = (- dt1)%R → heap w2 !! mass_info = Some (mass_table ps)).
Proof.
  intros Hmi Hmv Hlen.
  assert (Hne : mass_info ≠ mVelocity).
  { intros ->. rewrite Hmi in Hmv. discriminate. }
  assert (Hlt : mass_info < length (heap w)) by by eapply lookup_lt_Some.
  set (ps1 := zip_with (moved dt1) ps vs).
  set (w1 := update (extend w [positions ps]) mass_info (mass_table ps1)).
  assert (Hlt1 : mass_info < length (heap (extend w [positions ps])))
    by (rewrite length_heap_extend; lia).
  assert (Hmi1 : heap w1 !! mass_info = Some (mass_table ps1))
    by by apply lookup_update_eq.
  assert (Hmv1 : heap w1 !! mVelocity = Some (velocity_table vs)).
  { unfold w1. rewrite lookup_update_ne by done. by apply lookup_extend_old. }
  assert (Hlen1 : length ps1 = length vs).
  { unfold ps1. rewrite length_zip_with. lia. }
  assert (Hh1 : length (heap w1) = length (heap w) + 1).
  { unfold w1. simpl. rewrite length_insert, length_app. simpl. lia. }
  assert (Hlt2 : mass_info < length (heap (extend w1 [positions ps1])))
    by (rewrite length_heap_extend; lia).
  assert (Hcomp : heap (update (extend w1 [positions ps1]) mass_info
                          (mass_table (zip_with (moved dt2) ps1 vs)))
                    !! mass_info
                  = Some (mass_table (zip_with (moved (dt1 + dt2)) ps vs))).
  { rewrite lookup_update_eq by done. unfold ps1. by rewrite moved_moved. }
  exists (length (heap w)), w1, (length (heap w1)),
    (update (extend w1 [positions ps1]) mass_info
       (mass_table (zip_with (moved dt2) ps1 vs))),
    (length (heap w)),
    (update (extend w [positions ps]) mass_info
       (mass_table (zip_with (moved (dt1 + dt2)) ps vs))).
  split_and!.
  - by apply please_Move_Massive_Boundary_spec.
  - by apply please_Move_Massive_Boundary_spec.
  - by apply please_Move_Massive_Boundary_spec.
  - rewrite Hcomp. symmetry. by apply lookup_update_eq.
  - rewrite lookup_update_ne by lia. apply lookup_extend_old.
    unfold w1. rewrite lookup_update_ne by lia. apply lookup_extend_new0.
  - rewrite lookup_update_ne by lia. apply lookup_extend_new0.
  - intros ->. rewrite Hcomp. replace (dt1 + - dt1)%R with 0%R by lra.
    by rewrite moved_zero.
Qed.

Lemma please_Move_Massive_Boundary_composes_witness :
  let ps := [MassPoint 0 1 2 3 4] in
  let vs := [(1, 1)%R] in
  let w := World [mass_table ps; velocity_table vs] ∅ [] in
  ∃ old1 w1 old2 w2 old w',
    please_Move_Massive_Boundary 1 0 1 w = (Ret (0, old1), w1) ∧
    please_Move_Massive_Boundary 2 0 1 w1 = (Ret (0, old2), w2) ∧
    please_Move_Massive_Boundary (1 + 2) 0 1 w = (Ret (0, old), w') ∧
    heap w2 !! 0 = heap w' !! 0 ∧
    heap w2 !! old1 = Some (positions ps) ∧
    heap w2 !! old2 = Some (positions (zip_with (moved 1) ps vs)) ∧
    (2%R = (- 1)%R → heap w2 !! 0 = Some (mass_table ps)).
Proof.
  intros ps vs w.
  apply (please_Move_Massive_Boundary_composes 1 2 0 1 ps vs w).
  - reflexivity.
  - reflexivity.
  - reflexivity.
Defined.

(** *** Tables of other shapes *)

Lemma bind_ret_run {A B} (m : M A) (k : A -> M B) w a w' r :
  m w = (Ret a, w') → k a w' = r → bind m k w = r.
Proof. unfold bind. by intros -> <-. Qed.

(** One statement that returns, by its [wp] rule. *)
Ltac step tac :=
  eapply bind_ret_run; [apply wp_eq; tac; split; reflexivity|].

Ltac raises := erewrite bind_raise_eq; [reflexivity|].

Lemma pyidx_out n (i : Z) : (Z.of_nat n ≤ i)%Z → pyidx n i = None.
Proof.
  intros Hi. unfold pyidx.
  rewrite decide_False by lia. by rewrite decide_False by lia.
Qed.

(** X15.  A table [mass_info] with fewer than three columns has no columns
    [1] and [2]: the call raises [IndexError] at its first statement and
    leaves the world as it was. *)
Theorem please_Move_Massive_Boundary_narrow_table
    (dt : R) (mass_info mVelocity : loc) (c : nat) (rows : list (list R))
    (w : world) :
  heap w !! mass_info = Some (FloatArr (Arr2 c rows)) → c ≤ 2 →
  please_Move_Massive_Boundary dt mass_info mVelocity w = (Raise IndexError, w).
Proof.
  intros Hmi Hc. unfold please_Move_Massive_Boundary.
  step ltac:(eapply wp_load; [done|]).
  apply bind_raise_eq.
  unfold nd_select, get_cols. cbn [mapM].
  rewrite (pyidx_out c 2) by lia.
  by destruct (pyidx c 1).
Qed.

Lemma please_Move_Massive_Boundary_narrow_table_witness :
  let w := World [FloatArr (Arr2 2 [[1; 2]%R]);
                  velocity_table [(1, 1)%R]] ∅ [] in
  please_Move_Massive_Boundary 1 0 1 w = (Raise IndexError, w).
Proof.
  intros w.
  apply (please_Move_Massive_Boundary_narrow_table 1 0 1 2 [[1; 2]%R] w).
  - reflexivity.
  - lia.
Defined.

Lemma upd_col_x_only dt ps (vx : list R) :
  length ps = length vx →
  upd_col 1 (zip_with Rplus (x_Lag <$> ps) (Rmult dt <$> vx)) (mass_row <$> ps)
  = mass_row <$>
      zip_with (fun p v => MassPoint (lagIndex p) (x_Lag p + dt * v)
                                     (y_Lag p) (stiffness p) (mass p)) ps vx.
Proof.
  revert vx. induction ps as [|p ps IH]; intros [|v vx] [=]; [done|].
  unfold upd_col in *. simpl. f_equal. by apply IH.
Qed.

(** X16.  A velocity table with the one column of the x-velocities.  The
    x-positions are updated in place before [mVelocity[:,1]] is read: the
    call raises [IndexError], and [mass_info] is left with the new
    x-positions and the old y-positions. *)
Theorem please_Move_Massive_Boundary_one_column_velocity
    (dt : R) (mass_info mVelocity : loc) (ps : list mass_point)
    (vx : list R) (w : world) :
  heap w !! mass_info = Some (mass_table ps) →
  heap w !! mVelocity = Some (FloatArr (Arr2 1 ((fun v => [v]) <$> vx))) →
  length ps = length vx →
  ∃ w',
    please_Move_Massive_Boundary dt mass_info mVelocity w
      = (Raise IndexError, w') ∧
    heap w' !! mass_info
      = Some (mass_table
                (zip_with (fun p v => MassPoint (lagIndex p) (x_Lag p + dt * v)
                                                (y_Lag p) (stiffness p) (mass p))
                          ps vx)).
Proof.
  intros Hmi Hmv Hlen.
  assert (Hne : mass_info ≠ mVelocity).
  { intros ->. rewrite Hmi in Hmv. discriminate. }
  assert (Hlt : mass_info < length (heap w)) by by eapply lookup_lt_Some.
  assert (Hlt1 : mass_info < length (heap (extend w [positions ps])))
    by (rewrite length_heap_extend; lia).
  eexists. split.
  - unfold please_Move_Massive_Boundary.
    step ltac:(eapply wp_load; [done|]).
    step ltac:(eapply wp_orraise;
               [unfold mass_table, nd_select; by rewrite get_cols_positions|]).
    step ltac:(apply wp_alloc).
    step ltac:(eapply wp_column;
               [by apply lookup_extend_old
               |unfold mass_table, get_col; simpl;
                by rewrite (mapM_fmap_Some _ _ x_Lag)|]).
    step ltac:(eapply wp_column;
               [by apply lookup_extend_old
               |unfold get_col; simpl;
                by rewrite (mapM_fmap_Some _ _ (fun v : R => v))|]).
    step ltac:(eapply wp_np_binop;
               [apply azip_same_shape; [done..|]; simpl;
                by rewrite !length_fmap, Hlen|]).
    simpl amap2.
    step ltac:(eapply wp_set_col;
               [by apply lookup_extend_old|done
               |apply fit_vec_same; rewrite length_zip_with, !length_fmap; lia|]).
    rewrite list_fmap_id, upd_col_x_only by done.
    step ltac:(eapply wp_column;
               [by apply lookup_update_eq
               |unfold get_col; simpl; by rewrite (mapM_fmap_Some _ _ y_Lag)|]).
    raises. unfold column.
    step ltac:(eapply wp_read;
               [rewrite lookup_update_ne by done; by apply lookup_extend_old|]).
    reflexivity.
  - by apply lookup_update_eq.
Qed.

Lemma please_Move_Massive_Boundary_one_column_velocity_witness :
  let ps := [MassPoint 0 1 2 3 4] in
  let w := World [mass_table ps; FloatArr (Arr2 1 [[5%R]])] ∅ [] in
  ∃ w',
    please_Move_Massive_Boundary 1 0 1 w = (Raise IndexError, w') ∧
    heap w' !! 0
      = Some (mass_table
                (zip_with (fun p v => MassPoint (lagIndex p) (x_Lag p + 1 * v)
                                                (y_Lag p) (stiffness p) (mass p))
                          ps [5%R])).
Proof.
  intros ps w.
  apply (please_Move_Massive_Boundary_one_column_velocity 1 0 1 ps [5%R] w).
  - reflexivity.
  - reflexivity.
  - reflexivity.
Defined.

Lemma stretch_other {X} n (l : list X) : length l ≠ 1 → stretch n l = l.
Proof. by destruct l as [|x [|y l]]. Qed.

Lemma length_stretch_one {X} n (x : X) : length (stretch n [x]) = n.
Proof. simpl. apply length_replicate. Qed.

(** The sum of a column of [n] entries and one of [m] entries, [n <> m],
    assigned to a column of [n] entries: refused unless [m = 1]. *)
Lemma column_sum_mismatch (a b : list R) :
  length a ≠ length b → length b ≠ 1 →
  match azip Rplus (Arr1 a) (Arr1 b) with
  | Some s => fit_vec (length a) s = None
  | None => True
  end.
Proof.
  intros Hab Hb. unfold azip, bdim. rewrite decide_False by done.
  destruct (decide (length a = 1)) as [Ha|Ha]; simpl.
  - unfold fit_vec, zip_bc. simpl.
    destruct a as [|x [|??]]; try discriminate. simpl.
    rewrite (stretch_other _ b) by done.
    set (v := zip_with Rplus (replicate (length b) x) b).
    assert (Hv : length v = length b).
    { unfold v. rewrite length_zip_with, length_replicate. lia. }
    rewrite stretch_other by lia. rewrite decide_False by lia. done.
  - by rewrite decide_False.
Qed.

(** X17.  Tables of different lengths.  When [mVelocity] has neither as
    many rows as [mass_info] nor a single row, the call raises [ValueError]
    at the update of the x-positions: [mass_info] is as it was, and the copy
    of the old positions is the one array that was allocated. *)
Theorem please_Move_Massive_Boundary_length_mismatch
    (dt : R) (mass_info mVelocity : loc) (ps : list mass_point)
    (vs : list (R * R)) (w : world) :
  heap w !! mass_info = Some (mass_table ps) →
  heap w !! mVelocity = Some (velocity_table vs) →
  length ps ≠ length vs → length vs ≠ 1 →
  please_Move_Massive_Boundary dt mass_info mVelocity w
  = (Raise ValueError, extend w [positions ps]).
Proof.
  intros Hmi Hmv Hlen Hone.
  unfold please_Move_Massive_Boundary.
  step ltac:(eapply wp_load; [done|]).
  step ltac:(eapply wp_orraise;
             [unfold mass_table, nd_select; by rewrite get_cols_positions|]).
  step ltac:(apply wp_alloc).
  step ltac:(eapply wp_column;
             [by apply lookup_extend_old
             |unfold mass_table, get_col; simpl;
              by rewrite (mapM_fmap_Some _ _ x_Lag)|]).
  step ltac:(eapply wp_column;
             [by apply lookup_extend_old
             |unfold velocity_table, get_col; simpl;
              by rewrite (mapM_fmap_Some _ _ fst)|]).
  pose proof (column_sum_mismatch (x_Lag <$> ps) (Rmult dt <$> (fst <$> vs)))
    as Hsum.
  rewrite !length_fmap in Hsum. specialize (Hsum Hlen Hone).
  unfold np_binop. cbn [amap].
  destruct (azip Rplus (Arr1 (x_Lag <$> ps)) (Arr1 (Rmult dt <$> (fst <$> vs))))
    as [s|] eqn:Hs; [|done].
  eapply bind_ret_run; [reflexivity|].
  apply bind_raise_eq. unfold set_col, modify.
  eapply bind_ret_run.
  { apply wp_eq. eapply wp_load; [by apply lookup_extend_old|].
    split; reflexivity. }
  unfold mass_table. apply bind_raise_eq.
  eapply bind_ret_run; [reflexivity|].
  apply bind_raise_eq. rewrite length_fmap. by rewrite Hsum.
Qed.

Lemma please_Move_Massive_Boundary_length_mismatch_witness :
  let ps := [MassPoint 0 1 2 3 4] in
  let vs := [(1, 1); (2, 2)]%R in
  let w := World [mass_table ps; velocity_table vs] ∅ [] in
  please_Move_Massive_Boundary 1 0 1 w
  = (Raise ValueError, extend w [positions ps]).
Proof.
  intros ps vs w.
  apply (please_Move_Massive_Boundary_length_mismatch 1 0 1 ps vs w).
  - reflexivity.
  - reflexivity.
  - simpl. lia.
  - simpl. lia.
Defined.

Lemma zip_with_stretch_one {X Y Z} (f : X -> Y -> Z) (a : list X) (y : Y) :
  zip_bc f (length a) a [y] = (fun x => f x y) <$> a.
Proof.
  unfold zip_bc. simpl.
  destruct (decide (length a = 1)) as [Ha|Ha].
  - destruct a as [|x [|??]]; try discriminate. done.
  - rewrite stretch_other by done.
    induction a as [|x a IH]; [done|]. simpl. f_equal.
    clear IH Ha. induction a as [|x' a IH]; [done|]. simpl. by f_equal.
Qed.

Lemma upd_col_x_one dt ps (v : R * R) :
  upd_col 1 ((fun x => x + dt * v.1)%R <$> (x_Lag <$> ps)) (mass_row <$> ps)
  = mass_row <$>
      ((fun p => MassPoint (lagIndex p) (x_Lag p + dt * v.1)
                           (y_Lag p) (stiffness p) (mass p)) <$> ps).
Proof.
  induction ps as [|p ps IH]; [done|].
  unfold upd_col in *. csimpl. f_equal. by apply IH.
Qed.

Lemma upd_col_y_one dt ps (v : R * R) :
  upd_col 2 ((fun y => y + dt * v.2)%R <$> (y_Lag <$> ps)) (mass_row <$> ps)
  = mass_row <$>
      ((fun p => MassPoint (lagIndex p) (x_Lag p) (y_Lag p + dt * v.2)
                           (stiffness p) (mass p)) <$> ps).
Proof.
  induction ps as [|p ps IH]; [done|].
  unfold upd_col in *. csimpl. f_equal. by apply IH.
Qed.

Lemma azip_column_one (a : list R) (y : R) :
  azip Rplus (Arr1 a) (Arr1 [y]) = Some (Arr1 ((fun x => x + y)%R <$> a)).
Proof.
  unfold azip, bdim. cbn [length].
  repeat case_decide; try lia; cbn [mbind option_bind];
    by rewrite zip_with_stretch_one.
Qed.

(** X18.  A velocity table with a single row is broadcast: every point of
    [mass_info], however many there are, is moved by [dt] times that one
    velocity. *)
Theorem please_Move_Massive_Boundary_single_velocity
    (dt : R) (mass_info mVelocity : loc) (ps : list mass_point)
    (v : R * R) (w : world) :
  heap w !! mass_info = Some (mass_table ps) →
  heap w !! mVelocity = Some (velocity_table [v]) →
  please_Move_Massive_Boundary dt mass_info mVelocity w
  = (Ret (mass_info, length (heap w)),
     update (extend w [positions ps]) mass_info
            (mass_table ((fun p => moved dt p v) <$> ps))).
Proof.
  intros Hmi Hmv.
  assert (Hne : mass_info ≠ mVelocity).
  { intros ->. rewrite Hmi in Hmv. discriminate. }
  assert (Hlt : mass_info < length (heap w)) by by eapply lookup_lt_Some.
  assert (Hlt1 : mass_info < length (heap (extend w [positions ps])))
    by (rewrite length_heap_extend; lia).
  apply wp_eq. unfold please_Move_Massive_Boundary.
  apply wp_bind. eapply wp_load; [done|].
  apply wp_bind. eapply wp_orraise.
  { unfold mass_table, nd_select. by rewrite get_cols_positions. }
  apply wp_bind, wp_alloc.
  apply wp_bind. eapply wp_column; [by apply lookup_extend_old| |].
  { unfold mass_table, get_col. simpl. by rewrite (mapM_fmap_Some _ _ x_Lag). }
  apply wp_bind. eapply wp_column; [by apply lookup_extend_old|reflexivity|].
  apply wp_bind. eapply wp_np_binop; [apply azip_column_one|].
  eapply wp_bind, wp_set_col; [by apply lookup_extend_old|done| |].
  { apply fit_vec_same. by rewrite !length_fmap. }
  rewrite upd_col_x_one.
  apply wp_bind. eapply wp_column; [by apply lookup_update_eq| |].
  { unfold get_col. simpl. by rewrite (mapM_fmap_Some _ _ y_Lag). }
  apply wp_bind. eapply wp_column.
  { rewrite lookup_update_ne by done. by apply lookup_extend_old. }
  { reflexivity. }
  apply wp_bind. eapply wp_np_binop; [apply azip_column_one|].
  eapply wp_bind, wp_set_col; [by apply lookup_update_eq|done| |].
  { apply fit_vec_same. by rewrite !length_fmap. }
  apply wp_ret. split; [done|].
  rewrite update_update. unfold mass_table. do 3 f_equal.
  change (Z.to_nat 2) with 2.
  rewrite upd_col_y_one. f_equal. by rewrite <-list_fmap_compose.
Qed.

Lemma please_Move_Massive_Boundary_single_velocity_witness :
  let ps := [MassPoint 0 1 2 3 4; MassPoint 1 5 6 7 8] in
  let w := World [mass_table ps; velocity_table [(1, 1)%R]] ∅ [] in
  please_Move_Massive_Boundary 1 0 1 w
  = (Ret (0, length (heap w)),
     update (extend w [positions ps]) 0
            (mass_table ((fun p => moved 1 p (1, 1)%R) <$> ps))).
Proof.
  intros ps w.
  apply (please_Move_Massive_Boundary_single_velocity 1 0 1 ps (1, 1)%R w).
  - reflexivity.
  - reflexivity.
Defined.

(** *** The velocity of the massive boundary *)

(** A statement that only reads, before a rest that raises. *)
Lemma raises_bind_free {A B} (m : M A) (k : A -> M B) w :
  world_free m →
  (∀ a, (m w).1 = Ret a → ∃ e, k a w = (Raise e, w)) →
  ∃ e, bind m k w = (Raise e, w).
Proof.
  intros Hm Hk. unfold bind. specialize (Hm w).
  destruct (m w) as [[a|e] w'] eqn:E; simpl in *; subst w'.
  - by apply Hk.
  - by exists e.
Qed.

Lemma raises_bind {A B} (m : M A) (k : A -> M B) w :
  (∃ e, m w = (Raise e, w)) → ∃ e, bind m k w = (Raise e, w).
Proof. intros [e He]. exists e. by apply bind_raise_eq. Qed.

Ltac skip_free :=
  apply raises_bind_free; [solve [eauto with world_free]|intros ? _].

(** X19.  [please_Update_Massive_Boundary_Velocity] does not return where
    the module binds no name [mVelocity_h], as [Supp.py] does not, and it
    does not return for a table [mass_info] of floats, whose first column
    it uses as an index array: in both cases the call raises before its
    first assignment and leaves the world as it was. *)
Theorem please_Update_Massive_Boundary_Velocity_never_returns
    (dt_step : R) (mass_info mVelocity F_Mass_Bnd gravity_Info : loc)
    (w : world) :
  globals w !! "mVelocity_h" = None ∨
    (∃ a, heap w !! mass_info = Some (FloatArr a)) →
  ∃ e, please_Update_Massive_Boundary_Velocity
         dt_step mass_info mVelocity F_Mass_Bnd gravity_Info w
       = (Raise e, w).
Proof.
  intros H. unfold please_Update_Massive_Boundary_Velocity.
  apply raises_bind_free; [apply world_free_load|]. intros mi Hmi.
  apply raises_bind_free; [apply world_free_orraise|]. intros ids Hids.
  skip_free. apply raises_bind.
  destruct H as [Hg|[tbl Ha]].
  - assert (Hglobal : ∀ B (k : loc -> M B),
              ∃ e, bind (global "mVelocity_h") k w = (Raise e, w)).
    { intros B k. apply raises_bind. eexists. unfold global. by rewrite Hg. }
    case_decide; repeat skip_free; apply Hglobal.
  - assert (Hids' : ∃ i, ids = FloatArr i).
    { unfold load in Hmi. rewrite Ha in Hmi. simpl in Hmi.
      injection Hmi as <-. unfold nd_select in Hids.
      destruct (get_col tbl 0); simpl in Hids; [|done].
      injection Hids as <-. by eexists. }
    destruct Hids' as [i ->].
    case_decide; do 2 skip_free; apply raises_bind; by exists IndexError.
Qed.

Lemma please_Update_Massive_Boundary_Velocity_never_returns_witness :
  let w := World [mass_table [MassPoint 0 0 0 1 2];
                  velocity_table [(0, 0)%R];
                  FloatArr (Arr2 2 [[0; 0]%R]);
                  FloatArr (Arr1 [0; 0; 0]%R)] ∅ [] in
  ∃ e, please_Update_Massive_Boundary_Velocity 1 0 1 2 3 w = (Raise e, w).
Proof.
  intros w.
  apply (please_Update_Massive_Boundary_Velocity_never_returns 1 0 1 2 3 w).
  left. reflexivity.
Defined.

(* ================================================================== *)
(** ** More on the distances and the indices *)

Lemma Forall_zip_with_all {A B C} (P : C -> Prop) (f : A -> B -> C) v w :
  (∀ s t, P (f s t)) → Forall P (zip_with f v w).
Proof.
  intros Hf. revert w. induction v as [|s v IH]; intros [|t w]; simpl;
    constructor; auto.
Qed.

Lemma aForall_amap2_all {A B C} (P : C -> Prop) (f : A -> B -> C) a b :
  (∀ s t, P (f s t)) → aForall P (amap2 f a b).
Proof.
  intros Hf. destruct a, b; simpl; try by constructor.
  - by apply Forall_zip_with_all.
  - apply Forall_zip_with_all. intros. by apply Forall_zip_with_all.
Qed.

Lemma periodic_distance_le_half L s t : (periodic_distance L s t <= L / 2)%R.
Proof.
  unfold periodic_distance, Rmin. destruct (Rle_dec _ _); lra.
Qed.

Lemma periodic_distance_nonneg L s t :
  (Rabs (s - t) <= L)%R → (0 <= periodic_distance L s t)%R.
Proof.
  unfold periodic_distance, Rmin. pose proof (Rabs_pos (s - t)).
  destruct (Rle_dec _ _); lra.
Qed.

Lemma aForall_amap2_impl {A B C D} (P : C -> Prop) (Q : D -> Prop)
    (f : A -> B -> C) (g : A -> B -> D) a b :
  (∀ s t, Q (g s t) → P (f s t)) →
  aForall Q (amap2 g a b) → aForall P (amap2 f a b).
Proof.
  intros Hfg. destruct a as [v|? v], b as [v'|? v']; simpl; try done.
  - revert v'. induction v as [|s v IH]; intros [|t v']; simpl; [done..|].
    rewrite !Forall_cons. intros [? ?]. split; [by apply Hfg|by apply IH].
  - revert v'. induction v as [|r v IH]; intros [|r' v']; simpl; [done..|].
    rewrite !Forall_cons. intros [Hr ?]. split; [|by apply IH].
    clear IH. revert r' Hr.
    induction r as [|s r IHr]; intros [|t r']; simpl; [done..|].
    rewrite !Forall_cons. intros [? ?]. split; [by apply Hfg|by apply IHr].
Qed.

(** X20.  For every [L] and every two arrays of one shape, whatever their
    entries, [give_Eulerian_Lagrangian_Distance] returns a new array of that
    shape with no entry above [L/2]; when no two matching entries of the
    inputs are more than [L] apart, no entry is negative. *)
Theorem give_Eulerian_Lagrangian_Distance_any_input
    (L : R) (x y : loc) (a b : arr R) (w : world) :
  heap w !! x = Some (FloatArr a) → heap w !! y = Some (FloatArr b) →
  wf_arr a → wf_arr b → shape a = shape b →
  ∃ d : arr R,
    wp (give_Eulerian_Lagrangian_Distance x y L) w
       (returns_new w (FloatArr d)) ∧
    shape d = shape a ∧
    aForall (fun t => t <= L / 2)%R d ∧
    (aForall (fun t => Rabs t <= L)%R (amap2 Rminus a b) →
     aForall (fun t => 0 <= t)%R d).
Proof.
  intros Hx Hy Ha Hb Hs.
  exists (amap2 (periodic_distance L) a b). split_and!.
  - by apply give_Eulerian_Lagrangian_Distance_spec.
  - by apply shape_amap2_l.
  - apply aForall_amap2_all. apply periodic_distance_le_half.
  - apply aForall_amap2_impl. apply periodic_distance_nonneg.
Qed.

Lemma give_Eulerian_Lagrangian_Distance_any_input_witness :
  let a := Arr1 [0%R] in
  let b := Arr1 [3%R] in
  let w := World [FloatArr a; FloatArr b] ∅ [] in
  ∃ d : arr R,
    wp (give_Eulerian_Lagrangian_Distance 0 1 4) w
       (returns_new w (FloatArr d)) ∧
    shape d = shape a ∧
    aForall (fun t => t <= 4 / 2)%R d ∧
    (aForall (fun t => Rabs t <= 4)%R (amap2 Rminus a b) →
     aForall (fun t => 0 <= t)%R d).
Proof.
  intros a b w.
  apply (give_Eulerian_Lagrangian_Distance_any_input 4 0 1 a b w).
  - reflexivity.
  - reflexivity.
  - exact I.
  - exact I.
  - reflexivity.
Defined.

Lemma give_NonZero_Delta_Indices_XY_run xLag yLag Nx Ny dx dy supp xs ys w :
  heap w !! xLag = Some (FloatArr (Arr1 xs)) →
  heap w !! yLag = Some (FloatArr (Arr1 ys)) →
  (0 ≤ supp)%Z →
  let k := Z.to_nat supp in
  wp (give_NonZero_Delta_Indices_XY xLag yLag Nx Ny dx dy supp) w
     (fun p w' =>
        grows w w' ∧ length (heap w) ≤ p.1 ∧ length (heap w) ≤ p.2 ∧
        heap w' !! p.1
          = Some (IntArr (Arr2 (k * k)
                    ((fun r => Rtrunc <$> mjoin (replicate k r))
                       <$> (index_row Nx dx supp <$> xs)))) ∧
        heap w' !! p.2
          = Some (IntArr (Arr2 (k * k)
                    ((fun r => Rtrunc <$> mjoin (replicate k <$> r))
                       <$> (index_row Ny dy supp <$> ys))))).
Proof.
  intros Hx Hy Hsupp k. unfold give_NonZero_Delta_Indices_XY.
  apply wp_bind. eapply wp_mono;
    [by apply (give_1D_NonZero_Delta_Indices_spec xLag Nx dx supp xs)|].
  intros l1 w1 Hw1. pose proof (returns_new_grows _ _ _ _ Hw1) as Hg1.
  destruct Hw1 as (_ & Hl1lo & Hl1 & _).
  apply wp_bind. eapply wp_read; [done|]. simpl as_float.
  apply wp_bind, wp_np_tile; [done..|]. change (Z.to_nat 1) with 1. fold k.
  apply wp_bind, wp_alloc.
  apply wp_bind. eapply wp_mono.
  { apply (give_1D_NonZero_Delta_Indices_spec yLag Ny dy supp ys); [|done].
    apply lookup_extend_old. by eapply grows_lookup. }
  intros l2 w2 Hw2. pose proof (returns_new_grows _ _ _ _ Hw2) as Hg2.
  destruct Hw2 as (_ & _ & Hl2 & _).
  apply wp_bind. eapply wp_read; [done|]. simpl as_float.
  apply wp_bind. eapply wp_np_repeat_axis1; [reflexivity|done|].
  apply wp_bind, wp_alloc.
  apply wp_bind. eapply wp_read.
  { apply lookup_extend_old. eapply grows_lookup; [done|].
    apply lookup_extend_new0. }
  simpl as_float.
  apply wp_bind, wp_alloc.
  apply wp_bind. eapply wp_read.
  { apply lookup_extend_old, lookup_extend_new0. }
  simpl as_float.
  apply wp_bind, wp_alloc. apply wp_ret.
  rewrite !extend_extend. cbn [app]. rewrite !length_heap_extend. cbn [length].
  assert (Hgrow : grows w (extend w2 [FloatArr
             (Arr2 (k * k) ((fun r => mjoin (replicate k <$> r))
                              <$> (index_row Ny dy supp <$> ys)));
             IntArr (amap Rtrunc (tile 1 k
                       (Arr2 k (index_row Nx dx supp <$> xs))));
             IntArr (amap Rtrunc
                       (Arr2 (k * k) ((fun r => mjoin (replicate k <$> r))
                              <$> (index_row Ny dy supp <$> ys))))])).
  { eapply grows_trans; [done|]. eapply grows_trans; [apply grows_extend|].
    eapply grows_trans; [done|]. apply grows_extend. }
  pose proof (prefix_length _ _ (proj1 Hg1)) as Hlen1.
  pose proof (prefix_length _ _ (proj1 Hg2)) as Hlen2.
  rewrite length_heap_extend in Hlen2. cbn [length] in Hlen2.
  split_and!; cbn [fst snd].
  - exact Hgrow.
  - lia.
  - lia.
  - rewrite lookup_extend_new. simpl. do 3 f_equal.
    by rewrite app_nil_r, <-!list_fmap_compose.
  - rewrite lookup_extend_new. simpl. do 3 f_equal.
    by rewrite <-!list_fmap_compose.
Qed.

Lemma lookup_total_tiled `{!Inhabited X} k (r : list X) a b :
  length r = k → a < k → b < k →
  mjoin (replicate k r) !!! (b * k + a) = r !!! a.
Proof.
  intros Hr Ha Hb. apply list_lookup_total_correct.
  apply (join_lookup_Some_same_length' k); [by apply Forall_replicate|done|].
  exists r. split; [by apply lookup_replicate_2|].
  apply list_lookup_lookup_total_lt. lia.
Qed.

Lemma lookup_total_repeated `{!Inhabited X} k (r : list X) a b :
  b < length r → a < k →
  mjoin (replicate k <$> r) !!! (b * k + a) = r !!! b.
Proof.
  intros Hb Ha. apply list_lookup_total_correct.
  apply (join_lookup_Some_same_length' k).
  - apply Forall_fmap, Forall_true. intros x. apply length_replicate.
  - done.
  - exists (replicate k (r !!! b)). split.
    + rewrite list_lookup_fmap, (list_lookup_lookup_total_lt r b) by done. done.
    + by apply lookup_replicate_2.
Qed.

(** X22.  The stencil of a point.  For coordinates in one-dimensional
    arrays, [1 <= Nx, Ny < 2^52], [dx, dy > 0] and [supp >= 0],
    [give_NonZero_Delta_Indices_XY] returns two new integer arrays with a
    row of [supp * supp] entries for each point, the x-indices in
    [{0, ..., Nx-1}] and the y-indices in [{0, ..., Ny-1}].  They are laid
    out from the rows [rx] and [ry] that [give_1D_NonZero_Delta_Indices]
    returns for the x- and the y-coordinates: at position [b * supp + a] of
    the row of point [i] stand [rx[i,a]] and [ry[i,b]], cast to integers,
    so that a row runs through every pair of an x-index and a y-index of
    the point, the x-index changing fastest. *)
Theorem give_NonZero_Delta_Indices_XY_stencil
    (xLag yLag : loc) (Nx Ny : Z) (dx dy : R) (supp : Z) (xs ys : list R)
    (w : world) :
  heap w !! xLag = Some (FloatArr (Arr1 xs)) →
  heap w !! yLag = Some (FloatArr (Arr1 ys)) →
  (1 ≤ Nx < 2 ^ 52)%Z → (1 ≤ Ny < 2 ^ 52)%Z → (0 < dx)%R → (0 < dy)%R →
  (0 ≤ supp)%Z →
  let k := Z.to_nat supp in
  ∃ (rx ry : list (list R)) (xi yi : list (list Z)),
    wp (give_1D_NonZero_Delta_Indices xLag Nx dx supp) w
       (returns_new w (FloatArr (Arr2 k rx))) ∧
    wp (give_1D_NonZero_Delta_Indices yLag Ny dy supp) w
       (returns_new w (FloatArr (Arr2 k ry))) ∧
    wp (give_NonZero_Delta_Indices_XY xLag yLag Nx Ny dx dy supp) w
       (fun p w' =>
          grows w w' ∧ heap w !! p.1 = None ∧ heap w !! p.2 = None ∧
          heap w' !! p.1 = Some (IntArr (Arr2 (k * k) xi)) ∧
          heap w' !! p.2 = Some (IntArr (Arr2 (k * k) yi))) ∧
    length xi = length xs ∧ length yi = length ys ∧
    Forall (Forall (fun i => 0 ≤ i < Nx)%Z) xi ∧
    Forall (Forall (fun i => 0 ≤ i < Ny)%Z) yi ∧
    (∀ i a b, i < length xs → a < k → b < k →
       (xi !!! i) !!! (b * k + a) = Rtrunc ((rx !!! i) !!! a)) ∧
    (∀ i a b, i < length ys → a < k → b < k →
       (yi !!! i) !!! (b * k + a) = Rtrunc ((ry !!! i) !!! b)).
Proof.
  intros Hx Hy [HNx _] [HNy _] _ _ Hsupp k.
  assert (Hrange : ∀ N d p, (1 ≤ N)%Z →
            Forall (fun t => 0 <= t < IZR N)%R (index_row N d supp p)).
  { intros N d p HN. unfold index_row. apply Forall_fmap, Forall_true.
    intros j. simpl. apply py_mod_range. apply IZR_lt. lia. }
  exists (index_row Nx dx supp <$> xs), (index_row Ny dy supp <$> ys).
  eexists _, _. split_and!.
  - by apply give_1D_NonZero_Delta_Indices_spec.
  - by apply give_1D_NonZero_Delta_Indices_spec.
  - eapply wp_mono;
      [by apply (give_NonZero_Delta_Indices_XY_run xLag yLag Nx Ny dx dy supp
                   xs ys w)|].
    intros [l1 l2] w' (Hg & Hl1 & Hl2 & H1 & H2). cbn [fst snd] in *.
    split_and!; [done|by apply lookup_ge_None|by apply lookup_ge_None| |].
    + exact H1.
    + exact H2.
  - by rewrite !length_fmap.
  - by rewrite !length_fmap.
  - apply Forall_fmap, Forall_fmap, Forall_true. intros p. simpl.
    apply Forall_fmap, Forall_mjoin_replicate.
    eapply Forall_impl; [by apply Hrange|]. intros t. apply Rtrunc_range.
  - apply Forall_fmap, Forall_fmap, Forall_true. intros p. simpl.
    apply Forall_fmap, Forall_mjoin_fmap_replicate.
    eapply Forall_impl; [by apply Hrange|]. intros t. apply Rtrunc_range.
  - intros i a b Hi Ha Hb.
    rewrite <-list_fmap_compose.
    rewrite !(list_lookup_total_fmap _ xs i) by done. simpl.
    rewrite (list_lookup_total_fmap Rtrunc
               (mjoin (replicate k (index_row Nx dx supp (xs !!! i))))
               (b * k + a))
      by (rewrite length_mjoin_replicate, length_index_row; fold k; nia).
    f_equal. apply lookup_total_tiled; [apply length_index_row|done..].
  - intros i a b Hi Ha Hb.
    rewrite <-list_fmap_compose.
    rewrite !(list_lookup_total_fmap _ ys i) by done. simpl.
    assert (Hlr : length (mjoin (replicate k <$> index_row Ny dy supp (ys !!! i)))
                  = k * k).
    { rewrite length_mjoin_fmap_replicate, length_index_row. done. }
    rewrite (list_lookup_total_fmap Rtrunc
               (mjoin (replicate k <$> index_row Ny dy supp (ys !!! i)))
               (b * k + a))
      by (rewrite Hlr; nia).
    f_equal. apply lookup_total_repeated; [|done].
    by rewrite length_index_row.
Qed.

Lemma give_NonZero_Delta_Indices_XY_stencil_witness :
  let w := World [FloatArr (Arr1 [1%R]); FloatArr (Arr1 [2%R])] ∅ [] in
  let k := Z.to_nat 2 in
  ∃ (rx ry : list (list R)) (xi yi : list (list Z)),
    wp (give_1D_NonZero_Delta_Indices 0 4 1 2) w
       (returns_new w (FloatArr (Arr2 k rx))) ∧
    wp (give_1D_NonZero_Delta_Indices 1 4 1 2) w
       (returns_new w (FloatArr (Arr2 k ry))) ∧
    wp (give_NonZero_Delta_Indices_XY 0 1 4 4 1 1 2) w
       (fun p w' =>
          grows w w' ∧ heap w !! p.1 = None ∧ heap w !! p.2 = None ∧
          heap w' !! p.1 = Some (IntArr (Arr2 (k * k) xi)) ∧
          heap w' !! p.2 = Some (IntArr (Arr2 (k * k) yi))) ∧
    length xi = length [1%R] ∧ length yi = length [2%R] ∧
    Forall (Forall (fun i => 0 ≤ i < 4)%Z) xi ∧
    Forall (Forall (fun i => 0 ≤ i < 4)%Z) yi ∧
    (∀ i a b, i < length [1%R] → a < k → b < k →
       (xi !!! i) !!! (b * k + a) = Rtrunc ((rx !!! i) !!! a)) ∧
    (∀ i a b, i < length [2%R] → a < k → b < k →
       (yi !!! i) !!! (b * k + a) = Rtrunc ((ry !!! i) !!! b)).
Proof.
  intros w.
  apply (give_NonZero_Delta_Indices_XY_stencil 0 1 4 4 1 1 2 [1%R] [2%R] w).
  - reflexivity.
  - reflexivity.
  - lia.
  - lia.
  - lra.
  - lra.
  - lia.
Defined.

(* ================================================================== *)
(** ** The move of the Lagrangian points, for every velocity field *)

Lemma wp_fancy2_mat (P : R -> Prop) u yi xi ny nx r c w Q :
  is_mat ny nx P u →
  is_mat r c (fun k => 0 ≤ k < Z.of_nat ny)%Z yi →
  is_mat r c (fun k => 0 ≤ k < Z.of_nat nx)%Z xi →
  (∀ d, is_mat r c P d → Q d w) →
  wp (fancy2 u (IntArr yi) (IntArr xi)) w Q.
Proof.
  intros (rows & -> & Hny & Hrows) Hyi Hxi HQ. unfold fancy2.
  destruct (is_mat_azip r c _ _
              (fun p : Z * Z => (0 ≤ p.1 < Z.of_nat ny ∧ 0 ≤ p.2 < Z.of_nat nx)%Z)
              (fun i j => (i, j)) yi xi Hyi Hxi) as (p & Hp & Hpmat); [done|].
  apply wp_bind. eapply wp_orraise; [done|].
  edestruct (is_mat_amapM r c _ P
               (fun '(i, j) =>
                  i' ← pyidx (length rows) i; j' ← pyidx nx j;
                  row ← rows !! i'; row !! j') p Hpmat) as (d & Hd & Hmat).
  { intros [i j] [Hi Hj]. simpl in Hi, Hj.
    rewrite Hny, !pyidx_nonneg by done. simpl.
    destruct (lookup_lt_is_Some_2 rows (Z.to_nat i)) as [row Hrow]; [lia|].
    rewrite Hrow. simpl.
    eapply Forall_lookup_1 in Hrows as [Hlen HP]; [|done].
    destruct (lookup_lt_is_Some_2 row (Z.to_nat j)) as [t Ht]; [lia|].
    exists t. split; [done|]. by eapply Forall_lookup_1 in HP. }
  eapply wp_orraise; [done|]. by apply HQ.
Qed.

Lemma wp_np_sum1_mat (P : R -> Prop) r c a w Q :
  is_mat r c P a →
  (∀ z, length z = r → Q (Arr1 z) w) →
  wp (np_sum1 a) w Q.
Proof.
  intros (rows & -> & Hr & Hrows) HQ. unfold np_sum1. apply wp_ret, HQ.
  by rewrite length_fmap.
Qed.

(** The integral of the velocity against the kernel: one entry for each
    point. *)
Lemma give_Me_Perturbed_Distance_shape
    u v dx dy delta_X delta_Y xInds yInds w ua va dX dY xi yi ny nx nb c :
  heap w !! u = Some (FloatArr ua) → heap w !! v = Some (FloatArr va) →
  is_mat ny nx (fun _ => True) ua → is_mat ny nx (fun _ => True) va →
  heap w !! delta_X = Some (FloatArr dX) → heap w !! delta_Y = Some (FloatArr dY) →
  is_mat nb c (fun _ => True) dX → is_mat nb c (fun _ => True) dY →
  heap w !! xInds = Some (IntArr xi) → heap w !! yInds = Some (IntArr yi) →
  is_mat nb c (fun k => 0 ≤ k < Z.of_nat nx)%Z xi →
  is_mat nb c (fun k => 0 ≤ k < Z.of_nat ny)%Z yi →
  wp (give_Me_Perturbed_Distance u v dx dy delta_X delta_Y xInds yInds) w
     (fun p w' =>
        grows w w' ∧
        ∃ zx zy,
          heap w' !! p.1 = Some (FloatArr (Arr1 zx)) ∧
          heap w' !! p.2 = Some (FloatArr (Arr1 zy)) ∧
          length zx = nb ∧ length zy = nb).
Proof.
  intros Hu Hv Hua Hva HdX HdY HmX HmY Hxi Hyi Hmxi Hmyi.
  assert (Hmul : ∀ s t : R, True → True → True) by done.
  unfold give_Me_Perturbed_Distance.
  (* mat_X *)
  apply wp_bind. eapply wp_read; [done|].
  apply wp_bind. eapply wp_load; [done|].
  apply wp_bind. eapply wp_load; [done|]. simpl as_float.
  eapply wp_bind, wp_fancy2_mat; [done..|]. intros g Hg.
  apply wp_bind. eapply wp_read; [done|]. simpl as_float.
  destruct (is_mat_azip nb c _ _ (fun _ => True) Rmult g dX Hg HmX Hmul)
    as (t1 & Ht1 & Hm1).
  apply wp_bind. eapply wp_np_binop; [done|].
  apply wp_bind. eapply wp_read; [done|]. simpl as_float.
  destruct (is_mat_azip nb c _ _ (fun _ => True) Rmult t1 dY Hm1 HmY Hmul)
    as (t2 & Ht2 & Hm2).
  apply wp_bind. eapply wp_np_binop; [done|].
  apply wp_bind, wp_alloc.
  (* mat_Y *)
  apply wp_bind. eapply wp_read; [by apply lookup_extend_old|].
  apply wp_bind. eapply wp_load; [by apply lookup_extend_old|].
  apply wp_bind. eapply wp_load; [by apply lookup_extend_old|]. simpl as_float.
  eapply wp_bind, wp_fancy2_mat; [done..|]. intros g' Hg'.
  apply wp_bind. eapply wp_read; [by apply lookup_extend_old|]. simpl as_float.
  destruct (is_mat_azip nb c _ _ (fun _ => True) Rmult g' dX Hg' HmX Hmul)
    as (t3 & Ht3 & Hm3).
  apply wp_bind. eapply wp_np_binop; [done|].
  apply wp_bind. eapply wp_read; [by apply lookup_extend_old|]. simpl as_float.
  destruct (is_mat_azip nb c _ _ (fun _ => True) Rmult t3 dY Hm3 HmY Hmul)
    as (t4 & Ht4 & Hm4).
  apply wp_bind. eapply wp_np_binop; [done|].
  apply wp_bind, wp_alloc. rewrite extend_extend. cbn [app].
  rewrite !length_heap_extend. cbn [length].
  (* move_X *)
  apply wp_bind. eapply wp_read; [apply lookup_extend_new0|]. simpl as_float.
  eapply wp_bind, wp_np_sum1_mat; [done|]. intros zx Hzx.
  apply wp_bind, wp_alloc. rewrite extend_extend. cbn [app].
  (* move_Y *)
  apply wp_bind. eapply wp_read; [by rewrite lookup_extend_new|]. simpl as_float.
  eapply wp_bind, wp_np_sum1_mat; [done|]. intros zy Hzy.
  apply wp_bind, wp_alloc. rewrite extend_extend. cbn [app].
  apply wp_ret. rewrite !length_heap_extend. cbn [length fst snd].
  split; [apply grows_extend|].
  eexists _, _. split_and!.
  - by rewrite lookup_extend_new.
  - by rewrite lookup_extend_new.
  - by rewrite length_fmap.
  - by rewrite length_fmap.
Qed.

(** X23.  The call returns.  For every grid ([Nx, Ny >= 1],
    [Lx, Ly, dx, dy > 0], [supp >= 0]) with coordinate arrays [x], [y] of
    [Nx] and [Ny] entries, velocity fields [u], [v] of shape [(Ny, Nx)] with
    any entries, and position arrays of one length with any entries,
    [please_Move_Lagrangian_Point_Positions] returns two new arrays with one
    entry for each point; in the non-porous setting every entry of
    [xL_Next] lies between [0] and [Lx] and every entry of [yL_Next]
    between [0] and [Ly] (the bounds included: the float64 remainder of a
    tiny negative number is the period itself). *)
Theorem please_Move_Lagrangian_Point_Positions_returns
    (u v xL_P yL_P xL_H yL_H x y : loc) (dt : R) (grid_Info : grid)
    (porous_Yes : bool) (w : world)
    (ua va : arr R) (xp yp xh yh xs ys : list R) :
  (1 ≤ grid_Nx grid_Info)%Z → (1 ≤ grid_Ny grid_Info)%Z →
  (0 < grid_Lx grid_Info)%R → (0 < grid_Ly grid_Info)%R →
  (0 < grid_dx grid_Info)%R → (0 < grid_dy grid_Info)%R →
  (0 ≤ grid_supp grid_Info)%Z →
  heap w !! u = Some (FloatArr ua) → heap w !! v = Some (FloatArr va) →
  is_mat (Z.to_nat (grid_Ny grid_Info)) (Z.to_nat (grid_Nx grid_Info))
         (fun _ => True) ua →
  is_mat (Z.to_nat (grid_Ny grid_Info)) (Z.to_nat (grid_Nx grid_Info))
         (fun _ => True) va →
  heap w !! xL_P = Some (FloatArr (Arr1 xp)) →
  heap w !! yL_P = Some (FloatArr (Arr1 yp)) →
  heap w !! xL_H = Some (FloatArr (Arr1 xh)) →
  heap w !! yL_H = Some (FloatArr (Arr1 yh)) →
  length xh = length xp → length yh = length xp → length yp = length xp →
  heap w !! x = Some (FloatArr (Arr1 xs)) →
  heap w !! y = Some (FloatArr (Arr1 ys)) →
  length xs = Z.to_nat (grid_Nx grid_Info) →
  length ys = Z.to_nat (grid_Ny grid_Info) →
  ∃ xL_Next yL_Next w' xn yn,
    please_Move_Lagrangian_Point_Positions
      u v xL_P yL_P xL_H yL_H x y dt grid_Info porous_Yes w
    = (Ret (xL_Next, yL_Next), w') ∧
    heap w !! xL_Next = None ∧ heap w !! yL_Next = None ∧
    heap w' !! xL_Next = Some (FloatArr (Arr1 xn)) ∧
    heap w' !! yL_Next = Some (FloatArr (Arr1 yn)) ∧
    length xn = length xp ∧ length yn = length xp ∧
    (porous_Yes = false →
     Forall (fun t => 0 <= t <= grid_Lx grid_Info)%R xn ∧
     Forall (fun t => 0 <= t <= grid_Ly grid_Info)%R yn).
Proof.
  destruct grid_Info as [Nx Ny Lx Ly dx dy supp Nb ds]. cbn [grid_Nx grid_Ny
    grid_Lx grid_Ly grid_dx grid_dy grid_supp].
  intros HNx HNy HLx HLy Hdx Hdy Hsupp Hu Hv Hua Hva HxP HyP HxH HyH
    Hlxh Hlyh Hlyp Hx Hy Hlxs Hlys.
  set (nb := length xp) in *.
  set (k := Z.to_nat supp).
  cut (wp (please_Move_Lagrangian_Point_Positions
             u v xL_P yL_P xL_H yL_H x y dt
             (Grid Nx Ny Lx Ly dx dy supp Nb ds) porous_Yes) w
          (fun p w' =>
             ∃ xn yn,
               heap w' !! p.1 = Some (FloatArr (Arr1 xn)) ∧
               heap w' !! p.2 = Some (FloatArr (Arr1 yn)) ∧
               length xn = nb ∧ length yn = nb ∧
               (porous_Yes = false →
                Forall (fun t => 0 <= t <= Lx)%R xn ∧
                Forall (fun t => 0 <= t <= Ly)%R yn))).
  { intros H. apply wp_elim in H as ([xl yl] & w' & Hrun & xn & yn & H).
    destruct (frame_please_Move_Lagrangian_Point_Positions (fun _ => False) w
                u v xL_P yL_P xL_H yL_H x y dt
                (Grid Nx Ny Lx Ly dx dy supp Nb ds) porous_Yes w
                (keeps_start _ w)) as [_ Hfresh].
    rewrite Hrun in Hfresh. destruct (Hfresh _ eq_refl) as [Hf1 Hf2].
    exists xl, yl, w', xn, yn.
    split_and!; try apply H; [done|by apply fresh_lookup_None..]. }
  unfold please_Move_Lagrangian_Point_Positions.
  cbn [grid_Nx grid_Ny grid_Lx grid_Ly grid_dx grid_dy grid_supp].
  (* the support indices *)
  apply wp_bind. eapply wp_mono.
  { apply (give_NonZero_Delta_Indices_XY_spec xL_H yL_H Nx Ny dx dy supp xh yh);
      [done|done|lia|lia|done]. }
  intros [xInds yInds] w1 (Hg1 & xi & yi & HxI & HyI & Hmxi & Hmyi).
  cbn [fst snd] in HxI, HyI. fold k in Hmxi, Hmyi.
  rewrite Hlxh in Hmxi. rewrite Hlyh in Hmyi. fold nb in Hmxi, Hmyi.
  carry Hg1.
  (* the current positions, reduced and resized *)
  apply wp_bind. eapply wp_read; [wp_lookup|]. simpl as_float.
  apply wp_bind, wp_alloc.
  apply wp_bind. eapply wp_read; [wp_lookup|]. simpl as_float.
  apply wp_bind, wp_alloc. wp_norm.
  apply wp_bind. eapply wp_read; [wp_lookup|]. simpl as_float.
  apply wp_bind, wp_np_tile; [lia|done|].
  apply wp_bind, wp_alloc. wp_norm.
  change (Z.to_nat 1) with 1. rewrite transpose_tile, to_nat_square by done.
  fold k.
  apply wp_bind. eapply wp_read; [wp_lookup|]. simpl as_float.
  apply wp_bind, wp_np_tile; [lia|done|].
  apply wp_bind, wp_alloc. wp_norm.
  change (Z.to_nat 1) with 1. rewrite transpose_tile, to_nat_square by done.
  fold k.
  set (XR := Arr2 (k * k) (replicate (k * k) <$> ((fun t => py_mod t Lx) <$> xh))).
  set (YR := Arr2 (k * k) (replicate (k * k) <$> ((fun t => py_mod t Ly) <$> yh))).
  assert (HXR : is_mat nb (k * k) (fun _ : R => True) XR).
  { eexists. split_and!; [done|by rewrite !length_fmap|].
    apply Forall_fmap, Forall_true. intros t. simpl.
    split; [apply length_replicate|by apply Forall_true]. }
  assert (HYR : is_mat nb (k * k) (fun _ : R => True) YR).
  { eexists. split_and!; [done|by rewrite !length_fmap|].
    apply Forall_fmap, Forall_true. intros t. simpl.
    split; [apply length_replicate|by apply Forall_true]. }
  (* distX = give_Eulerian_Lagrangian_Distance(x[xInds], xL_H_ReSize, Lx) *)
  apply wp_bind. eapply wp_read; [wp_lookup|]. simpl as_float.
  apply wp_bind. eapply wp_load; [wp_lookup|].
  eapply wp_bind, wp_fancy1.
  { eapply is_mat_weaken; [exact Hmxi|]. intros i Hi. cbv beta in Hi. rewrite Hlxs. lia. }
  intros gx Hgx.
  apply wp_bind, wp_alloc. wp_norm.
  apply wp_bind. eapply wp_mono.
  { eapply (give_Eulerian_Lagrangian_Distance_spec _ _ Lx gx XR);
      [wp_lookup|wp_lookup|by eapply is_mat_wf..|].
    by rewrite (is_mat_shape _ _ _ _ Hgx), (is_mat_shape _ _ _ _ HXR). }
  intros distX w2 Hw2.
  assert (Hg2 : grows w1 w2).
  { eapply grows_trans; [apply grows_extend|]. by eapply returns_new_grows. }
  assert (HYR2 : heap w2 !! (length (heap w1) + 3) = Some (FloatArr YR)).
  { eapply grows_lookup; [by eapply returns_new_grows|]. wp_lookup. }
  destruct Hw2 as (_ & _ & HdistX & _).
  pose proof (is_mat_amap2 _ _ _ _ (fun _ : R => True)
                (periodic_distance Lx) _ _ Hgx HXR (fun _ _ _ _ => I)) as HmdX.
  carry Hg2.
  (* distY *)
  apply wp_bind. eapply wp_read; [wp_lookup|]. simpl as_float.
  apply wp_bind. eapply wp_load; [wp_lookup|].
  eapply wp_bind, wp_fancy1.
  { eapply is_mat_weaken; [exact Hmyi|]. intros i Hi. cbv beta in Hi. rewrite Hlys. lia. }
  intros gy Hgy.
  apply wp_bind, wp_alloc. wp_norm.
  apply wp_bind. eapply wp_mono.
  { eapply (give_Eulerian_Lagrangian_Distance_spec _ _ Ly gy YR);
      [wp_lookup|wp_lookup|by eapply is_mat_wf..|].
    by rewrite (is_mat_shape _ _ _ _ Hgy), (is_mat_shape _ _ _ _ HYR). }
  intros distY w3 Hw3.
  assert (Hg3 : grows w2 w3).
  { eapply grows_trans; [apply grows_extend|]. by eapply returns_new_grows. }
  destruct Hw3 as (_ & _ & HdistY & _).
  pose proof (is_mat_amap2 _ _ _ _ (fun _ : R => True)
                (periodic_distance Ly) _ _ Hgy HYR (fun _ _ _ _ => I)) as HmdY.
  carry Hg3.
  (* delta_X, delta_Y *)
  destruct HmdX as (rx & HrxE & Hrxl & Hrx). rewrite HrxE in *.
  apply wp_bind. eapply wp_mono.
  { eapply (give_Delta_Kernel_spec distX dx (k * k) rx); [wp_lookup| |done].
    simpl. eapply Forall_impl; [done|]. by intros ? [? _]. }
  intros delta_X w4 Hw4. pose proof (returns_new_grows _ _ _ _ Hw4) as Hg4.
  destruct Hw4 as (_ & _ & HdX & _).
  assert (HmX : is_mat nb (k * k) (fun _ : R => True)
                  (amap (fun t => delta_entry dx (Rabs t / dx)) (Arr2 (k * k) rx))).
  { eapply is_mat_amap; [by exists rx|done]. }
  carry Hg4.
  destruct HmdY as (ry & HryE & Hryl & Hry). rewrite HryE in *.
  apply wp_bind. eapply wp_mono.
  { eapply (give_Delta_Kernel_spec distY dy (k * k) ry); [wp_lookup| |done].
    simpl. eapply Forall_impl; [done|]. by intros ? [? _]. }
  intros delta_Y w5 Hw5. pose proof (returns_new_grows _ _ _ _ Hw5) as Hg5.
  destruct Hw5 as (_ & _ & HdY & _).
  assert (HmY : is_mat nb (k * k) (fun _ : R => True)
                  (amap (fun t => delta_entry dy (Rabs t / dy)) (Arr2 (k * k) ry))).
  { eapply is_mat_amap; [by exists ry|done]. }
  carry Hg5.
  (* move_X, move_Y *)
  apply wp_bind. eapply wp_mono.
  { eapply (give_Me_Perturbed_Distance_shape u v dx dy delta_X delta_Y
              xInds yInds w5 ua va _ _ xi yi (Z.to_nat Ny) (Z.to_nat Nx)
              nb (k * k)); try eassumption.
    - eapply is_mat_weaken; [exact Hmxi|]. intros i Hi. cbv beta in Hi. lia.
    - eapply is_mat_weaken; [exact Hmyi|]. intros i Hi. cbv beta in Hi. lia. }
  intros [move_X move_Y] w6 (Hg6 & zx & zy & HmvX & HmvY & Hlzx & Hlzy).
  cbn [fst snd] in HmvX, HmvY.
  carry Hg6.
  (* xL_Next, yL_Next *)
  apply wp_bind. eapply wp_read; [wp_lookup|]. simpl as_float.
  apply wp_bind. eapply wp_read; [wp_lookup|]. simpl as_float.
  apply wp_bind. eapply wp_np_binop.
  { apply azip_same_shape; [done..|]. simpl. by rewrite length_fmap, Hlzx. }
  simpl amap2.
  apply wp_bind, wp_alloc.
  apply wp_bind. eapply wp_read; [wp_lookup|]. simpl as_float.
  apply wp_bind. eapply wp_read; [wp_lookup|]. simpl as_float.
  apply wp_bind. eapply wp_np_binop.
  { apply azip_same_shape; [done..|]. simpl. rewrite length_fmap, Hlzy. congruence. }
  simpl amap2.
  apply wp_bind, wp_alloc. wp_norm.
  assert (Hlx' : length (zip_with Rplus xp (Rmult dt <$> zx)) = nb).
  { rewrite length_zip_with, length_fmap. unfold nb in *. lia. }
  assert (Hly' : length (zip_with Rplus yp (Rmult dt <$> zy)) = nb).
  { rewrite length_zip_with, length_fmap. unfold nb in *. lia. }
  destruct porous_Yes; cbn [negb].
  - apply wp_ret. cbn [fst snd]. eexists _, _.
    split_and!; [wp_lookup|wp_lookup|done|done|done].
  - apply wp_bind. eapply wp_read; [wp_lookup|]. simpl as_float.
    apply wp_bind, wp_alloc. wp_norm.
    apply wp_bind. eapply wp_read; [wp_lookup|]. simpl as_float.
    apply wp_bind, wp_alloc. wp_norm.
    apply wp_ret. cbn [fst snd]. simpl amap. eexists _, _.
    split_and!; [wp_lookup|wp_lookup| | |].
    + by rewrite length_fmap.
    + by rewrite length_fmap.
    + intros _. split; apply Forall_fmap, Forall_true; intros t; simpl.
      * pose proof (py_mod_range t Lx HLx). lra.
      * pose proof (py_mod_range t Ly HLy). lra.
Qed.

Lemma please_Move_Lagrangian_Point_Positions_returns_witness :
  let field := Arr2 2 [[1; 2]; [3; 4]]%R in
  let pt := [(1 / 4)%R] in
  let axis := [0; 1 / 2]%R in
  let w := World [FloatArr field; FloatArr field;
                  FloatArr (Arr1 pt); FloatArr (Arr1 pt);
                  FloatArr (Arr1 pt); FloatArr (Arr1 pt);
                  FloatArr (Arr1 axis); FloatArr (Arr1 axis)] ∅ [] in
  let grid_Info := Grid 2 2 1 1 (1 / 2) (1 / 2) 2 1 (1 / 4) in
  ∃ xL_Next yL_Next w' xn yn,
    please_Move_Lagrangian_Point_Positions 0 1 2 3 4 5 6 7 1 grid_Info false w
    = (Ret (xL_Next, yL_Next), w') ∧
    heap w !! xL_Next = None ∧ heap w !! yL_Next = None ∧
    heap w' !! xL_Next = Some (FloatArr (Arr1 xn)) ∧
    heap w' !! yL_Next = Some (FloatArr (Arr1 yn)) ∧
    length xn = length pt ∧ length yn = length pt ∧
    (false = false →
     Forall (fun t => 0 <= t <= grid_Lx grid_Info)%R xn ∧
     Forall (fun t => 0 <= t <= grid_Ly grid_Info)%R yn).
Proof.
  intros field pt axis w grid_Info.
  assert (Hfield : is_mat 2 2 (fun _ : R => True) field).
  { exists [[1; 2]; [3; 4]]%R. split_and!; [reflexivity..|].
    repeat constructor. }
  apply (please_Move_Lagrangian_Point_Positions_returns
           0 1 2 3 4 5 6 7 1 grid_Info false w field field pt pt pt pt axis axis).
  - simpl. lia.
  - simpl. lia.
  - simpl. lra.
  - simpl. lra.
  - simpl. lra.
  - simpl. lra.
  - simpl. lia.
  - reflexivity.
  - reflexivity.
  - exact Hfield.
  - exact Hfield.
  - reflexivity.
  - reflexivity.
  - reflexivity.
  - reflexivity.
  - reflexivity.
  - reflexivity.
  - reflexivity.
  - reflexivity.
  - reflexivity.
  - reflexivity.
  - reflexivity.
Defined.

(* ================================================================== *)
(** ** Fields that are not square

    [D] and [DD] take the side [length] of the field from its number of
    rows, [u.shape[0]], and use it for the columns as well. *)

Lemma take_front {X} n j (r : list X) :
  j ≤ 2 → 2 ≤ n →
  take (n - 2) (drop j r) = take (n - 2) (drop j (take n r)).
Proof.
  intros Hj Hn. rewrite !take_drop_commute, take_take.
  do 2 f_equal. lia.
Qed.

(** The first [n] columns. *)
Definition leading_columns (n : nat) (rows : list (list R)) : list (list R) :=
  take n <$> rows.

Lemma D_spec_x_wide u dz n c rows w :
  heap w !! u = Some (FloatArr (Arr2 c rows)) →
  length rows = n → Forall (fun r => length r = c) rows → 2 ≤ n → n ≤ c →
  D u dz "x" w
  = (Ret (length (heap w)),
     extend w [FloatArr (Arr2 n (D_rows dz "x" (leading_columns n rows)))]).
Proof.
  intros Hu Hlen Hwf Hn Hc. apply wp_eq. unfold D.
  apply wp_bind. eapply wp_read; [done|]. simpl as_float. cbn [nrows].
  rewrite Hlen. apply wp_bind, wp_alloc.
  apply wp_bind. rewrite bool_decide_eq_true_2 by done.
  (* the first column *)
  apply wp_bind. eapply wp_column; [wp_lookup| |].
  { apply (get_col_total c rows _ 1); [done|by apply pyidx_nonneg; lia|lia]. }
  apply wp_bind. eapply wp_column; [wp_lookup| |].
  { apply (get_col_total c rows _ (n - 1)); [done| |lia].
    rewrite pyidx_nonneg by lia. f_equal. lia. }
  apply wp_bind. eapply wp_np_binop.
  { apply azip_same_shape; [done..|]. simpl. by rewrite !length_fmap. }
  eapply wp_bind, wp_set_col; [wp_lookup|by apply pyidx_nonneg; lia| |].
  { apply fit_vec_same. len. }
  rewrite update_extend_last.
  (* the last column *)
  apply wp_bind. eapply wp_column; [wp_lookup| |].
  { apply (get_col_total c rows _ 0); [done|by apply pyidx_nonneg; lia|lia]. }
  apply wp_bind. eapply wp_column; [wp_lookup| |].
  { apply (get_col_total c rows _ (n - 2)); [done| |lia].
    rewrite pyidx_nonneg by lia. f_equal. lia. }
  apply wp_bind. eapply wp_np_binop.
  { apply azip_same_shape; [done..|]. simpl. by rewrite !length_fmap. }
  eapply wp_bind, wp_set_col; [wp_lookup| | |].
  { apply pyidx_last. lia. }
  { apply fit_vec_same. len. }
  rewrite update_extend_last.
  (* the columns between *)
  apply wp_bind. eapply wp_columns; [wp_lookup| |].
  { apply (col_slice_total c rows _ _ (n - 2) 2); lia. }
  apply wp_bind. eapply wp_columns; [wp_lookup| |].
  { apply (col_slice_total c rows _ _ (n - 2) 0); lia. }
  apply wp_bind. eapply wp_np_binop.
  { apply azip_same_shape; [| |simpl; by rewrite !length_fmap];
      simpl; apply Forall_fmap; (eapply Forall_impl; [exact Hwf|]);
      intros r Hr; simpl; len. }
  simpl amap2. simpl amap.
  eapply wp_set_columns; [wp_lookup| | |].
  { rewrite slice_bounds_inside by lia. reflexivity. }
  { replace (Z.to_nat (Z.of_nat n - 1 - 1)) with (n - 2) by lia.
    apply fit_mat_same; [len|].
    apply Forall_fmap. rewrite zip_with_fmap_same.
    apply Forall_fmap. eapply Forall_impl; [exact Hwf|].
    intros r Hr. simpl. len. }
  rewrite update_extend_last. apply wp_ret. split; [done|].
  do 4 f_equal.
  change (Z.to_nat 0) with 0. change (Z.to_nat 1) with 1.
  replace (replicate n (replicate n 0%R))
    with ((fun _ : list R => replicate n 0%R) <$> rows)
    by (by rewrite <-replicate_as_fmap, Hlen).
  unfold D_rows, leading_columns. rewrite bool_decide_eq_true_2 by done.
  by_rows. apply Forall_fmap_ext_1.
  eapply Forall_impl; [exact Hwf|]. intros r Hr. simpl.
  rewrite fmap_zip_with_both.
  rewrite (take_front n 2 r), (take_front n 0 r) by lia.
  rewrite <-!(lookup_total_take_lt r n) by lia.
  apply (periodic_diff_assemble (diff1 dz) n (take n r)); [done|len|len].
Qed.

Lemma DD_spec_x_wide u dz n c rows w :
  heap w !! u = Some (FloatArr (Arr2 c rows)) →
  length rows = n → Forall (fun r => length r = c) rows → 2 ≤ n → n ≤ c →
  DD u dz "x" w
  = (Ret (length (heap w)),
     extend w [FloatArr (Arr2 n (DD_rows dz "x" (leading_columns n rows)))]).
Proof.
  intros Hu Hlen Hwf Hn Hc. apply wp_eq. unfold DD.
  apply wp_bind. eapply wp_read; [done|]. simpl as_float. cbn [nrows].
  rewrite Hlen. apply wp_bind, wp_alloc.
  apply wp_bind. rewrite bool_decide_eq_true_2 by done.
  (* the first column *)
  apply wp_bind. eapply wp_column; [wp_lookup| |].
  { apply (get_col_total c rows _ 1); [done|by apply pyidx_nonneg; lia|lia]. }
  apply wp_bind. eapply wp_column; [wp_lookup| |].
  { apply (get_col_total c rows _ 0); [done|by apply pyidx_nonneg; lia|lia]. }
  apply wp_bind. eapply wp_np_binop.
  { apply azip_same_shape; [done..|]. shp. }
  apply wp_bind. eapply wp_column; [wp_lookup| |].
  { apply (get_col_total c rows _ (n - 1)); [done| |lia].
    rewrite pyidx_nonneg by lia. f_equal. lia. }
  apply wp_bind. eapply wp_np_binop.
  { apply azip_same_shape; [done..|]. shp. }
  eapply wp_bind, wp_set_col; [wp_lookup|by apply pyidx_nonneg; lia| |].
  { apply fit_vec_same. len. }
  rewrite update_extend_last.
  (* the last column *)
  apply wp_bind. eapply wp_column; [wp_lookup| |].
  { apply (get_col_total c rows _ 0); [done|by apply pyidx_nonneg; lia|lia]. }
  apply wp_bind. eapply wp_column; [wp_lookup| |].
  { apply (get_col_total c rows _ (n - 1)); [done| |lia].
    rewrite pyidx_nonneg by lia. f_equal. lia. }
  apply wp_bind. eapply wp_np_binop.
  { apply azip_same_shape; [done..|]. shp. }
  apply wp_bind. eapply wp_column; [wp_lookup| |].
  { apply (get_col_total c rows _ (n - 2)); [done| |lia].
    rewrite pyidx_nonneg by lia. f_equal. lia. }
  apply wp_bind. eapply wp_np_binop.
  { apply azip_same_shape; [done..|]. shp. }
  eapply wp_bind, wp_set_col; [wp_lookup| | |].
  { apply pyidx_last. lia. }
  { apply fit_vec_same. len. }
  rewrite update_extend_last.
  (* the columns between *)
  apply wp_bind. eapply wp_columns; [wp_lookup| |].
  { apply (col_slice_total c rows _ _ (n - 2) 2); lia. }
  apply wp_bind. eapply wp_columns; [wp_lookup| |].
  { apply (col_slice_total c rows _ _ (n - 2) 1); lia. }
  assert (Hsl : ∀ j, j ≤ 2 →
            Forall (fun r : list R => length r = n - 2)
                   ((fun r : list R => take (n - 2) (drop j r)) <$> rows)).
  { intros j Hj. apply Forall_fmap. eapply Forall_impl; [exact Hwf|].
    intros r Hr. simpl. len. }
  apply wp_bind. eapply wp_np_binop.
  { apply azip_same_shape; [simpl; apply Hsl; lia|apply wf_amap; simpl; apply Hsl; lia|].
    shp. }
  apply wp_bind. eapply wp_columns; [wp_lookup| |].
  { apply (col_slice_total c rows _ _ (n - 2) 0); lia. }
  apply wp_bind. eapply wp_np_binop.
  { apply azip_same_shape; [|simpl; apply Hsl; lia|shp].
    simpl. apply Forall_length_zip_with2; [apply Hsl; lia|].
    apply Forall_length_fmap2. apply Hsl; lia. }
  simpl amap2. simpl amap.
  eapply wp_set_columns; [wp_lookup| | |].
  { rewrite slice_bounds_inside by lia. reflexivity. }
  { replace (Z.to_nat (Z.of_nat n - 1 - 1)) with (n - 2) by lia.
    apply fit_mat_same; [len|].
    apply Forall_length_fmap2, Forall_length_zip_with2; [|apply Hsl; lia].
    apply Forall_length_zip_with2; [apply Hsl; lia|].
    apply Forall_length_fmap2. apply Hsl; lia. }
  rewrite update_extend_last. apply wp_ret. split; [done|].
  do 4 f_equal.
  change (Z.to_nat 0) with 0. change (Z.to_nat 1) with 1.
  replace (replicate n (replicate n 0%R))
    with ((fun _ : list R => replicate n 0%R) <$> rows)
    by (by rewrite <-replicate_as_fmap, Hlen).
  unfold DD_rows, leading_columns. rewrite bool_decide_eq_true_2 by done.
  by_rows. apply Forall_fmap_ext_1.
  eapply Forall_impl; [exact Hwf|]. intros r Hr. unfold compose. cbv beta.
  change (fun t : R => (t / (dz * (dz * 1)))%R) with (fun t : R => (t / dz ^ 2)%R).
  rewrite second_difference_row.
  rewrite (take_front n 2 r), (take_front n 1 r), (take_front n 0 r) by lia.
  rewrite <-!(lookup_total_take_lt r n) by lia.
  apply (periodic_diff2_assemble (diff2 dz) n (take n r)); [done|len|len].
Qed.

Lemma entry_leading_columns n rows i j :
  i < length rows → j < n →
  entry (leading_columns n rows) i j = entry rows i j.
Proof.
  intros Hi Hj. unfold entry, leading_columns.
  rewrite (list_lookup_total_fmap (take n) rows i) by done.
  by apply lookup_total_take_lt.
Qed.

(** X24.  More columns than rows.  On a field with [n >= 2] rows and more
    than [n] columns, [D] and [DD] with the axis ['x'] return an array of
    shape [(n, n)]: the differences of the first [n] columns alone, with
    column [n - 1] as the left neighbour of column [0] and column [0] as
    the right neighbour of column [n - 1].  The columns from [n] on are not
    read, and no exception tells of it. *)
Theorem D_DD_wide_field
    (u : loc) (dz : R) (c : nat) (rows : list (list R)) (w : world) :
  heap w !! u = Some (FloatArr (Arr2 c rows)) →
  Forall (fun r => length r = c) rows →
  2 ≤ length rows → length rows < c → dz ≠ 0%R →
  let n := length rows in
  ∃ ux uxx : list (list R),
    wp (D u dz "x") w (returns_new w (FloatArr (Arr2 n ux))) ∧
    wp (DD u dz "x") w (returns_new w (FloatArr (Arr2 n uxx))) ∧
    length ux = n ∧ Forall (fun r => length r = n) ux ∧
    length uxx = n ∧ Forall (fun r => length r = n) uxx ∧
    ∀ i j, i < n → j < n →
      entry ux i j
      = ((entry rows i ((j + 1) `mod` n) - entry rows i ((j + n - 1) `mod` n))
         / (2 * dz))%R ∧
      entry uxx i j
      = ((entry rows i ((j + 1) `mod` n) - 2 * entry rows i j
          + entry rows i ((j + n - 1) `mod` n)) / dz ^ 2)%R.
Proof.
  intros Hu Hwf Hn Hc _ n.
  set (block := leading_columns n rows).
  assert (Hlb : length block = n) by (unfold block, leading_columns; by len).
  assert (Hwb : Forall (fun r => length r = n) block).
  { unfold block, leading_columns. apply Forall_fmap.
    eapply Forall_impl; [exact Hwf|]. intros r Hr. simpl. len. }
  destruct (is_mat_rows _ _ _ _ (is_mat_D_rows dz "x" n block Hlb Hwb ltac:(lia)))
    as [Hlx Hwx].
  destruct (is_mat_rows _ _ _ _ (is_mat_DD_rows dz "x" n block Hlb Hwb ltac:(lia)))
    as [Hlxx Hwxx].
  exists (D_rows dz "x" block), (DD_rows dz "x" block).
  split_and!; try done.
  - eapply wp_intro; [apply (D_spec_x_wide u dz n c rows w); (done || lia)|].
    rewrite <-(Nat.add_0_r (length (heap w))). by apply returns_new_extend.
  - eapply wp_intro; [apply (DD_spec_x_wide u dz n c rows w); (done || lia)|].
    rewrite <-(Nat.add_0_r (length (heap w))). by apply returns_new_extend.
  - intros i j Hi Hj.
    assert (H1 : (j + 1) `mod` n < n) by (apply Nat.mod_upper_bound; lia).
    assert (H2 : (j + n - 1) `mod` n < n) by (apply Nat.mod_upper_bound; lia).
    rewrite (D_rows_x_entry n block Hlb Hwb), (DD_rows_x_entry n block Hlb Hwb)
      by done.
    unfold block. by rewrite !entry_leading_columns by done.
Qed.

Lemma D_DD_wide_field_witness :
  let rows := [[1; 2; 3]; [4; 5; 6]]%R in
  let w := World [FloatArr (Arr2 3 rows)] ∅ [] in
  let n := length rows in
  ∃ ux uxx : list (list R),
    wp (D 0 1 "x") w (returns_new w (FloatArr (Arr2 n ux))) ∧
    wp (DD 0 1 "x") w (returns_new w (FloatArr (Arr2 n uxx))) ∧
    length ux = n ∧ Forall (fun r => length r = n) ux ∧
    length uxx = n ∧ Forall (fun r => length r = n) uxx ∧
    ∀ i j, i < n → j < n →
      entry ux i j
      = ((entry rows i ((j + 1) `mod` n) - entry rows i ((j + n - 1) `mod` n))
         / (2 * 1))%R ∧
      entry uxx i j
      = ((entry rows i ((j + 1) `mod` n) - 2 * entry rows i j
          + entry rows i ((j + n - 1) `mod` n)) / 1 ^ 2)%R.
Proof.
  intros rows w.
  apply (D_DD_wide_field 0 1 3 rows w).
  - reflexivity.
  - repeat constructor.
  - simpl. lia.
  - simpl. lia.
  - lra.
Defined.

Lemma fit_vec_mismatch n (v : list R) :
  length v ≠ n → length v ≠ 1 → fit_vec n (Arr1 v) = None.
Proof.
  intros Hn H1. unfold fit_vec. simpl.
  rewrite stretch_other by done. by rewrite decide_False.
Qed.

Section non_square.
Variables (u : loc) (dz : R) (c : nat) (rows : list (list R)) (w : world).
Hypothesis Hu : heap w !! u = Some (FloatArr (Arr2 c rows)).
Hypothesis Hwf : Forall (fun r => length r = c) rows.
Hypothesis Hn : 2 ≤ length rows.
Hypothesis Hc : 2 ≤ c.

Lemma D_x_short_rows :
  c < length rows →
  D u dz "x" w
  = (Raise IndexError, extend w [np_zeros (length rows) (length rows)]).
Proof using Hu Hwf Hn Hc.
  intros Hlt. unfold D.
  step ltac:(eapply wp_read; [done|]). simpl as_float. cbn [nrows].
  step ltac:(apply wp_alloc).
  apply bind_raise_eq. rewrite bool_decide_eq_true_2 by done.
  step ltac:(eapply wp_column;
             [wp_lookup
             |apply (get_col_total c rows _ 1);
              [done|by apply pyidx_nonneg; lia|lia]|]).
  apply bind_raise_eq.
  apply (column_raises _ _ c rows);
    [by apply lookup_extend_old|apply pyidx_out; lia].
Qed.

Lemma DD_x_short_rows :
  c < length rows →
  DD u dz "x" w
  = (Raise IndexError, extend w [np_zeros (length rows) (length rows)]).
Proof using Hu Hwf Hn Hc.
  intros Hlt. unfold DD.
  step ltac:(eapply wp_read; [done|]). simpl as_float. cbn [nrows].
  step ltac:(apply wp_alloc).
  apply bind_raise_eq. rewrite bool_decide_eq_true_2 by done.
  step ltac:(eapply wp_column;
             [wp_lookup
             |apply (get_col_total c rows _ 1);
              [done|by apply pyidx_nonneg; lia|lia]|]).
  step ltac:(eapply wp_column;
             [wp_lookup
             |apply (get_col_total c rows _ 0);
              [done|by apply pyidx_nonneg; lia|lia]|]).
  step ltac:(eapply wp_np_binop; [apply azip_same_shape; [done..|]; shp|]).
  apply bind_raise_eq.
  apply (column_raises _ _ c rows);
    [by apply lookup_extend_old|apply pyidx_out; lia].
Qed.

Lemma D_y_non_square :
  c ≠ length rows →
  D u dz "y" w
  = (Raise ValueError, extend w [np_zeros (length rows) (length rows)]).
Proof using Hu Hwf Hn Hc.
  intros Hne. set (n := length rows) in *.
  assert (Hrow : ∀ i, i < n → length (rows !!! i) = c).
  { intros i Hi. by apply length_lookup_total. }
  unfold D.
  step ltac:(eapply wp_read; [done|]). simpl as_float. cbn [nrows]. fold n.
  step ltac:(apply wp_alloc).
  apply bind_raise_eq. rewrite bool_decide_eq_false_2 by done.
  rewrite bool_decide_eq_true_2 by done.
  step ltac:(eapply wp_row_of;
             [wp_lookup
             |apply (get_row_total c rows _ 1);
              [by apply pyidx_nonneg; lia|lia]|]).
  step ltac:(eapply wp_row_of;
             [wp_lookup
             |apply (get_row_total c rows _ (n - 1));
              [rewrite pyidx_nonneg by lia; f_equal; lia|lia]|]).
  step ltac:(eapply wp_np_binop;
             [apply azip_same_shape; [done..|]; simpl;
              by rewrite !Hrow by lia|]).
  apply bind_raise_eq. unfold set_row, modify.
  step ltac:(eapply wp_load; [apply lookup_extend_new0|]).
  unfold np_zeros. apply bind_raise_eq.
  step ltac:(eapply wp_orraise; [by apply pyidx_nonneg; len|]).
  apply bind_raise_eq. simpl amap2. simpl amap.
  rewrite fit_vec_mismatch; [done|len; rewrite !Hrow by lia; lia..].
Qed.

Lemma DD_y_non_square :
  c ≠ length rows →
  DD u dz "y" w
  = (Raise ValueError, extend w [np_zeros (length rows) (length rows)]).
Proof using Hu Hwf Hn Hc.
  intros Hne. set (n := length rows) in *.
  assert (Hrow : ∀ i, i < n → length (rows !!! i) = c).
  { intros i Hi. by apply length_lookup_total. }
  unfold DD.
  step ltac:(eapply wp_read; [done|]). simpl as_float. cbn [nrows]. fold n.
  step ltac:(apply wp_alloc).
  apply bind_raise_eq. rewrite bool_decide_eq_false_2 by done.
  rewrite bool_decide_eq_true_2 by done.
  step ltac:(eapply wp_row_of;
             [wp_lookup
             |apply (get_row_total c rows _ 1);
              [by apply pyidx_nonneg; lia|lia]|]).
  step ltac:(eapply wp_row_of;
             [wp_lookup
             |apply (get_row_total c rows _ 0);
              [by apply pyidx_nonneg; lia|lia]|]).
  step ltac:(eapply wp_np_binop;
             [apply azip_same_shape; [done..|]; simpl; len;
              by rewrite !Hrow by lia|]).
  step ltac:(eapply wp_row_of;
             [wp_lookup
             |apply (get_row_total c rows _ (n - 1));
              [rewrite pyidx_nonneg by lia; f_equal; lia|lia]|]).
  step ltac:(eapply wp_np_binop;
             [apply azip_same_shape; [done..|]; simpl; len;
              rewrite !Hrow by lia; f_equal; lia|]).
  apply bind_raise_eq. unfold set_row, modify.
  step ltac:(eapply wp_load; [apply lookup_extend_new0|]).
  unfold np_zeros. apply bind_raise_eq.
  step ltac:(eapply wp_orraise; [by apply pyidx_nonneg; len|]).
  apply bind_raise_eq. simpl amap2. simpl amap.
  rewrite fit_vec_mismatch; [done|len; rewrite !Hrow by lia; lia..].
Qed.
End non_square.

(** X25.  Other shapes are refused.  On a field with [n >= 2] rows and
    [c >= 2] columns, [D] and [DD] with the axis ['x'] raise [IndexError]
    when [c < n], at the read of [u[:,length-1]]; with the axis ['y'] they
    raise [ValueError] whenever [c <> n], at the assignment of a row of [c]
    entries to the row [u_z[0,:]] of [n] entries.  By then the array of
    zeros has been allocated; nothing else has happened. *)
Theorem D_DD_raise_on_non_square_field
    (u : loc) (dz : R) (c : nat) (rows : list (list R)) (w : world) :
  heap w !! u = Some (FloatArr (Arr2 c rows)) →
  Forall (fun r => length r = c) rows →
  2 ≤ length rows → 2 ≤ c →
  let w' := extend w [np_zeros (length rows) (length rows)] in
  (c < length rows →
     D u dz "x" w = (Raise IndexError, w') ∧
     DD u dz "x" w = (Raise IndexError, w')) ∧
  (c ≠ length rows →
     D u dz "y" w = (Raise ValueError, w') ∧
     DD u dz "y" w = (Raise ValueError, w')).
Proof.
  intros Hu Hwf Hn Hc w'. split.
  - intros Hlt. split.
    + by apply (D_x_short_rows u dz c rows w).
    + by apply (DD_x_short_rows u dz c rows w).
  - intros Hne. split.
    + by apply (D_y_non_square u dz c rows w).
    + by apply (DD_y_non_square u dz c rows w).
Qed.

Lemma D_DD_raise_on_non_square_field_witness :
  let rows := [[1; 2]; [3; 4]; [5; 6]]%R in
  let w := World [FloatArr (Arr2 2 rows)] ∅ [] in
  let w' := extend w [np_zeros (length rows) (length rows)] in
  (2 < length rows →
     D 0 1 "x" w = (Raise IndexError, w') ∧
     DD 0 1 "x" w = (Raise IndexError, w')) ∧
  (2 ≠ length rows →
     D 0 1 "y" w = (Raise ValueError, w') ∧
     DD 0 1 "y" w = (Raise ValueError, w')).
Proof.
  intros rows w.
  apply (D_DD_raise_on_non_square_field 0 1 2 rows w).
  - reflexivity.
  - repeat constructor.
  - simpl. lia.
  - lia.
Defined.

(** X26.  The transport step needs a square field.  On a concentration
    field with [n >= 2] rows and [c >= 2] columns,
    [please_Update_Adv_Diff_Concentration] raises [IndexError] when
    [c < n], from [D(C,dx,'x')], and [ValueError] when [c > n], from
    [D(C,dy,'y')], whatever the velocity fields: on a grid with
    [Nx <> Ny] no call returns. *)
Theorem please_Update_Adv_Diff_Concentration_needs_square_field
    (C : loc) (dt dx dy : R) (uX uY : loc) (k : R) (c : nat)
    (rows : list (list R)) (w : world) :
  heap w !! C = Some (FloatArr (Arr2 c rows)) →
  Forall (fun r => length r = c) rows →
  2 ≤ length rows → 2 ≤ c →
  (c < length rows →
     ∃ w', please_Update_Adv_Diff_Concentration C dt dx dy uX uY k w
           = (Raise IndexError, w')) ∧
  (length rows < c →
     ∃ w', please_Update_Adv_Diff_Concentration C dt dx dy uX uY k w
           = (Raise ValueError, w')).
Proof.
  intros HC Hwf Hn Hc. unfold please_Update_Adv_Diff_Concentration. split.
  - intros Hlt. eexists. apply bind_raise_eq.
    by apply (D_x_short_rows C dx c rows w).
  - intros Hlt. eexists.
    eapply bind_ret_run;
      [apply (D_spec_x_wide C dx (length rows) c rows w); (done || lia)|].
    apply bind_raise_eq.
    apply (D_y_non_square C dy c rows); [by apply lookup_extend_old|done..|lia].
Qed.

Lemma please_Update_Adv_Diff_Concentration_needs_square_field_witness :
  let rows := [[1; 2; 3]; [4; 5; 6]]%R in
  let w := World [FloatArr (Arr2 3 rows); FloatArr (Arr2 3 rows);
                  FloatArr (Arr2 3 rows)] ∅ [] in
  (3 < length rows →
     ∃ w', please_Update_Adv_Diff_Concentration 0 1 1 1 1 2 1 w
           = (Raise IndexError, w')) ∧
  (length rows < 3 →
     ∃ w', please_Update_Adv_Diff_Concentration 0 1 1 1 1 2 1 w
           = (Raise ValueError, w')).
Proof.
  intros rows w.
  apply (please_Update_Adv_Diff_Concentration_needs_square_field
           0 1 1 1 1 2 1 3 rows w).
  - reflexivity.
  - repeat constructor.
  - simpl. lia.
  - lia.
Defined.

(** *** An odd support *)

(** [%] on an integer plus one half. *)
Lemma py_mod_half (z N : Z) :
  (0 < N)%Z → py_mod (IZR z + 1 / 2) (IZR N) = (IZR (z `mod` N) + 1 / 2)%R.
Proof.
  intros HN. unfold py_mod.
  assert (HNR : (0 < IZR N)%R) by by apply IZR_lt.
  pose proof (Z.mod_pos_bound z N HN) as [Hlo Hhi].
  pose proof (Z.div_mod z N ltac:(lia)) as Hz.
  assert (Hhi' : (z `mod` N + 1 ≤ N)%Z) by lia.
  apply IZR_le in Hlo, Hhi'. rewrite plus_IZR in Hhi'.
  assert (Hz' : IZR z = (IZR N * IZR (z `div` N) + IZR (z `mod` N))%R).
  { rewrite <-mult_IZR, <-plus_IZR. by f_equal. }
  assert (Hq : Zfloor ((IZR z + 1 / 2) / IZR N) = (z `div` N)%Z).
  { apply Zfloor_eq. rewrite Hz'. split.
    - apply Rmult_le_reg_r with (IZR N); [done|].
      unfold Rdiv. rewrite Rmult_assoc, Rinv_l by lra. lra.
    - apply Rmult_lt_reg_r with (IZR N); [done|].
      unfold Rdiv. rewrite Rmult_assoc, Rinv_l by lra. lra. }
  rewrite Hq. rewrite Hz' at 1. lra.
Qed.

(** An integer plus one half is a float64, below [2^52]. *)
Lemma float64_half (z : Z) :
  (Z.abs z < 2 ^ 52)%Z → float64 (IZR z + 1 / 2) = (IZR z + 1 / 2)%R.
Proof.
  intros Hz.
  replace (IZR z + 1 / 2)%R with (IZR (2 * z + 1) * powerRZ 2 (- (1)))%R.
  { apply float64_exact; lia. }
  rewrite plus_IZR, mult_IZR. simpl. lra.
Qed.

(** As long as the sums stay below [2^52], with an odd [supp = 2 h + 1] the
    entries are the half-integers [(b + k - 1) mod N + 1/2] for
    [k = -h, ..., h], where [b] is the floor of the float64 value of
    [p/dx + 1]. *)
Lemma index_row_odd N dx supp p :
  (0 < N)%Z → (0 ≤ supp)%Z → Z.Odd supp →
  (Z.abs (lower_left dx p) + supp < 2 ^ 52)%Z →
  index_row N dx supp p
  = (fun k => IZR ((lower_left dx p + k - 1) `mod` N) + 1 / 2)%R
      <$> seqZ (- (supp `div` 2)) supp.
Proof.
  intros HN Hsupp [h ->] Hb. unfold index_row.
  assert (Hh : ((2 * h + 1) `div` 2)%Z = h).
  { rewrite (Z.mul_comm 2 h). rewrite Z.div_add_l by lia.
    change (1 `div` 2)%Z with 0%Z. lia. }
  rewrite Hh.
  rewrite <-(Z.add_0_r (- h)), <-fmap_add_seqZ, <-list_fmap_compose.
  apply list_fmap_ext. intros i j Hj. simpl.
  apply lookup_seqZ in Hj as [-> Hi].
  set (b := lower_left dx p) in *.
  replace (IZR b + (- IZR (2 * h + 1) / 2 + 1 + IZR (0 + Z.of_nat i)))%R
    with (IZR (b + (- h + (0 + Z.of_nat i))) + 1 / 2)%R.
  2:{ rewrite !plus_IZR, opp_IZR, mult_IZR. lra. }
  rewrite float64_half by lia.
  replace (IZR (b + (- h + (0 + Z.of_nat i))) + 1 / 2 - 1)%R
    with (IZR (b + (- h + (0 + Z.of_nat i)) - 1) + 1 / 2)%R.
  2:{ rewrite minus_IZR. lra. }
  rewrite float64_half by lia.
  rewrite py_mod_half by done. do 3 f_equal; lia.
Qed.

(** X27.  An odd support gives no indices.  For grid size [N >= 1],
    spacing [dx > 0] and an odd [supp = 2 h + 1], let [b] be the entry of
    [ind_Aux] for the coordinate [p], the floor of the float64 value of
    [p/dx + 1].  Whenever [|b| + supp < 2^52],
    [give_1D_NonZero_Delta_Indices] returns for [p] the [supp] values
    [(b + k - 1) mod N + 1/2] for [k = -h, ..., h]: every entry is an
    integer plus one half, and none is an integer. *)
Theorem give_1D_NonZero_Delta_Indices_odd_support
    (lagPts_j : loc) (N : Z) (dx : R) (supp : Z) (ps : list R) (w : world) :
  heap w !! lagPts_j = Some (FloatArr (Arr1 ps)) →
  (1 ≤ N < 2 ^ 52)%Z → (0 < dx)%R → (1 ≤ supp)%Z → Z.Odd supp →
  Forall (fun p => Z.abs (lower_left dx p) + supp < 2 ^ 52)%Z ps →
  ∃ rows : list (list R),
    wp (give_1D_NonZero_Delta_Indices lagPts_j N dx supp) w
       (returns_new w (FloatArr (Arr2 (Z.to_nat supp) rows))) ∧
    rows = (fun p => (fun k => IZR ((lower_left dx p + k - 1) `mod` N)
                               + 1 / 2)%R
                       <$> seqZ (- (supp `div` 2)) supp) <$> ps ∧
    Forall (Forall (fun t => ∀ i : Z, t ≠ IZR i)) rows.
Proof.
  intros Hp HN _ Hsupp Hodd Hb.
  assert (Hrows : index_row N dx supp <$> ps
                  = (fun p => (fun k => IZR ((lower_left dx p + k - 1) `mod` N)
                                         + 1 / 2)%R
                                <$> seqZ (- (supp `div` 2)) supp) <$> ps).
  { apply list_fmap_ext. intros i p Hi. apply index_row_odd; [lia..|done|].
    by eapply (Forall_lookup_1 _ _ _ _ Hb). }
  exists (index_row N dx supp <$> ps). split_and!.
  - apply give_1D_NonZero_Delta_Indices_spec; [done|lia].
  - done.
  - rewrite Hrows. apply Forall_fmap, Forall_true. intros p. simpl.
    apply Forall_fmap, Forall_true. intros k. simpl. intros i Heq.
    assert (H2 : (2 * IZR ((lower_left dx p + k - 1) `mod` N) + 1
                  = 2 * IZR i)%R) by lra.
    rewrite <-!mult_IZR, <-plus_IZR in H2. apply eq_IZR in H2. lia.
Qed.

Lemma give_1D_NonZero_Delta_Indices_odd_support_witness :
  let ps := [0%R] in
  let w := World [FloatArr (Arr1 ps)] ∅ [] in
  ∃ rows : list (list R),
    wp (give_1D_NonZero_Delta_Indices 0 4 1 3) w
       (returns_new w (FloatArr (Arr2 (Z.to_nat 3) rows))) ∧
    rows = (fun p => (fun k => IZR ((lower_left 1 p + k - 1) `mod` 4)
                               + 1 / 2)%R
                       <$> seqZ (- (3 `div` 2)) 3) <$> ps ∧
    Forall (Forall (fun t => ∀ i : Z, t ≠ IZR i)) rows.
Proof.
  intros ps w.
  apply (give_1D_NonZero_Delta_Indices_odd_support 0 4 1 3 ps w).
  - reflexivity.
  - lia.
  - lra.
  - lia.
  - exists 1%Z. reflexivity.
  - constructor; [|constructor]. rewrite lower_left_0. reflexivity.
Defined.

(* ================================================================== *)
(** ** The interpolation, entry by entry *)

Lemma mapM_total {A B} (f : A -> option B) (g : A -> B) l :
  Forall (fun x => f x = Some (g x)) l → mapM f l = Some (g <$> l).
Proof.
  intros Hl. by apply mapM_Some, Forall2_fmap_r, Forall_Forall2_diag.
Qed.

Lemma mapM_mapM_total {A B} (f : A -> option B) (g : A -> B) rows :
  Forall (Forall (fun x => f x = Some (g x))) rows →
  mapM (mapM f) rows = Some (fmap (M:=list) g <$> rows).
Proof.
  intros Hrows. apply mapM_total.
  eapply Forall_impl; [done|]. intros row. apply mapM_total.
Qed.

Lemma fmap_zip_with2 {A B C D} (g : C -> D) (f : A -> B -> C) a b :
  fmap (M:=list) g <$> zip_with (zip_with f) a b
  = zip_with (zip_with (fun x y => g (f x y))) a b.
Proof.
  revert b. induction a as [|x a IH]; intros [|y b]; csimpl; try done.
  f_equal; [apply fmap_zip_with_both|apply IH].
Qed.

Lemma is_mat_Forall {A} r c (P : A -> Prop) rows :
  is_mat r c P (Arr2 c rows) →
  length rows = r ∧ Forall (fun row => length row = c) rows ∧
  Forall (Forall P) rows.
Proof.
  intros (rows' & [= <-] & Hr & Hrows). split_and!; [done| |].
  - eapply Forall_impl; [done|]. by intros ? [? _].
  - eapply Forall_impl; [done|]. by intros ? [_ ?].
Qed.

(** [x[idx]] for a one-dimensional [x] and indices within it. *)
Lemma wp_fancy1_exact (v : list R) c (ir : list (list Z)) w Q :
  Forall (Forall (fun k => 0 ≤ k < Z.of_nat (length v))%Z) ir →
  Q (Arr2 c (fmap (M:=list) (fun k => v !!! Z.to_nat k) <$> ir)) w →
  wp (fancy1 (Arr1 v) (IntArr (Arr2 c ir))) w Q.
Proof.
  intros Hir HQ. unfold fancy1. eapply wp_orraise; [|exact HQ].
  unfold amapM.
  rewrite (mapM_mapM_total _ (fun k => v !!! Z.to_nat k)); [done|].
  eapply Forall_impl; [done|]. intros row Hrow.
  eapply Forall_impl; [done|]. intros k Hk. cbv beta in Hk |- *.
  rewrite pyidx_nonneg by done. simpl.
  apply list_lookup_lookup_total_lt. lia.
Qed.

(** [u[yi, xi]] for indices within the field. *)
Lemma wp_fancy2_exact ny nx (ur : list (list R)) r c
    (yr xr : list (list Z)) w Q :
  is_mat ny nx (fun _ => True) (Arr2 nx ur) →
  is_mat r c (fun k => 0 ≤ k < Z.of_nat ny)%Z (Arr2 c yr) →
  is_mat r c (fun k => 0 ≤ k < Z.of_nat nx)%Z (Arr2 c xr) →
  Q (Arr2 c (zip_with (zip_with (fun i j => entry ur (Z.to_nat i) (Z.to_nat j)))
               yr xr)) w →
  wp (fancy2 (Arr2 nx ur) (IntArr (Arr2 c yr)) (IntArr (Arr2 c xr))) w Q.
Proof.
  intros Hu Hyi Hxi HQ. unfold fancy2.
  destruct (is_mat_Forall _ _ _ _ Hu) as (Hny & Hwu & _).
  pose proof (is_mat_amap2 r c _ _
                (fun p : Z * Z => (0 ≤ p.1 < Z.of_nat ny ∧ 0 ≤ p.2 < Z.of_nat nx)%Z)
                (fun i j => (i, j)) _ _ Hyi Hxi
                (fun i j Hi Hj => conj Hi Hj)) as Hp.
  apply wp_bind. eapply wp_orraise.
  { apply azip_same_shape; [by eapply is_mat_wf..|].
    by rewrite (is_mat_shape _ _ _ _ Hyi), (is_mat_shape _ _ _ _ Hxi). }
  simpl amap2. simpl amap2 in Hp.
  destruct (is_mat_Forall _ _ _ _ Hp) as (_ & _ & Hall).
  eapply wp_orraise; [|exact HQ]. unfold amapM.
  rewrite (mapM_mapM_total _
             (fun p : Z * Z => entry ur (Z.to_nat p.1) (Z.to_nat p.2))).
  - simpl. by rewrite fmap_zip_with2.
  - eapply Forall_impl; [exact Hall|]. intros row Hrow.
    eapply Forall_impl; [exact Hrow|]. intros [i j] [Hi Hj].
    simpl in Hi, Hj. cbv beta. rewrite Hny, !pyidx_nonneg by done. simpl.
    rewrite (list_lookup_lookup_total_lt ur (Z.to_nat i)) by lia. simpl.
    unfold entry. apply list_lookup_lookup_total_lt.
    rewrite (length_lookup_total nx) by (done || lia). lia.
Qed.

(** The sum of the velocity at the nodes of the stencil, weighted with the
    kernel in [x] and in [y], times the area of a cell. *)
Definition weighted_sum (field : list (list R)) (dx dy : R)
    (dX dY : list (list R)) (xi yi : list (list Z)) : list R :=
  (fun row => Rsum row * (dx * dy))%R
    <$> zip_with (zip_with Rmult)
          (zip_with (zip_with Rmult)
             (zip_with (zip_with
                          (fun i j => entry field (Z.to_nat i) (Z.to_nat j)))
                       yi xi)
             dX)
          dY.

Lemma give_Me_Perturbed_Distance_run
    u v dx dy delta_X delta_Y xInds yInds w ur vr dXr dYr xir yir ny nx nb c :
  heap w !! u = Some (FloatArr (Arr2 nx ur)) →
  heap w !! v = Some (FloatArr (Arr2 nx vr)) →
  is_mat ny nx (fun _ => True) (Arr2 nx ur) →
  is_mat ny nx (fun _ => True) (Arr2 nx vr) →
  heap w !! delta_X = Some (FloatArr (Arr2 c dXr)) →
  heap w !! delta_Y = Some (FloatArr (Arr2 c dYr)) →
  is_mat nb c (fun _ => True) (Arr2 c dXr) →
  is_mat nb c (fun _ => True) (Arr2 c dYr) →
  heap w !! xInds = Some (IntArr (Arr2 c xir)) →
  heap w !! yInds = Some (IntArr (Arr2 c yir)) →
  is_mat nb c (fun k => 0 ≤ k < Z.of_nat nx)%Z (Arr2 c xir) →
  is_mat nb c (fun k => 0 ≤ k < Z.of_nat ny)%Z (Arr2 c yir) →
  wp (give_Me_Perturbed_Distance u v dx dy delta_X delta_Y xInds yInds) w
     (fun p w' =>
        grows w w' ∧ length (heap w) ≤ p.1 ∧ length (heap w) ≤ p.2 ∧
        heap w' !! p.1
          = Some (FloatArr (Arr1 (weighted_sum ur dx dy dXr dYr xir yir))) ∧
        heap w' !! p.2
          = Some (FloatArr (Arr1 (weighted_sum vr dx dy dXr dYr xir yir)))).
Proof.
  intros Hu Hv Hua Hva HdX HdY HmX HmY Hxi Hyi Hmxi Hmyi.
  assert (Hgather : ∀ (field : list (list R)),
            is_mat nb c (fun _ : R => True)
              (Arr2 c (zip_with (zip_with
                          (fun i j => entry field (Z.to_nat i) (Z.to_nat j)))
                        yir xir))).
  { intros field.
    apply (is_mat_amap2 nb c _ _ (fun _ : R => True)
             (fun i j => entry field (Z.to_nat i) (Z.to_nat j))
             (Arr2 c yir) (Arr2 c xir) Hmyi Hmxi). done. }
  assert (Hprod : ∀ a b, is_mat nb c (fun _ : R => True) (Arr2 c a) →
            is_mat nb c (fun _ : R => True) (Arr2 c b) →
            azip Rmult (Arr2 c a) (Arr2 c b)
            = Some (Arr2 c (zip_with (zip_with Rmult) a b)) ∧
            is_mat nb c (fun _ : R => True)
                   (Arr2 c (zip_with (zip_with Rmult) a b))).
  { intros a b Ha Hb. split.
    - rewrite azip_same_shape; [done|by eapply is_mat_wf..|].
      by rewrite (is_mat_shape _ _ _ _ Ha), (is_mat_shape _ _ _ _ Hb).
    - apply (is_mat_amap2 nb c _ _ (fun _ : R => True) Rmult _ _ Ha Hb). done. }
  destruct (Hprod _ _ (Hgather ur) HmX) as [Hz1 Hm1].
  destruct (Hprod _ _ Hm1 HmY) as [Hz2 Hm2].
  destruct (Hprod _ _ (Hgather vr) HmX) as [Hz3 Hm3].
  destruct (Hprod _ _ Hm3 HmY) as [Hz4 Hm4].
  unfold give_Me_Perturbed_Distance.
  (* mat_X *)
  apply wp_bind. eapply wp_read; [done|].
  apply wp_bind. eapply wp_load; [done|].
  apply wp_bind. eapply wp_load; [done|]. simpl as_float.
  eapply wp_bind, wp_fancy2_exact; [done..|].
  apply wp_bind. eapply wp_read; [done|]. simpl as_float.
  apply wp_bind. eapply wp_np_binop; [exact Hz1|].
  apply wp_bind. eapply wp_read; [done|]. simpl as_float.
  apply wp_bind. eapply wp_np_binop; [exact Hz2|].
  apply wp_bind, wp_alloc.
  (* mat_Y *)
  apply wp_bind. eapply wp_read; [by apply lookup_extend_old|].
  apply wp_bind. eapply wp_load; [by apply lookup_extend_old|].
  apply wp_bind. eapply wp_load; [by apply lookup_extend_old|]. simpl as_float.
  eapply wp_bind, wp_fancy2_exact; [done..|].
  apply wp_bind. eapply wp_read; [by apply lookup_extend_old|]. simpl as_float.
  apply wp_bind. eapply wp_np_binop; [exact Hz3|].
  apply wp_bind. eapply wp_read; [by apply lookup_extend_old|]. simpl as_float.
  apply wp_bind. eapply wp_np_binop; [exact Hz4|].
  apply wp_bind, wp_alloc. rewrite extend_extend. cbn [app].
  rewrite !length_heap_extend. cbn [length].
  (* move_X *)
  apply wp_bind. eapply wp_read; [apply lookup_extend_new0|]. simpl as_float.
  apply wp_bind. unfold np_sum1. apply wp_ret.
  apply wp_bind, wp_alloc. rewrite extend_extend. cbn [app].
  (* move_Y *)
  apply wp_bind. eapply wp_read; [by rewrite lookup_extend_new|]. simpl as_float.
  apply wp_bind. apply wp_ret.
  apply wp_bind, wp_alloc. rewrite extend_extend. cbn [app].
  apply wp_ret. rewrite !length_heap_extend. cbn [length fst snd].
  split_and!.
  - apply grows_extend.
  - lia.
  - lia.
  - rewrite lookup_extend_new. simpl. do 3 f_equal.
    unfold weighted_sum. by rewrite <-list_fmap_compose.
  - rewrite lookup_extend_new. simpl. do 3 f_equal.
    unfold weighted_sum. by rewrite <-list_fmap_compose.
Qed.

Lemma zip_with_by_index {A B X : Type} `{!Inhabited A, !Inhabited B}
    (f : A -> B -> X) (a : list A) (b : list B) n :
  length a = n → length b = n →
  zip_with f a b = (fun k => f (a !!! k) (b !!! k)) <$> seq 0 n.
Proof.
  intros Ha Hb. apply list_eq. intros i.
  rewrite lookup_zip_with, list_lookup_fmap.
  destruct (decide (i < n)) as [Hi|Hi].
  - rewrite lookup_seq_lt by done. simpl.
    by rewrite (list_lookup_lookup_total_lt a i),
      (list_lookup_lookup_total_lt b i) by lia.
  - rewrite lookup_seq_ge by lia. simpl.
    rewrite (proj2 (lookup_ge_None a i)) by lia. done.
Qed.

Lemma lookup_total_zip_with_gen {A B X : Type}
    `{!Inhabited A, !Inhabited B, !Inhabited X}
    (f : A -> B -> X) (a : list A) (b : list B) i :
  i < length a → i < length b →
  zip_with f a b !!! i = f (a !!! i) (b !!! i).
Proof.
  intros Ha Hb. apply list_lookup_total_correct.
  rewrite lookup_zip_with.
  by rewrite (list_lookup_lookup_total_lt a i),
    (list_lookup_lookup_total_lt b i) by done.
Qed.

Lemma length_weighted_sum field dx dy dX dY xi yi n :
  length dX = n → length dY = n → length xi = n → length yi = n →
  length (weighted_sum field dx dy dX dY xi yi) = n.
Proof. intros. unfold weighted_sum. len. Qed.

(** Entry [i] of the weighted sum. *)
Lemma weighted_sum_entry field dx dy dX dY xi yi nb c i :
  is_mat nb c (fun _ : R => True) (Arr2 c dX) →
  is_mat nb c (fun _ : R => True) (Arr2 c dY) →
  is_mat nb c (fun _ : Z => True) (Arr2 c xi) →
  is_mat nb c (fun _ : Z => True) (Arr2 c yi) →
  i < nb →
  weighted_sum field dx dy dX dY xi yi !!! i
  = (Rsum ((fun k => entry field (Z.to_nat ((yi !!! i) !!! k))
                                 (Z.to_nat ((xi !!! i) !!! k))
                     * entry dX i k * entry dY i k)%R <$> seq 0 c)
     * (dx * dy))%R.
Proof.
  intros HdX HdY Hxi Hyi Hi.
  destruct (is_mat_Forall _ _ _ _ HdX) as (HlX & HwX & _).
  destruct (is_mat_Forall _ _ _ _ HdY) as (HlY & HwY & _).
  destruct (is_mat_Forall _ _ _ _ Hxi) as (Hlx & Hwx & _).
  destruct (is_mat_Forall _ _ _ _ Hyi) as (Hly & Hwy & _).
  assert (HrX : length (dX !!! i) = c)
    by (apply length_lookup_total; [done|lia]).
  assert (HrY : length (dY !!! i) = c)
    by (apply length_lookup_total; [done|lia]).
  assert (Hrx : length (xi !!! i) = c).
  { eapply (Forall_lookup_1 _ _ i) in Hwx; [done|].
    apply list_lookup_lookup_total_lt. lia. }
  assert (Hry : length (yi !!! i) = c).
  { eapply (Forall_lookup_1 _ _ i) in Hwy; [done|].
    apply list_lookup_lookup_total_lt. lia. }
  unfold weighted_sum.
  match goal with
  | |- (?f <$> ?l) !!! i = _ => rewrite (list_lookup_total_fmap f l i) by len
  end.
  repeat match goal with
    | |- context [zip_with ?f ?a ?b !!! ?j] =>
        rewrite (lookup_total_zip_with_gen f a b j) by len
    end.
  f_equal. f_equal.
  rewrite (zip_with_by_index Rmult _ (dY !!! i) c) by len.
  apply list_fmap_ext. intros j k Hk. apply lookup_seq in Hk as [-> Hk].
  simpl. unfold entry.
  repeat match goal with
    | |- context [zip_with ?f ?a ?b !!! ?j] =>
        rewrite (lookup_total_zip_with_gen f a b j) by len
    end.
  done.
Qed.

(** X28.  The integral of the interpolation.  For velocity fields of shape
    [(ny, nx)], kernel arrays of shape [(nb, c)] and index arrays of that
    shape with y-indices below [ny] and x-indices below [nx],
    [give_Me_Perturbed_Distance] returns two new one-dimensional arrays of
    [nb] entries: entry [i] of [move_X] is
    [dx dy * sum over k of u[yInds[i,k], xInds[i,k]] * delta_X[i,k] *
    delta_Y[i,k]], the y-index selecting the row of [u], and entry [i] of
    [move_Y] is the same sum over [v]. *)
Theorem give_Me_Perturbed_Distance_integral
    (u v : loc) (dx dy : R) (delta_X delta_Y xInds yInds : loc) (w : world)
    (ur vr dXr dYr : list (list R)) (xir yir : list (list Z))
    (ny nx nb c : nat) :
  heap w !! u = Some (FloatArr (Arr2 nx ur)) →
  heap w !! v = Some (FloatArr (Arr2 nx vr)) →
  is_mat ny nx (fun _ => True) (Arr2 nx ur) →
  is_mat ny nx (fun _ => True) (Arr2 nx vr) →
  heap w !! delta_X = Some (FloatArr (Arr2 c dXr)) →
  heap w !! delta_Y = Some (FloatArr (Arr2 c dYr)) →
  is_mat nb c (fun _ => True) (Arr2 c dXr) →
  is_mat nb c (fun _ => True) (Arr2 c dYr) →
  heap w !! xInds = Some (IntArr (Arr2 c xir)) →
  heap w !! yInds = Some (IntArr (Arr2 c yir)) →
  is_mat nb c (fun k => 0 ≤ k < Z.of_nat nx)%Z (Arr2 c xir) →
  is_mat nb c (fun k => 0 ≤ k < Z.of_nat ny)%Z (Arr2 c yir) →
  ∃ mx my : list R,
    wp (give_Me_Perturbed_Distance u v dx dy delta_X delta_Y xInds yInds) w
       (fun p w' =>
          grows w w' ∧ heap w !! p.1 = None ∧ heap w !! p.2 = None ∧
          heap w' !! p.1 = Some (FloatArr (Arr1 mx)) ∧
          heap w' !! p.2 = Some (FloatArr (Arr1 my))) ∧
    length mx = nb ∧ length my = nb ∧
    ∀ i, i < nb →
      mx !!! i
      = (Rsum ((fun k => entry ur (Z.to_nat ((yir !!! i) !!! k))
                                  (Z.to_nat ((xir !!! i) !!! k))
                         * entry dXr i k * entry dYr i k)%R <$> seq 0 c)
         * (dx * dy))%R ∧
      my !!! i
      = (Rsum ((fun k => entry vr (Z.to_nat ((yir !!! i) !!! k))
                                  (Z.to_nat ((xir !!! i) !!! k))
                         * entry dXr i k * entry dYr i k)%R <$> seq 0 c)
         * (dx * dy))%R.
Proof.
  intros Hu Hv Hua Hva HdX HdY HmX HmY Hxi Hyi Hmxi Hmyi.
  assert (Hxi' : is_mat nb c (fun _ : Z => True) (Arr2 c xir))
    by (eapply is_mat_weaken; [exact Hmxi|done]).
  assert (Hyi' : is_mat nb c (fun _ : Z => True) (Arr2 c yir))
    by (eapply is_mat_weaken; [exact Hmyi|done]).
  destruct (is_mat_Forall _ _ _ _ HmX) as (HlX & _ & _).
  destruct (is_mat_Forall _ _ _ _ HmY) as (HlY & _ & _).
  destruct (is_mat_Forall _ _ _ _ Hxi') as (Hlx & _ & _).
  destruct (is_mat_Forall _ _ _ _ Hyi') as (Hly & _ & _).
  exists (weighted_sum ur dx dy dXr dYr xir yir),
         (weighted_sum vr dx dy dXr dYr xir yir).
  split_and!.
  - eapply wp_mono.
    { by apply (give_Me_Perturbed_Distance_run u v dx dy delta_X delta_Y
                  xInds yInds w ur vr dXr dYr xir yir ny nx nb c). }
    intros [l1 l2] w' (Hg & Hl1 & Hl2 & H1 & H2). cbn [fst snd] in *.
    split_and!; [done|by apply lookup_ge_None|by apply lookup_ge_None|done..].
  - by apply length_weighted_sum.
  - by apply length_weighted_sum.
  - intros i Hi. split; by apply (weighted_sum_entry _ _ _ _ _ _ _ nb c).
Qed.

Lemma give_Me_Perturbed_Distance_integral_witness :
  let ur := [[1; 2]; [3; 4]]%R in
  let dr := [[1; 1]]%R in
  let ir := [[0; 1]]%Z in
  let w := World [FloatArr (Arr2 2 ur); FloatArr (Arr2 2 dr);
                  IntArr (Arr2 2 ir)] ∅ [] in
  ∃ mx my : list R,
    wp (give_Me_Perturbed_Distance 0 0 1 1 1 1 2 2) w
       (fun p w' =>
          grows w w' ∧ heap w !! p.1 = None ∧ heap w !! p.2 = None ∧
          heap w' !! p.1 = Some (FloatArr (Arr1 mx)) ∧
          heap w' !! p.2 = Some (FloatArr (Arr1 my))) ∧
    length mx = 1 ∧ length my = 1 ∧
    ∀ i, i < 1 →
      mx !!! i
      = (Rsum ((fun k => entry ur (Z.to_nat ((ir !!! i) !!! k))
                                  (Z.to_nat ((ir !!! i) !!! k))
                         * entry dr i k * entry dr i k)%R <$> seq 0 2)
         * (1 * 1))%R ∧
      my !!! i
      = (Rsum ((fun k => entry ur (Z.to_nat ((ir !!! i) !!! k))
                                  (Z.to_nat ((ir !!! i) !!! k))
                         * entry dr i k * entry dr i k)%R <$> seq 0 2)
         * (1 * 1))%R.
Proof.
  intros ur dr ir w.
  assert (Hu : is_mat 2 2 (fun _ : R => True) (Arr2 2 ur)).
  { exists ur. split_and!; [reflexivity..|]. repeat constructor. }
  assert (Hd : is_mat 1 2 (fun _ : R => True) (Arr2 2 dr)).
  { exists dr. split_and!; [reflexivity..|]. repeat constructor. }
  assert (Hi : is_mat 1 2 (fun k => 0 ≤ k < Z.of_nat 2)%Z (Arr2 2 ir)).
  { exists ir. split_and!; [reflexivity..|]. repeat constructor; lia. }
  apply (give_Me_Perturbed_Distance_integral 0 0 1 1 1 1 2 2 w
           ur ur dr dr ir ir 2 2 1 2).
  - reflexivity.
  - reflexivity.
  - exact Hu.
  - exact Hu.
  - reflexivity.
  - reflexivity.
  - exact Hd.
  - exact Hd.
  - reflexivity.
  - reflexivity.
  - exact Hi.
  - exact Hi.
Defined.

(** *** The transport step on a field without a second column *)

(** X30.  The transport step needs two columns.  On a concentration field
    with at most one column, a square field of side [1] or [0] among them,
    [please_Update_Adv_Diff_Concentration] raises [IndexError], whatever the
    other arguments are: its first statement is [D(C,dx,'x')], which reads
    the column [C[:,1]].  By then the array of zeros of [D] has been
    allocated; nothing else has happened. *)
Theorem please_Update_Adv_Diff_Concentration_raises_on_thin_field
    (C : loc) (dt dx dy : R) (uX uY : loc) (k : R)
    (c : nat) (rows : list (list R)) (w : world) :
  heap w !! C = Some (FloatArr (Arr2 c rows)) → c ≤ 1 →
  please_Update_Adv_Diff_Concentration C dt dx dy uX uY k w
  = (Raise IndexError, extend w [np_zeros (length rows) (length rows)]).
Proof.
  intros HC Hc.
  assert (HC' : heap (extend w [np_zeros (length rows) (length rows)]) !! C
                = Some (FloatArr (Arr2 c rows)))
    by by apply lookup_extend_old.
  unfold please_Update_Adv_Diff_Concentration.
  erewrite bind_raise_eq; [reflexivity|]. unfold D.
  run_ret ltac:(eapply wp_read; [exact HC|]).
  run_ret ltac:(eapply wp_alloc).
  rewrite bool_decide_eq_true_2 by done.
  erewrite bind_raise_eq; [reflexivity|].
  erewrite bind_raise_eq; [reflexivity|].
  eapply column_raises; [exact HC'|by apply pyidx_1_None].
Qed.

Lemma please_Update_Adv_Diff_Concentration_raises_on_thin_field_witness :
  let w := World [FloatArr (Arr2 0 [])] ∅ [] in
  please_Update_Adv_Diff_Concentration 0 1 1 1 0 0 1 w
  = (Raise IndexError, extend w [np_zeros 0 0]).
Proof.
  intros w.
  apply (please_Update_Adv_Diff_Concentration_raises_on_thin_field
           0 1 1 1 0 0 1 0 [] w).
  - reflexivity.
  - lia.
Defined.
